(** * Graph fuser ([torch/csrc/jit/passes/graph_fuser.cpp])

    A shallow embedding of the fusion pass and of the part of the JIT IR it
    consumes.  Pointers ([Node*], [Value*], [Graph*]) are handles into a
    heap of finite maps; the fuser threads this heap together with its own
    [topological_index] through an error-and-state monad whose failures are
    the C++ exceptions raised by [JIT_ASSERT], [expect<T>] and [at]. *)

From Stdlib Require Import ZArith Sorted.
From stdpp Require Import gmap strings list fin_maps.

Open Scope string_scope.
Open Scope list_scope.
Open Scope Z_scope.
Open Scope nat_scope.

(** ** Node kinds *)

Inductive NodeKind : Set :=
  | k__and__ | k__lshift__ | k__or__ | k__rshift__ | k__xor__
  | kabs | kacos | kadd | kasin | katan | katan2 | kceil | kclamp | kcos
  | kcosh | kdiv | keq | kexp | kfloor | kfmod | kfrac | kge | kgt | kle
  | klerp | klgamma | klog | klog1p | klt | kmax | kmin | kmul | kne | kneg
  | kones | kpow | kreciprocal | kremainder | kround | krsqrt | ksigmoid
  | ksin | ksinh | ksqrt | ksub | ktan | ktanh | ktrunc | kzeros
  | k_sigmoid_backward | k_tanh_backward
  | kFusionGroup | kcat | ksplit | kParam | kReturn
  | kOther (tag : nat).

#[global] Instance NodeKind_eq_dec : EqDecision NodeKind.
Proof. solve_decision. Defined.

(** ** Types of values *)

Inductive ScalarType : Set :=
  | kByte | kChar | kShort | kInt | kLong | kHalf | kFloat | kDouble.

#[global] Instance ScalarType_eq_dec : EqDecision ScalarType.
Proof. solve_decision. Defined.

Record TensorType : Set := mkTensorType {
  scalarType : ScalarType;
  device : Z;
  sizes : list Z;
  strides : list Z }.

#[global] Instance TensorType_eq_dec : EqDecision TensorType.
Proof. solve_decision. Defined.

(** Modelled from the spec: the IR's [Type] hierarchy is not part of the
    pass; a type is a tensor type or something else the pass cannot look
    into. *)
Inductive IRType : Set :=
  | TensorT (tt : TensorType)
  | OpaqueT (tag : nat).

#[global] Instance IRType_eq_dec : EqDecision IRType.
Proof. solve_decision. Defined.

(** Modelled from the spec: [TensorType::withSizesStrides] keeps element
    kind and device and replaces the geometry. *)
Definition withSizesStrides (tt : TensorType) (sz st : list Z) : TensorType :=
  {| scalarType := scalarType tt; device := device tt;
     sizes := sz; strides := st |}.

(** Modelled from the spec: the row-major strides of a size vector, the
    innermost dimension having stride one. *)
Fixpoint contiguousStridesOf (sz : list Z) : list Z :=
  match sz with
  | [] => []
  | _ :: rest =>
      match contiguousStridesOf rest, rest with
      | s :: tl, d :: _ => (s * d)%Z :: s :: tl
      | _, _ => [1%Z]
      end
  end.

(** Modelled from the spec: [TensorType::contiguous], the same tensor type
    with contiguous strides. *)
Definition contiguous (tt : TensorType) : TensorType :=
  withSizesStrides tt (sizes tt) (contiguousStridesOf (sizes tt)).

(** ** The heap of IR objects *)

Inductive AttrValue : Set :=
  | AInt (z : Z)
  | AInts (zs : list Z)
  | AGraph (g : nat).

#[global] Instance AttrValue_eq_dec : EqDecision AttrValue.
Proof. solve_decision. Defined.

Definition kSubgraph : string := "Subgraph".

(** Modelled from the spec: a [Value] knows its producing node and carries
    an optional type. *)
Record Value : Set := mkValue {
  v_node : nat;
  v_type : option IRType }.

(** Modelled from the spec: a [Node] has a kind, ordered inputs and outputs
    (value handles), a stage, attributes, and the graph that owns it. *)
Record Node : Set := mkNode {
  n_kind : NodeKind;
  n_inputs : list nat;
  n_outputs : list nat;
  n_stage : nat;
  n_attrs : list (string * AttrValue);
  n_graph : nat }.

(** Modelled from the spec: a [Graph] is its parameter node (whose outputs
    are the graph inputs), its return node (whose inputs are the graph
    outputs), the list of its nodes in topological order, and the stage
    given to nodes created in it. *)
Record Graph : Set := mkGraph {
  g_param : nat;
  g_return : nat;
  g_nodes : list nat;
  g_stage : nat }.

(** The state of a [GraphFuser]: the heap, the handle of the graph being
    rewritten and the fuser's [topological_index]. *)
Record State : Type := mkState {
  nodes : gmap nat Node;
  values : gmap nat Value;
  graphs : gmap nat Graph;
  next : nat;
  graph : nat;
  topological_index : gmap nat nat }.

Definition set_nodes (f : gmap nat Node → gmap nat Node) (st : State) : State :=
  mkState (f (nodes st)) (values st) (graphs st) (next st) (graph st)
          (topological_index st).
Definition set_values (f : gmap nat Value → gmap nat Value) (st : State) : State :=
  mkState (nodes st) (f (values st)) (graphs st) (next st) (graph st)
          (topological_index st).
Definition set_graphs (f : gmap nat Graph → gmap nat Graph) (st : State) : State :=
  mkState (nodes st) (values st) (f (graphs st)) (next st) (graph st)
          (topological_index st).
Definition set_next (k : nat) (st : State) : State :=
  mkState (nodes st) (values st) (graphs st) k (graph st)
          (topological_index st).
Definition set_index (f : gmap nat nat → gmap nat nat) (st : State) : State :=
  mkState (nodes st) (values st) (graphs st) (next st) (graph st)
          (f (topological_index st)).

(** ** The monad of the pass *)

Inductive Err : Set :=
  | JitAssert (what : string)
  | OutOfRange (what : string)
  | NullDeref (what : string)
  | OutOfFuel.

Inductive Res (A : Type) : Type :=
  | Ok (a : A) (st : State)
  | Raise (e : Err).
Arguments Ok {A} a st.
Arguments Raise {A} e.

Definition M (A : Type) : Type := State → Res A.

Definition ret {A} (a : A) : M A := λ st, Ok a st.
Definition bind {A B} (m : M A) (k : A → M B) : M B :=
  λ st, match m st with
        | Ok a st' => k a st'
        | Raise e => Raise e
        end.
Definition raise {A} (e : Err) : M A := λ _, Raise e.
Definition get : M State := λ st, Ok st st.
Definition modify (f : State → State) : M unit := λ st, Ok tt (f st).

Declare Scope fuser_scope.
Delimit Scope fuser_scope with fuser.
Notation "'let!' x ':=' m 'in' k" := (bind m (λ x, k))
  (at level 10, x name, m at level 100, k at level 200) : fuser_scope.
Notation "'let!' ' p ':=' m 'in' k" := (bind m (λ p, k))
  (at level 10, p pattern, m at level 100, k at level 200) : fuser_scope.
Notation "m >> k" := (bind m (λ _, k))
  (at level 100, k at level 200, right associativity) : fuser_scope.
Open Scope fuser_scope.

Definition JIT_ASSERT (b : bool) (what : string) : M unit :=
  if b then ret tt else raise (JitAssert what).

Definition liftOpt {A} (o : option A) (e : Err) : M A :=
  match o with Some a => ret a | None => raise e end.

Fixpoint forM {A} (l : list A) (f : A → M unit) : M unit :=
  match l with
  | [] => ret tt
  | x :: l' => f x >> forM l' f
  end.

Fixpoint mapM {A B} (f : A → M B) (l : list A) : M (list B) :=
  match l with
  | [] => ret []
  | x :: l' => let! y := f x in let! ys := mapM f l' in ret (y :: ys)
  end.

(** ** The IR adapter

    Modelled from the spec: the container operations of section 6 (nodes,
    values, uses, graphs).  They live outside [graph_fuser.cpp]; each
    definition below is the capability the pass consumes, by its C++
    name. *)

Definition getNode (n : nat) : M Node := λ st,
  match nodes st !! n with
  | Some nd => Ok nd st
  | None => Raise (NullDeref "Node")
  end.
Definition getValue (v : nat) : M Value := λ st,
  match values st !! v with
  | Some vl => Ok vl st
  | None => Raise (NullDeref "Value")
  end.
Definition getGraph (g : nat) : M Graph := λ st,
  match graphs st !! g with
  | Some G => Ok G st
  | None => Raise (NullDeref "Graph")
  end.

Definition putNode (n : nat) (nd : Node) : M unit :=
  modify (set_nodes <[n := nd]>).
Definition putValue (v : nat) (vl : Value) : M unit :=
  modify (set_values <[v := vl]>).
Definition putGraph (g : nat) (G : Graph) : M unit :=
  modify (set_graphs <[g := G]>).

(** A fresh handle ([new]). *)
Definition fresh : M nat := λ st, Ok (next st) (set_next (S (next st)) st).

Definition with_inputs (ins : list nat) (nd : Node) : Node :=
  mkNode (n_kind nd) ins (n_outputs nd) (n_stage nd) (n_attrs nd) (n_graph nd).
Definition with_outputs (outs : list nat) (nd : Node) : Node :=
  mkNode (n_kind nd) (n_inputs nd) outs (n_stage nd) (n_attrs nd) (n_graph nd).
Definition with_attrs (a : list (string * AttrValue)) (nd : Node) : Node :=
  mkNode (n_kind nd) (n_inputs nd) (n_outputs nd) (n_stage nd) a (n_graph nd).
Definition with_nodes (l : list nat) (G : Graph) : Graph :=
  mkGraph (g_param G) (g_return G) l (g_stage G).
Definition with_stage (s : nat) (G : Graph) : Graph :=
  mkGraph (g_param G) (g_return G) (g_nodes G) s.
Definition with_type (t : option IRType) (vl : Value) : Value :=
  mkValue (v_node vl) t.

(** *** Node *)

Definition kind (n : nat) : M NodeKind := let! nd := getNode n in ret (n_kind nd).
Definition inputs (n : nat) : M (list nat) := let! nd := getNode n in ret (n_inputs nd).
Definition outputs (n : nat) : M (list nat) := let! nd := getNode n in ret (n_outputs nd).
Definition stage (n : nat) : M nat := let! nd := getNode n in ret (n_stage nd).

(** [Node::output()] and [Node::input()] assert that there is exactly
    one. *)
Definition output (n : nat) : M nat :=
  let! outs := outputs n in
  match outs with
  | [o] => ret o
  | _ => raise (JitAssert "outputs_.size() == 1")
  end.
Definition input (n : nat) : M nat :=
  let! ins := inputs n in
  match ins with
  | [i] => ret i
  | _ => raise (JitAssert "inputs_.size() == 1")
  end.
Definition input_at (n i : nat) : M nat :=
  let! ins := inputs n in liftOpt (ins !! i) (OutOfRange "inputs_.at(i)").

Definition addOutput (n : nat) : M nat :=
  let! nd := getNode n in
  let! v := fresh in
  putValue v (mkValue n None) >>
  putNode n (with_outputs (n_outputs nd ++ [v]) nd) >>
  ret v.

Definition addInput (n v : nat) : M nat :=
  let! nd := getNode n in
  let! _ := getValue v in
  putNode n (with_inputs (n_inputs nd ++ [v]) nd) >>
  ret v.

Definition removeInput (n i : nat) : M unit :=
  let! nd := getNode n in
  let! _ := liftOpt (n_inputs nd !! i) (OutOfRange "removeInput") in
  putNode n (with_inputs (delete i (n_inputs nd)) nd).

Definition copyAttributes (n from : nat) : M unit :=
  let! nd := getNode n in
  let! src := getNode from in
  putNode n (with_attrs (n_attrs src) nd).

(** [n->g(kSubgraph)]: the graph attribute, an exception when absent. *)
Fixpoint find_attr (name : string) (a : list (string * AttrValue)) : option AttrValue :=
  match a with
  | [] => None
  | (k, v) :: a' => if decide (k = name) then Some v else find_attr name a'
  end.
Definition g_attr (n : nat) (name : string) : M nat :=
  let! nd := getNode n in
  match find_attr name (n_attrs nd) with
  | Some (AGraph g) => ret g
  | _ => raise (OutOfRange "attribute")
  end.

(** *** Value *)

Definition node_of (v : nat) : M nat := let! vl := getValue v in ret (v_node vl).
Definition hasType (v : nat) : M bool := let! vl := getValue v in ret (bool_decide (v_type vl ≠ None)).
Definition typeOption (v : nat) : M (option IRType) := let! vl := getValue v in ret (v_type vl).
Definition type (v : nat) : M IRType :=
  let! vl := getValue v in
  match v_type vl with
  | Some t => ret t
  | None => raise (JitAssert "type_ != nullptr")
  end.
Definition setType (v : nat) (t : option IRType) : M unit :=
  let! vl := getValue v in putValue v (with_type t vl).
Definition copyMetadata (v from : nat) : M unit :=
  let! t := typeOption from in
  match t with
  | Some _ => setType v t
  | None => let! _ := getValue v in ret tt
  end.

(** [Value::stage()]: the stage of the producing node. *)
Definition value_stage (v : nat) : M nat := let! n := node_of v in stage n.

(** [Value::offset()]: the position among the outputs of its node. *)
Fixpoint index_of (v : nat) (l : list nat) : option nat :=
  match l with
  | [] => None
  | x :: l' => if decide (x = v) then Some 0 else S <$> index_of v l'
  end.
Definition offset (v : nat) : M nat :=
  let! n := node_of v in
  let! outs := outputs n in
  liftOpt (index_of v outs) (NullDeref "offset").

(** [Type::cast<TensorType>()] gives null on another type,
    [Type::expect<TensorType>()] raises. *)
Definition cast_TensorType (t : IRType) : option TensorType :=
  match t with TensorT ty => Some ty | _ => None end.
Definition expect_TensorType (t : IRType) : M TensorType :=
  liftOpt (cast_TensorType t) (JitAssert "expect<TensorType>").

(** Uses.  A use is a user node and the input position at which the value
    occurs; the uses of a value are read off the inputs of the nodes alive
    in the heap. *)
Record Use : Set := mkUse { user : nat; use_offset : nat }.

Fixpoint uses_from (v n i : nat) (ins : list nat) : list Use :=
  match ins with
  | [] => []
  | x :: ins' =>
      if decide (x = v) then mkUse n i :: uses_from v n (S i) ins'
      else uses_from v n (S i) ins'
  end.
Definition uses_of (st : State) (v : nat) : list Use :=
  flat_map (λ p, uses_from v (fst p) 0 (n_inputs (snd p))) (map_to_list (nodes st)).
Definition uses (v : nat) : M (list Use) :=
  let! _ := getValue v in λ st, Ok (uses_of st v) st.

Definition replace_in (v new : nat) (ins : list nat) : list nat :=
  (λ x, if decide (x = v) then new else x) <$> ins.
Definition replaceAllUsesWith (v new : nat) : M unit :=
  let! _ := getValue v in
  let! _ := getValue new in
  modify (set_nodes (fmap (λ nd, with_inputs (replace_in v new (n_inputs nd)) nd))).

Fixpoint replaceAllUsesWith_each (outs news : list nat) : M unit :=
  match outs, news with
  | o :: outs', w :: news' => replaceAllUsesWith o w >> replaceAllUsesWith_each outs' news'
  | _, _ => ret tt
  end.
(** [Node::replaceAllUsesWith] with a node argument: output by output. *)
Definition replaceAllUsesWith_node (n m : nat) : M unit :=
  let! outs := outputs n in
  let! news := outputs m in
  JIT_ASSERT (bool_decide (length outs = length news)) "outputs().size() == n->outputs().size()" >>
  replaceAllUsesWith_each outs news.

(** [Node::eraseOutput(i)]: the output must be unused. *)
Definition eraseOutput (n i : nat) : M unit :=
  let! nd := getNode n in
  let! o := liftOpt (n_outputs nd !! i) (OutOfRange "eraseOutput") in
  let! us := uses o in
  JIT_ASSERT (bool_decide (us = [])) "outputs_[i]->uses().empty()" >>
  modify (set_values (delete o)) >>
  putNode n (with_outputs (delete i (n_outputs nd)) nd).

Fixpoint eraseOutputs_down (n k : nat) : M unit :=
  match k with
  | 0 => ret tt
  | S k' => eraseOutput n k' >> eraseOutputs_down n k'
  end.

Fixpoint remove_id (n : nat) (l : list nat) : list nat :=
  match l with
  | [] => []
  | x :: l' => if decide (x = n) then l' else x :: remove_id n l'
  end.

(** [Node::destroy()]: erase the outputs from the last one down, drop the
    inputs, unlink the node from its graph and free it. *)
Definition destroy (n : nat) : M unit :=
  let! nd := getNode n in
  eraseOutputs_down n (length (n_outputs nd)) >>
  let! G := getGraph (n_graph nd) in
  putGraph (n_graph nd) (with_nodes (remove_id n (g_nodes G)) G) >>
  modify (set_nodes (delete n)).

(** [n->insertBefore(m)] and [n->insertAfter(m)]: [m] is in the node list
    of its graph. *)
Fixpoint insert_before (n m : nat) (l : list nat) : option (list nat) :=
  match l with
  | [] => None
  | x :: l' =>
      if decide (x = m) then Some (n :: x :: l')
      else cons x <$> insert_before n m l'
  end.
Fixpoint insert_after (n m : nat) (l : list nat) : option (list nat) :=
  match l with
  | [] => None
  | x :: l' =>
      if decide (x = m) then Some (x :: n :: l')
      else cons x <$> insert_after n m l'
  end.
Definition insertBefore (n m : nat) : M unit :=
  let! _ := getNode n in
  let! md := getNode m in
  let! G := getGraph (n_graph md) in
  let! l := liftOpt (insert_before n m (g_nodes G)) (JitAssert "inGraphList()") in
  putGraph (n_graph md) (with_nodes l G).
Definition Node_insertAfter (n m : nat) : M unit :=
  let! _ := getNode n in
  let! md := getNode m in
  let! G := getGraph (n_graph md) in
  let! l := liftOpt (insert_after n m (g_nodes G)) (JitAssert "inGraphList()") in
  putGraph (n_graph md) (with_nodes l G).

(** *** Graph *)

Fixpoint addOutputs (n k : nat) : M unit :=
  match k with
  | 0 => ret tt
  | S k' => addOutput n >> addOutputs n k'
  end.

(** [Graph::create(kind, num_outputs)]: a node of the graph's current
    stage, not yet in the node list. *)
Definition create (g : nat) (k : NodeKind) (num_outputs : nat) : M nat :=
  let! G := getGraph g in
  let! n := fresh in
  putNode n (mkNode k [] [] (g_stage G) [] g) >>
  addOutputs n num_outputs >>
  ret n.

(** [Graph::createClone(n, value_map)]: same kind, one output per output of
    [n] with its metadata, the attributes of [n], the inputs of [n] through
    [value_map]. *)
Definition createClone (g n : nat) (value_map : nat → M nat) : M nat :=
  let! nd := getNode n in
  let! r := create g (n_kind nd) 0 in
  forM (n_outputs nd) (λ o, let! v := addOutput r in copyMetadata v o) >>
  copyAttributes r n >>
  forM (n_inputs nd) (λ i, let! v := value_map i in let! _ := addInput r v in ret tt) >>
  ret r.

(** [std::make_shared<Graph>()]: an empty graph with its return and
    parameter nodes. *)
Definition newGraph : M nat :=
  let! g := fresh in
  putGraph g (mkGraph 0 0 [] 0) >>
  let! r := create g kReturn 0 in
  let! p := create g kParam 0 in
  putGraph g (mkGraph p r [] 0) >>
  ret g.

(** [Graph::createFusionGroup()]: a node without outputs that owns a new
    empty subgraph. *)
Definition createFusionGroup (g : nat) : M nat :=
  let! n := create g kFusionGroup 0 in
  let! sg := newGraph in
  let! nd := getNode n in
  putNode n (with_attrs ((kSubgraph, AGraph sg) :: n_attrs nd) nd) >>
  ret n.

Definition graph_inputs (g : nat) : M (list nat) :=
  let! G := getGraph g in outputs (g_param G).
Definition graph_outputs (g : nat) : M (list nat) :=
  let! G := getGraph g in inputs (g_return G).
Definition graph_nodes (g : nat) : M (list nat) :=
  let! G := getGraph g in ret (g_nodes G).
Definition return_node (g : nat) : M nat :=
  let! G := getGraph g in ret (g_return G).
Definition Graph_addInput (g : nat) : M nat :=
  let! G := getGraph g in addOutput (g_param G).
Definition registerOutput (g v : nat) : M unit :=
  let! G := getGraph g in let! _ := addInput (g_return G) v in ret tt.
Definition eraseInput (g i : nat) : M unit :=
  let! G := getGraph g in eraseOutput (g_param G) i.
Definition prependNode (g n : nat) : M nat :=
  let! _ := getNode n in
  let! G := getGraph g in
  putGraph g (with_nodes (n :: g_nodes G) G) >>
  ret n.
Definition graph_stage (g : nat) : M nat :=
  let! G := getGraph g in ret (g_stage G).
Definition setStage (g s : nat) : M unit :=
  let! G := getGraph g in putGraph g (with_stage s G).

(** ** The op classifier *)

Definition simple_mappable : list NodeKind :=
  [ k__and__; k__lshift__; k__or__; k__rshift__; k__xor__; kabs; kacos;
    kadd; kasin; katan; katan2; kceil; kclamp; kcos; kcosh; kdiv; keq; kexp;
    kfloor; kfmod; kfrac; kge; kgt; kle; klerp; klgamma; klog; klog1p; klt;
    kmax; kmin; kmul; kne; kneg; kones; kpow; kreciprocal; kremainder;
    kround; krsqrt; ksigmoid; ksin; ksinh; ksqrt; ksub; ktan; ktanh; ktrunc;
    kzeros; k_sigmoid_backward; k_tanh_backward ].

Definition isSimpleMap (node : nat) : M bool :=
  let! k := kind node in
  if bool_decide (k ∈ simple_mappable) then
    if bool_decide (k = kmin) || bool_decide (k = kmax) then
      let! ins := inputs node in
      ret (bool_decide (length ins = 2))
    else ret true
  else ret false.

(** ** The fuser *)

(** [topological_index[n]] as an rvalue: a missing key is inserted with
    value zero. *)
Definition index_at (n : nat) : M nat := λ st,
  match topological_index st !! n with
  | Some i => Ok i st
  | None => Ok 0 (set_index <[n := 0]> st)
  end.
Definition index_set (n i : nat) : M unit := modify (set_index <[n := i]>).
Definition index_count (n : nat) : M nat := λ st,
  Ok (match topological_index st !! n with Some _ => 1 | None => 0 end) st.

Definition isCuda (node : nat) : M bool :=
  let! o := output node in
  let! t := type o in
  let! ty := expect_TensorType t in
  ret (bool_decide (device ty ≠ (-1)%Z)).

Definition hasFloatType (node : nat) : M bool :=
  let! h := hasType node in
  if negb h then ret false
  else
    let! t := type node in
    match cast_TensorType t with
    | Some ty => ret (bool_decide (scalarType ty = kFloat))
    | None => ret false
    end.

Fixpoint all_hasFloatType (l : list nat) : M bool :=
  match l with
  | [] => ret true
  | o :: l' =>
      let! b := hasFloatType o in
      if negb b then ret false else all_hasFloatType l'
  end.

Definition allFloatIO (node : nat) : M bool :=
  let! outs := outputs node in
  let! b := all_hasFloatType outs in
  if negb b then ret false
  else
    let! ins := inputs node in
    all_hasFloatType ins.

Section Fusable.
(** The device test of [isFusable], kept abstract so that a result can be
    shown not to depend on it. *)
Variable onDevice : nat → M bool.

Definition isFusable_with (node : nat) : M bool :=
  let! k := kind node in
  if bool_decide (k = kFusionGroup) then ret true
  else
    let! a := isSimpleMap node in
    if negb a then ret false
    else
      let! b := allFloatIO node in
      if negb b then ret false
      else onDevice node.
End Fusable.

Definition isFusable (node : nat) : M bool := isFusable_with isCuda node.

Fixpoint all_sizes_are (sz : list Z) (l : list nat) : M bool :=
  match l with
  | [] => ret true
  | i :: l' =>
      let! t := type i in
      let! ty := expect_TensorType t in
      if bool_decide (sz ≠ sizes ty) then ret false else all_sizes_are sz l'
  end.

Definition isFusableAsExitNode (node : nat) : M bool :=
  let! f := isFusable node in
  if f then ret true
  else
    let! k := kind node in
    if bool_decide (k ≠ kcat) then ret false
    else
      let! c := isCuda node in
      if negb c then ret false
      else
        let! i0 := input_at node 0 in
        let! t := type i0 in
        let! ty := expect_TensorType t in
        let! ins := inputs node in
        all_sizes_are (sizes ty) ins.

Fixpoint allUsersAreThisConsumerOrOccurAfterIt_loop (consumer : nat) (us : list Use) : M bool :=
  match us with
  | [] => ret true
  | u :: us' =>
      if bool_decide (user u ≠ consumer) then
        let! ic := index_at consumer in
        let! iu := index_at (user u) in
        if bool_decide (iu < ic) then ret false
        else allUsersAreThisConsumerOrOccurAfterIt_loop consumer us'
      else allUsersAreThisConsumerOrOccurAfterIt_loop consumer us'
  end.
Definition allUsersAreThisConsumerOrOccurAfterIt (consumer producer : nat) : M bool :=
  let! us := uses producer in
  allUsersAreThisConsumerOrOccurAfterIt_loop consumer us.

Definition allUsersAreThisConsumer (consumer producer : nat) : M bool :=
  let! us := uses producer in
  ret (forallb (λ u, bool_decide (user u = consumer)) us).

Definition shouldFuse (consumer producer : nat) : M bool :=
  let! pn := node_of producer in
  let! f := isFusable pn in
  if negb f then ret false
  else allUsersAreThisConsumerOrOccurAfterIt consumer producer.

(** The [graph] member of the fuser. *)
Definition this_graph : M nat := λ st, Ok (graph st) st.

Definition getSubgraph (n : nat) : M nat :=
  let! k := kind n in
  JIT_ASSERT (bool_decide (k = kFusionGroup)) "n->kind() == kFusionGroup" >>
  g_attr n kSubgraph.

(** [inputs_map[input] = subgraph.inputs()[i++]] over the inputs of the
    group. *)
Fixpoint zip_into (m : gmap nat nat) (keys vals : list nat) : M (gmap nat nat) :=
  match keys with
  | [] => ret m
  | k :: keys' =>
      match vals with
      | v :: vals' => zip_into (<[k := v]> m) keys' vals'
      | [] => raise (OutOfRange "operator[]")
      end
  end.

Fixpoint mergeNodeIntoGroup_inputs (group subgraph : nat) (inputs_map : gmap nat nat)
    (ins : list nat) : M (gmap nat nat) :=
  match ins with
  | [] => ret inputs_map
  | input :: ins' =>
      match inputs_map !! input with
      | None =>
          let! in_group := Graph_addInput subgraph in
          let! t := typeOption input in
          setType in_group t >>
          let! _ := addInput group input in
          mergeNodeIntoGroup_inputs group subgraph (<[input := in_group]> inputs_map) ins'
      | Some _ => mergeNodeIntoGroup_inputs group subgraph inputs_map ins'
      end
  end.

Definition mergeNodeIntoGroup (group n : nat) : M nat :=
  let! k := kind n in
  JIT_ASSERT (bool_decide (k ≠ kFusionGroup)) "n->kind() != kFusionGroup" >>
  let! subgraph := getSubgraph group in
  let! gins := inputs group in
  let! sins := graph_inputs subgraph in
  JIT_ASSERT (bool_decide (length gins = length sins))
    "group->inputs().size() == subgraph.inputs().size()" >>
  let! inputs_map := zip_into ∅ gins sins in
  let! nins := inputs n in
  let! inputs_map := mergeNodeIntoGroup_inputs group subgraph inputs_map nins in
  let! in_graph := createClone subgraph n
                     (λ k, liftOpt (inputs_map !! k) (NullDeref "inputs_map[k]")) in
  let! inputs := inputs group in
  let! nout := output n in
  match index_of nout inputs with
  | Some p =>
      removeInput group p >>
      let! sins := graph_inputs subgraph in
      let! sp := liftOpt (sins !! p) (OutOfRange "subgraph.inputs()[p]") in
      let! o := output in_graph in
      replaceAllUsesWith sp o >>
      eraseInput subgraph p >>
      prependNode subgraph in_graph
  | None => prependNode subgraph in_graph
  end.

(** The first loop of [mergeFusionGroups] reads [outer_inputs[i]] for every
    inner input. *)
Fixpoint mergeFusionGroups_clone (g producer_group : nat) (inner_to_outer : gmap nat nat)
    (inner_nodes : list nat) : M (list nat * gmap nat nat) :=
  match inner_nodes with
  | [] => ret ([], inner_to_outer)
  | inner :: rest =>
      let! outer := createClone g inner
                      (λ k, liftOpt (inner_to_outer !! k) (OutOfRange "inner_to_outer.at(k)")) in
      insertBefore outer producer_group >>
      let! inner_outputs := outputs inner in
      let! outer_outputs := outputs outer in
      let! inner_to_outer := zip_into inner_to_outer inner_outputs outer_outputs in
      let! '(temps, m) := mergeFusionGroups_clone g producer_group inner_to_outer rest in
      ret (outer :: temps, m)
  end.

Fixpoint mergeFusionGroups_reroute (producer_group : nat) (inner_to_outer : gmap nat nat)
    (i : nat) (subgraph_outputs : list nat) : M unit :=
  match subgraph_outputs with
  | [] => ret tt
  | so :: rest =>
      let! outer_output := liftOpt (inner_to_outer !! so) (OutOfRange "inner_to_outer.at") in
      let! pouts := outputs producer_group in
      let! po := liftOpt (pouts !! i) (OutOfRange "producer_group->outputs()[i]") in
      replaceAllUsesWith po outer_output >>
      mergeFusionGroups_reroute producer_group inner_to_outer (S i) rest
  end.

Fixpoint mergeFusionGroups_outputs (consumer_group consumer_subgraph merged : nat)
    (i : nat) (outs : list nat) : M unit :=
  match outs with
  | [] => ret tt
  | out :: rest =>
      let! us := uses out in
      match us with
      | [] => mergeFusionGroups_outputs consumer_group consumer_subgraph merged (S i) rest
      | _ :: _ =>
          let! mouts := outputs merged in
          let! mo := liftOpt (mouts !! i) (OutOfRange "merged->outputs()[i]") in
          registerOutput consumer_subgraph mo >>
          let! new_output := addOutput consumer_group in
          replaceAllUsesWith out new_output >>
          let! t := typeOption out in
          setType new_output t >>
          mergeFusionGroups_outputs consumer_group consumer_subgraph merged (S i) rest
      end
  end.

Fixpoint mergeFusionGroups_inline (consumer_group consumer_subgraph : nat)
    (temps_rev : list nat) : M unit :=
  match temps_rev with
  | [] => ret tt
  | node :: rest =>
      let! merged := mergeNodeIntoGroup consumer_group node in
      let! outs := outputs node in
      mergeFusionGroups_outputs consumer_group consumer_subgraph merged 0 outs >>
      destroy node >>
      mergeFusionGroups_inline consumer_group consumer_subgraph rest
  end.

Definition mergeFusionGroups (consumer_group producer_group : nat) : M unit :=
  let! producer_subgraph := getSubgraph producer_group in
  let! inner_inputs := graph_inputs producer_subgraph in
  let! outer_inputs := inputs producer_group in
  let! inner_to_outer := zip_into ∅ inner_inputs outer_inputs in
  let! g := this_graph in
  let! inner_nodes := graph_nodes producer_subgraph in
  let! '(temporary_nodes, inner_to_outer) :=
    mergeFusionGroups_clone g producer_group inner_to_outer inner_nodes in
  let! subgraph_outputs := graph_outputs producer_subgraph in
  mergeFusionGroups_reroute producer_group inner_to_outer 0 subgraph_outputs >>
  destroy producer_group >>
  let! consumer_subgraph := getSubgraph consumer_group in
  mergeFusionGroups_inline consumer_group consumer_subgraph (rev temporary_nodes).

Definition createSingletonFusionGroup (n : nat) : M nat :=
  let! g := this_graph in
  let! group := createFusionGroup g in
  let! i := index_at n in
  index_set group i >>
  insertBefore group n >>
  let! mergedNode := mergeNodeIntoGroup group n in
  let! sg := getSubgraph group in
  let! mo := output mergedNode in
  registerOutput sg mo >>
  let! sel := addOutput group in
  let! no := output n in
  copyMetadata sel no >>
  replaceAllUsesWith_node n group >>
  destroy n >>
  ret group.

Definition insertAfter (n after : nat) : M unit :=
  Node_insertAfter n after >>
  let! i := index_at after in
  index_set n i.

(** [insertAt(&insertion_point, n)]: the new insertion point is
    returned. *)
Definition insertAt (insertion_point n : nat) : M nat :=
  insertAfter n insertion_point >> ret n.

Definition fuse (consumer producer : nat) : M nat :=
  let! k := kind consumer in
  let! group :=
    (if bool_decide (k ≠ kFusionGroup) then createSingletonFusionGroup consumer
     else ret consumer) in
  let! pn := node_of producer in
  let! pk := kind pn in
  if bool_decide (pk = kFusionGroup) then
    mergeFusionGroups group pn >> ret group
  else
    let! merged := mergeNodeIntoGroup group pn in
    let! us := uses producer in
    (match us with
     | [] => ret tt
     | _ :: _ =>
         let! sg := getSubgraph group in
         let! mo := output merged in
         registerOutput sg mo >>
         let! new_producer := addOutput group in
         copyMetadata new_producer producer >>
         replaceAllUsesWith producer new_producer
     end) >>
    let! pn := node_of producer in
    destroy pn >>
    ret group.

Definition isChunk (node : nat) : M bool :=
  let! k := kind node in ret (bool_decide (k = ksplit)).

Fixpoint all_uses_in (consumer : nat) (outs : list nat) : M bool :=
  match outs with
  | [] => ret true
  | s :: outs' =>
      let! us := uses s in
      if forallb (λ u, bool_decide (user u = consumer)) us
      then all_uses_in consumer outs'
      else ret false
  end.

(** The inner loop of the first phase of [tryToMoveChunk]: one output of
    the new split per output of the original one. *)
Fixpoint tryToMoveChunk_selects (input_chunk : nat) (input_type : option TensorType)
    (sels : list nat) : M (list nat) :=
  match sels with
  | [] => ret []
  | chunk_sel :: rest =>
      let! t := type chunk_sel in
      let chunk_sel_type := cast_TensorType t in
      let! input_chunk_sel := addOutput input_chunk in
      let! ct := liftOpt chunk_sel_type (NullDeref "chunk_sel_type") in
      let! it := liftOpt input_type (NullDeref "input_type") in
      setType input_chunk_sel (Some (TensorT (withSizesStrides it (sizes ct) (strides ct)))) >>
      let! row := tryToMoveChunk_selects input_chunk input_type rest in
      ret (input_chunk_sel :: row)
  end.

(** The first phase: apply the chunk to each operand of the op. *)
Fixpoint tryToMoveChunk_operands (g chunk insertion_point : nat) (ins : list nat)
    : M (nat * list (list nat)) :=
  match ins with
  | [] => ret (insertion_point, [])
  | input :: rest =>
      let! t := type input in
      let input_type := cast_TensorType t in
      let! input_chunk := create g ksplit 0 in
      copyAttributes input_chunk chunk >>
      let! _ := addInput input_chunk input in
      let! insertion_point := insertAt insertion_point input_chunk in
      let! sels := outputs chunk in
      let! row := tryToMoveChunk_selects input_chunk input_type sels in
      let! '(ip, rows) := tryToMoveChunk_operands g chunk insertion_point rest in
      ret (ip, row :: rows)
  end.

(** The second phase: apply the op to each chunk of the chunked
    operands. *)
Fixpoint tryToMoveChunk_ops (g producer_for_chunk_node insertion_point : nat)
    (chunked_inputs : list (list nat)) (sels : list nat) : M nat :=
  match sels with
  | [] => ret insertion_point
  | chunk_sel :: rest =>
      let! k := kind producer_for_chunk_node in
      let! chunked_op := create g k 1 in
      copyAttributes chunked_op producer_for_chunk_node >>
      let! o := output chunked_op in
      let! t := type chunk_sel in
      let! ct := liftOpt (cast_TensorType t) (NullDeref "chunk_sel->type()") in
      setType o (Some (TensorT (contiguous ct))) >>
      forM chunked_inputs (λ by_chunk_output_idx,
        let! off := offset chunk_sel in
        let! v := liftOpt (by_chunk_output_idx !! off) (OutOfRange "by_chunk_output_idx.at") in
        let! _ := addInput chunked_op v in
        ret tt) >>
      let! insertion_point := insertAt insertion_point chunked_op in
      let! o := output chunked_op in
      replaceAllUsesWith chunk_sel o >>
      tryToMoveChunk_ops g producer_for_chunk_node insertion_point chunked_inputs rest
  end.

Definition tryToMoveChunk (consumer producer : nat) : M bool :=
  let! chunk := node_of producer in
  let! c := isChunk chunk in
  if negb c then ret false
  else
    let! producer_for_chunk := input chunk in
    let! pn := node_of producer_for_chunk in
    let! f := isFusable pn in
    let! only := (if negb f then ret false
                  else allUsersAreThisConsumer chunk producer_for_chunk) in
    if negb only then ret false
    else
      let! sels := outputs chunk in
      let! mine := all_uses_in consumer sels in
      if negb mine then ret false
      else
        let! producer_for_chunk_node := node_of producer_for_chunk in
        let! pouts := outputs producer_for_chunk_node in
        JIT_ASSERT (bool_decide (length pouts = 1))
          "producer_for_chunk_node->outputs().size() == 1" >>
        let insertion_point := chunk in
        let! g := this_graph in
        let! ins := inputs producer_for_chunk_node in
        let! '(insertion_point, chunked_inputs) :=
          tryToMoveChunk_operands g chunk insertion_point ins in
        let! sels := outputs chunk in
        let! _ := tryToMoveChunk_ops g producer_for_chunk_node insertion_point
                    chunked_inputs sels in
        destroy chunk >>
        destroy producer_for_chunk_node >>
        ret true.

(** [std::sort] of the inputs by the index of their node, later producers
    first; equal keys keep their order. *)
Fixpoint insert_desc (x : nat * nat) (l : list (nat * nat)) : list (nat * nat) :=
  match l with
  | [] => [x]
  | y :: l' =>
      if bool_decide (fst y ≤ fst x) then x :: y :: l'
      else y :: insert_desc x l'
  end.
Definition sort_desc (l : list (nat * nat)) : list (nat * nat) :=
  foldr insert_desc [] l.

(** [++consumer->reverseIterator()]: the node before this one in the node
    list, the return node (the list's sentinel, [rend]) before the first. *)
Fixpoint prev_from (before n : nat) (l : list nat) : option nat :=
  match l with
  | [] => None
  | x :: l' => if decide (x = n) then Some before else prev_from x n l'
  end.
Definition reverse_next (n : nat) : M nat :=
  let! nd := getNode n in
  let! G := getGraph (n_graph nd) in
  liftOpt (prev_from (g_return G) n (g_nodes G)) (NullDeref "reverseIterator").

Fixpoint scanNode_producers (consumer : nat) (producers : list nat) : M (nat * bool) :=
  match producers with
  | [] =>
      let! it := reverse_next consumer in
      ret (it, false)
  | producer :: rest =>
      let! ps := value_stage producer in
      let! cs := stage consumer in
      if bool_decide (ps ≠ cs) then scanNode_producers consumer rest
      else
        let! moved := tryToMoveChunk consumer producer in
        if moved then ret (consumer, true)
        else
          let! sf := shouldFuse consumer producer in
          if sf then
            let! fusion_group := fuse consumer producer in
            ret (fusion_group, true)
          else scanNode_producers consumer rest
  end.

Definition scanNode (consumer : nat) : M (nat * bool) :=
  let! g := this_graph in
  let! old := graph_stage g in
  let! s := stage consumer in
  setStage g s >>
  let! r :=
    (let! e := isFusableAsExitNode consumer in
     if e then
       let! ins := inputs consumer in
       forM ins (λ i,
         let! n := node_of i in
         let! c := index_count n in
         JIT_ASSERT (bool_decide (0 < c)) "topological_index.count(i->node()) > 0") >>
       let! keyed := mapM (λ i, let! n := node_of i in
                                let! k := index_at n in ret (k, i)) ins in
       scanNode_producers consumer (snd <$> sort_desc keyed)
     else
       let! it := reverse_next consumer in
       ret (it, false)) in
  setStage g old >>
  ret r.

Fixpoint number_from (i : nat) (l : list nat) : M nat :=
  match l with
  | [] => ret i
  | consumer :: l' => index_set consumer i >> number_from (S i) l'
  end.

(** One reverse sweep over the node list, from the iterator [it] on. *)
Fixpoint sweep (fuel it : nat) (any_changed : bool) : M bool :=
  match fuel with
  | 0 => raise OutOfFuel
  | S fuel' =>
      let! g := this_graph in
      let! rend := return_node g in
      if bool_decide (it = rend) then ret any_changed
      else
        let! '(it', changed) := scanNode it in
        sweep fuel' it' (any_changed || changed)
  end.

Definition rbegin (g : nat) : M nat :=
  let! G := getGraph g in ret (List.last (g_nodes G) (g_return G)).

Fixpoint run_loop (fuel : nat) : M unit :=
  match fuel with
  | 0 => raise OutOfFuel
  | S fuel' =>
      let! g := this_graph in
      let! it := rbegin g in
      let! any_changed := sweep (S fuel') it false in
      if any_changed then run_loop fuel' else ret tt
  end.

Definition run (fuel : nat) : M unit :=
  let! g := this_graph in
  let! ps := graph_inputs g in
  forM ps (λ p, let! n := node_of p in index_set n 0) >>
  let! ns := graph_nodes g in
  let! i := number_from 1 ns in
  let! r := return_node g in
  index_set r i >>
  run_loop fuel.

(** [FuseGraph(graph)]: a fuser is built for the graph, run, and
    dropped. *)
Definition FuseGraph (fuel : nat) : M unit :=
  modify (set_index (λ _, ∅)) >>
  run fuel >>
  modify (set_index (λ _, ∅)).

(** ** Test graphs

    A few IR constructors used to write concrete graphs down. *)

Definition empty_state : State := mkState ∅ ∅ ∅ 0 0 ∅.

(** [Graph::appendNode]. *)
Definition appendNode (g n : nat) : M nat :=
  let! _ := getNode n in
  let! G := getGraph g in
  putGraph g (with_nodes (g_nodes G ++ [n]) G) >>
  ret n.

(** A float tensor on device 0. *)
Definition float_cuda : IRType :=
  TensorT (mkTensorType kFloat 0 [2%Z; 2%Z] [2%Z; 1%Z]).

Definition mk_param (g : nat) (t : option IRType) : M nat :=
  let! v := Graph_addInput g in
  setType v t >> ret v.

(** A node of kind [k] over [ins] with [nout] outputs of type [t], appended
    to the graph. *)
Definition mk_op (g : nat) (k : NodeKind) (ins : list nat) (nout : nat)
    (t : option IRType) : M (nat * list nat) :=
  let! n := create g k nout in
  forM ins (λ i, let! _ := addInput n i in ret tt) >>
  let! outs := outputs n in
  forM outs (λ o, setType o t) >>
  let! _ := appendNode g n in
  ret (n, outs).

Definition mk_op1 (g : nat) (k : NodeKind) (ins : list nat) : M nat :=
  let! '(_, outs) := mk_op g k ins 1 (Some float_cuda) in
  liftOpt (outs !! 0) (OutOfRange "outputs").

Definition mk_op2 (g : nat) (k : NodeKind) (ins : list nat) : M (nat * nat) :=
  let! '(_, outs) := mk_op g k ins 2 (Some float_cuda) in
  let! a := liftOpt (outs !! 0) (OutOfRange "outputs") in
  let! b := liftOpt (outs !! 1) (OutOfRange "outputs") in
  ret (a, b).

(** The state a computation ends in, the empty state when it raises. *)
Definition state_after {A} (m : M A) : State :=
  match m empty_state with
  | Ok _ st => st
  | Raise _ => empty_state
  end.


(** ** Concrete graphs *)

(** [m = min(x, x, x)]: a [min] node with three inputs. *)
Definition graph_min3 : M nat :=
  let! g := newGraph in
  let! x := mk_param g (Some float_cuda) in
  let! '(n, _) := mk_op g kmin [x; x; x] 1 (Some float_cuda) in
  ret n.

(** The classification of section 4.1 read to the letter: the kind is in
    the closed set, and the node is not a [min] or [max] with exactly one
    input. *)
Definition isSimpleMap_as_stated (nd : Node) : bool :=
  bool_decide (n_kind nd ∈ simple_mappable)
  && negb ((bool_decide (n_kind nd = kmin) || bool_decide (n_kind nd = kmax))
           && bool_decide (length (n_inputs nd) = 1)).

(** ** Pure readings of the state, used in statements *)

(** What [hasFloatType] computes on a value of the heap. *)
Definition float_typed (st : State) (v : nat) : bool :=
  match values st !! v with
  | Some vl =>
      match v_type vl with
      | Some (TensorT ty) => bool_decide (scalarType ty = kFloat)
      | _ => false
      end
  | None => false
  end.

(** [topological_index[n]] read without inserting. *)
Definition index_of_node (st : State) (n : nat) : nat :=
  default 0 (topological_index st !! n).

(** [add(x, y)] whose second input has no type and whose output has none
    either. *)
Definition graph_untyped : M nat :=
  let! g := newGraph in
  let! x := mk_param g (Some float_cuda) in
  let! y := mk_param g None in
  let! '(n, _) := mk_op g kadd [x; y] 1 None in
  ret n.

Definition returns_true (r : Res bool) : Prop := ∃ st', r = Ok true st'.

(** Two fuser states with the same heap whose indices read the same: they
    differ at most in keys that [operator[]] inserted with value zero. *)
Definition same_reading (st st' : State) : Prop :=
  nodes st' = nodes st ∧ values st' = values st ∧ graphs st' = graphs st
  ∧ next st' = next st ∧ graph st' = graph st
  ∧ ∀ n, index_of_node st' n = index_of_node st n.

(** The test of [allUsersAreThisConsumerOrOccurAfterIt] on one use. *)
Definition use_allows (st : State) (consumer : nat) (u : Use) : bool :=
  bool_decide (user u = consumer)
  || negb (bool_decide (index_of_node st (user u) < index_of_node st consumer)).

(** Scenario S3 of the spec, [%1 = add(x, y); %2 = neg(%1); %3 = mul(%1, z);
    return (%2, %3)], with the index initialised as [run] does. *)
Definition graph_S3 : M (nat * nat) :=
  let! g := newGraph in
  let! x := mk_param g (Some float_cuda) in
  let! y := mk_param g (Some float_cuda) in
  let! z := mk_param g (Some float_cuda) in
  let! v1 := mk_op1 g kadd [x; y] in
  let! '(n2, o2) := mk_op g kneg [v1] 1 (Some float_cuda) in
  let! '(n3, o3) := mk_op g kmul [v1; z] 1 (Some float_cuda) in
  forM o2 (registerOutput g) >>
  forM o3 (registerOutput g) >>
  let! ns := graph_nodes g in
  let! i := number_from 1 ns in
  ret (n2, n3).

(** [%1 = add(x, y); %2 = neg(%1); %a, %b = split(%2); %u = exp(%a);
    %v = abs(%u); %c = mul(%u, %b); return (%c, %v, %1)]: float tensors on
    device 0, one stage, no fusion group. *)
Definition graph_two_outputs : M unit :=
  let! g := newGraph in
  let! x := mk_param g (Some float_cuda) in
  let! y := mk_param g (Some float_cuda) in
  let! v1 := mk_op1 g kadd [x; y] in
  let! v2 := mk_op1 g kneg [v1] in
  let! '(a, b) := mk_op2 g ksplit [v2] in
  let! u := mk_op1 g kexp [a] in
  let! v := mk_op1 g kabs [u] in
  let! c := mk_op1 g kmul [u; b] in
  registerOutput g c >>
  registerOutput g v >>
  registerOutput g v1.

(** ** Predicates used in the proofs *)

(** [wp m Q st]: if [m] returns from [st], the result and the final state
    satisfy [Q].  Claims that a result is produced are stated with
    [= Ok _ _]; [wp] carries invariants through the pass. *)
Definition wp {A} (m : M A) (Q : A → State → Prop) (st : State) : Prop :=
  match m st with
  | Ok a st' => Q a st'
  | Raise _ => True
  end.

(** [steps R m]: every successful run of [m] relates the initial and the
    final state by [R]. *)
Definition steps (R : relation State) {A} (m : M A) : Prop :=
  ∀ st a st', m st = Ok a st' → R st st'.

(** What never changes about a node or a graph once it is allocated: kind,
    stage and owning graph of a node, the parameter and return nodes of a
    graph.  Handles are never reused, graphs are never freed. *)
Definition static (st st' : State) : Prop :=
  next st ≤ next st'
  ∧ graph st' = graph st
  ∧ (∀ m nd', nodes st' !! m = Some nd' → m < next st →
       ∃ nd, nodes st !! m = Some nd ∧ n_kind nd' = n_kind nd
             ∧ n_stage nd' = n_stage nd ∧ n_graph nd' = n_graph nd)
  ∧ (∀ g G, graphs st !! g = Some G → g < next st →
       ∃ G', graphs st' !! g = Some G' ∧ g_param G' = g_param G
             ∧ g_return G' = g_return G)
  ∧ (∀ g G', graphs st' !! g = Some G' → g < next st → is_Some (graphs st !! g))
  ∧ (∀ v vl', values st' !! v = Some vl' → v < next st →
       ∃ vl, values st !! v = Some vl ∧ v_node vl' = v_node vl).

(** No deallocation: the nodes alive before are alive after. *)
Definition keeps (st st' : State) : Prop :=
  ∀ m, is_Some (nodes st !! m) → is_Some (nodes st' !! m).

(** Handles in use are below the allocation counter. *)
Definition bounded (st : State) : Prop :=
  (∀ n, is_Some (nodes st !! n) → n < next st)
  ∧ (∀ v, is_Some (values st !! v) → v < next st)
  ∧ (∀ g, is_Some (graphs st !! g) → g < next st).

(** The stage of the node that produces a value. *)
Definition stage_of_value (st : State) (v : nat) : option nat :=
  vl ← values st !! v; nd ← nodes st !! v_node vl; Some (n_stage nd).

(** A producer that [scanNode] does not skip: its stage is not known to
    differ from the stage [s] of the consumer. *)
Definition stage_admits (st : State) (s : nat) (v : nat) : bool :=
  match stage_of_value st v with
  | Some s' => bool_decide (s' = s)
  | None => true
  end.

(** Allocation keeps the handles in use below the counter. *)
Definition keeps_bounded (st st' : State) : Prop :=
  next st ≤ next st' ∧ (bounded st → bounded st').

Definition rel_and (R1 R2 : relation State) : relation State :=
  λ st st', R1 st st' ∧ R2 st st'.

(** ** The pairing of a fusion group with its subgraph *)

(** The subgraph handle among the attributes of a node. *)
Definition subgraph_attr (a : list (string * AttrValue)) : option nat :=
  match find_attr kSubgraph a with
  | Some (AGraph g) => Some g
  | _ => None
  end.

(** [nd] is a fusion group whose body is the graph [sg]. *)
Definition is_group (nd : Node) (sg : nat) : Prop :=
  n_kind nd = kFusionGroup ∧ subgraph_attr (n_attrs nd) = Some sg.

(** Invariant 1 of the spec for the group [g], generalised by the offsets
    [din] and [dout] that hold between the two halves of a paired update:
    [|g.inputs| = |subgraph.inputs| + din] and
    [|g.outputs| = |subgraph.outputs| + dout]. *)
Definition balance (st : State) (g : nat) (din dout : Z) : Prop :=
  ∀ nd sg, nodes st !! g = Some nd → is_group nd sg →
    ∃ G pn rn, graphs st !! sg = Some G
      ∧ nodes st !! g_param G = Some pn ∧ nodes st !! g_return G = Some rn
      ∧ Z.of_nat (length (n_inputs nd)) = (Z.of_nat (length (n_outputs pn)) + din)%Z
      ∧ Z.of_nat (length (n_outputs nd)) = (Z.of_nat (length (n_inputs rn)) + dout)%Z.

(** [|g.inputs| == |g.subgraph.inputs|] and
    [|g.outputs| == |g.subgraph.outputs|]. *)
Definition paired (st : State) (g : nat) : Prop :=
  ∀ nd sg, nodes st !! g = Some nd → is_group nd sg →
    ∃ G pn rn, graphs st !! sg = Some G
      ∧ nodes st !! g_param G = Some pn ∧ nodes st !! g_return G = Some rn
      ∧ length (n_inputs nd) = length (n_outputs pn)
      ∧ length (n_outputs nd) = length (n_inputs rn).

Definition groups_paired (st : State) : Prop := ∀ g, paired st g.

(** [n] is the parameter node or the return node of a graph. *)
Definition is_boundary (st : State) (n : nat) : Prop :=
  ∃ g G, graphs st !! g = Some G ∧ (g_param G = n ∨ g_return G = n).

(** Well-formed heaps: handles are below the allocation counter; the
    parameter and return nodes of a graph have the kinds [kParam] and
    [kReturn] and belong to it; and no two fusion groups share one
    subgraph. *)
Definition wf_graphs (st : State) : Prop :=
  ∀ g G, graphs st !! g = Some G →
    g_param G < next st ∧ g_return G < next st
    ∧ (∀ pn, nodes st !! g_param G = Some pn → n_kind pn = kParam ∧ n_graph pn = g)
    ∧ (∀ rn, nodes st !! g_return G = Some rn → n_kind rn = kReturn ∧ n_graph rn = g).

Definition wf_attrs (st : State) : Prop :=
  ∀ n nd sg, nodes st !! n = Some nd → is_group nd sg → sg < next st.

Definition unshared (st : State) : Prop :=
  ∀ n1 n2 nd1 nd2 sg,
    nodes st !! n1 = Some nd1 → nodes st !! n2 = Some nd2 →
    is_group nd1 sg → is_group nd2 sg → n1 = n2.

Definition well_formed (st : State) : Prop :=
  bounded st ∧ wf_graphs st ∧ wf_attrs st ∧ unshared st.

(** The invariant carried through a merge: the heap is well formed, every
    group but the focus [f] is paired, and [f] is off by [din], [dout]. *)
Definition Inv (f : nat) (din dout : Z) (st : State) : Prop :=
  well_formed st ∧ (∀ g, g ≠ f → balance st g 0 0) ∧ balance st f din dout.

(** The focus of a merge: [f] is a live fusion group whose body is [sg],
    with parameter node [p] and return node [r]. *)
Definition focus (st : State) (f sg p r : nat) : Prop :=
  (∃ nd, nodes st !! f = Some nd ∧ is_group nd sg)
  ∧ (∃ G, graphs st !! sg = Some G ∧ g_param G = p ∧ g_return G = r).

(** What the invariants read off a node: everything but the identity of
    its inputs and outputs. *)
Definition same_shape (nd nd' : Node) : Prop :=
  n_kind nd' = n_kind nd ∧ n_attrs nd' = n_attrs nd ∧ n_graph nd' = n_graph nd
  ∧ length (n_inputs nd') = length (n_inputs nd)
  ∧ length (n_outputs nd') = length (n_outputs nd).

(** Steps that leave every shape and every graph boundary alone and
    allocate nothing. *)
Definition shape_same (st st' : State) : Prop :=
  next st' = next st
  ∧ (∀ n, option_Forall2 same_shape (nodes st !! n) (nodes st' !! n))
  ∧ (∀ g, option_Forall2 (λ G G', g_param G' = g_param G ∧ g_return G' = g_return G)
            (graphs st !! g) (graphs st' !! g))
  ∧ (∀ v, is_Some (values st' !! v) → is_Some (values st !! v)).

(** The invariant of a merge together with its focus. *)
Definition FInv (f sg p r : nat) (din dout : Z) (st : State) : Prop :=
  Inv f din dout st ∧ focus st f sg p r.

(** Boundary nodes are allocated with their graph: a boundary of the later
    state is a boundary of the earlier one or was allocated in between. *)
Definition fresh_boundaries (st st' : State) : Prop :=
  next st ≤ next st' ∧ ∀ x, is_boundary st' x → is_boundary st x ∨ next st ≤ x.

(** A live node that is neither a fusion group nor a graph boundary. *)
Definition inert (st : State) (n : nat) : Prop :=
  (∃ nd, nodes st !! n = Some nd ∧ n_kind nd ≠ kFusionGroup) ∧ ¬ is_boundary st n.

(** Steps that write no node but [n], allocate nothing and keep the
    boundaries of every graph. *)
Definition except (n : nat) (st st' : State) : Prop :=
  next st' = next st
  ∧ (∀ x, x ≠ n → nodes st' !! x = nodes st !! x)
  ∧ (∀ g, option_Forall2 (λ G G', g_param G' = g_param G ∧ g_return G' = g_return G)
            (graphs st !! g) (graphs st' !! g))
  ∧ (∀ v, is_Some (values st' !! v) → is_Some (values st !! v)).

(** A live node that is not the parameter or the return node of a graph. *)
Definition ordinary (st : State) (n : nat) : Prop :=
  is_Some (nodes st !! n) ∧ ¬ is_boundary st n.

(** A live node of kind [kFusionGroup]. *)
Definition live_group (st : State) (t : nat) : Prop :=
  t < next st ∧ ∃ nd, nodes st !! t = Some nd ∧ n_kind nd = kFusionGroup.

(** Executable checks of the well-formedness of a concrete heap. *)
Definition check_boundary (st : State) (g : nat) (k : NodeKind) (n : nat) : bool :=
  bool_decide (n < next st)
  && match nodes st !! n with
     | Some nd => bool_decide (n_kind nd = k) && bool_decide (n_graph nd = g)
     | None => true
     end.

Definition check_graphs (st : State) : bool :=
  forallb (λ gG, check_boundary st gG.1 kParam (g_param gG.2)
                 && check_boundary st gG.1 kReturn (g_return gG.2))
    (map_to_list (graphs st)).

Definition check_no_groups (st : State) : bool :=
  forallb (λ nnd, negb (bool_decide (n_kind nnd.2 = kFusionGroup)))
    (map_to_list (nodes st)).

Definition check_ordinary (st : State) (n : nat) : bool :=
  bool_decide (is_Some (nodes st !! n))
  && forallb (λ gG, negb (bool_decide (g_param gG.2 = n))
                    && negb (bool_decide (g_return gG.2 = n)))
       (map_to_list (graphs st)).

(** ** The chunk-distribution rewrite *)

(** The pattern that [tryToMoveChunk] looks for: [producer] is an output of
    a split node with one input; the node of that input is fusable; the
    split is the only user of that input; and every output of the split is
    used by [consumer] only. *)
Definition chunk_pattern (st : State) (consumer producer : nat) : Prop :=
  ∃ pv cd v vv,
    values st !! producer = Some pv ∧ nodes st !! v_node pv = Some cd
    ∧ n_kind cd = ksplit ∧ n_inputs cd = [v]
    ∧ values st !! v = Some vv ∧ returns_true (isFusable (v_node vv) st)
    ∧ (∀ u, u ∈ uses_of st v → user u = v_node pv)
    ∧ (∀ sel u, sel ∈ n_outputs cd → u ∈ uses_of st sel → user u = consumer).

(** The node whose output is split. *)
Definition splittee (st : State) (producer : nat) : option Node :=
  pv ← values st !! producer; cd ← nodes st !! v_node pv;
  v ← head (n_inputs cd); vv ← values st !! v; nodes st !! v_node vv.

(** [twp m Q st]: [m] returns from [st], and the result and the final state
    satisfy [Q]. *)
Definition twp {A} (m : M A) (Q : A → State → Prop) (st : State) : Prop :=
  match m st with
  | Ok a st' => Q a st'
  | Raise _ => False
  end.

(** The tensor type of a value. *)
Definition tensor_of (st : State) (x : nat) : option TensorType :=
  vl ← values st !! x; t ← v_type vl; cast_TensorType t.

(** Nothing that was allocated is touched but the node lists and the
    index. *)
Definition frame (s s' : State) : Prop :=
  next s ≤ next s' ∧ graph s' = graph s
  ∧ (∀ x, x < next s → values s' !! x = values s !! x).

(** The fuser can insert after [ip]: the state is bounded, [ip] is a live
    node of the fuser's graph and stands in its node list. *)
Definition ready (ip : nat) (s : State) : Prop :=
  bounded s
  ∧ (∃ G, graphs s !! graph s = Some G ∧ ip ∈ g_nodes G)
  ∧ (∃ ipd, nodes s !! ip = Some ipd ∧ n_graph ipd = graph s).

(** [r] is the output of the new split [sp] that stands for the output
    [sel] of the original one: the type of the operand with the sizes and
    strides of [sel]. *)
Definition new_select (s0 s' : State) (it : TensorType) (sp sel r : nat) : Prop :=
  next s0 ≤ r
  ∧ ∃ ct, tensor_of s0 sel = Some ct
      ∧ values s' !! r
        = Some (mkValue sp (Some (TensorT (withSizesStrides it (sizes ct) (strides ct))))).

(** [sp] is the new split of the operand [x], with outputs [row]. *)
Definition new_split (s0 s' : State) (cd : Node) (x sp : nat) (row : list nat) : Prop :=
  next s0 ≤ sp
  ∧ (∃ nd, nodes s' !! sp = Some nd ∧ n_kind nd = ksplit ∧ n_attrs nd = n_attrs cd
           ∧ n_inputs nd = [x] ∧ n_outputs nd = row ∧ n_graph nd = graph s0)
  ∧ ∃ it, tensor_of s0 x = Some it ∧ Forall2 (new_select s0 s' it sp) (n_outputs cd) row.

(** Rerouting: the pairs [(old, new)] applied to an input, the first match
    winning. *)
Fixpoint apply_subst (l : list (nat * nat)) (x : nat) : nat :=
  match l with
  | [] => x
  | (a, b) :: l' => if decide (x = a) then b else apply_subst l' x
  end.
Definition subst_inputs (l : list (nat * nat)) (nd : Node) : Node :=
  with_inputs (apply_subst l <$> n_inputs nd) nd.

(** [o'] is the copy of the op for the output [sel] of the original split:
    kind and attributes of the op, as inputs the outputs of the new splits
    at the offset of [sel], one output [out] whose type is the type of
    [sel] made contiguous. *)
Definition new_op (s0 s' : State) (cd od : Node) (rows : list (list nat))
    (sel o' out : nat) : Prop :=
  next s0 ≤ o' ∧ next s0 ≤ out
  ∧ ∃ nd ct off,
      nodes s' !! o' = Some nd ∧ n_kind nd = n_kind od ∧ n_attrs nd = n_attrs od
      ∧ n_outputs nd = [out] ∧ n_graph nd = graph s0
      ∧ index_of sel (n_outputs cd) = Some off
      ∧ Forall2 (λ row v, row !! off = Some v) rows (n_inputs nd)
      ∧ tensor_of s0 sel = Some ct
      ∧ values s' !! out = Some (mkValue o' (Some (TensorT (contiguous ct)))).

(** No live node has [v] among its inputs. *)
Definition unused (s : State) (v : nat) : Prop :=
  ∀ m md, nodes s !! m = Some md → v ∉ n_inputs md.

(** What the rewrite needs besides the pattern: [producer] is an output of
    the split [chunk], whose one input is the one output of [op]; both
    nodes belong to the graph of the fuser and [chunk] stands in its node
    list; the outputs of [chunk] are distinct tensor values of [chunk], the
    operands of [op] are tensor values; and [op] is not the consumer. *)
Definition chunk_movable (st : State) (consumer producer chunk op : nat)
    (cd od : Node) : Prop :=
  bounded st
  ∧ (∃ pv, values st !! producer = Some pv ∧ v_node pv = chunk)
  ∧ nodes st !! chunk = Some cd ∧ nodes st !! op = Some od
  ∧ (∃ v vv, n_inputs cd = [v] ∧ values st !! v = Some vv ∧ v_node vv = op
             ∧ n_outputs od = [v])
  ∧ n_graph cd = graph st ∧ n_graph od = graph st
  ∧ (∃ G, graphs st !! graph st = Some G ∧ chunk ∈ g_nodes G)
  ∧ NoDup (n_outputs cd)
  ∧ Forall (λ sel, (∃ vl, values st !! sel = Some vl ∧ v_node vl = chunk)
                   ∧ is_Some (tensor_of st sel)) (n_outputs cd)
  ∧ Forall (λ x, is_Some (tensor_of st x)) (n_inputs od)
  ∧ consumer ≠ op.

(** The result of the rewrite: the split and the op are gone; there is one
    new split per operand of the op and one new op per output of the
    split; and in every other node that was there, each output of the split
    is replaced by the output of its op. *)
Definition chunk_distributed (st st' : State) (chunk op : nat) (cd od : Node) : Prop :=
  ∃ (splits : list nat) (rows : list (list nat)) (ops outs : list nat),
    nodes st' !! chunk = None ∧ nodes st' !! op = None
    ∧ Forall3 (new_split st st' cd) (n_inputs od) splits rows
    ∧ Forall3 (new_op st st' cd od rows) (n_outputs cd) ops outs
    ∧ (∀ n, n < next st → n ≠ chunk → n ≠ op →
         nodes st' !! n = subst_inputs (zip (n_outputs cd) outs) <$> nodes st !! n)
    ∧ NoDup ops.

(** [%1 = add(x, y); %a, %b = split(%1); %c = mul(%a, %b); return (%c)]:
    the consumer [mul] and its input [%a]. *)
Definition graph_split : M (nat * nat) :=
  let! g := newGraph in
  let! x := mk_param g (Some float_cuda) in
  let! y := mk_param g (Some float_cuda) in
  let! v1 := mk_op1 g kadd [x; y] in
  let! '(a, b) := mk_op2 g ksplit [v1] in
  let! c := mk_op1 g kmul [a; b] in
  registerOutput g c >>
  let! consumer := node_of c in
  ret (consumer, a).

(** [%1 = add(x, y); %2 = neg(%1); %a, %b = split(%2); %c = mul(%a, %b);
    return (%c, %1)] after [fuse(neg, %1)]: the split is fed by a fusion
    group with two outputs.  The consumer [mul] and its input [%a]. *)
Definition graph_split_of_group : M (nat * nat) :=
  let! g := newGraph in
  let! x := mk_param g (Some float_cuda) in
  let! y := mk_param g (Some float_cuda) in
  let! v1 := mk_op1 g kadd [x; y] in
  let! v2 := mk_op1 g kneg [v1] in
  let! '(a, b) := mk_op2 g ksplit [v2] in
  let! c := mk_op1 g kmul [a; b] in
  registerOutput g c >>
  registerOutput g v1 >>
  let! n2 := node_of v2 in
  let! _ := fuse n2 v1 in
  let! consumer := node_of c in
  ret (consumer, a).

(** ** Pure readings of the classifier *)

(** What [isSimpleMap] computes on a node. *)
Definition simple_map (nd : Node) : bool :=
  bool_decide (n_kind nd ∈ simple_mappable)
  && (if bool_decide (n_kind nd = kmin) || bool_decide (n_kind nd = kmax)
      then bool_decide (length (n_inputs nd) = 2) else true).

(** What [isCuda] reads: the device of the tensor type of the single
    output. *)
Definition output_device (st : State) (nd : Node) : option Z :=
  match n_outputs nd with
  | [o] => device <$> tensor_of st o
  | _ => None
  end.

(** [add(x, y)] over float tensors, created without any output. *)
Definition graph_no_output : M nat :=
  let! g := newGraph in
  let! x := mk_param g (Some float_cuda) in
  let! y := mk_param g (Some float_cuda) in
  let! '(n, _) := mk_op g kadd [x; y] 0 (Some float_cuda) in
  ret n.

(** [c = cat(x, y)] over float tensors on device 0, [y] of another size. *)
Definition graph_cat : M nat :=
  let! g := newGraph in
  let! x := mk_param g (Some float_cuda) in
  let! y := mk_param g (Some (TensorT (mkTensorType kFloat 0 [3%Z; 2%Z] [2%Z; 1%Z]))) in
  let! '(n, _) := mk_op g kcat [x; y] 1 (Some float_cuda) in
  ret n.

(** A [cat] node on device 0 without inputs. *)
Definition graph_cat_empty : M nat :=
  let! g := newGraph in
  let! '(n, _) := mk_op g kcat [] 1 (Some float_cuda) in
  ret n.

(** A computation whose outcome is determined by the nodes and the values
    of the heap: it reads neither the graphs nor the fuser's index. *)
Definition heap_only {A} (m : M A) : Prop :=
  ∀ st s, nodes s = nodes st → values s = values st →
    m s = match m st with Ok a _ => Ok a s | Raise e => Raise e end.

(** A float tensor that lives on no device. *)
Definition float_cpu : IRType :=
  TensorT (mkTensorType kFloat (-1) [2%Z; 2%Z] [2%Z; 1%Z]).

(** [%1 = add(x, y); %2 = neg(%1); return (%2)] over tensors that live on
    no device. *)
Definition graph_cpu : M unit :=
  let! g := newGraph in
  let! x := mk_param g (Some float_cpu) in
  let! y := mk_param g (Some float_cpu) in
  let! '(_, o1) := mk_op g kadd [x; y] 1 (Some float_cpu) in
  let! '(_, o2) := mk_op g kneg o1 1 (Some float_cpu) in
  forM o2 (registerOutput g).

(** Steps that do not write the fuser's [topological_index]. *)
Definition index_kept (st st' : State) : Prop :=
  topological_index st' = topological_index st.

(** Steps that write no graph record: node lists, boundaries and stages
    stay. *)
Definition graphs_kept (st st' : State) : Prop :=
  graphs st' = graphs st.

(** Scenario S3 after [fuse(neg, %1)], with one more input appended to the
    group than its subgraph has: the group node. *)
Definition graph_unpaired : M nat :=
  let! _ := graph_S3 in
  let! g := fuse 8 7 in
  let! _ := addInput g 5 in
  ret g.

(** Two fusion groups in one graph, the first of which has a fusion group
    inside its subgraph: the consumer group and the producer group. *)
Definition graph_nested : M (nat * nat) :=
  let! g := newGraph in
  let! pg := createFusionGroup g in
  let! _ := appendNode g pg in
  let! sub := getSubgraph pg in
  let! inner := createFusionGroup sub in
  let! _ := appendNode sub inner in
  let! cg := createFusionGroup g in
  let! _ := appendNode g cg in
  ret (cg, pg).

(** [%1 = add(x, y); %2 = neg(%1); %a, %b = split(%2); %c = mul(%a, %b);
    return (%c)] after [fuse(neg, %1)]: the split is fed by a fusion group
    with one output.  The consumer [mul] and its input [%a]. *)
Definition graph_split_of_single : M (nat * nat) :=
  let! g := newGraph in
  let! x := mk_param g (Some float_cuda) in
  let! y := mk_param g (Some float_cuda) in
  let! v1 := mk_op1 g kadd [x; y] in
  let! v2 := mk_op1 g kneg [v1] in
  let! '(a, b) := mk_op2 g ksplit [v2] in
  let! c := mk_op1 g kmul [a; b] in
  registerOutput g c >>
  let! n2 := node_of v2 in
  let! _ := fuse n2 v1 in
  let! consumer := node_of c in
  ret (consumer, a).

(** The node list with the first occurrence of [n] replaced by [g]. *)
Fixpoint replace_id (n g : nat) (l : list nat) : list nat :=
  match l with
  | [] => []
  | x :: l' => if decide (x = n) then g :: l' else x :: replace_id n g l'
  end.

(** Steps that leave the attributes of the nodes below the handle [N]
    alone, as long as allocation has passed [N]. *)
Definition attrs_kept (N : nat) (st st' : State) : Prop :=
  N ≤ next st →
  N ≤ next st'
  ∧ ∀ m nd', nodes st' !! m = Some nd' → m < N →
      ∃ nd, nodes st !! m = Some nd ∧ n_attrs nd' = n_attrs nd.

(** Scenario S3 with [neg] wrapped in a group of its own: the group. *)
Definition graph_S3_group : M nat :=
  let! _ := graph_S3 in
  createSingletonFusionGroup 8.


(** Scenario S3 with [neg] and [add] each wrapped in a group of its own:
    the group of [neg] and the group of [add]. *)
Definition graph_two_groups : M (nat * nat) :=
  let! _ := graph_S3 in
  let! c := createSingletonFusionGroup 8 in
  let! p := createSingletonFusionGroup 6 in
  ret (c, p).
(** ** Reasoning about the monad *)

Lemma bind_Ok {A B} (m : M A) (k : A → M B) st b st' :
  bind m k st = Ok b st' ↔ ∃ a st1, m st = Ok a st1 ∧ k a st1 = Ok b st'.
Proof.
  unfold bind. split.
  - destruct (m st) as [a st1|e]; [eauto | discriminate].
  - intros (a & st1 & -> & H). exact H.
Qed.

Lemma ret_Ok {A} (a b : A) st st' : ret a st = Ok b st' ↔ a = b ∧ st = st'.
Proof. unfold ret. split; [intros [= -> ->]; auto | intros [-> ->]; auto]. Qed.

(** A computation that only reads the state. *)
Definition reads {A} (m : M A) : Prop :=
  ∀ st a st', m st = Ok a st' → st' = st.

Lemma reads_ret {A} (a : A) : reads (ret a).
Proof. intros st b st' [_ <-]%ret_Ok. reflexivity. Qed.

Lemma reads_raise {A} e : reads (@raise A e).
Proof. intros st b st' H. discriminate H. Qed.

Lemma reads_bind {A B} (m : M A) (k : A → M B) :
  reads m → (∀ a, reads (k a)) → reads (bind m k).
Proof.
  intros Hm Hk st b st' (a & st1 & H1 & H2)%bind_Ok.
  apply Hm in H1 as ->. by apply Hk in H2.
Qed.

Lemma reads_liftOpt {A} (o : option A) e : reads (liftOpt o e).
Proof. destruct o; [apply reads_ret | apply reads_raise]. Qed.

Lemma reads_JIT_ASSERT b w : reads (JIT_ASSERT b w).
Proof. destruct b; [apply reads_ret | apply reads_raise]. Qed.

Lemma reads_getNode n : reads (getNode n).
Proof. intros st a st'. unfold getNode. destruct (nodes st !! n); by intros [=]. Qed.
Lemma reads_getValue v : reads (getValue v).
Proof. intros st a st'. unfold getValue. destruct (values st !! v); by intros [=]. Qed.
Lemma reads_getGraph g : reads (getGraph g).
Proof. intros st a st'. unfold getGraph. destruct (graphs st !! g); by intros [=]. Qed.

Create HintDb reads discriminated.
#[global] Hint Resolve reads_ret reads_raise reads_liftOpt reads_JIT_ASSERT
  reads_getNode reads_getValue reads_getGraph : reads.

(** Decompose a goal [reads m] along the structure of [m]. *)
Ltac reads_step :=
  match goal with
  | |- reads (bind _ _) => apply reads_bind; [ | intros ? ]
  | |- reads (if ?b then _ else _) => destruct b
  | |- reads (match ?x with _ => _ end) => destruct x
  | |- reads _ => solve [ eauto with reads ]
  end.
Ltac solve_reads := repeat reads_step.

Lemma reads_kind n : reads (kind n).
Proof. unfold kind. solve_reads. Qed.
Lemma reads_inputs n : reads (inputs n).
Proof. unfold inputs. solve_reads. Qed.
Lemma reads_outputs n : reads (outputs n).
Proof. unfold outputs. solve_reads. Qed.
Lemma reads_stage n : reads (stage n).
Proof. unfold stage. solve_reads. Qed.
#[global] Hint Resolve reads_kind reads_inputs reads_outputs reads_stage : reads.

Lemma reads_output n : reads (output n).
Proof. unfold output. solve_reads. Qed.
Lemma reads_input n : reads (input n).
Proof. unfold input. solve_reads. Qed.
Lemma reads_input_at n i : reads (input_at n i).
Proof. unfold input_at. solve_reads. Qed.
Lemma reads_node_of v : reads (node_of v).
Proof. unfold node_of. solve_reads. Qed.
Lemma reads_hasType v : reads (hasType v).
Proof. unfold hasType. solve_reads. Qed.
Lemma reads_typeOption v : reads (typeOption v).
Proof. unfold typeOption. solve_reads. Qed.
Lemma reads_type v : reads (type v).
Proof. unfold type. solve_reads. Qed.
Lemma reads_expect_TensorType t : reads (expect_TensorType t).
Proof. unfold expect_TensorType. solve_reads. Qed.
#[global] Hint Resolve reads_output reads_input reads_input_at reads_node_of
  reads_hasType reads_typeOption reads_type reads_expect_TensorType : reads.

Lemma reads_value_stage v : reads (value_stage v).
Proof. unfold value_stage. solve_reads. Qed.
Lemma reads_offset v : reads (offset v).
Proof. unfold offset. solve_reads. Qed.
Lemma reads_uses v : reads (uses v).
Proof.
  unfold uses. apply reads_bind; [eauto with reads|].
  intros _ st a st' [= _ <-]. reflexivity.
Qed.
Lemma reads_g_attr n name : reads (g_attr n name).
Proof. unfold g_attr. solve_reads. Qed.
#[global] Hint Resolve reads_value_stage reads_offset reads_uses reads_g_attr : reads.

Lemma reads_this_graph : reads this_graph.
Proof. by intros st a st' [= _ <-]. Qed.
Lemma reads_index_count n : reads (index_count n).
Proof. by intros st a st' [= _ <-]. Qed.
#[global] Hint Resolve reads_this_graph reads_index_count : reads.

Lemma reads_isSimpleMap n : reads (isSimpleMap n).
Proof. unfold isSimpleMap. solve_reads. Qed.
Lemma reads_isCuda n : reads (isCuda n).
Proof. unfold isCuda. solve_reads. Qed.
Lemma reads_hasFloatType v : reads (hasFloatType v).
Proof. unfold hasFloatType. solve_reads. Qed.
#[global] Hint Resolve reads_isSimpleMap reads_isCuda reads_hasFloatType : reads.

Lemma reads_all_hasFloatType l : reads (all_hasFloatType l).
Proof. induction l; simpl; solve_reads. Qed.
#[global] Hint Resolve reads_all_hasFloatType : reads.
Lemma reads_allFloatIO n : reads (allFloatIO n).
Proof. unfold allFloatIO. solve_reads. Qed.
#[global] Hint Resolve reads_allFloatIO : reads.
Lemma reads_isFusable_with d n : (∀ m, reads (d m)) → reads (isFusable_with d n).
Proof. intros Hd. unfold isFusable_with. solve_reads. Qed.
Lemma reads_isFusable n : reads (isFusable n).
Proof. apply reads_isFusable_with. intros; apply reads_isCuda. Qed.
#[global] Hint Resolve reads_isFusable : reads.
Lemma reads_all_sizes_are sz l : reads (all_sizes_are sz l).
Proof. induction l; simpl; solve_reads. Qed.
#[global] Hint Resolve reads_all_sizes_are : reads.
Lemma reads_isFusableAsExitNode n : reads (isFusableAsExitNode n).
Proof. unfold isFusableAsExitNode. solve_reads. Qed.
Lemma reads_allUsersAreThisConsumer c p : reads (allUsersAreThisConsumer c p).
Proof. unfold allUsersAreThisConsumer. solve_reads. Qed.
Lemma reads_isChunk n : reads (isChunk n).
Proof. unfold isChunk. solve_reads. Qed.
Lemma reads_all_uses_in c l : reads (all_uses_in c l).
Proof. induction l; simpl; solve_reads. Qed.
Lemma reads_getSubgraph n : reads (getSubgraph n).
Proof. unfold getSubgraph. solve_reads. Qed.
#[global] Hint Resolve reads_isFusableAsExitNode reads_allUsersAreThisConsumer
  reads_isChunk reads_all_uses_in reads_getSubgraph : reads.

Lemma getNode_Ok n nd st : nodes st !! n = Some nd → getNode n st = Ok nd st.
Proof. intros H. unfold getNode. by rewrite H. Qed.
Lemma getValue_Ok v vl st : values st !! v = Some vl → getValue v st = Ok vl st.
Proof. intros H. unfold getValue. by rewrite H. Qed.
Lemma getGraph_Ok g G st : graphs st !! g = Some G → getGraph g st = Ok G st.
Proof. intros H. unfold getGraph. by rewrite H. Qed.

Lemma getNode_inv n nd st st' : getNode n st = Ok nd st' → nodes st !! n = Some nd ∧ st' = st.
Proof. unfold getNode. destruct (nodes st !! n); intros [=]; subst; auto. Qed.
Lemma getValue_inv v vl st st' : getValue v st = Ok vl st' → values st !! v = Some vl ∧ st' = st.
Proof. unfold getValue. destruct (values st !! v); intros [=]; subst; auto. Qed.
Lemma getGraph_inv g G st st' : getGraph g st = Ok G st' → graphs st !! g = Some G ∧ st' = st.
Proof. unfold getGraph. destruct (graphs st !! g); intros [=]; subst; auto. Qed.

(** Running a bind whose first computation is known. *)
Lemma bind_run {A B} (m : M A) (k : A → M B) st a st1 :
  m st = Ok a st1 → bind m k st = k a st1.
Proof. intros H. unfold bind. by rewrite H. Qed.

Lemma kind_Ok n nd st : nodes st !! n = Some nd → kind n st = Ok (n_kind nd) st.
Proof. intros H. unfold kind. by rewrite (bind_run _ _ _ _ _ (getNode_Ok _ _ _ H)). Qed.
Lemma inputs_Ok n nd st : nodes st !! n = Some nd → inputs n st = Ok (n_inputs nd) st.
Proof. intros H. unfold inputs. by rewrite (bind_run _ _ _ _ _ (getNode_Ok _ _ _ H)). Qed.
Lemma outputs_Ok n nd st : nodes st !! n = Some nd → outputs n st = Ok (n_outputs nd) st.
Proof. intros H. unfold outputs. by rewrite (bind_run _ _ _ _ _ (getNode_Ok _ _ _ H)). Qed.
Lemma stage_Ok n nd st : nodes st !! n = Some nd → stage n st = Ok (n_stage nd) st.
Proof. intros H. unfold stage. by rewrite (bind_run _ _ _ _ _ (getNode_Ok _ _ _ H)). Qed.

(** ** The op classifier *)

Lemma isSimpleMap_value n nd st :
  nodes st !! n = Some nd →
  isSimpleMap n st =
    Ok (bool_decide (n_kind nd ∈ simple_mappable)
        && (if bool_decide (n_kind nd = kmin) || bool_decide (n_kind nd = kmax)
            then bool_decide (length (n_inputs nd) = 2) else true)) st.
Proof.
  intros H. unfold isSimpleMap.
  rewrite (bind_run _ _ _ _ _ (kind_Ok _ _ _ H)).
  destruct (bool_decide (n_kind nd ∈ simple_mappable)); [|reflexivity].
  destruct (bool_decide (n_kind nd = kmin) || bool_decide (n_kind nd = kmax)); [|reflexivity].
  by rewrite (bind_run _ _ _ _ _ (inputs_Ok _ _ _ H)).
Qed.

(** C5, as stated, fails: a [min] node with three inputs is in the closed
    set and is not the one-input reduction form, yet [isSimpleMap] returns
    false on it. *)
Lemma isSimpleMap_as_stated_fails :
  let st := state_after graph_min3 in
  isSimpleMap 4 st = Ok false st
  ∧ isSimpleMap_as_stated <$> nodes st !! 4 = Some true.
Proof. vm_compute. split; reflexivity. Qed.

(** C5, amended: [isSimpleMap n] returns true if and only if the kind of [n]
    is in the closed simple-map set and, when the kind is [min] or [max],
    [n] has exactly two inputs. *)
Theorem isSimpleMap_spec n nd st :
  nodes st !! n = Some nd →
  ∃ b, isSimpleMap n st = Ok b st
       ∧ (b = true ↔
          n_kind nd ∈ simple_mappable
          ∧ (n_kind nd = kmin ∨ n_kind nd = kmax → length (n_inputs nd) = 2)).
Proof.
  intros H. eexists. split; [by apply isSimpleMap_value|].
  rewrite andb_true_iff, bool_decide_eq_true.
  destruct (decide (n_kind nd = kmin)) as [Hk|Hk].
  - rewrite (bool_decide_eq_true_2 _ Hk). simpl. rewrite bool_decide_eq_true. tauto.
  - rewrite (bool_decide_eq_false_2 _ Hk). simpl.
    destruct (decide (n_kind nd = kmax)) as [Hk'|Hk'].
    + rewrite (bool_decide_eq_true_2 _ Hk'). rewrite bool_decide_eq_true. tauto.
    + rewrite (bool_decide_eq_false_2 _ Hk'). tauto.
Qed.

Lemma isSimpleMap_spec_witness :
  let st := state_after graph_min3 in
  ∃ nd, nodes st !! 4 = Some nd
    ∧ ∃ b, isSimpleMap 4 st = Ok b st
       ∧ (b = true ↔
          n_kind nd ∈ simple_mappable
          ∧ (n_kind nd = kmin ∨ n_kind nd = kmax → length (n_inputs nd) = 2)).
Proof.
  intros st.
  assert (H : nodes st !! 4 = Some (mkNode kmin [3; 3; 3] [5] 0 [] 0))
    by (vm_compute; reflexivity).
  eexists. split; [exact H|]. exact (isSimpleMap_spec 4 _ st H).
Defined.

(** ** The fusability predicate *)

Lemma hasFloatType_value v st :
  is_Some (values st !! v) → hasFloatType v st = Ok (float_typed st v) st.
Proof.
  intros [vl H]. unfold hasFloatType, hasType, type, float_typed, bind, getValue, ret.
  rewrite H. destruct (v_type vl) as [[ty|tag]|] eqn:Ht; simpl; rewrite ?H, ?Ht; reflexivity.
Qed.

Lemma all_hasFloatType_value l st :
  Forall (λ w, is_Some (values st !! w)) l →
  all_hasFloatType l st = Ok (forallb (float_typed st) l) st.
Proof.
  induction 1 as [|w l Hw _ IH]; [reflexivity|]. simpl.
  rewrite (bind_run _ _ _ _ _ (hasFloatType_value _ _ Hw)).
  destruct (float_typed st w); simpl; [exact IH | reflexivity].
Qed.

Lemma allFloatIO_value n nd st :
  nodes st !! n = Some nd →
  Forall (λ w, is_Some (values st !! w)) (n_outputs nd ++ n_inputs nd) →
  allFloatIO n st = Ok (forallb (float_typed st) (n_outputs nd ++ n_inputs nd)) st.
Proof.
  intros H [Ho Hi]%Forall_app. unfold allFloatIO.
  rewrite (bind_run _ _ _ _ _ (outputs_Ok _ _ _ H)).
  rewrite (bind_run _ _ _ _ _ (all_hasFloatType_value _ _ Ho)).
  rewrite forallb_app.
  destruct (forallb (float_typed st) (n_outputs nd)); simpl; [|reflexivity].
  rewrite (bind_run _ _ _ _ _ (inputs_Ok _ _ _ H)).
  by apply all_hasFloatType_value.
Qed.

(** C10: a simple-map node one of whose input or output values has no type,
    or a type that is not a tensor type, is not fusable, and the answer is
    reached whatever the device test would do (it is not evaluated): it is
    [false] for every replacement of [isCuda], also one that raises. *)
Theorem isFusable_untyped_io n nd st v vl :
  nodes st !! n = Some nd →
  isSimpleMap n st = Ok true st →
  Forall (λ w, is_Some (values st !! w)) (n_outputs nd ++ n_inputs nd) →
  v ∈ n_outputs nd ++ n_inputs nd →
  values st !! v = Some vl →
  v_type vl ≫= cast_TensorType = None →
  isFusable n st = Ok false st
  ∧ ∀ onDevice, isFusable_with onDevice n st = Ok false st.
Proof.
  intros H Hmap Hall Hv Hvl Hty.
  assert (Hk : n_kind nd ≠ kFusionGroup).
  { intros Hk. rewrite (isSimpleMap_value _ _ _ H), Hk in Hmap. discriminate Hmap. }
  assert (Hfl : forallb (float_typed st) (n_outputs nd ++ n_inputs nd) = false).
  { apply not_true_is_false. intros Hf. rewrite forallb_forall in Hf.
    specialize (Hf v (proj1 (list_elem_of_In _ _) Hv)).
    unfold float_typed in Hf. rewrite Hvl in Hf.
    destruct (v_type vl) as [[ty|tag]|]; simpl in *; try done. }
  assert (Hgen : ∀ onDevice, isFusable_with onDevice n st = Ok false st).
  { intros onDevice. unfold isFusable_with.
    rewrite (bind_run _ _ _ _ _ (kind_Ok _ _ _ H)).
    rewrite (bool_decide_eq_false_2 _ Hk).
    rewrite (bind_run _ _ _ _ _ Hmap). simpl.
    rewrite (bind_run _ _ _ _ _ (allFloatIO_value _ _ _ H Hall)), Hfl. reflexivity. }
  split; [apply Hgen | exact Hgen].
Qed.

Lemma isFusable_untyped_io_witness :
  let st := state_after graph_untyped in
  isCuda 5 st = Raise (JitAssert "type_ != nullptr")
  ∧ isFusable 5 st = Ok false st
  ∧ ∀ onDevice, isFusable_with onDevice 5 st = Ok false st.
Proof.
  intros st. split; [vm_compute; reflexivity|].
  apply (isFusable_untyped_io 5 (mkNode kadd [3; 4] [6] 0 [] 0) st 4 (mkValue 2 None)).
  - vm_compute; reflexivity.
  - vm_compute; reflexivity.
  - repeat constructor; vm_compute; eauto.
  - set_solver.
  - vm_compute; reflexivity.
  - reflexivity.
Defined.


(** ** The multi-use test *)

Lemma forallb_pointwise {A} (f g : A → bool) l :
  (∀ x, f x = g x) → forallb f l = forallb g l.
Proof. intros H. induction l as [|x l IH]; simpl; [done | by rewrite H, IH]. Qed.

Lemma same_reading_refl st : same_reading st st.
Proof. by repeat split. Qed.

Lemma same_reading_trans st1 st2 st3 :
  same_reading st1 st2 → same_reading st2 st3 → same_reading st1 st3.
Proof.
  intros (?&?&?&?&?&I1) (?&?&?&?&?&I2).
  repeat split; try congruence. all: intros n; by rewrite I2, I1.
Qed.

Lemma index_at_spec n st :
  ∃ st', index_at n st = Ok (index_of_node st n) st' ∧ same_reading st st'.
Proof.
  unfold index_at, index_of_node.
  destruct (topological_index st !! n) as [i|] eqn:Hn.
  - eexists. split; [reflexivity | apply same_reading_refl].
  - eexists. split; [reflexivity|].
    repeat split. intros m. unfold index_of_node. simpl.
    destruct (decide (n = m)) as [->|Hne].
    + by rewrite lookup_insert_eq, Hn.
    + by rewrite lookup_insert_ne.
Qed.

Lemma use_allows_same_reading st st' c u :
  same_reading st st' → use_allows st' c u = use_allows st c u.
Proof. intros (_&_&_&_&_&H). unfold use_allows. by rewrite !H. Qed.

Lemma allUsersAreThisConsumerOrOccurAfterIt_loop_spec c us st :
  ∃ st', allUsersAreThisConsumerOrOccurAfterIt_loop c us st
           = Ok (forallb (use_allows st c) us) st'
         ∧ same_reading st st'.
Proof.
  revert st. induction us as [|u us IH]; intros st.
  - eexists. split; [reflexivity | apply same_reading_refl].
  - simpl. unfold use_allows at 1.
    destruct (decide (user u = c)) as [Hu|Hu].
    + rewrite (bool_decide_eq_false_2 (user u ≠ c)) by tauto.
      rewrite (bool_decide_eq_true_2 _ Hu). simpl. apply IH.
    + rewrite (bool_decide_eq_true_2 _ Hu), (bool_decide_eq_false_2 _ Hu). simpl.
      destruct (index_at_spec c st) as (st1 & E1 & R1).
      destruct (index_at_spec (user u) st1) as (st2 & E2 & R2).
      rewrite (bind_run _ _ _ _ _ E1), (bind_run _ _ _ _ _ E2).
      destruct R1 as (?&?&?&?&?&I1).
      rewrite (I1 (user u)).
      destruct (bool_decide (index_of_node st (user u) < index_of_node st c)); simpl.
      * eexists. split; [reflexivity|].
        eapply same_reading_trans; [|exact R2]. by repeat split.
      * destruct (IH st2) as (st3 & E3 & R3). exists st3. split.
        -- rewrite E3. f_equal. apply forallb_pointwise. intros u'.
           apply use_allows_same_reading.
           eapply same_reading_trans; [|exact R2]. by repeat split.
        -- eapply same_reading_trans; [|exact R3].
           eapply same_reading_trans; [|exact R2]. by repeat split.
Qed.

Lemma uses_Ok v st : is_Some (values st !! v) → uses v st = Ok (uses_of st v) st.
Proof. intros [vl H]. unfold uses, bind, getValue. by rewrite H. Qed.

Lemma node_of_Ok v vl st : values st !! v = Some vl → node_of v st = Ok (v_node vl) st.
Proof. intros H. unfold node_of, bind, getValue. by rewrite H. Qed.

(** C3: [shouldFuse(c, p)] returns true if and only if the producing node of
    [p] is fusable and every use of [p] is by [c] or by a user that does not
    sit strictly before [c] in the topological index. *)
Theorem shouldFuse_spec c p vl st :
  values st !! p = Some vl →
  returns_true (shouldFuse c p st)
  ↔ returns_true (isFusable (v_node vl) st)
    ∧ ∀ u, u ∈ uses_of st p →
        user u = c ∨ ¬ index_of_node st (user u) < index_of_node st c.
Proof.
  intros Hp. unfold shouldFuse.
  rewrite (bind_run _ _ _ _ _ (node_of_Ok _ _ _ Hp)).
  assert (Hall : (∀ u, u ∈ uses_of st p →
             user u = c ∨ ¬ index_of_node st (user u) < index_of_node st c)
           ↔ forallb (use_allows st c) (uses_of st p) = true).
  { rewrite forallb_forall. split; intros H u Hu.
    - apply list_elem_of_In in Hu. unfold use_allows.
      destruct (H u Hu) as [->|Hlt].
      + by rewrite bool_decide_eq_true_2.
      + rewrite (bool_decide_eq_false_2 _ Hlt). apply orb_true_r.
    - apply list_elem_of_In in Hu. specialize (H u Hu). unfold use_allows in H.
      apply orb_true_iff in H as [H|H].
      + left. by apply bool_decide_eq_true in H.
      + right. apply negb_true_iff in H. by apply bool_decide_eq_false in H. }
  rewrite Hall. clear Hall.
  unfold bind at 1.
  destruct (isFusable (v_node vl) st) as [f st1|e] eqn:Hf.
  - pose proof (reads_isFusable _ _ _ _ Hf) as ->.
    destruct f; simpl.
    + unfold allUsersAreThisConsumerOrOccurAfterIt.
      rewrite (bind_run _ _ _ _ _ (uses_Ok _ _ (ex_intro _ _ Hp))).
      destruct (allUsersAreThisConsumerOrOccurAfterIt_loop_spec c (uses_of st p) st)
        as (st' & E & _).
      rewrite E. split.
      * intros [st2 [= -> _]]. split; [by exists st | reflexivity].
      * intros [_ ->]. by exists st'.
    + split.
      * intros [st2 [=]].
      * intros [[st2 [=]] _].
  - split.
    + intros [st2 [=]].
    + intros [[st2 [=]] _].
Qed.

Lemma shouldFuse_spec_witness :
  let st := state_after graph_S3 in
  returns_true (shouldFuse 8 7 st)
  ↔ returns_true (isFusable 6 st)
    ∧ ∀ u, u ∈ uses_of st 7 →
        user u = 8 ∨ ¬ index_of_node st (user u) < index_of_node st 8.
Proof.
  intros st. apply (shouldFuse_spec 8 7 (mkValue 6 (Some float_cuda)) st).
  vm_compute. reflexivity.
Defined.


(** ** The chunk-distribution rewriter *)

(** Split a successful run of a bind into its two halves. *)
Tactic Notation "inv_bind" hyp(H) "as" ident(a) ident(s) ident(E) :=
  apply bind_Ok in H as (a & s & E & H).
Ltac inv_bind' H :=
  let a := fresh "a" in
  let s := fresh "s" in
  let E := fresh "E" in
  apply bind_Ok in H as (a & s & E & H).

(** C9: when [tryToMoveChunk] returns false the state of the fuser, hence the
    graph, is the one it was called in: all the pattern checks only read. *)
Theorem tryToMoveChunk_false_unchanged consumer producer st st' :
  tryToMoveChunk consumer producer st = Ok false st' → st' = st.
Proof.
  unfold tryToMoveChunk. intros H.
  inv_bind H as chunk s E. apply reads_node_of in E as ->.
  inv_bind H as c s E. apply reads_isChunk in E as ->.
  destruct c; simpl in H; [|by apply ret_Ok in H as [_ <-]].
  inv_bind H as pfc s E. apply reads_input in E as ->.
  inv_bind H as pn s E. apply reads_node_of in E as ->.
  inv_bind H as f s E. apply reads_isFusable in E as ->.
  inv_bind H as only s E.
  assert (s = st) as ->.
  { destruct f; simpl in E.
    - by apply reads_allUsersAreThisConsumer in E.
    - by apply ret_Ok in E as [_ <-]. }
  destruct only; simpl in H; [|by apply ret_Ok in H as [_ <-]].
  inv_bind H as sels s E'. apply reads_outputs in E' as ->.
  inv_bind H as mine s E'. apply reads_all_uses_in in E' as ->.
  destruct mine; simpl in H; [|by apply ret_Ok in H as [_ <-]].
  exfalso.
  repeat (inv_bind' H; try match type of H with
                           | (let '(_, _) := ?p in _) _ = _ => destruct p
                           end).
  by apply ret_Ok in H as [? _].
Qed.

Lemma tryToMoveChunk_false_unchanged_witness :
  ∃ st', tryToMoveChunk 10 7 (state_after graph_S3) = Ok false st'
         ∧ st' = state_after graph_S3.
Proof.
  eexists. split; [vm_compute; reflexivity|].
  apply (tryToMoveChunk_false_unchanged 10 7). vm_compute. reflexivity.
Defined.

(** C8 fails on the code: on a graph of simple maps without any fusion
    group, the first sweep builds the group [{add, neg}], whose second output
    serves the later use of [%1]; the second sweep merges [exp], [abs] and
    [mul] into one group, which becomes the only user of the split; the
    pattern checks of [tryToMoveChunk] then pass with the two-output group as
    the producer of the split, and the assertion fires. *)
Theorem chunk_assertion_fires :
  FuseGraph 100 (state_after graph_two_outputs)
  = Raise (JitAssert "producer_for_chunk_node->outputs().size() == 1").
Proof. vm_compute. reflexivity. Qed.


(** ** Weakest preconditions *)

Lemma wp_Ok {A} (m : M A) Q st a st' : wp m Q st → m st = Ok a st' → Q a st'.
Proof. unfold wp. intros H E. by rewrite E in H. Qed.

Lemma wp_intro {A} (m : M A) (Q : A → State → Prop) st :
  (∀ a st', m st = Ok a st' → Q a st') → wp m Q st.
Proof. unfold wp. destruct (m st); auto. Qed.

Lemma wp_ret {A} (a : A) (Q : A → State → Prop) st : Q a st → wp (ret a) Q st.
Proof. done. Qed.

Lemma wp_raise {A} e (Q : A → State → Prop) st : wp (raise e) Q st.
Proof. done. Qed.

Lemma wp_bind {A B} (m : M A) (k : A → M B) Q st :
  wp m (λ a st1, wp (k a) Q st1) st → wp (bind m k) Q st.
Proof. unfold wp, bind. by destruct (m st). Qed.

Lemma wp_mono {A} (m : M A) (Q Q' : A → State → Prop) st :
  wp m Q st → (∀ a st', Q a st' → Q' a st') → wp m Q' st.
Proof. unfold wp. destruct (m st); auto. Qed.

Lemma wp_reads {A} (m : M A) (Q : A → State → Prop) st :
  reads m → (∀ a, m st = Ok a st → Q a st) → wp m Q st.
Proof.
  intros Hr H. apply wp_intro. intros a st' E.
  pose proof (Hr _ _ _ E) as ->. by apply H.
Qed.

Lemma wp_modify f (Q : unit → State → Prop) st : Q tt (f st) → wp (modify f) Q st.
Proof. done. Qed.

Lemma wp_getNode n (Q : Node → State → Prop) st :
  (∀ nd, nodes st !! n = Some nd → Q nd st) → wp (getNode n) Q st.
Proof. intros H. unfold wp, getNode. destruct (nodes st !! n); auto. Qed.
Lemma wp_getValue v (Q : Value → State → Prop) st :
  (∀ vl, values st !! v = Some vl → Q vl st) → wp (getValue v) Q st.
Proof. intros H. unfold wp, getValue. destruct (values st !! v); auto. Qed.
Lemma wp_getGraph g (Q : Graph → State → Prop) st :
  (∀ G, graphs st !! g = Some G → Q G st) → wp (getGraph g) Q st.
Proof. intros H. unfold wp, getGraph. destruct (graphs st !! g); auto. Qed.

Lemma wp_liftOpt {A} (o : option A) e (Q : A → State → Prop) st :
  (∀ a, o = Some a → Q a st) → wp (liftOpt o e) Q st.
Proof. intros H. destruct o; simpl; [by apply H | done]. Qed.

Lemma wp_JIT_ASSERT b w (Q : unit → State → Prop) st :
  (b = true → Q tt st) → wp (JIT_ASSERT b w) Q st.
Proof. intros H. destruct b; simpl; [by apply H | done]. Qed.

Lemma wp_fresh (Q : nat → State → Prop) st :
  Q (next st) (set_next (S (next st)) st) → wp fresh Q st.
Proof. done. Qed.

Lemma wp_forM {A} (I : State → Prop) (l : list A) (f : A → M unit) st :
  I st →
  (∀ x st1, x ∈ l → I st1 → wp (f x) (λ _ st2, I st2) st1) →
  wp (forM l f) (λ _ st', I st') st.
Proof.
  revert st. induction l as [|x l IH]; intros st HI Hf; simpl.
  - by apply wp_ret.
  - apply wp_bind. eapply wp_mono; [apply Hf; [set_solver | done]|].
    intros ? st1 H1. apply IH; [done|]. intros y st2 Hy. apply Hf. set_solver.
Qed.

(** One step of symbolic execution. *)
Ltac wp_step :=
  lazymatch goal with
  | |- wp (bind _ _) _ _ => apply wp_bind
  | |- wp (ret _) _ _ => apply wp_ret
  | |- wp (raise _) _ _ => apply wp_raise
  | |- wp (modify _) _ _ => apply wp_modify
  | |- wp (getNode _) _ _ => apply wp_getNode; intros ? ?
  | |- wp (getValue _) _ _ => apply wp_getValue; intros ? ?
  | |- wp (getGraph _) _ _ => apply wp_getGraph; intros ? ?
  | |- wp (liftOpt _ _) _ _ => apply wp_liftOpt; intros ? ?
  | |- wp (JIT_ASSERT _ _) _ _ => apply wp_JIT_ASSERT; intros ?
  | |- wp fresh _ _ => apply wp_fresh
  | |- wp (putNode _ _) _ _ => apply wp_modify
  | |- wp (putValue _ _) _ _ => apply wp_modify
  | |- wp (putGraph _ _) _ _ => apply wp_modify
  | |- wp (if ?b then _ else _) _ _ => destruct b eqn:?
  | |- wp (match ?x with _ => _ end) _ _ => destruct x eqn:?
  | |- wp (let '(_, _) := ?p in _) _ _ => destruct p eqn:?
  end.
Ltac wp_steps := repeat wp_step.


Lemma steps_wp (R : relation State) {A} (m : M A) :
  steps R m ↔ ∀ st, wp m (λ _ st', R st st') st.
Proof.
  split.
  - intros H st. apply wp_intro. intros a st'. apply H.
  - intros H st a st' E. exact (wp_Ok _ _ _ _ _ (H st) E).
Qed.

Lemma steps_ret (R : relation State) `{!Reflexive R} {A} (a : A) : steps R (ret a).
Proof. intros st b st' [_ <-]%ret_Ok. reflexivity. Qed.

Lemma steps_raise (R : relation State) {A} e : steps R (@raise A e).
Proof. intros st b st' H. discriminate H. Qed.

Lemma steps_reads (R : relation State) `{!Reflexive R} {A} (m : M A) :
  reads m → steps R m.
Proof. intros Hr st a st' E. apply Hr in E as ->. reflexivity. Qed.

Lemma steps_bind (R : relation State) `{!Transitive R} {A B} (m : M A) (k : A → M B) :
  steps R m → (∀ a, steps R (k a)) → steps R (bind m k).
Proof.
  intros Hm Hk st b st' (a & st1 & E1 & E2)%bind_Ok.
  etrans; [exact (Hm _ _ _ E1) | exact (Hk _ _ _ _ E2)].
Qed.

Lemma steps_forM (R : relation State) `{!PreOrder R} {A} (l : list A) (f : A → M unit) :
  (∀ x, steps R (f x)) → steps R (forM l f).
Proof.
  intros Hf. induction l as [|x l IH]; simpl.
  - apply steps_ret, _.
  - apply steps_bind; [apply _ | apply Hf | intros _; exact IH].
Qed.

Lemma steps_mapM (R : relation State) `{!PreOrder R} {A B} (f : A → M B) (l : list A) :
  (∀ x, steps R (f x)) → steps R (mapM f l).
Proof.
  intros Hf. induction l as [|x l IH]; simpl.
  - apply steps_ret, _.
  - apply steps_bind; [apply _ | apply Hf | intros y].
    apply steps_bind; [apply _ | exact IH | intros ys]. apply steps_ret, _.
Qed.

Create HintDb steps discriminated.

(** Decompose a goal [steps R m] along the structure of [m]; calls are
    closed by the hint database or because they only read. *)
Ltac steps_step :=
  lazymatch goal with
  | |- steps _ (bind _ _) => apply steps_bind; [apply _ | | intros ? ]
  | |- steps _ (ret _) => apply steps_ret; apply _
  | |- steps _ (raise _) => apply steps_raise
  | |- steps _ (if ?b then _ else _) => destruct b
  | |- steps _ (match ?x with _ => _ end) => destruct x
  | |- steps _ (let '(_, _) := ?p in _) => destruct p
  | |- steps _ (forM _ _) => apply steps_forM; [apply _ | intros ?]
  | |- steps _ (mapM _ _) => apply steps_mapM; [apply _ | intros ?]
  | |- steps _ _ =>
      first [ solve [ eauto with steps ]
            | solve [ apply steps_reads; [apply _ | solve_reads ] ] ]
  end.
Ltac solve_steps := repeat steps_step.

(** *** Static information *)

#[global] Instance static_preorder : PreOrder static.
Proof.
  split.
  - intros st. repeat split; eauto.
  - intros st1 st2 st3 (Hn1 & Hg1 & Hs1 & Hp1 & Hq1 & Hv1)
      (Hn2 & Hg2 & Hs2 & Hp2 & Hq2 & Hv2).
    repeat split.
    + lia.
    + congruence.
    + intros m nd3 E3 Hm.
      destruct (Hs2 m nd3 E3 ltac:(lia)) as (nd2 & E2 & ? & ? & ?).
      destruct (Hs1 m nd2 E2 Hm) as (nd1 & E1 & ? & ? & ?).
      exists nd1. repeat split; congruence.
    + intros g G1 E1 Hg.
      destruct (Hp1 g G1 E1 Hg) as (G2 & E2 & ? & ?).
      destruct (Hp2 g G2 E2 ltac:(lia)) as (G3 & E3 & ? & ?).
      exists G3. repeat split; congruence.
    + intros g G3 E3 Hg.
      destruct (Hq2 g G3 E3 ltac:(lia)) as [G2 E2].
      exact (Hq1 g G2 E2 Hg).
    + intros v vl3 E3 Hv.
      destruct (Hv2 v vl3 E3 ltac:(lia)) as (vl2 & E2 & ?).
      destruct (Hv1 v vl2 E2 Hv) as (vl1 & E1 & ?).
      exists vl1. split; congruence.
Qed.

(** Close the node clause of [static] after an update of the node map. *)
Ltac static_nodes :=
  let m := fresh "m" in
  let nd' := fresh "nd'" in
  let Hm := fresh "Hm" in
  let Hlt := fresh "Hlt" in
  intros m nd' Hm Hlt; simpl in *;
  repeat match type of Hm with
         | <[?n := _]> _ !! m = Some _ =>
             rewrite lookup_insert in Hm; case_decide; simplify_eq
         | delete ?n _ !! m = Some _ =>
             rewrite lookup_delete in Hm; case_decide; simplify_eq
         | (_ <$> _) !! m = Some _ =>
             rewrite lookup_fmap in Hm;
             apply fmap_Some in Hm as (? & Hm & ->)
         end;
  try lia; eauto 10.

Ltac static_graphs :=
  let g := fresh "g" in
  let G := fresh "G" in
  let Hg := fresh "Hg" in
  let Hlt := fresh "Hlt" in
  intros g G Hg Hlt; simpl in *;
  repeat (rewrite lookup_insert; case_decide; simplify_eq);
  repeat (rewrite lookup_insert in Hg; case_decide; simplify_eq);
  try lia; eauto 10.

Ltac static_values :=
  let v := fresh "v" in
  let vl' := fresh "vl'" in
  let Hv := fresh "Hv" in
  let Hlt := fresh "Hlt" in
  intros v vl' Hv Hlt; simpl in *;
  repeat match type of Hv with
         | <[?n := _]> _ !! v = Some _ =>
             rewrite lookup_insert in Hv; case_decide; simplify_eq
         | delete ?n _ !! v = Some _ =>
             rewrite lookup_delete in Hv; case_decide; simplify_eq
         end;
  try lia; eauto 10.

Ltac static_go :=
  unfold static; simpl; split_and!;
  [ try lia | try done | static_nodes | static_graphs | static_graphs
  | static_values ].

(** A primitive of the IR adapter keeps the static information. *)
Ltac static_prim :=
  apply steps_wp; intros ?; wp_steps; static_go.

Lemma static_addOutput n : steps static (addOutput n).
Proof. unfold addOutput. static_prim. Qed.
Lemma static_addInput n v : steps static (addInput n v).
Proof. unfold addInput. static_prim. Qed.
Lemma static_removeInput n i : steps static (removeInput n i).
Proof. unfold removeInput. static_prim. Qed.
Lemma static_copyAttributes n from : steps static (copyAttributes n from).
Proof. unfold copyAttributes. static_prim. Qed.
Lemma static_setType v t : steps static (setType v t).
Proof. unfold setType. static_prim. Qed.
Lemma static_replaceAllUsesWith v new : steps static (replaceAllUsesWith v new).
Proof. unfold replaceAllUsesWith. static_prim. Qed.
Lemma static_insertBefore n m : steps static (insertBefore n m).
Proof. unfold insertBefore. static_prim. Qed.
Lemma static_Node_insertAfter n m : steps static (Node_insertAfter n m).
Proof. unfold Node_insertAfter. static_prim. Qed.
Lemma static_prependNode g n : steps static (prependNode g n).
Proof. unfold prependNode. static_prim. Qed.
Lemma static_appendNode g n : steps static (appendNode g n).
Proof. unfold appendNode. static_prim. Qed.
Lemma static_setStage g s : steps static (setStage g s).
Proof. unfold setStage. static_prim. Qed.
Lemma static_index_at n : steps static (index_at n).
Proof. intros st a st'. unfold index_at. destruct (_ !! _); intros [= <- <-]; static_go. Qed.
Lemma static_index_set n i : steps static (index_set n i).
Proof. unfold index_set. static_prim. Qed.
#[global] Hint Resolve static_addOutput static_addInput static_removeInput
  static_copyAttributes static_setType static_replaceAllUsesWith
  static_insertBefore static_Node_insertAfter static_prependNode
  static_appendNode static_setStage static_index_at static_index_set : steps.

Lemma static_modify_values o : steps static (modify (set_values (delete o))).
Proof. static_prim. Qed.
Lemma static_modify_delete_node n : steps static (modify (set_nodes (delete n))).
Proof. static_prim. Qed.
#[global] Hint Resolve static_modify_values static_modify_delete_node : steps.

Lemma static_copyMetadata v from : steps static (copyMetadata v from).
Proof. unfold copyMetadata. solve_steps. Qed.
#[global] Hint Resolve static_copyMetadata : steps.

Lemma static_replaceAllUsesWith_each outs news :
  steps static (replaceAllUsesWith_each outs news).
Proof.
  revert news. induction outs as [|o outs IH]; intros [|w news]; simpl; solve_steps.
Qed.
#[global] Hint Resolve static_replaceAllUsesWith_each : steps.
Lemma static_replaceAllUsesWith_node n m : steps static (replaceAllUsesWith_node n m).
Proof. unfold replaceAllUsesWith_node. solve_steps. Qed.

Lemma static_putNode_outputs n nd outs st :
  nodes st !! n = Some nd → static st (set_nodes <[n := with_outputs outs nd]> st).
Proof. intros H. static_go. Qed.

Lemma static_eraseOutput n i : steps static (eraseOutput n i).
Proof.
  unfold eraseOutput. apply steps_wp. intros st. wp_steps.
  apply wp_reads; [solve_reads|]. intros us _. wp_steps. static_go.
Qed.
#[global] Hint Resolve static_replaceAllUsesWith_node static_eraseOutput : steps.

Lemma static_eraseOutputs_down n k : steps static (eraseOutputs_down n k).
Proof. induction k; simpl; solve_steps. Qed.
#[global] Hint Resolve static_eraseOutputs_down : steps.

(** Run a call whose effect is known as a relation. *)
Tactic Notation "wp_call" constr(L) "as" ident(a) ident(s) ident(H) :=
  eapply wp_mono; [apply steps_wp; apply L | intros a s H; cbv beta in H].

Lemma static_destroy n : steps static (destroy n).
Proof.
  unfold destroy. apply steps_wp. intros st. wp_steps.
  wp_call static_eraseOutputs_down as u st1 H1. wp_steps.
  etrans; [exact H1|]. static_go.
Qed.
Lemma static_addOutputs n k : steps static (addOutputs n k).
Proof. induction k; simpl; solve_steps. Qed.
#[global] Hint Resolve static_destroy static_addOutputs : steps.

Lemma static_fresh_node n nd st :
  next st ≤ n → static st (set_nodes <[n := nd]> st).
Proof. intros H. static_go. Qed.

Lemma static_create g k num : steps static (create g k num).
Proof.
  unfold create. apply steps_wp. intros st. wp_steps.
  wp_call static_addOutputs as u st1 H1. wp_steps. etrans; [|exact H1]. static_go.
Qed.
#[global] Hint Resolve static_create : steps.

Lemma static_createClone g n value_map :
  (∀ k, steps static (value_map k)) → steps static (createClone g n value_map).
Proof. intros H. unfold createClone. solve_steps. Qed.

Lemma static_newGraph : steps static newGraph.
Proof.
  unfold newGraph. apply steps_wp. intros st. wp_steps.
  wp_call static_create as r st1 H1.
  wp_step. wp_call static_create as p st2 H2.
  wp_steps.
  assert (H0 : static st (set_graphs <[next st := mkGraph 0 0 [] 0]> (set_next (S (next st)) st)))
    by static_go.
  pose proof (transitivity H0 (transitivity H1 H2)) as (Hn & Hg & Hs & Hp & Hq & Hv).
  unfold static. simpl. split_and!; try done.
  - intros g G Hg' Hlt. destruct (Hp g G Hg' Hlt) as (G' & HG' & ? & ?).
    rewrite lookup_insert. case_decide; [lia|]. eauto.
  - intros g G' Hg' Hlt. rewrite lookup_insert in Hg'. case_decide; [lia|]. eauto.
Qed.
#[global] Hint Resolve static_newGraph : steps.

Lemma static_createFusionGroup g : steps static (createFusionGroup g).
Proof.
  unfold createFusionGroup. apply steps_wp. intros st. wp_steps.
  wp_call static_create as n st1 H1.
  wp_step. wp_call static_newGraph as sg st2 H2.
  wp_steps. etrans; [exact H1|]. etrans; [exact H2|]. static_go.
Qed.

Lemma static_Graph_addInput g : steps static (Graph_addInput g).
Proof. unfold Graph_addInput. solve_steps. Qed.
Lemma static_registerOutput g v : steps static (registerOutput g v).
Proof. unfold registerOutput. solve_steps. Qed.
Lemma static_eraseInput g i : steps static (eraseInput g i).
Proof. unfold eraseInput. solve_steps. Qed.
#[global] Hint Resolve static_createFusionGroup static_Graph_addInput
  static_registerOutput static_eraseInput : steps.

Lemma reads_graph_inputs g : reads (graph_inputs g).
Proof. unfold graph_inputs. solve_reads. Qed.
Lemma reads_graph_outputs g : reads (graph_outputs g).
Proof. unfold graph_outputs. solve_reads. Qed.
Lemma reads_graph_nodes g : reads (graph_nodes g).
Proof. unfold graph_nodes. solve_reads. Qed.
Lemma reads_return_node g : reads (return_node g).
Proof. unfold return_node. solve_reads. Qed.
Lemma reads_graph_stage g : reads (graph_stage g).
Proof. unfold graph_stage. solve_reads. Qed.
Lemma reads_rbegin g : reads (rbegin g).
Proof. unfold rbegin. solve_reads. Qed.
#[global] Hint Resolve reads_graph_inputs reads_graph_outputs reads_graph_nodes
  reads_return_node reads_graph_stage reads_rbegin : reads.

Lemma reads_reverse_next n : reads (reverse_next n).
Proof. unfold reverse_next. solve_reads. Qed.
#[global] Hint Resolve reads_reverse_next : reads.

Lemma reads_zip_into m keys vals : reads (zip_into m keys vals).
Proof.
  revert m vals. induction keys as [|k keys IH]; intros m [|v vals]; simpl;
    eauto with reads.
Qed.
#[global] Hint Resolve reads_zip_into : reads.

Lemma static_allUsersAreThisConsumerOrOccurAfterIt_loop c us :
  steps static (allUsersAreThisConsumerOrOccurAfterIt_loop c us).
Proof. induction us as [|u us IH]; simpl; solve_steps. Qed.
#[global] Hint Resolve static_allUsersAreThisConsumerOrOccurAfterIt_loop : steps.
Lemma static_shouldFuse c p : steps static (shouldFuse c p).
Proof. unfold shouldFuse, allUsersAreThisConsumerOrOccurAfterIt. solve_steps. Qed.

Lemma static_mergeNodeIntoGroup_inputs group subgraph m ins :
  steps static (mergeNodeIntoGroup_inputs group subgraph m ins).
Proof. revert m. induction ins as [|i ins IH]; intros m; simpl; solve_steps. Qed.
#[global] Hint Resolve static_shouldFuse static_mergeNodeIntoGroup_inputs : steps.

Lemma static_createClone_map g n (m : gmap nat nat) e :
  steps static (createClone g n (λ k, liftOpt (m !! k) e)).
Proof. apply static_createClone. intros k. solve_steps. Qed.
#[global] Hint Resolve static_createClone_map : steps.

Lemma static_mergeNodeIntoGroup group n : steps static (mergeNodeIntoGroup group n).
Proof. unfold mergeNodeIntoGroup. solve_steps. Qed.
#[global] Hint Resolve static_mergeNodeIntoGroup : steps.

Lemma static_mergeFusionGroups_clone g pg m inner :
  steps static (mergeFusionGroups_clone g pg m inner).
Proof. revert m. induction inner as [|i inner IH]; intros m; simpl; solve_steps. Qed.
Lemma static_mergeFusionGroups_reroute pg m i outs :
  steps static (mergeFusionGroups_reroute pg m i outs).
Proof. revert i. induction outs as [|o outs IH]; intros i; simpl; solve_steps. Qed.
Lemma static_mergeFusionGroups_outputs cg cs merged i outs :
  steps static (mergeFusionGroups_outputs cg cs merged i outs).
Proof. revert i. induction outs as [|o outs IH]; intros i; simpl; solve_steps. Qed.
#[global] Hint Resolve static_mergeFusionGroups_clone static_mergeFusionGroups_reroute
  static_mergeFusionGroups_outputs : steps.
Lemma static_mergeFusionGroups_inline cg cs temps :
  steps static (mergeFusionGroups_inline cg cs temps).
Proof. induction temps as [|t temps IH]; simpl; solve_steps. Qed.
#[global] Hint Resolve static_mergeFusionGroups_inline : steps.
Lemma static_mergeFusionGroups cg pg : steps static (mergeFusionGroups cg pg).
Proof. unfold mergeFusionGroups. solve_steps. Qed.
Lemma static_createSingletonFusionGroup n : steps static (createSingletonFusionGroup n).
Proof. unfold createSingletonFusionGroup. solve_steps. Qed.
Lemma static_insertAfter n after : steps static (insertAfter n after).
Proof. unfold insertAfter. solve_steps. Qed.
#[global] Hint Resolve static_mergeFusionGroups static_createSingletonFusionGroup
  static_insertAfter : steps.
Lemma static_insertAt ip n : steps static (insertAt ip n).
Proof. unfold insertAt. solve_steps. Qed.
Lemma static_fuse c p : steps static (fuse c p).
Proof. unfold fuse. solve_steps. Qed.
#[global] Hint Resolve static_insertAt static_fuse : steps.

Lemma static_tryToMoveChunk_selects ic ty sels :
  steps static (tryToMoveChunk_selects ic ty sels).
Proof. induction sels as [|s sels IH]; simpl; solve_steps. Qed.
#[global] Hint Resolve static_tryToMoveChunk_selects : steps.
Lemma static_tryToMoveChunk_operands g chunk ip ins :
  steps static (tryToMoveChunk_operands g chunk ip ins).
Proof. revert ip. induction ins as [|i ins IH]; intros ip; simpl; solve_steps. Qed.
Lemma static_tryToMoveChunk_ops g pn ip rows sels :
  steps static (tryToMoveChunk_ops g pn ip rows sels).
Proof. revert ip. induction sels as [|s sels IH]; intros ip; simpl; solve_steps. Qed.
#[global] Hint Resolve static_tryToMoveChunk_operands static_tryToMoveChunk_ops : steps.
Lemma static_tryToMoveChunk c p : steps static (tryToMoveChunk c p).
Proof. unfold tryToMoveChunk. solve_steps. Qed.
#[global] Hint Resolve static_tryToMoveChunk : steps.
Lemma static_scanNode_producers c ps : steps static (scanNode_producers c ps).
Proof. induction ps as [|p ps IH]; simpl; solve_steps. Qed.
#[global] Hint Resolve static_scanNode_producers : steps.
Lemma static_scanNode c : steps static (scanNode c).
Proof. unfold scanNode. solve_steps. Qed.


(** *** No deallocation *)

#[global] Instance keeps_preorder : PreOrder keeps.
Proof. split; [by intros st m | intros st1 st2 st3 H1 H2 m Hm; eauto]. Qed.

Ltac keeps_go :=
  let m := fresh "m" in
  let Hm := fresh "Hm" in
  unfold keeps; simpl; intros m Hm;
  repeat first [ rewrite lookup_insert; case_decide; simplify_eq
               | rewrite lookup_fmap ];
  try done; try (destruct Hm as [? ->]; done).

Ltac keeps_prim := apply steps_wp; intros ?; wp_steps; keeps_go.

Lemma keeps_addOutput n : steps keeps (addOutput n).
Proof. unfold addOutput. keeps_prim. Qed.
Lemma keeps_addInput n v : steps keeps (addInput n v).
Proof. unfold addInput. keeps_prim. Qed.
Lemma keeps_removeInput n i : steps keeps (removeInput n i).
Proof. unfold removeInput. keeps_prim. Qed.
Lemma keeps_copyAttributes n from : steps keeps (copyAttributes n from).
Proof. unfold copyAttributes. keeps_prim. Qed.
Lemma keeps_setType v t : steps keeps (setType v t).
Proof. unfold setType. keeps_prim. Qed.
Lemma keeps_replaceAllUsesWith v new : steps keeps (replaceAllUsesWith v new).
Proof. unfold replaceAllUsesWith. keeps_prim. Qed.
Lemma keeps_insertBefore n m : steps keeps (insertBefore n m).
Proof. unfold insertBefore. keeps_prim. Qed.
Lemma keeps_Node_insertAfter n m : steps keeps (Node_insertAfter n m).
Proof. unfold Node_insertAfter. keeps_prim. Qed.
Lemma keeps_prependNode g n : steps keeps (prependNode g n).
Proof. unfold prependNode. keeps_prim. Qed.
Lemma keeps_setStage g s : steps keeps (setStage g s).
Proof. unfold setStage. keeps_prim. Qed.
Lemma keeps_index_at n : steps keeps (index_at n).
Proof. intros st a st'. unfold index_at. destruct (_ !! _); intros [= <- <-]; keeps_go. Qed.
Lemma keeps_index_set n i : steps keeps (index_set n i).
Proof. unfold index_set. keeps_prim. Qed.
#[global] Hint Resolve keeps_addOutput keeps_addInput keeps_removeInput
  keeps_copyAttributes keeps_setType keeps_replaceAllUsesWith
  keeps_insertBefore keeps_Node_insertAfter keeps_prependNode
  keeps_setStage keeps_index_at keeps_index_set : steps.

Lemma keeps_copyMetadata v from : steps keeps (copyMetadata v from).
Proof. unfold copyMetadata. solve_steps. Qed.
#[global] Hint Resolve keeps_copyMetadata : steps.
Lemma keeps_replaceAllUsesWith_each outs news :
  steps keeps (replaceAllUsesWith_each outs news).
Proof.
  revert news. induction outs as [|o outs IH]; intros [|w news]; simpl; solve_steps.
Qed.
#[global] Hint Resolve keeps_replaceAllUsesWith_each : steps.
Lemma keeps_replaceAllUsesWith_node n m : steps keeps (replaceAllUsesWith_node n m).
Proof. unfold replaceAllUsesWith_node. solve_steps. Qed.
Lemma keeps_eraseOutput n i : steps keeps (eraseOutput n i).
Proof.
  unfold eraseOutput. apply steps_wp. intros st. wp_steps.
  apply wp_reads; [solve_reads|]. intros us _. wp_steps. keeps_go.
Qed.
Lemma keeps_addOutputs n k : steps keeps (addOutputs n k).
Proof. induction k; simpl; solve_steps. Qed.
#[global] Hint Resolve keeps_replaceAllUsesWith_node keeps_eraseOutput
  keeps_addOutputs : steps.
Lemma keeps_create g k num : steps keeps (create g k num).
Proof.
  unfold create. apply steps_wp. intros st. wp_steps.
  wp_call keeps_addOutputs as u st1 H1. wp_steps. etrans; [|exact H1]. keeps_go.
Qed.
#[global] Hint Resolve keeps_create : steps.
Lemma keeps_createClone_map g n (m : gmap nat nat) e :
  steps keeps (createClone g n (λ k, liftOpt (m !! k) e)).
Proof. unfold createClone. solve_steps. Qed.
Lemma keeps_newGraph : steps keeps newGraph.
Proof.
  unfold newGraph. apply steps_wp. intros st. wp_steps.
  wp_call keeps_create as r st1 H1.
  wp_step. wp_call keeps_create as p st2 H2.
  wp_steps. etrans; [|etrans; [exact H1|]]; [keeps_go|]. etrans; [exact H2|]. keeps_go.
Qed.
#[global] Hint Resolve keeps_createClone_map keeps_newGraph : steps.
Lemma keeps_createFusionGroup g : steps keeps (createFusionGroup g).
Proof.
  unfold createFusionGroup. apply steps_wp. intros st. wp_steps.
  wp_call keeps_create as n st1 H1.
  wp_step. wp_call keeps_newGraph as sg st2 H2.
  wp_steps. etrans; [exact H1|]. etrans; [exact H2|]. keeps_go.
Qed.
Lemma keeps_Graph_addInput g : steps keeps (Graph_addInput g).
Proof. unfold Graph_addInput. solve_steps. Qed.
Lemma keeps_registerOutput g v : steps keeps (registerOutput g v).
Proof. unfold registerOutput. solve_steps. Qed.
Lemma keeps_eraseInput g i : steps keeps (eraseInput g i).
Proof. unfold eraseInput. solve_steps. Qed.
#[global] Hint Resolve keeps_createFusionGroup keeps_Graph_addInput
  keeps_registerOutput keeps_eraseInput : steps.

Lemma keeps_mergeNodeIntoGroup_inputs group subgraph m ins :
  steps keeps (mergeNodeIntoGroup_inputs group subgraph m ins).
Proof. revert m. induction ins as [|i ins IH]; intros m; simpl; solve_steps. Qed.
#[global] Hint Resolve keeps_mergeNodeIntoGroup_inputs : steps.
Lemma keeps_mergeNodeIntoGroup group n : steps keeps (mergeNodeIntoGroup group n).
Proof. unfold mergeNodeIntoGroup. solve_steps. Qed.
Lemma keeps_mergeFusionGroups_outputs cg cs merged i outs :
  steps keeps (mergeFusionGroups_outputs cg cs merged i outs).
Proof. revert i. induction outs as [|o outs IH]; intros i; simpl; solve_steps. Qed.
#[global] Hint Resolve keeps_mergeNodeIntoGroup keeps_mergeFusionGroups_outputs : steps.
Lemma keeps_allUsersAreThisConsumerOrOccurAfterIt_loop c us :
  steps keeps (allUsersAreThisConsumerOrOccurAfterIt_loop c us).
Proof. induction us as [|u us IH]; simpl; solve_steps. Qed.
#[global] Hint Resolve keeps_allUsersAreThisConsumerOrOccurAfterIt_loop : steps.
Lemma keeps_shouldFuse c p : steps keeps (shouldFuse c p).
Proof. unfold shouldFuse, allUsersAreThisConsumerOrOccurAfterIt. solve_steps. Qed.
#[global] Hint Resolve keeps_shouldFuse : steps.


(** *** Handles stay below the allocation counter *)

#[global] Instance keeps_bounded_preorder : PreOrder keeps_bounded.
Proof.
  split; [by intros st | intros st1 st2 st3 [L1 H1] [L2 H2]].
  split; [lia | auto].
Qed.

Ltac bounded_clause :=
  let x := fresh "x" in
  let y := fresh "y" in
  let Hx := fresh "Hx" in
  intros x [y Hx]; simpl in *;
  repeat match type of Hx with
         | <[_ := _]> _ !! x = Some _ =>
             rewrite lookup_insert in Hx; case_decide; simplify_eq
         | delete _ _ !! x = Some _ =>
             rewrite lookup_delete in Hx; case_decide; simplify_eq
         | (_ <$> _) !! x = Some _ =>
             rewrite lookup_fmap in Hx;
             apply fmap_Some in Hx as (? & Hx & ->)
         end;
  try lia;
  try match goal with
      | H : ∀ n, is_Some (?m !! n) → _, E : ?m !! ?k = Some _ |- _ =>
          pose proof (H k (mk_is_Some _ _ E)); lia
      end.

Ltac bounded_go :=
  let Hn := fresh "Hn" in
  let Hv := fresh "Hv" in
  let Hg := fresh "Hg" in
  unfold keeps_bounded, bounded; simpl;
  repeat match goal with H : _ ∧ _ |- _ => destruct H end;
  split; [try lia | intros (Hn & Hv & Hg); split_and!; bounded_clause].

Ltac bounded_prim := apply steps_wp; intros ?; wp_steps; bounded_go.

Lemma bounded_addOutput n : steps keeps_bounded (addOutput n).
Proof. unfold addOutput. bounded_prim. Qed.
Lemma bounded_addInput n v : steps keeps_bounded (addInput n v).
Proof. unfold addInput. bounded_prim. Qed.
Lemma bounded_removeInput n i : steps keeps_bounded (removeInput n i).
Proof. unfold removeInput. bounded_prim. Qed.
Lemma bounded_copyAttributes n from : steps keeps_bounded (copyAttributes n from).
Proof. unfold copyAttributes. bounded_prim. Qed.
Lemma bounded_setType v t : steps keeps_bounded (setType v t).
Proof. unfold setType. bounded_prim. Qed.
Lemma bounded_replaceAllUsesWith v new : steps keeps_bounded (replaceAllUsesWith v new).
Proof. unfold replaceAllUsesWith. bounded_prim. Qed.
Lemma bounded_insertBefore n m : steps keeps_bounded (insertBefore n m).
Proof. unfold insertBefore. bounded_prim. Qed.
Lemma bounded_Node_insertAfter n m : steps keeps_bounded (Node_insertAfter n m).
Proof. unfold Node_insertAfter. bounded_prim. Qed.
Lemma bounded_prependNode g n : steps keeps_bounded (prependNode g n).
Proof. unfold prependNode. bounded_prim. Qed.
Lemma bounded_appendNode g n : steps keeps_bounded (appendNode g n).
Proof. unfold appendNode. bounded_prim. Qed.
Lemma bounded_setStage g s : steps keeps_bounded (setStage g s).
Proof. unfold setStage. bounded_prim. Qed.
Lemma bounded_index_at n : steps keeps_bounded (index_at n).
Proof. intros st a st'. unfold index_at. destruct (_ !! _); intros [= <- <-]; bounded_go. Qed.
Lemma bounded_index_set n i : steps keeps_bounded (index_set n i).
Proof. unfold index_set. bounded_prim. Qed.
#[global] Hint Resolve bounded_addOutput bounded_addInput bounded_removeInput
  bounded_copyAttributes bounded_setType bounded_replaceAllUsesWith
  bounded_insertBefore bounded_Node_insertAfter bounded_prependNode
  bounded_appendNode bounded_setStage bounded_index_at bounded_index_set : steps.

Lemma bounded_copyMetadata v from : steps keeps_bounded (copyMetadata v from).
Proof. unfold copyMetadata. solve_steps. Qed.
#[global] Hint Resolve bounded_copyMetadata : steps.
Lemma bounded_replaceAllUsesWith_each outs news :
  steps keeps_bounded (replaceAllUsesWith_each outs news).
Proof.
  revert news. induction outs as [|o outs IH]; intros [|w news]; simpl; solve_steps.
Qed.
#[global] Hint Resolve bounded_replaceAllUsesWith_each : steps.
Lemma bounded_replaceAllUsesWith_node n m : steps keeps_bounded (replaceAllUsesWith_node n m).
Proof. unfold replaceAllUsesWith_node. solve_steps. Qed.
Lemma bounded_eraseOutput n i : steps keeps_bounded (eraseOutput n i).
Proof.
  unfold eraseOutput. apply steps_wp. intros st. wp_steps.
  apply wp_reads; [solve_reads|]. intros us _. wp_steps. bounded_go.
Qed.
#[global] Hint Resolve bounded_replaceAllUsesWith_node bounded_eraseOutput : steps.
Lemma bounded_eraseOutputs_down n k : steps keeps_bounded (eraseOutputs_down n k).
Proof. induction k; simpl; solve_steps. Qed.
Lemma bounded_addOutputs n k : steps keeps_bounded (addOutputs n k).
Proof. induction k; simpl; solve_steps. Qed.
#[global] Hint Resolve bounded_eraseOutputs_down bounded_addOutputs : steps.
Lemma bounded_destroy n : steps keeps_bounded (destroy n).
Proof.
  unfold destroy. apply steps_wp. intros st. wp_steps.
  wp_call bounded_eraseOutputs_down as u st1 H1. wp_steps.
  etrans; [exact H1|]. bounded_go.
Qed.
Lemma bounded_create g k num : steps keeps_bounded (create g k num).
Proof.
  unfold create. apply steps_wp. intros st. wp_steps.
  wp_call bounded_addOutputs as u st1 H1. wp_steps. etrans; [|exact H1]. bounded_go.
Qed.
#[global] Hint Resolve bounded_destroy bounded_create : steps.
Lemma bounded_createClone_map g n (m : gmap nat nat) e :
  steps keeps_bounded (createClone g n (λ k, liftOpt (m !! k) e)).
Proof. unfold createClone. solve_steps. Qed.
Lemma bounded_newGraph : steps keeps_bounded newGraph.
Proof.
  unfold newGraph. apply steps_wp. intros st. wp_steps.
  wp_call bounded_create as r st1 H1.
  wp_step. wp_call bounded_create as p st2 H2.
  wp_steps.
  assert (H0 : keeps_bounded st
            (set_graphs <[next st := mkGraph 0 0 [] 0]> (set_next (S (next st)) st)))
    by bounded_go.
  etrans; [exact H0|]. etrans; [exact H1|]. etrans; [exact H2|].
  destruct H1 as [L1 _], H2 as [L2 _]. simpl in L1. bounded_go.
Qed.
#[global] Hint Resolve bounded_createClone_map bounded_newGraph : steps.
Lemma bounded_createFusionGroup g : steps keeps_bounded (createFusionGroup g).
Proof.
  unfold createFusionGroup. apply steps_wp. intros st. wp_steps.
  wp_call bounded_create as n st1 H1.
  wp_step. wp_call bounded_newGraph as sg st2 H2.
  wp_steps. etrans; [exact H1|]. etrans; [exact H2|]. bounded_go.
Qed.
Lemma bounded_Graph_addInput g : steps keeps_bounded (Graph_addInput g).
Proof. unfold Graph_addInput. solve_steps. Qed.
Lemma bounded_registerOutput g v : steps keeps_bounded (registerOutput g v).
Proof. unfold registerOutput. solve_steps. Qed.
Lemma bounded_eraseInput g i : steps keeps_bounded (eraseInput g i).
Proof. unfold eraseInput. solve_steps. Qed.
#[global] Hint Resolve bounded_createFusionGroup bounded_Graph_addInput
  bounded_registerOutput bounded_eraseInput : steps.

Lemma bounded_allUsersAreThisConsumerOrOccurAfterIt_loop c us :
  steps keeps_bounded (allUsersAreThisConsumerOrOccurAfterIt_loop c us).
Proof. induction us as [|u us IH]; simpl; solve_steps. Qed.
#[global] Hint Resolve bounded_allUsersAreThisConsumerOrOccurAfterIt_loop : steps.
Lemma bounded_shouldFuse c p : steps keeps_bounded (shouldFuse c p).
Proof. unfold shouldFuse, allUsersAreThisConsumerOrOccurAfterIt. solve_steps. Qed.
Lemma bounded_mergeNodeIntoGroup_inputs group subgraph m ins :
  steps keeps_bounded (mergeNodeIntoGroup_inputs group subgraph m ins).
Proof. revert m. induction ins as [|i ins IH]; intros m; simpl; solve_steps. Qed.
#[global] Hint Resolve bounded_shouldFuse bounded_mergeNodeIntoGroup_inputs : steps.
Lemma bounded_mergeNodeIntoGroup group n : steps keeps_bounded (mergeNodeIntoGroup group n).
Proof. unfold mergeNodeIntoGroup. solve_steps. Qed.
#[global] Hint Resolve bounded_mergeNodeIntoGroup : steps.
Lemma bounded_mergeFusionGroups_clone g pg m inner :
  steps keeps_bounded (mergeFusionGroups_clone g pg m inner).
Proof. revert m. induction inner as [|i inner IH]; intros m; simpl; solve_steps. Qed.
Lemma bounded_mergeFusionGroups_reroute pg m i outs :
  steps keeps_bounded (mergeFusionGroups_reroute pg m i outs).
Proof. revert i. induction outs as [|o outs IH]; intros i; simpl; solve_steps. Qed.
Lemma bounded_mergeFusionGroups_outputs cg cs merged i outs :
  steps keeps_bounded (mergeFusionGroups_outputs cg cs merged i outs).
Proof. revert i. induction outs as [|o outs IH]; intros i; simpl; solve_steps. Qed.
#[global] Hint Resolve bounded_mergeFusionGroups_clone bounded_mergeFusionGroups_reroute
  bounded_mergeFusionGroups_outputs : steps.
Lemma bounded_mergeFusionGroups_inline cg cs temps :
  steps keeps_bounded (mergeFusionGroups_inline cg cs temps).
Proof. induction temps as [|t temps IH]; simpl; solve_steps. Qed.
#[global] Hint Resolve bounded_mergeFusionGroups_inline : steps.
Lemma bounded_mergeFusionGroups cg pg : steps keeps_bounded (mergeFusionGroups cg pg).
Proof. unfold mergeFusionGroups. solve_steps. Qed.
Lemma bounded_createSingletonFusionGroup n : steps keeps_bounded (createSingletonFusionGroup n).
Proof. unfold createSingletonFusionGroup. solve_steps. Qed.
Lemma bounded_insertAfter n after : steps keeps_bounded (insertAfter n after).
Proof. unfold insertAfter. solve_steps. Qed.
#[global] Hint Resolve bounded_mergeFusionGroups bounded_createSingletonFusionGroup
  bounded_insertAfter : steps.
Lemma bounded_insertAt ip n : steps keeps_bounded (insertAt ip n).
Proof. unfold insertAt. solve_steps. Qed.
Lemma bounded_fuse c p : steps keeps_bounded (fuse c p).
Proof. unfold fuse. solve_steps. Qed.
#[global] Hint Resolve bounded_insertAt bounded_fuse : steps.
Lemma bounded_tryToMoveChunk_selects ic ty sels :
  steps keeps_bounded (tryToMoveChunk_selects ic ty sels).
Proof. induction sels as [|s sels IH]; simpl; solve_steps. Qed.
#[global] Hint Resolve bounded_tryToMoveChunk_selects : steps.
Lemma bounded_tryToMoveChunk_operands g chunk ip ins :
  steps keeps_bounded (tryToMoveChunk_operands g chunk ip ins).
Proof. revert ip. induction ins as [|i ins IH]; intros ip; simpl; solve_steps. Qed.
Lemma bounded_tryToMoveChunk_ops g pn ip rows sels :
  steps keeps_bounded (tryToMoveChunk_ops g pn ip rows sels).
Proof. revert ip. induction sels as [|s sels IH]; intros ip; simpl; solve_steps. Qed.
#[global] Hint Resolve bounded_tryToMoveChunk_operands bounded_tryToMoveChunk_ops : steps.
Lemma bounded_tryToMoveChunk c p : steps keeps_bounded (tryToMoveChunk c p).
Proof. unfold tryToMoveChunk. solve_steps. Qed.
#[global] Hint Resolve bounded_tryToMoveChunk : steps.
Lemma bounded_scanNode_producers c ps : steps keeps_bounded (scanNode_producers c ps).
Proof. induction ps as [|p ps IH]; simpl; solve_steps. Qed.
#[global] Hint Resolve bounded_scanNode_producers : steps.
Lemma bounded_scanNode c : steps keeps_bounded (scanNode c).
Proof. unfold scanNode. solve_steps. Qed.


(** ** Stages *)

(** The pattern checks of [tryToMoveChunk] only read: a call that answers
    false ends in the state it started from. *)
Lemma tryToMoveChunk_false_same consumer producer st st' :
  tryToMoveChunk consumer producer st = Ok false st' → st' = st.
Proof.
  unfold tryToMoveChunk. intros H.
  inv_bind H as chunk s E. apply reads_node_of in E as ->.
  inv_bind H as c s E. apply reads_isChunk in E as ->.
  destruct c; simpl in H; [|by apply ret_Ok in H as [_ <-]].
  inv_bind H as pfc s E. apply reads_input in E as ->.
  inv_bind H as pn s E. apply reads_node_of in E as ->.
  inv_bind H as f s E. apply reads_isFusable in E as ->.
  inv_bind H as only s E.
  assert (s = st) as ->.
  { destruct f; simpl in E.
    - by apply reads_allUsersAreThisConsumer in E.
    - by apply ret_Ok in E as [_ <-]. }
  destruct only; simpl in H; [|by apply ret_Ok in H as [_ <-]].
  inv_bind H as sels s E'. apply reads_outputs in E' as ->.
  inv_bind H as mine s E'. apply reads_all_uses_in in E' as ->.
  destruct mine; simpl in H; [|by apply ret_Ok in H as [_ <-]].
  exfalso.
  repeat (inv_bind' H; try match type of H with
                           | (let '(_, _) := ?p in _) _ = _ => destruct p
                           end).
  by apply ret_Ok in H as [? _].
Qed.

Lemma bind_ext {A B} (m : M A) (k1 k2 : A → M B) st :
  (∀ a st1, m st = Ok a st1 → k1 a st1 = k2 a st1) → bind m k1 st = bind m k2 st.
Proof. intros H. unfold bind. destruct (m st) eqn:E; [by apply H | done]. Qed.

#[global] Instance same_reading_preorder : PreOrder same_reading.
Proof. split; [exact same_reading_refl | exact same_reading_trans]. Qed.

Lemma same_reading_index_at n : steps same_reading (index_at n).
Proof.
  intros st a st' E. destruct (index_at_spec n st) as (st1 & E1 & R).
  rewrite E1 in E. by injection E as _ <-.
Qed.
#[global] Hint Resolve same_reading_index_at : steps.
Lemma same_reading_allUsersAreThisConsumerOrOccurAfterIt_loop c us :
  steps same_reading (allUsersAreThisConsumerOrOccurAfterIt_loop c us).
Proof. induction us as [|u us IH]; simpl; solve_steps. Qed.
#[global] Hint Resolve same_reading_allUsersAreThisConsumerOrOccurAfterIt_loop : steps.
Lemma same_reading_shouldFuse c p : steps same_reading (shouldFuse c p).
Proof. unfold shouldFuse, allUsersAreThisConsumerOrOccurAfterIt. solve_steps. Qed.

Lemma stage_of_value_same_reading st st' v :
  same_reading st st' → stage_of_value st' v = stage_of_value st v.
Proof. intros (Hn & Hv & _). unfold stage_of_value. by rewrite Hn, Hv. Qed.

Lemma value_stage_Some v s st :
  stage_of_value st v = Some s → value_stage v st = Ok s st.
Proof.
  unfold stage_of_value, value_stage, node_of, stage, bind, getValue, getNode.
  destruct (values st !! v) as [vl|]; simpl; [|done].
  destruct (nodes st !! v_node vl) as [nd|]; simpl; [|done].
  by intros [= ->].
Qed.

Lemma value_stage_None v st :
  stage_of_value st v = None → ∃ e, value_stage v st = Raise e.
Proof.
  unfold stage_of_value, value_stage, node_of, stage, bind, getValue, getNode.
  destruct (values st !! v) as [vl|]; simpl; [|eauto].
  destruct (nodes st !! v_node vl) as [nd|]; simpl; [done|eauto].
Qed.

Lemma value_stage_inv v s st st' :
  value_stage v st = Ok s st' → stage_of_value st v = Some s ∧ st' = st.
Proof.
  intros E. pose proof (reads_value_stage _ _ _ _ E) as ->. split; [|done].
  destruct (stage_of_value st v) as [s'|] eqn:Hs.
  - rewrite (value_stage_Some _ _ _ Hs) in E. by injection E as ->.
  - destruct (value_stage_None _ _ Hs) as [e He]. congruence.
Qed.

(** The producers of another stage can be dropped from the list that
    [scanNode] walks through. *)
Lemma scanNode_producers_filter consumer cnd st0 ps st :
  same_reading st0 st →
  nodes st0 !! consumer = Some cnd →
  scanNode_producers consumer ps st
  = scanNode_producers consumer (List.filter (stage_admits st0 (n_stage cnd)) ps) st.
Proof.
  revert st. induction ps as [|p ps IH]; intros st HR Hc; [reflexivity|].
  assert (Hc' : nodes st !! consumer = Some cnd) by (destruct HR as (-> & _); done).
  simpl. unfold stage_admits at 1.
  rewrite <- (stage_of_value_same_reading _ _ p HR).
  destruct (stage_of_value st p) as [s|] eqn:Hs.
  - rewrite (bind_run _ _ _ _ _ (value_stage_Some _ _ _ Hs)).
    rewrite (bind_run _ _ _ _ _ (stage_Ok _ _ _ Hc')).
    destruct (decide (s = n_stage cnd)) as [->|Hne].
    + rewrite (bool_decide_eq_true_2 _ eq_refl).
      rewrite (bool_decide_eq_false_2 (n_stage cnd ≠ n_stage cnd)) by tauto.
      simpl.
      rewrite (bind_run _ _ _ _ _ (value_stage_Some _ _ _ Hs)).
      rewrite (bind_run _ _ _ _ _ (stage_Ok _ _ _ Hc')).
      rewrite (bool_decide_eq_false_2 (n_stage cnd ≠ n_stage cnd)) by tauto.
      apply bind_ext. intros [] st1 Em; [reflexivity|].
      apply tryToMoveChunk_false_same in Em as ->.
      apply bind_ext. intros [] st2 Ef; [reflexivity|].
      apply IH; [|done]. etrans; [exact HR|]. exact (same_reading_shouldFuse _ _ _ _ _ Ef).
    + rewrite (bool_decide_eq_false_2 _ Hne), (bool_decide_eq_true_2 _ Hne).
      by apply IH.
  - simpl. destruct (value_stage_None _ _ Hs) as [e He].
    apply bind_ext. intros a st1 E. congruence.
Qed.

(** A change made by the walk is a chunk move or a fusion of a producer of
    the consumer's stage. *)
Lemma scanNode_producers_changed consumer cnd st0 ps st it st' :
  same_reading st0 st →
  nodes st0 !! consumer = Some cnd →
  scanNode_producers consumer ps st = Ok (it, true) st' →
  ∃ p st1, p ∈ ps ∧ stage_of_value st0 p = Some (n_stage cnd) ∧ same_reading st0 st1
    ∧ ((it = consumer ∧ tryToMoveChunk consumer p st1 = Ok true st')
       ∨ (∃ st2, tryToMoveChunk consumer p st1 = Ok false st1
                 ∧ shouldFuse consumer p st1 = Ok true st2
                 ∧ fuse consumer p st2 = Ok it st')).
Proof.
  revert st. induction ps as [|p ps IH]; intros st HR Hc E; simpl in E.
  - inv_bind E as x s Ex. by apply ret_Ok in E as [[=] _].
  - assert (Hc' : nodes st !! consumer = Some cnd) by (destruct HR as (-> & _); done).
    inv_bind E as ps' s Ex. apply value_stage_inv in Ex as [Hs ->].
    rewrite (bind_run _ _ _ _ _ (stage_Ok _ _ _ Hc')) in E.
    rewrite (stage_of_value_same_reading _ _ p HR) in Hs.
    case_bool_decide as Hne.
    + destruct (IH st HR Hc E) as (q & st1 & Hq & ?). exists q, st1. split; [by apply list_elem_of_further|done].
    + assert (ps' = n_stage cnd) as -> by (destruct (decide (ps' = n_stage cnd)); tauto).
      inv_bind E as moved s Em. destruct moved.
      * apply ret_Ok in E as [[= <-] <-]. exists p, st.
        split_and!; [apply list_elem_of_here | done | done | by left].
      * pose proof (tryToMoveChunk_false_same _ _ _ _ Em) as ->.
        inv_bind E as sf s2 Ef. destruct sf.
        -- inv_bind E as g s3 Eg. apply ret_Ok in E as [[= <-] <-].
           exists p, st. split_and!; [apply list_elem_of_here | done | done |]. right. eauto.
        -- assert (HR2 : same_reading st0 s2).
           { etrans; [exact HR|]. exact (same_reading_shouldFuse _ _ _ _ _ Ef). }
           destruct (IH s2 HR2 Hc E) as (q & st1 & Hq & ?).
           exists q, st1. split; [by apply list_elem_of_further|done].
Qed.

(** *** The group a fusion returns *)

#[global] Instance rel_and_preorder R1 R2 `{!PreOrder R1} `{!PreOrder R2} :
  PreOrder (rel_and R1 R2).
Proof.
  split.
  - intros st. split; reflexivity.
  - intros st1 st2 st3 [A1 B1] [A2 B2]. split; etrans; eauto.
Qed.

Lemma steps_and (R1 R2 : relation State) {A} (m : M A) :
  steps R1 m → steps R2 m → steps (rel_and R1 R2) m.
Proof. intros H1 H2 st a st' E. split; [exact (H1 _ _ _ E) | exact (H2 _ _ _ E)]. Qed.

(** [steps] for a conjunction of relations, from the hints for each. *)
Ltac steps_and_step :=
  lazymatch goal with
  | |- steps (rel_and _ _) (bind _ _) => apply steps_bind; [apply _ | | intros ? ]
  | |- steps (rel_and _ _) (ret _) => apply steps_ret; apply _
  | |- steps (rel_and _ _) (raise _) => apply steps_raise
  | |- steps (rel_and _ _) (if ?b then _ else _) => destruct b
  | |- steps (rel_and _ _) (match ?x with _ => _ end) => destruct x
  | |- steps (rel_and _ _) _ =>
      first [ solve [ apply steps_reads; [apply _ | solve_reads ] ]
            | solve [ apply steps_and; eauto with steps ] ]
  end.
Ltac solve_steps_and := repeat steps_and_step.

(** Run one call in a [wp] goal, extending the relation [H] from the
    initial state to the current one across it. *)
Tactic Notation "wp_across" hyp(H) "as" ident(a) :=
  lazymatch goal with
  | |- wp (bind _ _) _ _ => apply wp_bind
  | |- _ => idtac
  end;
  let s := fresh "s" in
  let H' := fresh "H'" in
  lazymatch type of H with
  | ?R ?st0 _ =>
      eapply wp_mono;
        [ apply (proj1 (steps_wp R _)); solve_steps_and
        | intros a s H'; cbv beta in H';
          let Hn := fresh "Hacc" in
          assert (Hn : R st0 s) by (etrans; [exact H | exact H']);
          clear H H'; rename Hn into H ]
  end.

(** A node that exists keeps kind and stage as long as nothing frees
    it. *)
Lemma static_keeps_node st st' n nd :
  static st st' → keeps st st' → nodes st !! n = Some nd → n < next st →
  ∃ nd', nodes st' !! n = Some nd' ∧ n_kind nd' = n_kind nd ∧ n_stage nd' = n_stage nd.
Proof.
  intros (_ & _ & Hs & _) Hk Hn Hlt.
  destruct (Hk n (mk_is_Some _ _ Hn)) as [nd' Hn'].
  destruct (Hs n nd' Hn' Hlt) as (nd0 & E0 & ? & ? & ?).
  exists nd'. split; [done|]. split; congruence.
Qed.

Lemma static_node st st' n nd nd' :
  static st st' → nodes st !! n = Some nd → n < next st → nodes st' !! n = Some nd' →
  n_kind nd' = n_kind nd ∧ n_stage nd' = n_stage nd ∧ n_graph nd' = n_graph nd.
Proof.
  intros (_ & _ & Hs & _) Hn Hlt Hn'.
  destruct (Hs n nd' Hn' Hlt) as (nd0 & E0 & ? & ? & ?).
  split_and!; congruence.
Qed.

Lemma createFusionGroup_spec g st :
  wp (createFusionGroup g)
     (λ n st', n = next st ∧ n < next st'
               ∧ ∃ nd, nodes st' !! n = Some nd ∧ n_kind nd = kFusionGroup
                       ∧ ∀ G, graphs st !! g = Some G → n_stage nd = g_stage G) st.
Proof.
  unfold createFusionGroup, create. simpl. wp_steps.
  eapply wp_mono.
  { apply steps_wp. apply (steps_and static keeps); [apply static_newGraph | apply keeps_newGraph]. }
  unfold rel_and.
  intros sg st2 [Hs Hk]. cbv beta in *. wp_steps. simpl.
  pose proof Hs as (Hn & _).
  eapply (static_node _ _ (next st)) in Hs as (Hk' & Hst' & _); simpl;
    [ | apply lookup_insert_eq | lia | eassumption ].
  simpl in *. split_and!; [done | lia |].
  eexists. split; [apply lookup_insert_eq|]. simpl. split; [done|].
  intros G' HG'. congruence.
Qed.

Lemma getSubgraph_inv n sg st st' :
  getSubgraph n st = Ok sg st' →
  st' = st ∧ ∃ nd, nodes st !! n = Some nd ∧ n_kind nd = kFusionGroup
                  ∧ find_attr kSubgraph (n_attrs nd) = Some (AGraph sg).
Proof.
  intros E. pose proof (reads_getSubgraph _ _ _ _ E) as ->. split; [done|].
  unfold getSubgraph, kind, g_attr in E.
  inv_bind E as k s Ek. inv_bind Ek as nd s1 En. apply getNode_inv in En as [Hn ->].
  apply ret_Ok in Ek as [<- <-].
  inv_bind E as u s Ea. case_bool_decide as Hk; [|discriminate Ea].
  apply ret_Ok in Ea as [_ <-].
  inv_bind E as nd2 s En. apply getNode_inv in En as [Hn2 ->]. simplify_eq.
  exists nd. split_and!; [done..|].
  destruct (find_attr kSubgraph (n_attrs nd)) as [[]|]; try discriminate E.
  by apply ret_Ok in E as [-> _].
Qed.

Lemma mergeNodeIntoGroup_distinct group n r st st' :
  mergeNodeIntoGroup group n st = Ok r st' → group ≠ n.
Proof.
  unfold mergeNodeIntoGroup. intros E.
  inv_bind E as k s Ek. unfold kind in Ek. inv_bind Ek as nd s1 En.
  apply getNode_inv in En as [Hn ->]. apply ret_Ok in Ek as [<- <-].
  inv_bind E as u s Ea. case_bool_decide as Hk; [|discriminate Ea].
  apply ret_Ok in Ea as [_ <-].
  inv_bind E as sg s Es. apply getSubgraph_inv in Es as (-> & gnd & Hg & Hgk & _).
  intros ->. congruence.
Qed.

Lemma keeps_eraseOutputs_down n k : steps keeps (eraseOutputs_down n k).
Proof. induction k; simpl; solve_steps. Qed.

Lemma destroy_keeps_other n st st' m :
  destroy n st = Ok tt st' → m ≠ n → is_Some (nodes st !! m) → is_Some (nodes st' !! m).
Proof.
  unfold destroy. intros E Hne Hm.
  inv_bind E as nd s En. apply getNode_inv in En as [Hn ->].
  inv_bind E as u s1 Ee. apply keeps_eraseOutputs_down in Ee.
  inv_bind E as G s Eg. apply getGraph_inv in Eg as [HG ->].
  inv_bind E as u2 s Ep. injection Ep as _ <-. injection E as <-. simpl.
  rewrite lookup_delete_ne by done. exact (Ee m Hm).
Qed.

Lemma mergeFusionGroups_inline_keeps cg cs temps st st' :
  mergeFusionGroups_inline cg cs temps st = Ok tt st' →
  is_Some (nodes st !! cg) → is_Some (nodes st' !! cg).
Proof.
  revert st. induction temps as [|t temps IH]; intros st E Hcg; simpl in E.
  - by apply ret_Ok in E as [_ <-].
  - inv_bind E as merged s1 Em.
    pose proof (mergeNodeIntoGroup_distinct _ _ _ _ _ Em) as Hne.
    apply keeps_mergeNodeIntoGroup in Em.
    inv_bind E as outs s En. apply reads_outputs in En as ->.
    inv_bind E as u s2 Eo. apply keeps_mergeFusionGroups_outputs in Eo.
    inv_bind E as u2 s3 Ed. destruct u2.
    apply (IH _ E). eapply destroy_keeps_other; [exact Ed | done | eauto].
Qed.

Lemma mergeFusionGroups_keeps_consumer cg pg st st' :
  mergeFusionGroups cg pg st = Ok tt st' → is_Some (nodes st' !! cg).
Proof.
  unfold mergeFusionGroups. intros E.
  repeat (inv_bind' E; try match type of E with
                           | (let '(_, _) := ?p in _) _ = _ => destruct p
                           end).
  match goal with
  | H : getSubgraph cg _ = Ok _ _ |- _ =>
      apply getSubgraph_inv in H as (-> & nd & Hn & _)
  end.
  eapply mergeFusionGroups_inline_keeps; [exact E | eauto].
Qed.

Lemma createSingletonFusionGroup_group n st :
  wp (createSingletonFusionGroup n)
     (λ g st', g = next st ∧ g < next st'
               ∧ ∃ nd, nodes st' !! g = Some nd ∧ n_kind nd = kFusionGroup
                       ∧ ∀ G, graphs st !! graph st = Some G → n_stage nd = g_stage G) st.
Proof.
  unfold createSingletonFusionGroup. wp_step. apply wp_reads; [solve_reads|].
  intros g0 [= <-]. wp_step. eapply wp_mono; [apply createFusionGroup_spec|].
  intros group s1 (-> & Hlt & nd & Hnd & Hk & Hst).
  assert (Hacc : rel_and static keeps s1 s1) by reflexivity.
  revert Hacc. generalize s1 at 2 3. intros s Hacc.
  wp_across Hacc as i. wp_across Hacc as u1. wp_across Hacc as u2.
  wp_step. apply wp_intro. intros merged sm Em.
  pose proof (mergeNodeIntoGroup_distinct _ _ _ _ _ Em) as Hne.
  assert (Hacc2 : rel_and static keeps s1 sm).
  { etrans; [exact Hacc|]. split; [exact (static_mergeNodeIntoGroup _ _ _ _ _ Em)
                                  | exact (keeps_mergeNodeIntoGroup _ _ _ _ _ Em)]. }
  clear Hacc Em. rename Hacc2 into Hacc.
  wp_across Hacc as sg. wp_across Hacc as mo. wp_across Hacc as u3.
  wp_across Hacc as sel. wp_across Hacc as no. wp_across Hacc as u4.
  wp_across Hacc as u5.
  wp_step. apply wp_intro. intros [] sd Ed. wp_step.
  destruct Hacc as [Hs Hkp].
  pose proof (static_destroy _ _ _ _ Ed) as Hs3.
  assert (Hlive : is_Some (nodes sd !! next st)).
  { eapply destroy_keeps_other; [exact Ed | done |]. apply Hkp. eauto. }
  destruct Hlive as [nd3 Hnd3].
  destruct (static_node _ _ _ _ _ (transitivity Hs Hs3) Hnd Hlt Hnd3) as (? & ? & _).
  destruct Hs as (L1 & _), Hs3 as (L3 & _).
  split_and!; [done | lia |]. exists nd3. split_and!; [done | congruence |].
  intros G HG. rewrite <- (Hst G HG). congruence.
Qed.

Lemma node_of_inv v n st st' :
  node_of v st = Ok n st' → st' = st ∧ ∃ vl, values st !! v = Some vl ∧ v_node vl = n.
Proof.
  unfold node_of. intros E. inv_bind E as vl s Ev. apply getValue_inv in Ev as [Hv ->].
  apply ret_Ok in E as [<- <-]. eauto.
Qed.

Lemma kind_inv n k st st' :
  kind n st = Ok k st' → st' = st ∧ ∃ nd, nodes st !! n = Some nd ∧ n_kind nd = k.
Proof.
  unfold kind. intros E. inv_bind E as nd s En. apply getNode_inv in En as [Hn ->].
  apply ret_Ok in E as [<- <-]. eauto.
Qed.

Lemma static_value st st' v vl vl' :
  static st st' → values st !! v = Some vl → v < next st → values st' !! v = Some vl' →
  v_node vl' = v_node vl.
Proof.
  intros (_ & _ & _ & _ & _ & Hv) E Hlt E'.
  destruct (Hv v vl' E' Hlt) as (vl0 & E0 & ?). congruence.
Qed.

(** The tail of [fuse], once the group exists. *)
Lemma fuse_tail_group group producer nd st :
  bounded st → nodes st !! group = Some nd → n_kind nd = kFusionGroup →
  wp (let! pn := node_of producer in
      let! pk := kind pn in
      if bool_decide (pk = kFusionGroup) then
        mergeFusionGroups group pn >> ret group
      else
        let! merged := mergeNodeIntoGroup group pn in
        let! us := uses producer in
        (match us with
         | [] => ret tt
         | _ :: _ =>
             let! sg := getSubgraph group in
             let! mo := output merged in
             registerOutput sg mo >>
             let! new_producer := addOutput group in
             copyMetadata new_producer producer >>
             replaceAllUsesWith producer new_producer
         end) >>
        let! pn := node_of producer in
        destroy pn >>
        ret group)
     (λ g st', g = group ∧ static st st'
               ∧ ∃ nd', nodes st' !! g = Some nd' ∧ n_kind nd' = kFusionGroup
                        ∧ n_stage nd' = n_stage nd) st.
Proof.
  intros (Hbn & Hbv & Hbg) Hg Hk.
  assert (Hglt : group < next st) by (apply Hbn; eauto).
  wp_step. apply wp_intro. intros pn s1 Epn.
  apply node_of_inv in Epn as (-> & vl & Hvl & Hpn).
  assert (Hplt : producer < next st) by (apply Hbv; eauto).
  wp_step. apply wp_intro. intros pk s1 Epk. apply kind_inv in Epk as (-> & pnd & Hpnd & Hpk).
  case_bool_decide as Hfg.
  - wp_step. apply wp_intro. intros [] s2 Em. wp_step.
    pose proof (static_mergeFusionGroups _ _ _ _ _ Em) as Hs.
    destruct (mergeFusionGroups_keeps_consumer _ _ _ _ Em) as [nd2 Hnd2].
    destruct (static_node _ _ _ _ _ Hs Hg Hglt Hnd2) as (? & ? & _).
    split_and!; [done..|]. exists nd2. split_and!; [done | congruence | done].
  - wp_step. apply wp_intro. intros merged sm Em.
    pose proof (mergeNodeIntoGroup_distinct _ _ _ _ _ Em) as Hne.
    assert (Hacc : rel_and static keeps st sm).
    { split; [exact (static_mergeNodeIntoGroup _ _ _ _ _ Em)
             | exact (keeps_mergeNodeIntoGroup _ _ _ _ _ Em)]. }
    clear Em. wp_across Hacc as us. wp_across Hacc as u1.
    wp_step. apply wp_intro. intros pn2 s3 Epn2.
    apply node_of_inv in Epn2 as (-> & vl2 & Hvl2 & Hpn2).
    destruct Hacc as [Hs Hkp].
    assert (pn2 = pn) as ->.
    { rewrite <- Hpn2, <- Hpn. exact (static_value _ _ _ _ _ Hs Hvl Hplt Hvl2). }
    wp_step. apply wp_intro. intros [] sd Ed. wp_step.
    pose proof (static_destroy _ _ _ _ Ed) as Hs3.
    assert (Hlive : is_Some (nodes sd !! group)).
    { eapply destroy_keeps_other; [exact Ed | done |]. apply Hkp. eauto. }
    destruct Hlive as [nd3 Hnd3].
    destruct (static_node _ _ _ _ _ (transitivity Hs Hs3) Hg Hglt Hnd3) as (? & ? & _).
    split_and!; [done | by etrans |]. exists nd3. split_and!; [done | congruence | done].
Qed.

Lemma fuse_group consumer producer cnd st :
  bounded st → nodes st !! consumer = Some cnd →
  wp (fuse consumer producer)
     (λ g st', ∃ nd', nodes st' !! g = Some nd' ∧ n_kind nd' = kFusionGroup
        ∧ ((n_kind cnd = kFusionGroup ∧ g = consumer ∧ n_stage nd' = n_stage cnd)
           ∨ (n_kind cnd ≠ kFusionGroup ∧ next st ≤ g
              ∧ ∀ G, graphs st !! graph st = Some G → n_stage nd' = g_stage G))) st.
Proof.
  intros Hb Hc. unfold fuse. wp_step.
  apply wp_reads; [solve_reads|]. intros k Ek. apply kind_inv in Ek as (_ & ? & ? & <-).
  simplify_eq. wp_step. case_bool_decide as Hk.
  - apply wp_intro. intros group s1 Eg.
    pose proof (wp_Ok _ _ _ _ _ (createSingletonFusionGroup_group consumer st) Eg)
      as (-> & Hlt & nd & Hnd & Hkd & Hst).
    pose proof (proj2 (bounded_createSingletonFusionGroup _ _ _ _ Eg) Hb) as Hb1.
    eapply wp_mono; [exact (fuse_tail_group _ producer _ _ Hb1 Hnd Hkd)|].
    intros g st' (-> & _ & nd' & Hnd' & Hk' & Hs').
    exists nd'. split_and!; [done..|]. right. split_and!; [done | lia |].
    intros G HG. rewrite Hs'. by apply Hst.
  - wp_step.
    eapply wp_mono; [exact (fuse_tail_group _ producer _ _ Hb Hc Hk)|].
    intros g st' (-> & _ & nd' & Hnd' & Hk' & Hs').
    exists nd'. split_and!; [done..|]. left. done.
Qed.

Lemma reads_forM {A} (l : list A) (f : A → M unit) :
  (∀ x, reads (f x)) → reads (forM l f).
Proof. intros H. induction l as [|x l IH]; simpl; solve_reads. Qed.

Lemma setStage_inv g s st st' :
  setStage g s st = Ok tt st' →
  ∃ G, graphs st !! g = Some G ∧ st' = set_graphs <[g := with_stage s G]> st.
Proof.
  unfold setStage. intros E. inv_bind E as G s1 Eg. apply getGraph_inv in Eg as [HG ->].
  injection E as <-. eauto.
Qed.

(** What [scanNode] hands back after a change is the consumer itself or a
    live fusion group of the consumer's stage. *)
Lemma scanNode_group_stage consumer cnd st it st' :
  bounded st → nodes st !! consumer = Some cnd →
  scanNode consumer st = Ok (it, true) st' →
  it = consumer
  ∨ ∃ nd', nodes st' !! it = Some nd' ∧ n_kind nd' = kFusionGroup
           ∧ n_stage nd' = n_stage cnd.
Proof.
  intros Hb Hc E. unfold scanNode in E.
  inv_bind E as g0 s Eg. injection Eg as <- <-.
  inv_bind E as old s Eo. apply reads_graph_stage in Eo as ->.
  rewrite (bind_run _ _ _ _ _ (stage_Ok _ _ _ Hc)) in E.
  inv_bind E as u sa Ea. destruct u.
  pose proof (proj2 (bounded_setStage _ _ _ _ _ Ea) Hb) as Hba.
  apply setStage_inv in Ea as (G0 & HG0 & ->).
  inv_bind E as r sb Eb. inv_bind E as u sz Ez. destruct u.
  apply ret_Ok in E as [-> <-].
  apply setStage_inv in Ez as (Gz & HGz & ->). simpl.
  inv_bind Eb as e s Ee. apply reads_isFusableAsExitNode in Ee as ->.
  destruct e.
  2: { inv_bind Eb as x s Ex. by apply ret_Ok in Eb as [[=] _]. }
  inv_bind Eb as ins s Ei. apply reads_inputs in Ei as ->.
  inv_bind Eb as u s Ef.
  match type of Ef with
  | ?m _ = _ =>
      assert (Hrf : reads m) by (apply reads_forM; intros ?; solve_reads)
  end.
  apply Hrf in Ef as ->. clear Hrf.
  inv_bind Eb as keyed sc Ek.
  assert (Hrc : same_reading (set_graphs <[graph st:=with_stage (n_stage cnd) G0]> st) sc).
  { revert Ek. generalize (set_graphs <[graph st:=with_stage (n_stage cnd) G0]> st).
    intros s0 Ek. revert Ek. apply (steps_mapM same_reading). intros x. solve_steps. }
  assert (Hbc : bounded sc).
  { refine (proj2 (_ : keeps_bounded _ sc) Hba).
    revert Ek. apply (steps_mapM keeps_bounded). intros x. solve_steps. }
  assert (Hcc : nodes sc !! consumer = Some cnd) by (destruct Hrc as (-> & _); done).
  destruct (scanNode_producers_changed _ _ sc _ _ _ _ (reflexivity _) Hcc Eb)
    as (p & st1 & _ & _ & Hr1 & [[-> _]|(st2 & _ & Ef2 & Eg)]); [by left|].
  right.
  assert (Hr2 : same_reading sc st2).
  { etrans; [exact Hr1|]. exact (same_reading_shouldFuse _ _ _ _ _ Ef2). }
  assert (Hb2 : bounded st2).
  { destruct Hr2 as (Hn & Hv & Hgr & Hnx & _). destruct Hbc as (B1 & B2 & B3).
    repeat split; intros x Hx; rewrite ?Hn, ?Hv, ?Hgr, Hnx in *; eauto. }
  assert (Hc2 : nodes st2 !! consumer = Some cnd) by (destruct Hr2 as (-> & _); done).
  pose proof (wp_Ok _ _ _ _ _ (fuse_group consumer p cnd st2 Hb2 Hc2) Eg)
    as (nd' & Hnd' & Hk' & Hcase).
  exists nd'. split_and!; [done..|].
  destruct Hcase as [(_ & _ & ?)|(_ & _ & Hst)]; [done|].
  apply (Hst (with_stage (n_stage cnd) G0)).
  destruct Hr2 as (_ & _ & -> & _ & -> & _), Hrc as (_ & _ & -> & _ & -> & _).
  simpl. apply lookup_insert_eq.
Qed.


Lemma bounded_check st :
  bool_decide (map_Forall (λ k _, k < next st) (nodes st))
  && bool_decide (map_Forall (λ k _, k < next st) (values st))
  && bool_decide (map_Forall (λ k _, k < next st) (graphs st)) = true →
  bounded st.
Proof.
  rewrite !andb_true_iff, !bool_decide_eq_true. intros [[Hn Hv] Hg].
  split_and!; intros x [y Hx]; [exact (Hn x y Hx) | exact (Hv x y Hx) | exact (Hg x y Hx)].
Qed.



(** ** Pairing of groups and subgraphs *)

Lemma paired_balance st g : paired st g ↔ balance st g 0 0.
Proof.
  unfold paired, balance. split; intros H nd sg Hn Hg;
    destruct (H nd sg Hn Hg) as (G & pn & rn & ? & ? & ? & ? & ?);
    exists G, pn, rn; split_and!; try done; lia.
Qed.

Lemma Inv_all f st : Inv f 0 0 st ↔ well_formed st ∧ groups_paired st.
Proof.
  unfold Inv, groups_paired. split.
  - intros (Hw & Ho & Hf). split; [done|]. intros g. apply paired_balance.
    destruct (decide (g = f)) as [->|]; auto.
  - intros (Hw & Hp). split_and!; [done | |]; intros; apply paired_balance, Hp.
Qed.

(** *** Steps that change no shape *)

#[global] Instance same_shape_equiv : Equivalence same_shape.
Proof.
  split.
  - intros nd. by repeat split.
  - intros a b (?&?&?&?&?). repeat split; congruence.
  - intros a b c (?&?&?&?&?) (?&?&?&?&?). repeat split; congruence.
Qed.

#[global] Instance shape_same_preorder : PreOrder shape_same.
Proof.
  split.
  - intros st. split_and!; [done | | | done].
    + intros n. destruct (nodes st !! n); constructor. reflexivity.
    + intros g. destruct (graphs st !! g); constructor. done.
  - intros s1 s2 s3 (N1 & S1 & G1 & V1) (N2 & S2 & G2 & V2). split_and!.
    + congruence.
    + intros n. specialize (S1 n). specialize (S2 n).
      destruct S1; inversion S2; subst; constructor. etrans; eauto.
    + intros g. specialize (G1 g). specialize (G2 g).
      destruct G1 as [? ? [? ?]|]; inversion G2 as [? ? [? ?]|]; subst; constructor.
      split; congruence.
    + intros v Hv. by apply V1, V2.
Qed.

Lemma shape_same_node_fwd st st' n nd :
  shape_same st st' → nodes st !! n = Some nd →
  ∃ nd', nodes st' !! n = Some nd' ∧ same_shape nd nd'.
Proof.
  intros (_ & S & _) H. specialize (S n). rewrite H in S. inversion S; subst. eauto.
Qed.

Lemma shape_same_graph_fwd st st' g G :
  shape_same st st' → graphs st !! g = Some G →
  ∃ G', graphs st' !! g = Some G' ∧ g_param G' = g_param G ∧ g_return G' = g_return G.
Proof.
  intros (_ & _ & S & _) H. specialize (S g). rewrite H in S.
  inversion S as [? ? [? ?]|]; subst. eauto.
Qed.

Lemma shape_same_node st st' n nd' :
  shape_same st st' → nodes st' !! n = Some nd' →
  ∃ nd, nodes st !! n = Some nd ∧ same_shape nd nd'.
Proof.
  intros (_ & S & _) H. specialize (S n). rewrite H in S. inversion S; subst. eauto.
Qed.

Lemma shape_same_graph st st' g G' :
  shape_same st st' → graphs st' !! g = Some G' →
  ∃ G, graphs st !! g = Some G ∧ g_param G' = g_param G ∧ g_return G' = g_return G.
Proof.
  intros (_ & _ & S & _) H. specialize (S g). rewrite H in S.
  inversion S as [? ? [? ?]|]; subst. eauto.
Qed.

Lemma is_group_same_shape nd nd' sg : same_shape nd nd' → is_group nd' sg → is_group nd sg.
Proof. intros (Hk & Ha & _) [? ?]. split; congruence. Qed.

Lemma balance_shape_same st st' g a b :
  shape_same st st' → balance st g a b → balance st' g a b.
Proof.
  intros HS H nd' sg Hn' Hg'.
  destruct (shape_same_node _ _ _ _ HS Hn') as (nd & Hn & Hsh).
  destruct (H nd sg Hn (is_group_same_shape _ _ _ Hsh Hg')) as (G & pn & rn & HG & Hp & Hr & Hi & Ho).
  destruct (shape_same_graph_fwd _ _ _ _ HS HG) as (G' & HG' & Ep & Er).
  destruct (shape_same_node_fwd _ _ _ _ HS Hp) as (pn' & Hp' & Hshp).
  destruct (shape_same_node_fwd _ _ _ _ HS Hr) as (rn' & Hr' & Hshr).
  exists G', pn', rn'. rewrite Ep, Er.
  destruct Hsh as (_ & _ & _ & Li & Lo), Hshp as (_ & _ & _ & Lpi & Lpo),
    Hshr as (_ & _ & _ & Lri & Lro).
  split_and!; try done; lia.
Qed.

Lemma well_formed_shape_same st st' :
  shape_same st st' → well_formed st → well_formed st'.
Proof.
  intros HS ((Bn & Bv & Bg) & Wg & Wa & Wu).
  pose proof HS as (N & S & G & V).
  split_and!.
  - split_and!.
    + intros n [nd' H]. destruct (shape_same_node _ _ _ _ HS H) as (nd & ? & _).
      rewrite N. eauto.
    + intros v Hv. rewrite N. apply Bv. by apply V.
    + intros g [G' H]. destruct (shape_same_graph _ _ _ _ HS H) as (G0 & ? & _).
      rewrite N. eauto.
  - intros g G' H. destruct (shape_same_graph _ _ _ _ HS H) as (G0 & HG0 & Ep & Er).
    destruct (Wg g G0 HG0) as (? & ? & Hp & Hr). rewrite N, Ep, Er. split_and!; try done.
    + intros pn' Hpn'. destruct (shape_same_node _ _ _ _ HS Hpn') as (pn & Hpn & (?&?&?&_)).
      destruct (Hp pn Hpn). split; congruence.
    + intros rn' Hrn'. destruct (shape_same_node _ _ _ _ HS Hrn') as (rn & Hrn & (?&?&?&_)).
      destruct (Hr rn Hrn). split; congruence.
  - intros n nd' sg H Hg. destruct (shape_same_node _ _ _ _ HS H) as (nd & Hn & Hsh).
    rewrite N. eapply Wa; [exact Hn|]. by eapply is_group_same_shape.
  - intros n1 n2 nd1' nd2' sg H1 H2 Hg1 Hg2.
    destruct (shape_same_node _ _ _ _ HS H1) as (nd1 & Hn1 & Hsh1).
    destruct (shape_same_node _ _ _ _ HS H2) as (nd2 & Hn2 & Hsh2).
    eapply Wu; eauto using is_group_same_shape.
Qed.

Lemma Inv_shape_same st st' f a b : shape_same st st' → Inv f a b st → Inv f a b st'.
Proof.
  intros HS (Hw & Ho & Hf). split_and!.
  - by eapply well_formed_shape_same.
  - intros g Hg. eapply balance_shape_same; eauto.
  - by eapply balance_shape_same.
Qed.

Lemma focus_shape_same st st' f sg p r : shape_same st st' → focus st f sg p r → focus st' f sg p r.
Proof.
  intros HS [(nd & Hn & Hg) (G & HG & Ep & Er)].
  destruct (shape_same_node_fwd _ _ _ _ HS Hn) as (nd' & Hn' & Hsh).
  destruct (shape_same_graph_fwd _ _ _ _ HS HG) as (G' & HG' & ? & ?).
  split; [exists nd'; split; [done|]; eapply is_group_same_shape; [|exact Hg]; by symmetry
         | exists G'; split_and!; congruence].
Qed.

Ltac shape_nodes :=
  let n := fresh "n" in
  intros n; simpl;
  repeat first [ rewrite lookup_fmap | rewrite lookup_insert; case_decide; simplify_eq ];
  try match goal with
      | H : ?m !! ?k = Some _ |- context [?m !! ?k] => rewrite H
      end;
  try (destruct (_ !! n); simpl); constructor;
  try (repeat split; simpl; rewrite ?length_fmap; done).

Ltac shape_values :=
  let v := fresh "v" in
  intros v; simpl;
  repeat (rewrite lookup_insert; case_decide; simplify_eq);
  try done; try (intros _; eauto).

Ltac shape_go :=
  unfold shape_same; simpl; split_and!;
  [ try done | shape_nodes | shape_nodes | shape_values ].

Ltac shape_prim := apply steps_wp; intros ?; wp_steps; shape_go.

Lemma shape_setType v t : steps shape_same (setType v t).
Proof. unfold setType. shape_prim. Qed.
Lemma shape_replaceAllUsesWith v new : steps shape_same (replaceAllUsesWith v new).
Proof.
  unfold replaceAllUsesWith. shape_prim.
  repeat split; simpl. unfold replace_in. by rewrite length_fmap.
Qed.
Lemma shape_insertBefore n m : steps shape_same (insertBefore n m).
Proof. unfold insertBefore. shape_prim. Qed.
Lemma shape_Node_insertAfter n m : steps shape_same (Node_insertAfter n m).
Proof. unfold Node_insertAfter. shape_prim. Qed.
Lemma shape_prependNode g n : steps shape_same (prependNode g n).
Proof. unfold prependNode. shape_prim. Qed.
Lemma shape_setStage g s : steps shape_same (setStage g s).
Proof. unfold setStage. shape_prim. Qed.
Lemma shape_index_at n : steps shape_same (index_at n).
Proof. intros st a st'. unfold index_at. destruct (_ !! _); intros [= <- <-]; shape_go. Qed.
Lemma shape_index_set n i : steps shape_same (index_set n i).
Proof. unfold index_set. shape_prim. Qed.
#[global] Hint Resolve shape_setType shape_replaceAllUsesWith shape_insertBefore
  shape_Node_insertAfter shape_prependNode shape_setStage shape_index_at
  shape_index_set : steps.
Lemma shape_copyMetadata v from : steps shape_same (copyMetadata v from).
Proof. unfold copyMetadata. solve_steps. Qed.
#[global] Hint Resolve shape_copyMetadata : steps.
Lemma shape_replaceAllUsesWith_each outs news :
  steps shape_same (replaceAllUsesWith_each outs news).
Proof.
  revert news. induction outs as [|o outs IH]; intros [|w news]; simpl; solve_steps.
Qed.
#[global] Hint Resolve shape_replaceAllUsesWith_each : steps.
Lemma shape_replaceAllUsesWith_node n m : steps shape_same (replaceAllUsesWith_node n m).
Proof. unfold replaceAllUsesWith_node. solve_steps. Qed.
Lemma shape_insertAfter n after : steps shape_same (insertAfter n after).
Proof. unfold insertAfter. solve_steps. Qed.
#[global] Hint Resolve shape_replaceAllUsesWith_node shape_insertAfter : steps.


(** *** Updates of one node *)

Lemma well_formed_put n nd nd' st :
  nodes st !! n = Some nd →
  n_kind nd' = n_kind nd → n_attrs nd' = n_attrs nd → n_graph nd' = n_graph nd →
  well_formed st → well_formed (set_nodes <[n := nd']> st).
Proof.
  intros Hn Hk Ha Hg ((Bn & Bv & Bg) & Wg & Wa & Wu).
  assert (Hgrp : ∀ m md sg, <[n:=nd']> (nodes st) !! m = Some md → is_group md sg →
                   ∃ md0, nodes st !! m = Some md0 ∧ is_group md0 sg).
  { intros m md sg Hm [Hmk Hms]. rewrite lookup_insert in Hm. case_decide; simplify_eq.
    - exists nd. split; [done|]. split; congruence.
    - exists md. done. }
  split_and!.
  - split_and!; simpl; [|done..].
    intros m [md Hm]. rewrite lookup_insert in Hm. case_decide; simplify_eq; eauto.
  - intros g G HG. simpl in *. destruct (Wg g G HG) as (? & ? & Hp & Hr).
    split_and!; try done.
    + intros pn Hpn. rewrite lookup_insert in Hpn. case_decide; simplify_eq; [|eauto].
      destruct (Hp nd Hn). split; congruence.
    + intros rn Hrn. rewrite lookup_insert in Hrn. case_decide; simplify_eq; [|eauto].
      destruct (Hr nd Hn). split; congruence.
  - intros m md sg Hm Hgm. simpl in *.
    destruct (Hgrp m md sg Hm Hgm) as (md0 & ? & ?). eauto.
  - intros n1 n2 nd1 nd2 sg H1 H2 Hg1 Hg2. simpl in *.
    destruct (Hgrp _ _ _ H1 Hg1) as (? & ? & ?).
    destruct (Hgrp _ _ _ H2 Hg2) as (? & ? & ?). eauto.
Qed.

(** A group none of whose three nodes is written keeps its balance. *)
Lemma balance_put_other n nd' st g a b :
  g ≠ n →
  (∀ nd sg G, nodes st !! g = Some nd → is_group nd sg → graphs st !! sg = Some G →
     g_param G ≠ n ∧ g_return G ≠ n) →
  balance st g a b → balance (set_nodes <[n := nd']> st) g a b.
Proof.
  intros Hne Hb H nd sg Hn Hg. simpl in *. rewrite lookup_insert_ne in Hn by done.
  destruct (H nd sg Hn Hg) as (G & pn & rn & HG & Hp & Hr & ? & ?).
  destruct (Hb nd sg G Hn Hg HG) as [? ?].
  exists G, pn, rn. rewrite !lookup_insert_ne by done. done.
Qed.

(** The boundary nodes of the body of a group are not groups, and they are
    the boundary of that body only. *)
Lemma boundary_not_group st g G n nd sg :
  wf_graphs st → graphs st !! g = Some G → g_param G = n ∨ g_return G = n →
  nodes st !! n = Some nd → ¬ is_group nd sg.
Proof.
  intros Wg HG Hb Hn [Hk _]. destruct (Wg g G HG) as (_ & _ & Hp & Hr).
  destruct Hb as [<-|<-]; [destruct (Hp nd Hn) | destruct (Hr nd Hn)]; congruence.
Qed.

Lemma boundary_owner st g1 G1 g2 G2 n nd :
  wf_graphs st → graphs st !! g1 = Some G1 → graphs st !! g2 = Some G2 →
  g_param G1 = n ∨ g_return G1 = n → g_param G2 = n ∨ g_return G2 = n →
  nodes st !! n = Some nd → g1 = g2.
Proof.
  intros Wg H1 H2 B1 B2 Hn.
  destruct (Wg g1 G1 H1) as (_ & _ & Hp1 & Hr1), (Wg g2 G2 H2) as (_ & _ & Hp2 & Hr2).
  destruct B1 as [<-|<-], B2 as [E|E]; rewrite <- ?E in *;
    repeat match goal with
           | H : ∀ x, nodes st !! ?k = Some x → _, E : nodes st !! ?k = Some _ |- _ =>
               destruct (H _ E); clear H
           end; congruence.
Qed.

Lemma param_not_return st g G pn :
  wf_graphs st → graphs st !! g = Some G → nodes st !! g_param G = Some pn →
  g_param G ≠ g_return G.
Proof.
  intros Wg HG Hp E. destruct (Wg g G HG) as (_ & _ & Hp' & Hr').
  destruct (Hp' pn Hp). rewrite E in Hp. destruct (Hr' pn Hp). congruence.
Qed.

(** Writing the focus. *)
Lemma Inv_put_focus f nd nd' sg a b st :
  nodes st !! f = Some nd → is_group nd sg →
  n_kind nd' = n_kind nd → n_attrs nd' = n_attrs nd → n_graph nd' = n_graph nd →
  Inv f a b st →
  Inv f (a + (Z.of_nat (length (n_inputs nd')) - Z.of_nat (length (n_inputs nd))))
        (b + (Z.of_nat (length (n_outputs nd')) - Z.of_nat (length (n_outputs nd))))
      (set_nodes <[f := nd']> st).
Proof.
  intros Hn Hg Hk Ha Hgr (Hw & Ho & Hf).
  pose proof Hw as (_ & Wg & _ & _).
  assert (Hnb : ∀ g G, graphs st !! g = Some G → g_param G ≠ f ∧ g_return G ≠ f).
  { intros g G HG. split; intros E;
      eapply (boundary_not_group st g G f nd sg); eauto. }
  split_and!.
  - by eapply well_formed_put.
  - intros g Hne. apply balance_put_other; [done | | by apply Ho].
    intros; eauto.
  - intros md sg' Hm Hgm. simpl in *. rewrite lookup_insert_eq in Hm. simplify_eq.
    assert (Hg0 : is_group nd sg') by (destruct Hgm; split; congruence).
    destruct (Hf nd sg' Hn Hg0) as (G & pn & rn & HG & Hp & Hr & Hi & Hou).
    destruct (Hnb _ _ HG). exists G, pn, rn. rewrite !lookup_insert_ne by done.
    split_and!; try done; lia.
Qed.

Lemma focus_put f sg p r n nd nd' st :
  nodes st !! n = Some nd →
  n_kind nd' = n_kind nd → n_attrs nd' = n_attrs nd →
  focus st f sg p r → focus (set_nodes <[n := nd']> st) f sg p r.
Proof.
  intros Hn Hk Ha [(fd & Hf & Hg) HG]. split; [|done]. simpl.
  rewrite lookup_insert. case_decide; simplify_eq; [|eauto].
  exists nd'. split; [done|]. destruct Hg. split; congruence.
Qed.

(** Writing the parameter node of the body of the focus. *)
Lemma Inv_put_param f sg p r pn pn' a b st :
  focus st f sg p r → nodes st !! p = Some pn →
  n_kind pn' = n_kind pn → n_attrs pn' = n_attrs pn → n_graph pn' = n_graph pn →
  Inv f a b st →
  Inv f (a - (Z.of_nat (length (n_outputs pn')) - Z.of_nat (length (n_outputs pn)))) b
      (set_nodes <[p := pn']> st).
Proof.
  intros [(fd & Hfd & Hfg) (G & HG & <- & <-)] Hp Hk Ha Hgr (Hw & Ho & Hf).
  pose proof Hw as (_ & Wg & _ & Wu).
  assert (Hfp : f ≠ g_param G).
  { intros ->. exact (boundary_not_group st sg G _ fd sg Wg HG (or_introl eq_refl) Hfd Hfg). }
  split_and!.
  - by eapply well_formed_put.
  - intros g Hne. destruct (decide (g = g_param G)) as [->|Hgp].
    { intros md sg' Hm Hgm. simpl in *. rewrite lookup_insert_eq in Hm.
      simplify_eq. destruct Hgm as [Hmk _].
      destruct (Wg sg G HG) as (_ & _ & Hpk & _). destruct (Hpk pn Hp). congruence. }
    apply balance_put_other; [done | | by apply Ho].
    + intros gd sg' G' Hgd Hgg HG'.
      assert (sg' ≠ sg) by (intros ->; apply Hne; eapply Wu; eauto).
      split; intros E; apply H.
      * exact (boundary_owner st sg' G' sg G _ pn Wg HG' HG (or_introl E)
                 (or_introl eq_refl) Hp).
      * exact (boundary_owner st sg' G' sg G _ pn Wg HG' HG (or_intror E)
                 (or_introl eq_refl) Hp).
  - intros md sg' Hm Hgm. simpl in *. rewrite lookup_insert_ne in Hm by done.
    destruct (Hf md sg' Hm Hgm) as (G' & pn0 & rn & HG' & Hp0 & Hr & Hi & Hou).
    assert (sg' = sg) as -> by (destruct Hfg, Hgm; simplify_eq; congruence).
    simplify_eq.
    pose proof (param_not_return _ _ _ _ Wg HG Hp).
    exists G, pn', rn. rewrite lookup_insert_eq, lookup_insert_ne by done.
    split_and!; try done; lia.
Qed.

(** Writing the return node of the body of the focus. *)
Lemma Inv_put_return f sg p r rn rn' a b st :
  focus st f sg p r → nodes st !! r = Some rn →
  n_kind rn' = n_kind rn → n_attrs rn' = n_attrs rn → n_graph rn' = n_graph rn →
  Inv f a b st →
  Inv f a (b - (Z.of_nat (length (n_inputs rn')) - Z.of_nat (length (n_inputs rn))))
      (set_nodes <[r := rn']> st).
Proof.
  intros [(fd & Hfd & Hfg) (G & HG & <- & <-)] Hr Hk Ha Hgr (Hw & Ho & Hf).
  pose proof Hw as (_ & Wg & _ & Wu).
  assert (Hfp : f ≠ g_return G).
  { intros ->. exact (boundary_not_group st sg G _ fd sg Wg HG (or_intror eq_refl) Hfd Hfg). }
  split_and!.
  - by eapply well_formed_put.
  - intros g Hne. destruct (decide (g = g_return G)) as [->|Hgp].
    { intros md sg' Hm Hgm. simpl in *. rewrite lookup_insert_eq in Hm.
      simplify_eq. destruct Hgm as [Hmk _].
      destruct (Wg sg G HG) as (_ & _ & _ & Hrk). destruct (Hrk rn Hr). congruence. }
    apply balance_put_other; [done | | by apply Ho].
    + intros gd sg' G' Hgd Hgg HG'.
      assert (sg' ≠ sg) by (intros ->; apply Hne; eapply Wu; eauto).
      split; intros E; apply H.
      * exact (boundary_owner st sg' G' sg G _ rn Wg HG' HG (or_introl E)
                 (or_intror eq_refl) Hr).
      * exact (boundary_owner st sg' G' sg G _ rn Wg HG' HG (or_intror E)
                 (or_intror eq_refl) Hr).
  - intros md sg' Hm Hgm. simpl in *. rewrite lookup_insert_ne in Hm by done.
    destruct (Hf md sg' Hm Hgm) as (G' & pn & rn0 & HG' & Hp & Hr0 & Hi & Hou).
    assert (sg' = sg) as -> by (destruct Hfg, Hgm; simplify_eq; congruence).
    simplify_eq.
    pose proof (param_not_return _ _ _ _ Wg HG Hp).
    exists G, pn, rn'. rewrite lookup_insert_eq, lookup_insert_ne by done.
    split_and!; try done; lia.
Qed.

Lemma is_boundary_graphs st st' n :
  graphs st' = graphs st → is_boundary st' n ↔ is_boundary st n.
Proof. intros E. unfold is_boundary. by rewrite E. Qed.

Lemma not_boundary_fresh st n : wf_graphs st → next st ≤ n → ¬ is_boundary st n.
Proof.
  intros Wg Hn (g & G & HG & Hb). destruct (Wg g G HG) as (? & ? & _).
  destruct Hb; lia.
Qed.

Lemma not_boundary_group st n nd :
  wf_graphs st → nodes st !! n = Some nd → n_kind nd = kFusionGroup → ¬ is_boundary st n.
Proof.
  intros Wg Hn Hk (g & G & HG & Hb). destruct (Wg g G HG) as (_ & _ & Hp & Hr).
  destruct Hb as [<-|<-]; [destruct (Hp nd Hn) | destruct (Hr nd Hn)]; congruence.
Qed.

(** Writing a node that is neither a group nor a boundary. *)
Lemma well_formed_put_inert n nd' st :
  ¬ is_boundary st n → (∀ sg, ¬ is_group nd' sg) → n < next st →
  well_formed st → well_formed (set_nodes <[n := nd']> st).
Proof.
  intros Hnb Hng Hlt ((Bn & Bv & Bg) & Wg & Wa & Wu).
  split_and!.
  - split_and!; simpl; [|done..].
    intros m [md Hm]. rewrite lookup_insert in Hm. case_decide; simplify_eq; eauto.
  - intros g G HG. simpl in *. destruct (Wg g G HG) as (? & ? & Hp & Hr).
    assert (g_param G ≠ n) by (intros E; apply Hnb; exists g, G; eauto).
    assert (g_return G ≠ n) by (intros E; apply Hnb; exists g, G; eauto).
    rewrite !lookup_insert_ne by done. done.
  - intros m md sg Hm Hgm. simpl in *. rewrite lookup_insert in Hm.
    case_decide; simplify_eq; [by destruct (Hng sg) | eauto].
  - intros n1 n2 nd1 nd2 sg H1 H2 Hg1 Hg2. simpl in *.
    rewrite lookup_insert in H1, H2.
    repeat case_decide; simplify_eq; try (by destruct (Hng sg)). eauto.
Qed.

Lemma balance_put_inert n nd' st g a b :
  ¬ is_boundary st n → (∀ sg, ¬ is_group nd' sg) →
  balance st g a b → balance (set_nodes <[n := nd']> st) g a b.
Proof.
  intros Hnb Hng H. destruct (decide (g = n)) as [->|Hne].
  - intros md sg Hm Hgm. simpl in Hm. rewrite lookup_insert_eq in Hm. simplify_eq.
    by destruct (Hng sg).
  - apply balance_put_other; [done | | done].
    intros nd sg G _ _ HG. split; intros E; apply Hnb; exists sg, G; eauto.
Qed.

Lemma Inv_put_inert n nd' f a b st :
  ¬ is_boundary st n → (∀ sg, ¬ is_group nd' sg) → n < next st →
  Inv f a b st → Inv f a b (set_nodes <[n := nd']> st).
Proof.
  intros Hnb Hng Hlt (Hw & Ho & Hf). split_and!.
  - by apply well_formed_put_inert.
  - intros g Hg. apply balance_put_inert; auto.
  - by apply balance_put_inert.
Qed.

Lemma focus_put_other f sg p r n nd' st :
  n ≠ f → focus st f sg p r → focus (set_nodes <[n := nd']> st) f sg p r.
Proof.
  intros Hne [(fd & Hf & Hg) HG]. split; [|done]. simpl.
  rewrite lookup_insert_ne by done. eauto.
Qed.

(** Freeing a node that is not a boundary. *)
Lemma Inv_delete n f a b st :
  ¬ is_boundary st n → Inv f a b st → Inv f a b (set_nodes (delete n) st).
Proof.
  intros Hnb (((Bn & Bv & Bg) & Wg & Wa & Wu) & Ho & Hf).
  assert (Hbal : ∀ g a b, balance st g a b → balance (set_nodes (delete n) st) g a b).
  { intros g a' b' H nd sg Hn Hg. simpl in *.
    rewrite lookup_delete in Hn. case_decide; simplify_eq.
    destruct (H nd sg Hn Hg) as (G & pn & rn & HG & Hp & Hr & ? & ?).
    exists G, pn, rn.
    assert (g_param G ≠ n) by (intros E; apply Hnb; exists sg, G; eauto).
    assert (g_return G ≠ n) by (intros E; apply Hnb; exists sg, G; eauto).
    rewrite !lookup_delete_ne by done. done. }
  split_and!; [split_and!| |]; auto.
  - split_and!; simpl; [|done..].
    intros m [md Hm]. rewrite lookup_delete in Hm. case_decide; simplify_eq; eauto.
  - intros g G HG. simpl in *. destruct (Wg g G HG) as (? & ? & Hp & Hr).
    split_and!; try done.
    + intros pn Hpn. rewrite lookup_delete in Hpn. case_decide; simplify_eq; eauto.
    + intros rn Hrn. rewrite lookup_delete in Hrn. case_decide; simplify_eq; eauto.
  - intros m md sg Hm Hgm. simpl in *.
    rewrite lookup_delete in Hm. case_decide; simplify_eq; eauto.
  - intros n1 n2 nd1 nd2 sg H1 H2 Hg1 Hg2. simpl in *.
    rewrite lookup_delete in H1, H2. repeat case_decide; simplify_eq. eauto.
Qed.

Lemma focus_delete f sg p r n st :
  n ≠ f → focus st f sg p r → focus (set_nodes (delete n) st) f sg p r.
Proof.
  intros Hne [(fd & Hf & Hg) HG]. split; [|done]. simpl.
  rewrite lookup_delete_ne by done. eauto.
Qed.

(** Allocation bookkeeping. *)
Lemma Inv_set_next k f a b st : next st ≤ k → Inv f a b st → Inv f a b (set_next k st).
Proof.
  intros Hk (((Bn & Bv & Bg) & Wg & Wa & Wu) & Ho & Hf).
  split_and!; [split_and!| |]; auto.
  - split_and!; simpl; intros x Hx;
      [specialize (Bn x Hx) | specialize (Bv x Hx) | specialize (Bg x Hx)]; lia.
  - intros g G HG. simpl in *. destruct (Wg g G HG) as (? & ? & Hp & Hr).
    split_and!; try done; lia.
  - intros m md sg Hm Hgm. simpl in *. specialize (Wa m md sg Hm Hgm). lia.
Qed.

Lemma Inv_insert_value v vl f a b st :
  v < next st → Inv f a b st → Inv f a b (set_values <[v := vl]> st).
Proof.
  intros Hv (((Bn & Bv & Bg) & Wg & Wa & Wu) & Ho & Hf).
  split_and!; [split_and!| |]; auto.
  split_and!; simpl; [done | | done].
  intros x [y Hx]. rewrite lookup_insert in Hx. case_decide; simplify_eq; eauto.
Qed.

Lemma Inv_delete_value v f a b st :
  Inv f a b st → Inv f a b (set_values (delete v) st).
Proof.
  intros (((Bn & Bv & Bg) & Wg & Wa & Wu) & Ho & Hf).
  split_and!; [split_and!| |]; auto.
  split_and!; simpl; [done | | done].
  intros x [y Hx]. rewrite lookup_delete in Hx. case_decide; simplify_eq; eauto.
Qed.

Lemma Inv_put_graph g G G' f a b st :
  graphs st !! g = Some G → g_param G' = g_param G → g_return G' = g_return G →
  Inv f a b st → Inv f a b (set_graphs <[g := G']> st).
Proof.
  intros HG Ep Er. apply Inv_shape_same. unfold shape_same. simpl.
  split_and!; [done | | | done].
  - intros n. destruct (nodes st !! n); constructor. reflexivity.
  - intros g0. rewrite lookup_insert. case_decide; simplify_eq.
    + rewrite HG. by constructor.
    + destruct (graphs st !! g0); by constructor.
Qed.


(** *** The primitives under the invariant *)

Lemma Inv_eq f a b a' b' st : Inv f a b st → a = a' → b = b' → Inv f a' b' st.
Proof. by intros H -> ->. Qed.

Lemma FInv_shape_same f sg p r a b st st' :
  shape_same st st' → FInv f sg p r a b st → FInv f sg p r a b st'.
Proof. intros HS [HI HF]. split; [by eapply Inv_shape_same | by eapply focus_shape_same]. Qed.

Lemma focus_node st f sg p r nd :
  focus st f sg p r → nodes st !! f = Some nd → is_group nd sg.
Proof. intros [(fd & Hf & Hg) _] Hn. by simplify_eq. Qed.

Lemma focus_set_next st f sg p r k : focus st f sg p r → focus (set_next k st) f sg p r.
Proof. done. Qed.
Lemma focus_set_values st f sg p r h : focus st f sg p r → focus (set_values h st) f sg p r.
Proof. done. Qed.

Lemma focus_boundary_ne st f sg p r a b :
  FInv f sg p r a b st → is_Some (nodes st !! p) → f ≠ p.
Proof.
  intros [((_ & Wg & _) & _) [(fd & Hf & Hg) (G & HG & <- & <-)]] [pn Hp] ->.
  exact (boundary_not_group st sg G _ fd sg Wg HG (or_introl eq_refl) Hf Hg).
Qed.

Lemma focus_boundary_ne_r st f sg p r a b :
  FInv f sg p r a b st → is_Some (nodes st !! r) → f ≠ r.
Proof.
  intros [((_ & Wg & _) & _) [(fd & Hf & Hg) (G & HG & <- & <-)]] [rn Hr] ->.
  exact (boundary_not_group st sg G _ fd sg Wg HG (or_intror eq_refl) Hf Hg).
Qed.

Lemma wp_addInput_focus f sg p r a b v st :
  FInv f sg p r a b st →
  wp (addInput f v) (λ _ st', FInv f sg p r (a + 1) b st') st.
Proof.
  intros [HI HF]. unfold addInput. wp_steps.
  pose proof (focus_node _ _ _ _ _ _ HF H) as Hg. split.
  - eapply Inv_eq; [eapply (Inv_put_focus f nd _ sg); eauto | |]; simpl;
      rewrite ?length_app; simpl; lia.
  - eapply focus_put; eauto.
Qed.

Lemma wp_removeInput_focus f sg p r a b i st :
  FInv f sg p r a b st →
  wp (removeInput f i) (λ _ st', FInv f sg p r (a - 1) b st') st.
Proof.
  intros [HI HF]. unfold removeInput. wp_steps.
  pose proof (focus_node _ _ _ _ _ _ HF H) as Hg. split.
  - eapply Inv_eq; [eapply (Inv_put_focus f nd _ sg); eauto | |]; simpl; [|lia].
    rewrite length_delete by eauto. apply lookup_lt_Some in H0. lia.
  - eapply focus_put; eauto.
Qed.

Lemma wp_addOutput_focus f sg p r a b st :
  FInv f sg p r a b st →
  wp (addOutput f) (λ _ st', FInv f sg p r a (b + 1) st') st.
Proof.
  intros [HI HF]. unfold addOutput. wp_steps.
  pose proof (focus_node _ _ _ _ _ _ HF H) as Hg. split.
  - eapply Inv_eq;
      [eapply (Inv_put_focus f nd _ sg); simpl; eauto;
       apply Inv_insert_value; [simpl; lia|]; apply Inv_set_next; [lia | done] | |];
      simpl; rewrite ?length_app; simpl; lia.
  - eapply focus_put; simpl; eauto.
Qed.

Lemma wp_Graph_addInput_focus f sg p r a b st :
  FInv f sg p r a b st →
  wp (Graph_addInput sg) (λ _ st', FInv f sg p r (a - 1) b st') st.
Proof.
  intros [HI HF]. unfold Graph_addInput, addOutput. wp_steps.
  assert (g_param G = p) as <-.
  { destruct HF as [_ (G' & HG' & <- & _)]. congruence. }
  split.
  - eapply Inv_eq;
      [eapply (Inv_put_param f sg _ r nd); simpl; eauto;
       apply Inv_insert_value; [simpl; lia|]; apply Inv_set_next; [lia | done] | |];
      simpl; rewrite ?length_app; simpl; lia.
  - eapply focus_put; simpl; eauto.
Qed.

Lemma wp_registerOutput_focus f sg p r a b v st :
  FInv f sg p r a b st →
  wp (registerOutput sg v) (λ _ st', FInv f sg p r a (b - 1) st') st.
Proof.
  intros [HI HF]. unfold registerOutput, addInput. wp_steps.
  assert (g_return G = r) as <-.
  { destruct HF as [_ (G' & HG' & _ & <-)]. congruence. }
  split.
  - eapply Inv_eq; [eapply (Inv_put_return f sg p _ nd); simpl; eauto | |]; simpl;
      rewrite ?length_app; simpl; lia.
  - eapply focus_put; simpl; eauto.
Qed.

Lemma wp_eraseInput_focus f sg p r a b i st :
  FInv f sg p r a b st →
  wp (eraseInput sg i) (λ _ st', FInv f sg p r (a + 1) b st') st.
Proof.
  intros [HI HF]. unfold eraseInput, eraseOutput. wp_steps.
  apply wp_reads; [solve_reads|]. intros us _. wp_steps.
  assert (g_param G = p) as <-.
  { destruct HF as [_ (G' & HG' & <- & _)]. congruence. }
  split.
  - eapply Inv_eq;
      [eapply (Inv_put_param f sg _ r nd); simpl; eauto; by apply Inv_delete_value | |];
      simpl; [|lia].
    rewrite length_delete by eauto. apply lookup_lt_Some in H1. lia.
  - eapply focus_put; simpl; eauto.
Qed.


(** *** Nodes outside the pairing *)

Lemma wp_and {A} (m : M A) (Q1 Q2 : A → State → Prop) st :
  wp m Q1 st → wp m Q2 st → wp m (λ a st', Q1 a st' ∧ Q2 a st') st.
Proof. unfold wp. destruct (m st); tauto. Qed.

Lemma wp_both (R : relation State) {A} (m : M A) (Q : A → State → Prop) st :
  steps R m → wp m Q st → wp m (λ a st', Q a st' ∧ R st st') st.
Proof. intros HR HQ. apply wp_and; [done|]. by apply steps_wp. Qed.

Lemma Inv_bounded f a b st : Inv f a b st → bounded st.
Proof. by intros ((? & _) & _). Qed.

Lemma Inv_live f a b st n nd : Inv f a b st → nodes st !! n = Some nd → n < next st.
Proof. intros (((Bn & _) & _) & _) Hn. apply Bn. eauto. Qed.

Lemma focus_not_inert st f sg p r n nd :
  focus st f sg p r → nodes st !! n = Some nd → n_kind nd ≠ kFusionGroup → n ≠ f.
Proof. intros [(fd & Hf & Hk & _) _] Hn Hne ->. simplify_eq. Qed.

Lemma inert_put (foc : Prop) f sg p r a b n nd nd' st :
  Inv f a b st → (foc → focus st f sg p r) → ¬ is_boundary st n →
  nodes st !! n = Some nd → n_kind nd ≠ kFusionGroup → n_kind nd' = n_kind nd →
  Inv f a b (set_nodes <[n := nd']> st)
  ∧ (foc → focus (set_nodes <[n := nd']> st) f sg p r)
  ∧ inert (set_nodes <[n := nd']> st) n.
Proof.
  intros HI HF Hb Hn Hk Hk'. split_and!.
  - apply Inv_put_inert; [done | | by eapply Inv_live | done].
    intros sg' [? _]. congruence.
  - intros Hfoc. apply focus_put_other; [|auto].
    eapply focus_not_inert; eauto.
  - split; [|done]. exists nd'. split; [apply lookup_insert_eq | congruence].
Qed.

Lemma wp_addOutput_inert (foc : Prop) f sg p r a b n st :
  Inv f a b st → (foc → focus st f sg p r) → inert st n →
  wp (addOutput n)
     (λ _ st', Inv f a b st' ∧ (foc → focus st' f sg p r) ∧ inert st' n) st.
Proof.
  intros HI HF [(nd0 & Hn & Hk) Hb]. unfold addOutput. wp_steps. simplify_eq.
  eapply (inert_put foc); simpl; eauto.
  apply Inv_insert_value; [simpl; lia|]. apply Inv_set_next; [lia | done].
Qed.

Lemma wp_addInput_inert (foc : Prop) f sg p r a b n v st :
  Inv f a b st → (foc → focus st f sg p r) → inert st n →
  wp (addInput n v)
     (λ _ st', Inv f a b st' ∧ (foc → focus st' f sg p r) ∧ inert st' n) st.
Proof.
  intros HI HF [(nd0 & Hn & Hk) Hb]. unfold addInput. wp_steps. simplify_eq.
  eapply (inert_put foc); simpl; eauto.
Qed.

Lemma wp_copyAttributes_inert (foc : Prop) f sg p r a b n from st :
  Inv f a b st → (foc → focus st f sg p r) → inert st n →
  wp (copyAttributes n from)
     (λ _ st', Inv f a b st' ∧ (foc → focus st' f sg p r) ∧ inert st' n) st.
Proof.
  intros HI HF [(nd0 & Hn & Hk) Hb]. unfold copyAttributes. wp_steps. simplify_eq.
  eapply (inert_put foc); simpl; eauto.
Qed.

Lemma is_boundary_shape_same st st' n :
  shape_same st st' → is_boundary st' n → is_boundary st n.
Proof.
  intros HS (g & G' & HG' & Hb).
  destruct (shape_same_graph _ _ _ _ HS HG') as (G & HG & Ep & Er).
  exists g, G. split; [done|]. destruct Hb; [left | right]; congruence.
Qed.

Lemma inert_shape_same st st' n : shape_same st st' → inert st n → inert st' n.
Proof.
  intros HS [(nd & Hn & Hk) Hb].
  destruct (shape_same_node_fwd _ _ _ _ HS Hn) as (nd' & Hn' & (Ek & _)).
  split; [exists nd'; split; [done | congruence]|].
  intros Hb'. apply Hb. by eapply is_boundary_shape_same.
Qed.

Lemma wp_shape_inert (foc : Prop) f sg p r a b n {A} (m : M A) st :
  steps shape_same m →
  Inv f a b st → (foc → focus st f sg p r) → inert st n →
  wp m (λ _ st', Inv f a b st' ∧ (foc → focus st' f sg p r) ∧ inert st' n) st.
Proof.
  intros Hm HI HF Hin. eapply wp_mono; [by apply steps_wp|].
  intros x st' HS. cbv beta in HS. split_and!.
  - by eapply Inv_shape_same.
  - intros Hfoc. eapply focus_shape_same; eauto.
  - by eapply inert_shape_same.
Qed.

Lemma wp_shape (foc : Prop) f sg p r a b {A} (m : M A) st :
  steps shape_same m →
  Inv f a b st → (foc → focus st f sg p r) →
  wp m (λ _ st', Inv f a b st' ∧ (foc → focus st' f sg p r)) st.
Proof.
  intros Hm HI HF. eapply wp_mono; [by apply steps_wp|].
  intros x st' HS. cbv beta in HS. split.
  - by eapply Inv_shape_same.
  - intros Hfoc. eapply focus_shape_same; eauto.
Qed.

(** A new node of a kind other than [kFusionGroup]. *)
Lemma wp_create_inert (foc : Prop) f sg p r a b g k st :
  Inv f a b st → (foc → focus st f sg p r) → k ≠ kFusionGroup →
  wp (create g k 0)
     (λ n st', Inv f a b st' ∧ (foc → focus st' f sg p r) ∧ inert st' n
               ∧ n = next st ∧ next st' = S (next st)) st.
Proof.
  intros HI HF Hk. unfold create. simpl. wp_steps. simpl.
  pose proof HI as ((Hbd & Wg & _) & _).
  assert (Hnb : ¬ is_boundary st (next st)).
  { intros (g' & G' & HG' & Hb). destruct (Wg g' G' HG') as (? & ? & _).
    destruct Hb; lia. }
  split_and!; [| | |done..].
  - apply Inv_put_inert; [done | | simpl; lia |].
    + intros sg' [? _]. done.
    + apply Inv_set_next; [lia | done].
  - intros Hfoc. apply focus_put_other; [|auto].
    destruct (HF Hfoc) as [(fd & Hf & _) _]. destruct Hbd as (Bn & _).
    specialize (Bn f (mk_is_Some _ _ Hf)). lia.
  - split; [|done]. eexists. split; [apply lookup_insert_eq | done].
Qed.

Lemma inert_live f a b st n : Inv f a b st → inert st n → n < next st.
Proof. intros HI [(nd & Hn & _) _]. by eapply Inv_live. Qed.

Lemma wp_createClone_inert (foc : Prop) f sg p r a b g n (m : gmap nat nat) e st :
  Inv f a b st → (foc → focus st f sg p r) →
  (∀ nd, nodes st !! n = Some nd → n_kind nd ≠ kFusionGroup) →
  wp (createClone g n (λ k, liftOpt (m !! k) e))
     (λ t st', Inv f a b st' ∧ (foc → focus st' f sg p r) ∧ inert st' t
               ∧ t = next st) st.
Proof.
  intros HI HF Hk. unfold createClone. wp_steps.
  eapply wp_mono; [apply (wp_create_inert foc); eauto|].
  intros t st1 (HI1 & HF1 & Hin1 & -> & Hnx). cbv beta. wp_steps.
  eapply wp_mono.
  { apply (wp_forM (λ s, Inv f a b s ∧ (foc → focus s f sg p r) ∧ inert s (next st)));
      [done|].
    intros o s _ (HIs & HFs & Hins). wp_steps.
    eapply wp_mono; [by apply (wp_addOutput_inert foc)|].
    intros v s2 (HI2 & HF2 & Hin2). cbv beta.
    apply (wp_shape_inert foc); eauto with steps. }
  intros ? s2 (HI2 & HF2 & Hin2). cbv beta. wp_steps.
  eapply wp_mono; [by apply (wp_copyAttributes_inert foc)|].
  intros ? s3 (HI3 & HF3 & Hin3). cbv beta. wp_steps.
  eapply wp_mono.
  { apply (wp_forM (λ s, Inv f a b s ∧ (foc → focus s f sg p r) ∧ inert s (next st)));
      [done|].
    intros i s _ (HIs & HFs & Hins). wp_steps.
    eapply wp_mono; [by apply (wp_addInput_inert foc)|].
    intros v s4 H4. cbv beta. wp_steps. exact H4. }
  intros ? s4 (HI4 & HF4 & Hin4). cbv beta. wp_steps. done.
Qed.

(** *** Merging one node into a group *)

Ltac wp_read :=
  lazymatch goal with
  | |- wp (bind _ _) _ _ => apply wp_bind
  | |- _ => idtac
  end;
  apply wp_reads; [solve_reads | intros ? ?].

Lemma wp_shape_FInv f sg p r a b {A} (m : M A) st :
  steps shape_same m → FInv f sg p r a b st →
  wp m (λ _ st', FInv f sg p r a b st') st.
Proof.
  intros Hm HF. eapply wp_mono; [by apply steps_wp|].
  intros x st' HS. cbv beta in HS. by eapply FInv_shape_same.
Qed.

Lemma getSubgraph_focus st f sg p r s st' :
  focus st f sg p r → getSubgraph f st = Ok s st' → s = sg.
Proof.
  intros [(fd & Hf & _ & Hs) _] (-> & nd & Hn & _ & Ha)%getSubgraph_inv.
  simplify_eq. unfold subgraph_attr in Hs. rewrite Ha in Hs. congruence.
Qed.

Tactic Notation "wp_use" tactic3(tac) "as" ident(a) ident(s) simple_intropattern(pat) :=
  lazymatch goal with
  | |- wp (bind _ _) _ _ => apply wp_bind
  | |- _ => idtac
  end;
  eapply wp_mono; [tac | intros a s; cbv beta; intros pat].

Lemma wp_mergeNodeIntoGroup_inputs f sg p r a b m ins st :
  FInv f sg p r a b st →
  wp (mergeNodeIntoGroup_inputs f sg m ins) (λ _ st', FInv f sg p r a b st') st.
Proof.
  revert m st. induction ins as [|input ins IH]; intros m st HF; simpl.
  - by wp_steps.
  - destruct (m !! input); [by apply IH|].
    wp_use (by apply wp_Graph_addInput_focus) as in_group s1 H1.
    wp_read.
    wp_use (apply wp_shape_FInv; eauto with steps) as u2 s2 H2.
    wp_use (by apply wp_addInput_focus) as u3 s3 H3.
    apply IH. by replace a with (a - 1 + 1)%Z by lia.
Qed.

Lemma wp_mergeNodeIntoGroup f sg p r a b n st :
  FInv f sg p r a b st →
  wp (mergeNodeIntoGroup f n) (λ _ st', FInv f sg p r a b st') st.
Proof.
  intros HF. unfold mergeNodeIntoGroup, kind. wp_steps.
  case_bool_decide as Hk; [|done].
  assert (Hlt : n < next st) by (destruct HF; by eapply Inv_live).
  wp_read. assert (a0 = sg) as -> by (destruct HF; by eapply getSubgraph_focus).
  wp_read. wp_read. wp_steps. wp_read. wp_read.
  wp_use (apply (wp_both static);
          [apply static_mergeNodeIntoGroup_inputs | by apply wp_mergeNodeIntoGroup_inputs])
    as m' s1 [[HI1 HF1] Hs1].
  wp_use (apply (wp_createClone_inert True f sg p r); [done | done |];
          intros nd1 Hn1; destruct (static_node _ _ _ _ _ Hs1 H Hlt Hn1) as (-> & _); done)
    as t s2 (HI2 & HF2 & _).
  assert (F2 : FInv f sg p r a b s2) by (split; auto).
  clear HI2 HF2. wp_read. wp_read. destruct (index_of _ _) as [pos|].
  - wp_use (by apply wp_removeInput_focus) as u3 s3 F3.
    wp_read. wp_steps. wp_read.
    wp_use (apply wp_shape_FInv; eauto with steps) as u4 s4 F4.
    wp_use (by apply wp_eraseInput_focus) as u5 s5 F5.
    apply wp_shape_FInv; [eauto with steps|].
    by replace a with (a - 1 + 1)%Z by lia.
  - apply wp_shape_FInv; [eauto with steps | done].
Qed.

(** *** Freeing a node *)

#[global] Instance except_preorder n : PreOrder (except n).
Proof.
  split.
  - intros st. split_and!; [done | done | | done].
    intros g. destruct (graphs st !! g); by constructor.
  - intros s1 s2 s3 (N1 & H1 & G1 & V1) (N2 & H2 & G2 & V2). split_and!.
    + congruence.
    + intros x Hx. rewrite H2, H1; done.
    + intros g. specialize (G1 g). specialize (G2 g).
      destruct G1 as [? ? []|]; inversion G2 as [? ? []|]; simplify_eq; constructor.
      split; congruence.
    + auto.
Qed.

Lemma except_eraseOutput n i : steps (except n) (eraseOutput n i).
Proof.
  unfold eraseOutput. apply steps_wp. intros st. wp_steps. wp_read. wp_steps.
  split_and!; simpl; [done | | | ].
  - intros x Hx. by rewrite lookup_insert_ne.
  - intros g. destruct (graphs st !! g); by constructor.
  - intros v [vl Hv]. rewrite lookup_delete in Hv. case_decide; simplify_eq. eauto.
Qed.
#[global] Hint Resolve except_eraseOutput : steps.

Lemma except_eraseOutputs_down n k : steps (except n) (eraseOutputs_down n k).
Proof. induction k; simpl; solve_steps. Qed.

Lemma destroy_shape n st st' :
  destroy n st = Ok tt st' → shape_same (set_nodes (delete n) st) st'.
Proof.
  intros E.
  apply (wp_Ok (destroy n) (λ _ s, shape_same (set_nodes (delete n) st) s) st tt st');
    [|done].
  clear E. unfold destroy. wp_steps.
  wp_use (apply steps_wp, except_eraseOutputs_down) as u s1 (N1 & H1 & G1 & V1).
  wp_steps. unfold shape_same. simpl. split_and!.
  - done.
  - intros x. rewrite !lookup_delete. case_decide; [constructor|].
    rewrite H1 by done. destruct (nodes st !! x); constructor. by repeat split.
  - intros g. rewrite lookup_insert. case_decide; simplify_eq.
    + specialize (G1 (n_graph nd)). rewrite H0 in G1. inversion G1; simplify_eq.
      constructor. simpl. done.
    + apply G1.
  - done.
Qed.

Lemma wp_destroy (foc : Prop) f sg p r a b n st :
  Inv f a b st → (foc → focus st f sg p r ∧ n ≠ f) → ¬ is_boundary st n →
  wp (destroy n)
     (λ _ st', Inv f a b st' ∧ (foc → focus st' f sg p r) ∧ nodes st' !! n = None) st.
Proof.
  intros HI HF Hb. apply wp_intro. intros [] st' E.
  pose proof (destroy_shape _ _ _ E) as HS. split_and!.
  - eapply Inv_shape_same; [exact HS|]. by apply Inv_delete.
  - intros Hfoc. destruct (HF Hfoc). eapply focus_shape_same; [exact HS|].
    by apply focus_delete.
  - destruct HS as (_ & Hn & _). specialize (Hn n). simpl in Hn.
    rewrite lookup_delete_eq in Hn. by inversion Hn.
Qed.

(** *** The boundary nodes during a merge *)

#[global] Instance fresh_boundaries_preorder : PreOrder fresh_boundaries.
Proof.
  split.
  - intros st. split; [done | auto].
  - intros s1 s2 s3 [N1 H1] [N2 H2]. split; [lia|].
    intros x Hx. destruct (H2 x Hx) as [H|H]; [|right; lia].
    destruct (H1 x H) as [?|?]; auto.
Qed.

Lemma fresh_boundaries_graphs st st' :
  next st ≤ next st' → graphs st' = graphs st → fresh_boundaries st st'.
Proof.
  intros Hn Hg. split; [done|]. intros x (g & G & HG & Hx). left.
  exists g, G. by rewrite <- Hg.
Qed.

Lemma fresh_boundaries_shape st st' : shape_same st st' → fresh_boundaries st st'.
Proof.
  intros HS. split; [destruct HS as (-> & _); done|].
  intros x Hx. left. by eapply is_boundary_shape_same.
Qed.

Lemma fresh_boundaries_shape_steps {A} (m : M A) :
  steps shape_same m → steps fresh_boundaries m.
Proof. intros H st a st' E. apply fresh_boundaries_shape. by eapply H. Qed.
#[global] Hint Resolve fresh_boundaries_shape_steps | 10 : steps.

Ltac fb_prim :=
  apply steps_wp; intros ?; wp_steps; apply fresh_boundaries_graphs; simpl; [lia | done].

Lemma fb_addOutput n : steps fresh_boundaries (addOutput n).
Proof. unfold addOutput. fb_prim. Qed.
Lemma fb_addInput n v : steps fresh_boundaries (addInput n v).
Proof. unfold addInput. fb_prim. Qed.
Lemma fb_removeInput n i : steps fresh_boundaries (removeInput n i).
Proof. unfold removeInput. fb_prim. Qed.
Lemma fb_copyAttributes n from : steps fresh_boundaries (copyAttributes n from).
Proof. unfold copyAttributes. fb_prim. Qed.
#[global] Hint Resolve fb_addOutput fb_addInput fb_removeInput fb_copyAttributes : steps.
Lemma fb_destroy n : steps fresh_boundaries (destroy n).
Proof.
  intros st [] st' E. apply destroy_shape, fresh_boundaries_shape in E.
  destruct E as [N H]. split; [done|]. exact H.
Qed.
Lemma fb_addOutputs n k : steps fresh_boundaries (addOutputs n k).
Proof. induction k; simpl; solve_steps. Qed.
Lemma fb_create g k num : steps fresh_boundaries (create g k num).
Proof.
  unfold create. apply steps_wp. intros st. wp_steps.
  wp_use (apply steps_wp, fb_addOutputs) as u s1 H1. wp_steps.
  etrans; [|exact H1]. apply fresh_boundaries_graphs; simpl; [lia | done].
Qed.
#[global] Hint Resolve fb_destroy fb_create : steps.
Lemma fb_createClone_map g n (m : gmap nat nat) e :
  steps fresh_boundaries (createClone g n (λ k, liftOpt (m !! k) e)).
Proof. unfold createClone. solve_steps. Qed.
Lemma fb_Graph_addInput g : steps fresh_boundaries (Graph_addInput g).
Proof. unfold Graph_addInput. solve_steps. Qed.
Lemma fb_registerOutput g v : steps fresh_boundaries (registerOutput g v).
Proof. unfold registerOutput. solve_steps. Qed.
Lemma fb_eraseInput g i : steps fresh_boundaries (eraseInput g i).
Proof.
  unfold eraseInput. apply steps_bind; [apply _ | solve_steps | intros G].
  intros st [] st' E. apply except_eraseOutput in E as (N & _ & HG & _).
  split; [lia|]. intros x (g' & G' & HG' & Hb). left.
  specialize (HG g'). rewrite HG' in HG. inversion HG as [G0 ? [Ep Er] E0|]; simplify_eq.
  exists g', G0. split; [done|]. destruct Hb; [left | right]; congruence.
Qed.
#[global] Hint Resolve fb_createClone_map fb_Graph_addInput fb_registerOutput
  fb_eraseInput : steps.
Lemma fb_mergeNodeIntoGroup_inputs group subgraph m ins :
  steps fresh_boundaries (mergeNodeIntoGroup_inputs group subgraph m ins).
Proof. revert m. induction ins; intros m; simpl; solve_steps. Qed.
#[global] Hint Resolve fb_mergeNodeIntoGroup_inputs : steps.
Lemma fb_mergeNodeIntoGroup group n : steps fresh_boundaries (mergeNodeIntoGroup group n).
Proof. unfold mergeNodeIntoGroup. solve_steps. Qed.
#[global] Hint Resolve fb_mergeNodeIntoGroup : steps.
Lemma fb_mergeFusionGroups_clone g pg m inner :
  steps fresh_boundaries (mergeFusionGroups_clone g pg m inner).
Proof. revert m. induction inner; intros m; simpl; solve_steps. Qed.
Lemma fb_mergeFusionGroups_reroute pg m i outs :
  steps fresh_boundaries (mergeFusionGroups_reroute pg m i outs).
Proof. revert i. induction outs; intros i; simpl; solve_steps. Qed.
Lemma fb_mergeFusionGroups_outputs cg cs merged i outs :
  steps fresh_boundaries (mergeFusionGroups_outputs cg cs merged i outs).
Proof. revert i. induction outs; intros i; simpl; solve_steps. Qed.
#[global] Hint Resolve fb_mergeFusionGroups_clone fb_mergeFusionGroups_reroute
  fb_mergeFusionGroups_outputs : steps.


(** *** A new group *)

Ltac look_in H :=
  repeat first [ rewrite lookup_insert_eq in H
               | rewrite lookup_insert_ne in H by lia ].
Ltac look :=
  repeat first [ rewrite lookup_insert_eq
               | rewrite lookup_insert_ne by lia ].
Ltac split_lookup H :=
  repeat (rewrite lookup_insert in H; case_decide; simplify_eq).

Lemma is_group_new nd sg sg' :
  is_group (with_attrs [(kSubgraph, AGraph sg)] nd) sg' → sg' = sg.
Proof.
  intros [_ Hs]. unfold subgraph_attr in Hs. simpl in Hs.
  try rewrite decide_True in Hs by done. congruence.
Qed.

Lemma wp_createFusionGroup g st :
  well_formed st → groups_paired st →
  wp (createFusionGroup g)
     (λ n st', well_formed st' ∧ groups_paired st' ∧ n = next st
               ∧ fresh_boundaries st st'
               ∧ (∀ x, x < next st → nodes st' !! x = nodes st !! x)
               ∧ ∃ sg p r, focus st' n sg p r) st.
Proof.
  intros Hw Hp. unfold createFusionGroup, newGraph, create. simpl. wp_steps. simpl in *.
  look_in H0. look_in H1. look_in H2. simplify_eq. simpl.
  destruct Hw as ((Bn & Bv & Bg) & Wg & Wa & Wu).
  assert (Hold : ∀ x nd, nodes st !! x = Some nd → x < (next st)) by (intros; apply Bn; eauto).
  assert (HoldG : ∀ x G, graphs st !! x = Some G → x < (next st)) by (intros; apply Bg; eauto).
  split_and!.
  - split_and!.
    + split_and!; simpl.
      * intros x [nd Hx]. split_lookup Hx; try lia. apply Hold in Hx. lia.
      * intros x Hx. apply Bv in Hx. lia.
      * intros x [G' Hx]. split_lookup Hx; try lia. apply HoldG in Hx. lia.
    + intros g' G' HG'. simpl in *. split_lookup HG'; simpl.
      * split_and!; [lia | lia | |]; intros nd Hn; look_in Hn; by simplify_eq.
      * destruct (Wg g' G' HG') as (Hp1 & Hr1 & Hpk & Hrk).
        split_and!; [lia | lia | |]; intros nd Hn; look_in Hn; eauto.
    + intros n nd sg Hn Hg. simpl in *. split_lookup Hn.
      * apply is_group_new in Hg as ->. lia.
      * destruct Hg as [? _]. done.
      * destruct Hg as [? _]. done.
      * specialize (Wa n nd sg Hn Hg). lia.
    + assert (Hnew : ∀ n nd sg,
                <[(next st):=with_attrs [(kSubgraph, AGraph (S (next st)))]
                       (mkNode kFusionGroup [] [] (g_stage G) [] g)]>
                  (<[S (S (S (next st))):=mkNode kParam [] [] 0 [] (S (next st))]>
                     (<[S (S (next st)):=mkNode kReturn [] [] 0 [] (S (next st))]>
                        (<[(next st):=mkNode kFusionGroup [] [] (g_stage G) [] g]> (nodes st))))
                  !! n = Some nd → is_group nd sg →
                (n = (next st) ∧ sg = S (next st)) ∨ (n < (next st) ∧ sg < (next st) ∧ nodes st !! n = Some nd)).
      { intros n nd sg Hn Hg. split_lookup Hn.
        - left. by apply is_group_new in Hg as ->.
        - destruct Hg as [? _]. done.
        - destruct Hg as [? _]. done.
        - right. split_and!; [by eapply Hold | by eapply Wa | done]. }
      intros n1 n2 nd1 nd2 sg H1 H2 Hg1 Hg2. simpl in *.
      destruct (Hnew _ _ _ H1 Hg1) as [[-> ->]|(? & ? & E1)],
               (Hnew _ _ _ H2 Hg2) as [[-> ?]|(? & ? & E2)]; try done; try lia.
      eapply Wu; eauto.
  - intros n nd sg Hn Hg. simpl in *. split_lookup Hn.
    + apply is_group_new in Hg as ->.
      exists (mkGraph (S (S (S (next st)))) (S (S (next st))) [] 0),
        (mkNode kParam [] [] 0 [] (S (next st))), (mkNode kReturn [] [] 0 [] (S (next st))).
      simpl. look. done.
    + destruct Hg as [? _]. done.
    + destruct Hg as [? _]. done.
    + destruct (Hp n nd sg Hn Hg) as (G' & pn & rn & HG' & Hpn & Hrn & ? & ?).
      pose proof (HoldG _ _ HG'). pose proof (Hold _ _ Hpn). pose proof (Hold _ _ Hrn).
      exists G', pn, rn. look. done.
  - done.
  - split; simpl; [lia|]. intros x (g' & G' & HG' & Hb). simpl in *. split_lookup HG'.
    + right. simpl in Hb. lia.
    + left. by exists g', G'.
  - intros x Hx. simpl. by look.
  - exists (S (next st)), (S (S (S (next st)))), (S (S (next st))). split; simpl.
    + eexists. look. split; [done|]. by split.
    + eexists. look. done.
Qed.

Lemma fb_createFusionGroup g : steps fresh_boundaries (createFusionGroup g).
Proof.
  apply steps_wp. intros st.
  unfold createFusionGroup, newGraph, create. simpl. wp_steps. simpl in *.
  split; simpl; [lia|]. intros x (g' & G' & HG' & Hb). simpl in *. split_lookup HG'.
  - right. simpl in Hb. lia.
  - left. by exists g', G'.
Qed.
#[global] Hint Resolve fb_createFusionGroup : steps.

Tactic Notation "wp_read" "as" ident(x) ident(E) :=
  lazymatch goal with
  | |- wp (bind _ _) _ _ => apply wp_bind
  | |- _ => idtac
  end;
  apply wp_reads; [solve_reads | intros x E].

Ltac fb_chain :=
  repeat match goal with
         | H1 : fresh_boundaries ?a ?b, H2 : fresh_boundaries ?b ?c |- _ =>
             let H := fresh "Hfb" in
             assert (H : fresh_boundaries a c) by (etrans; [exact H1 | exact H2]);
             clear H1 H2
         end.

(** Run a call that keeps the invariant, recording where boundaries may
    have appeared. *)
Tactic Notation "wp_inv" tactic3(tac) "as" ident(a) ident(s) simple_intropattern(pat) :=
  wp_use (apply (wp_both fresh_boundaries); [solve [eauto with steps] | tac])
    as a s [pat ?]; fb_chain.

Lemma ordinary_later st st' n :
  bounded st → fresh_boundaries st st' → ordinary st n → ¬ is_boundary st' n.
Proof.
  intros (Bn & _) [_ Hfb] [Hn Hb] Hb'. destruct (Hfb n Hb') as [?|?]; [done|].
  specialize (Bn n Hn). lia.
Qed.

Lemma wp_createSingletonFusionGroup n st :
  well_formed st → groups_paired st → ordinary st n →
  wp (createSingletonFusionGroup n)
     (λ group st', well_formed st' ∧ groups_paired st' ∧ group = next st
                   ∧ ∃ sg p r, focus st' group sg p r) st.
Proof.
  intros Hw Hp Hord. unfold createSingletonFusionGroup.
  assert (Hlt : n < next st). { destruct Hw as ((Bn & _) & _), Hord. by apply Bn. }
  wp_read.
  wp_use (by apply wp_createFusionGroup)
    as group s1 (Hw1 & Hp1 & -> & Hfb & Hsame & sg & p & r & Hfoc).
  assert (F1 : FInv (next st) sg p r 0 0 s1) by (split; [by apply Inv_all | done]).
  wp_inv (apply wp_shape_FInv; eauto with steps) as i s2 F2.
  wp_inv (apply wp_shape_FInv; eauto with steps) as u3 s3 F3.
  wp_inv (apply wp_shape_FInv; eauto with steps) as u4 s4 F4.
  wp_inv (by apply wp_mergeNodeIntoGroup) as merged s5 F5.
  wp_read as sg' Es. assert (sg' = sg) as -> by (destruct F5; by eapply getSubgraph_focus).
  wp_read.
  wp_inv (by apply wp_registerOutput_focus) as u6 s6 F6.
  wp_inv (by apply wp_addOutput_focus) as sel s7 F7.
  wp_read.
  wp_inv (apply wp_shape_FInv; eauto with steps) as u8 s8 F8.
  wp_inv (apply wp_shape_FInv; eauto with steps) as u9 s9 F9.
  replace (0 - 1 + 1)%Z with 0%Z in F9 by lia. destruct F9 as [HI9 HF9].
  wp_use (apply (wp_destroy True (next st) sg p r 0 0 n);
          [done | split; [done | lia] | by eapply (ordinary_later st), Hord; [apply Hw|] ])
    as u10 s10 (HI10 & HF10 & _).
  wp_steps. apply Inv_all in HI10 as [? ?]. split_and!; eauto.
Qed.


(** *** Merging two groups *)

Lemma wp_mergeFusionGroups_outputs f sg p r a b merged i outs st :
  FInv f sg p r a b st →
  wp (mergeFusionGroups_outputs f sg merged i outs) (λ _ st', FInv f sg p r a b st') st.
Proof.
  revert i st. induction outs as [|out outs IH]; intros i st HF; simpl.
  - by wp_steps.
  - wp_read as us Eu. destruct us as [|u us]; [by apply IH|].
    wp_read as mouts Em. wp_steps.
    wp_use (by apply wp_registerOutput_focus) as u1 s1 F1.
    wp_use (by apply wp_addOutput_focus) as new_output s2 F2.
    wp_use (apply wp_shape_FInv; eauto with steps) as u3 s3 F3.
    wp_read as t Et.
    wp_use (apply wp_shape_FInv; eauto with steps) as u4 s4 F4.
    apply IH. by replace b with (b - 1 + 1)%Z by lia.
Qed.

Lemma live_group_later st st' t :
  static st st' → keeps st st' → live_group st t → live_group st' t.
Proof.
  intros Hs Hk [Hlt (nd & Hn & Hkd)].
  destruct (static_keeps_node _ _ _ _ Hs Hk Hn Hlt) as (nd' & Hn' & Ek & _).
  destruct Hs as (Hle & _). split; [lia|]. exists nd'. split; [done | congruence].
Qed.

Lemma keeps_mergeFusionGroups_clone g pg m inner :
  steps keeps (mergeFusionGroups_clone g pg m inner).
Proof. revert m. induction inner; intros m; simpl; solve_steps. Qed.
Lemma keeps_mergeFusionGroups_reroute pg m i outs :
  steps keeps (mergeFusionGroups_reroute pg m i outs).
Proof. revert i. induction outs; intros i; simpl; solve_steps. Qed.
Lemma shape_mergeFusionGroups_reroute pg m i outs :
  steps shape_same (mergeFusionGroups_reroute pg m i outs).
Proof. revert i. induction outs; intros i; simpl; solve_steps. Qed.
#[global] Hint Resolve keeps_mergeFusionGroups_clone keeps_mergeFusionGroups_reroute
  shape_mergeFusionGroups_reroute : steps.

(** A clone has the kind of its original. *)
Lemma createClone_kind g n (m : gmap nat nat) e nd st :
  nodes st !! n = Some nd →
  wp (createClone g n (λ k, liftOpt (m !! k) e))
     (λ t st', t = next st ∧ t < next st'
               ∧ ∃ nd', nodes st' !! t = Some nd' ∧ n_kind nd' = n_kind nd) st.
Proof.
  intros Hn. unfold createClone, create. simpl. wp_steps. simplify_eq.
  match goal with
  | |- wp _ _ ?s => assert (Hacc : rel_and static keeps s s) by reflexivity;
                    revert Hacc; generalize s at 2 3; intros s1 Hacc
  end.
  wp_use (apply (proj1 (steps_wp (rel_and static keeps) _)); apply steps_forM;
          [apply _ | intros ?; solve_steps_and]) as u1 s2 A2.
  wp_use (apply (proj1 (steps_wp (rel_and static keeps) _)); solve_steps_and) as u2 s3 A3.
  wp_use (apply (proj1 (steps_wp (rel_and static keeps) _)); apply steps_forM;
          [apply _ | intros ?; solve_steps_and]) as u3 s4 A4.
  wp_steps.
  assert (A : rel_and static keeps
                (set_nodes <[next st := mkNode (n_kind nd) [] [] (g_stage G) [] g]>
                   (set_next (S (next st)) st)) s4).
  { etrans; [exact Hacc|]. etrans; [exact A2|]. etrans; [exact A3 | exact A4]. }
  destruct A as [As Ak].
  destruct (static_keeps_node _ _ (next st)
               (mkNode (n_kind nd) [] [] (g_stage G) [] g) As Ak) as (nd' & Hn' & Ek & _);
    [simpl; apply lookup_insert_eq | simpl; lia |].
  destruct As as (Hle & _). simpl in *. split_and!; [done | lia |]. eauto.
Qed.

Lemma wp_mergeFusionGroups_clone f a b g pg m inner st :
  Inv f a b st →
  wp (mergeFusionGroups_clone g pg m inner)
     (λ tm st',
        (Inv f a b st' ∧ Forall (λ t, inert st' t ∧ next st ≤ t) tm.1)
        ∨ (∃ t, t ∈ tm.1 ∧ next st ≤ t ∧ live_group st' t)) st.
Proof.
  revert m st. induction inner as [|inner rest IH]; intros m st HI; simpl.
  - wp_steps. left. simpl. split; [done | constructor].
  - assert (Hcase : (∀ nd, nodes st !! inner = Some nd → n_kind nd ≠ kFusionGroup)
                    ∨ (∃ nd, nodes st !! inner = Some nd ∧ n_kind nd = kFusionGroup)).
    { destruct (nodes st !! inner) as [nd|]; [|left; done].
      destruct (decide (n_kind nd = kFusionGroup)); [right; eauto | left].
      intros ? [= <-]. done. }
    destruct Hcase as [Hgood | (nd & Hn & Hk)].
    + wp_use (apply (wp_createClone_inert False f 0 0 0); [done | tauto | done])
        as outer s1 (HI1 & _ & Hin1 & ->).
      pose proof (inert_live _ _ _ _ _ HI1 Hin1) as Hlt1.
      wp_use (apply (wp_shape_inert False f 0 0 0); [eauto with steps | done | tauto | done])
        as u2 s2 (HI2 & _ & Hin2).
      wp_read as io Eio. wp_read as oo Eoo. wp_read as m' Em.
      pose proof (inert_live _ _ _ _ _ HI2 Hin2) as Hlt2.
      wp_use (apply (wp_both (rel_and static (rel_and keeps fresh_boundaries)));
              [apply steps_and; [eauto with steps | apply steps_and; eauto with steps]
              | by apply IH]) as tm s3 [Hpost (Hs3 & Hk3 & Hfb3)].
      destruct tm as [temps m3]. wp_steps. simpl in *.
      destruct Hpost as [[HI3 Hall] | (t & Ht & Hge & Hbad)].
      * left. split; [done|]. constructor.
        -- split; [|done]. destruct Hin2 as [(nd2 & Hn2 & Hk2) Hb2]. split.
           ++ destruct (static_keeps_node _ _ _ _ Hs3 Hk3 Hn2 Hlt2) as (nd3 & ? & Ek & _).
              exists nd3. split; [done | congruence].
           ++ intros Hb3. destruct Hfb3 as [_ Hfb3].
              destruct (Hfb3 _ Hb3) as [?|?]; [done | lia].
        -- eapply Forall_impl; [exact Hall|]. intros t [? ?]. split; [done | lia].
      * right. exists t. split_and!; [by apply list_elem_of_further | lia | done].
    + wp_use (by eapply createClone_kind) as outer s1 (-> & Hlt1 & nd1 & Hn1 & Hk1).
      assert (Hbad : live_group s1 (next st)).
      { split; [done|]. exists nd1. split; [done | congruence]. }
      wp_use (apply (proj1 (steps_wp (rel_and static keeps) _)); solve_steps_and)
        as u2 s2 [Hs2 Hk2].
      wp_read as io Eio. wp_read as oo Eoo. wp_read as m' Em.
      wp_use (apply (proj1 (steps_wp (rel_and static keeps) _));
              apply steps_and; eauto with steps) as tm s3 [Hs3 Hk3].
      destruct tm as [temps m3]. wp_steps. simpl. right. exists (next st).
      split_and!; [apply list_elem_of_here | done |].
      eapply live_group_later; [exact Hs3 | exact Hk3 |].
      eapply live_group_later; [exact Hs2 | exact Hk2 | exact Hbad].
Qed.

(** The inlining loop stops at a temporary node that is a group. *)
Lemma mergeFusionGroups_inline_stops cg cs temps t st :
  t ∈ temps → live_group st t →
  wp (mergeFusionGroups_inline cg cs temps) (λ _ _, False) st.
Proof.
  revert st. induction temps as [|x temps IH]; intros st Ht Hbad; simpl.
  - by apply elem_of_nil in Ht.
  - destruct (decide (x = t)) as [->|Hne].
    + destruct Hbad as [_ (nd & Hn & Hk)].
      unfold mergeNodeIntoGroup, kind. wp_steps. simplify_eq.
      case_bool_decide; [done | discriminate].
    + apply elem_of_cons in Ht as [?|Ht]; [done|].
      wp_use (apply (proj1 (steps_wp (rel_and static keeps) _));
              apply steps_and; eauto with steps) as merged s1 [Hs1 Hk1].
      wp_read as outs Eo.
      wp_use (apply (proj1 (steps_wp (rel_and static keeps) _));
              apply steps_and; eauto with steps) as u2 s2 [Hs2 Hk2].
      apply wp_bind. apply wp_intro. intros [] s3 Ed.
      apply IH; [done|].
      pose proof (live_group_later _ _ _ Hs2 Hk2 (live_group_later _ _ _ Hs1 Hk1 Hbad))
        as [Hlt (nd & Hn & Hk)].
      destruct (destroy_keeps_other _ _ _ _ Ed (not_eq_sym Hne) (mk_is_Some _ _ Hn))
        as [nd3 Hn3].
      pose proof (static_destroy _ _ _ _ Ed) as Hs3.
      destruct (static_node _ _ _ _ _ Hs3 Hn Hlt Hn3) as (Ek & _).
      destruct Hs3 as (Hle & _). split; [lia|]. exists nd3. split; [done | congruence].
Qed.

Lemma inert_later st st' t :
  bounded st → static st st' → fresh_boundaries st st' → keeps st st' →
  inert st t → inert st' t.
Proof.
  intros (Bn & _) Hs [_ Hfb] Hk [(nd & Hn & Hkd) Hb].
  pose proof (Bn t (mk_is_Some _ _ Hn)) as Hlt.
  destruct (static_keeps_node _ _ _ _ Hs Hk Hn Hlt) as (nd' & Hn' & Ek & _).
  split; [exists nd'; split; [done | congruence]|].
  intros Hb'. destruct (Hfb t Hb') as [?|?]; [done | lia].
Qed.

(** Without [keeps]: a node that is still alive. *)
Lemma inert_survivor st st' t nd' :
  bounded st → static st st' → fresh_boundaries st st' →
  inert st t → nodes st' !! t = Some nd' → inert st' t.
Proof.
  intros (Bn & _) Hs [_ Hfb] [(nd & Hn & Hkd) Hb] Hn'.
  pose proof (Bn t (mk_is_Some _ _ Hn)) as Hlt.
  destruct (static_node _ _ _ _ _ Hs Hn Hlt Hn') as (Ek & _).
  split; [exists nd'; split; [done | congruence]|].
  intros Hb'. destruct (Hfb t Hb') as [?|?]; [done | lia].
Qed.

Lemma wp_destroy_inert f sg p r a b x st0 st :
  bounded st0 → static st0 st → fresh_boundaries st0 st → inert st0 x →
  FInv f sg p r a b st →
  wp (destroy x) (λ _ st', FInv f sg p r a b st') st.
Proof.
  intros Hbd Hs Hfb Hx [HI HF]. destruct (nodes st !! x) as [nd|] eqn:Hn.
  - pose proof (inert_survivor _ _ _ _ Hbd Hs Hfb Hx Hn) as [(nd' & Hn' & Hk) Hb].
    eapply wp_mono; [apply (wp_destroy True f sg p r); [done | | done]|].
    + intros _. split; [done|]. by eapply focus_not_inert.
    + intros ? s (? & HF' & _). split; auto.
  - unfold destroy. wp_steps. congruence.
Qed.

Lemma wp_mergeFusionGroups_inline_from st0 f sg p r a b temps st :
  bounded st0 → Forall (inert st0) temps →
  static st0 st → fresh_boundaries st0 st → FInv f sg p r a b st →
  wp (mergeFusionGroups_inline f sg temps) (λ _ st', FInv f sg p r a b st') st.
Proof.
  intros Hbd. revert st.
  induction temps as [|x temps IH]; intros st Hall Hs Hfb HF; simpl.
  - by wp_steps.
  - apply Forall_cons in Hall as [Hx Hall].
    wp_use (apply (wp_both (rel_and static fresh_boundaries));
            [apply steps_and; eauto with steps | by apply wp_mergeNodeIntoGroup])
      as merged s1 [F1 [Hs1 Hfb1]].
    wp_read as outs Eo.
    wp_use (apply (wp_both (rel_and static fresh_boundaries));
            [apply steps_and; eauto with steps | by apply wp_mergeFusionGroups_outputs])
      as u2 s2 [F2 [Hs2 Hfb2]].
    assert (Hs' : static st0 s2) by (etrans; [|exact Hs2]; etrans; eauto).
    assert (Hfb' : fresh_boundaries st0 s2) by (etrans; [|exact Hfb2]; etrans; eauto).
    wp_use (apply (wp_both (rel_and static fresh_boundaries));
            [apply steps_and; eauto with steps | by eapply (wp_destroy_inert _ _ _ _ _ _ x st0)])
      as u3 s3 [F3 [Hs3 Hfb3]].
    apply IH; [done | by etrans | by etrans | done].
Qed.

Lemma wp_mergeFusionGroups_inline f sg p r a b temps st :
  FInv f sg p r a b st → Forall (inert st) temps →
  wp (mergeFusionGroups_inline f sg temps) (λ _ st', FInv f sg p r a b st') st.
Proof.
  intros HF Hall. eapply wp_mergeFusionGroups_inline_from; try done.
  destruct HF as [HI _]. by eapply Inv_bounded.
Qed.

Lemma live_group_destroy n t st :
  t ≠ n → live_group st t → wp (destroy n) (λ _ st', live_group st' t) st.
Proof.
  intros Hne [Hlt (nd & Hn & Hk)]. apply wp_intro. intros [] s3 Ed.
  destruct (destroy_keeps_other _ _ _ _ Ed Hne (mk_is_Some _ _ Hn)) as [nd3 Hn3].
  pose proof (static_destroy _ _ _ _ Ed) as Hs3.
  destruct (static_node _ _ _ _ _ Hs3 Hn Hlt Hn3) as (Ek & _).
  destruct Hs3 as (Hle & _). split; [lia|]. exists nd3. split; [done | congruence].
Qed.

Lemma is_group_attr nd sg :
  n_kind nd = kFusionGroup → find_attr kSubgraph (n_attrs nd) = Some (AGraph sg) →
  is_group nd sg.
Proof. intros Hk Ha. split; [done|]. unfold subgraph_attr. by rewrite Ha. Qed.

(** A group that answers [getSubgraph] is a focus. *)
Lemma Inv_focus f a b sg st st' :
  Inv f a b st → getSubgraph f st = Ok sg st' → ∃ p r, focus st f sg p r.
Proof.
  intros (_ & _ & Hb) (-> & nd & Hn & Hk & Ha)%getSubgraph_inv.
  pose proof (is_group_attr _ _ Hk Ha) as Hg.
  destruct (Hb nd sg Hn Hg) as (G & pn & rn & HG & _).
  exists (g_param G), (g_return G). split; eauto.
Qed.

Lemma group_ordinary st n nd sg :
  well_formed st → nodes st !! n = Some nd → is_group nd sg → ordinary st n.
Proof.
  intros (_ & Wg & _) Hn Hg. split; [eauto|].
  intros (g & G & HG & Hb). by eapply boundary_not_group.
Qed.

Lemma wp_mergeFusionGroups cg pg st :
  well_formed st → groups_paired st →
  wp (mergeFusionGroups cg pg)
     (λ _ st', well_formed st' ∧ groups_paired st' ∧ ∃ sg p r, focus st' cg sg p r) st.
Proof.
  intros Hw Hp. unfold mergeFusionGroups.
  pose proof (proj2 (Inv_all cg st) (conj Hw Hp)) as HI.
  pose proof (Inv_bounded _ _ _ _ HI) as Hbd.
  wp_read as psg Eps. apply getSubgraph_inv in Eps as (_ & pd & Hpd & Hpk & Hpa).
  pose proof (group_ordinary _ _ _ _ Hw Hpd (is_group_attr _ _ Hpk Hpa)) as Hord.
  assert (Hplt : pg < next st) by (by eapply Inv_live).
  wp_read as ii Eii. wp_read as oi Eoi. wp_read as m0 Em0. wp_read as g Eg.
  wp_read as inner Einner.
  wp_use (apply (wp_both (rel_and static fresh_boundaries));
          [apply steps_and; eauto with steps | by apply (wp_mergeFusionGroups_clone cg 0 0)])
    as tm s1 [Hpost [Hs1 Hfb1]].
  destruct tm as [temps m1]. simpl in Hpost. wp_read as so Eso.
  destruct Hpost as [[HI1 Hall] | (t & Ht & Hge & Hbad)].
  - wp_use (apply (wp_both (rel_and static fresh_boundaries));
            [apply steps_and; eauto with steps
            | apply (wp_shape False cg 0 0 0); [eauto with steps | done | tauto]])
      as u2 s2 [[HI2 _] [Hs2 Hfb2]].
    wp_use (apply (wp_both (rel_and static fresh_boundaries));
            [apply steps_and; eauto with steps
            | apply (wp_destroy False cg 0 0 0); [done | tauto |];
              eapply (ordinary_later st); [done | by etrans | done]])
      as u3 s3 [(HI3 & _ & _) [Hs3 Hfb3]].
    wp_read as csg Ecs. destruct (Inv_focus _ _ _ _ _ _ HI3 Ecs) as (p & r & HF3).
    eapply wp_mono.
    { apply (wp_mergeFusionGroups_inline_from s1 cg csg p r 0 0).
      - by eapply Inv_bounded.
      - apply Forall_rev. eapply Forall_impl; [exact Hall|]. by intros ? [? _].
      - by etrans.
      - by etrans.
      - by split. }
    intros ? s4 [HI4 HF4]. cbv beta. apply Inv_all in HI4 as [? ?]. eauto 10.
  - wp_use (apply (proj1 (steps_wp (rel_and static keeps) _));
            apply steps_and; eauto with steps) as u2 s2 [Hs2 Hk2].
    wp_use (apply (live_group_destroy pg t); [lia|]; by eapply live_group_later)
      as u3 s3 Hbad3.
    wp_read as csg Ecs.
    eapply wp_mono; [eapply mergeFusionGroups_inline_stops; [|exact Hbad3]|done].
    apply list_elem_of_In, in_rev. rewrite rev_involutive. by apply list_elem_of_In.
Qed.

(** *** [fuse] *)

Lemma wp_mergeNodeIntoGroup_paired group n st :
  well_formed st → groups_paired st →
  wp (mergeNodeIntoGroup group n)
     (λ _ st', ∃ sg p r, FInv group sg p r 0 0 st') st.
Proof.
  intros Hw Hp. pose proof (proj2 (Inv_all group st) (conj Hw Hp)) as HI.
  destruct (getSubgraph group st) as [sg s|e] eqn:E.
  - destruct (Inv_focus _ _ _ _ _ _ HI E) as (p & r & HF).
    eapply wp_mono; [apply (wp_mergeNodeIntoGroup group sg p r 0 0); by split|].
    intros ? s' F'. cbv beta in F'. eauto.
  - unfold mergeNodeIntoGroup, kind. wp_steps. wp_read as sg' E'. congruence.
Qed.

Lemma value_node_static st st' v vl vl' :
  bounded st → static st st' → values st !! v = Some vl → values st' !! v = Some vl' →
  v_node vl' = v_node vl.
Proof.
  intros (_ & Bv & _) (_ & _ & _ & _ & _ & Hv) H H'.
  destruct (Hv v vl' H' (Bv v (mk_is_Some _ _ H))) as (vl0 & E0 & ?). congruence.
Qed.

Lemma fuse_tail_paired group producer st0 st vl :
  bounded st0 → static st0 st → fresh_boundaries st0 st →
  values st0 !! producer = Some vl → ordinary st0 (v_node vl) →
  well_formed st → groups_paired st →
  wp (let! pn := node_of producer in
      let! pk := kind pn in
      if bool_decide (pk = kFusionGroup) then
        mergeFusionGroups group pn >> ret group
      else
        let! merged := mergeNodeIntoGroup group pn in
        let! us := uses producer in
        (match us with
         | [] => ret tt
         | _ :: _ =>
             let! sg := getSubgraph group in
             let! mo := output merged in
             registerOutput sg mo >>
             let! new_producer := addOutput group in
             copyMetadata new_producer producer >>
             replaceAllUsesWith producer new_producer
         end) >>
        let! pn := node_of producer in
        destroy pn >>
        ret group)
     (λ _ st', well_formed st' ∧ groups_paired st') st.
Proof.
  intros Hbd0 Hs0 Hfb0 Hvl Hord Hw Hp.
  wp_read as pn Epn. apply node_of_inv in Epn as (_ & vl1 & Hvl1 & <-).
  rewrite (value_node_static _ _ _ _ _ Hbd0 Hs0 Hvl Hvl1).
  wp_read as pk Epk. apply kind_inv in Epk as (_ & pnd & Hpnd & <-).
  case_bool_decide as Hfg.
  - wp_use (by apply wp_mergeFusionGroups) as u s1 (Hw1 & Hp1 & _). by wp_steps.
  - wp_use (apply (wp_both (rel_and static fresh_boundaries));
            [apply steps_and; eauto with steps | by apply wp_mergeNodeIntoGroup_paired])
      as merged s1 [(sg & p & r & F1) [Hs1 Hfb1]].
    assert (Htail : ∀ s2, static s1 s2 → fresh_boundaries s1 s2 →
              FInv group sg p r 0 0 s2 →
              wp (let! pn := node_of producer in destroy pn >> ret group)
                 (λ _ st', well_formed st' ∧ groups_paired st') s2).
    { intros s2 Hs2 Hfb2 [HI2 HF2].
      wp_read as pn2 Epn2. apply node_of_inv in Epn2 as (_ & vl2 & Hvl2 & <-).
      assert (Hs02 : static st0 s2) by (etrans; [exact Hs0|]; by etrans).
      assert (Hfb02 : fresh_boundaries st0 s2) by (etrans; [exact Hfb0|]; by etrans).
      rewrite (value_node_static _ _ _ _ _ Hbd0 Hs02 Hvl Hvl2).
      wp_use (apply (wp_destroy True group sg p r 0 0 (v_node vl));
              [done | | by eapply (ordinary_later st0)]) as u3 s3 (HI3 & _ & _).
      - intros _. split; [done|]. intros E.
        destruct HF2 as [(gd & Hgd & Hgk & _) _]. rewrite <- E in Hgd.
        assert (Hlt : v_node vl < next st).
        { destruct Hw as ((Bn & _) & _). apply Bn. eauto. }
        destruct (static_node _ _ _ _ _ (transitivity Hs1 Hs2) Hpnd Hlt Hgd) as (? & _).
        congruence.
      - wp_steps. by apply Inv_all in HI3. }
    wp_read as us Eus. destruct us as [|u us].
    + apply wp_bind, wp_ret. by apply Htail.
    + apply wp_bind. wp_read as sg' Es. assert (sg' = sg) as -> by (destruct F1; by eapply getSubgraph_focus).
      wp_read as mo Emo.
      wp_use (apply (wp_both (rel_and static fresh_boundaries));
              [apply steps_and; eauto with steps | by apply wp_registerOutput_focus])
        as u2 s2 [F2 [Hs2 Hfb2]].
      wp_use (apply (wp_both (rel_and static fresh_boundaries));
              [apply steps_and; eauto with steps | by apply wp_addOutput_focus])
        as np s3 [F3 [Hs3 Hfb3]].
      wp_use (apply (wp_both (rel_and static fresh_boundaries));
              [apply steps_and; eauto with steps | apply wp_shape_FInv; eauto with steps])
        as u4 s4 [F4 [Hs4 Hfb4]].
      wp_use (apply (wp_both (rel_and static fresh_boundaries));
              [apply steps_and; eauto with steps | apply wp_shape_FInv; eauto with steps])
        as u5 s5 [F5 [Hs5 Hfb5]].
      apply Htail.
      * etrans; [exact Hs2|]. etrans; [exact Hs3|]. by etrans.
      * etrans; [exact Hfb2|]. etrans; [exact Hfb3|]. by etrans.
      * by replace 0%Z with (0 - 1 + 1)%Z at 2 by lia.
Qed.

Lemma fb_createSingletonFusionGroup n :
  steps fresh_boundaries (createSingletonFusionGroup n).
Proof. unfold createSingletonFusionGroup. solve_steps. Qed.

Lemma wp_fuse consumer producer vl st :
  well_formed st → groups_paired st →
  ordinary st consumer → values st !! producer = Some vl → ordinary st (v_node vl) →
  wp (fuse consumer producer) (λ _ st', well_formed st' ∧ groups_paired st') st.
Proof.
  intros Hw Hp Hc Hvl Hpn. unfold fuse.
  pose proof Hw as (Hbd & _).
  wp_read as k Ek. apply wp_bind. case_bool_decide.
  - wp_use (apply (wp_both (rel_and static fresh_boundaries));
            [apply steps_and; [apply static_createSingletonFusionGroup
                              | apply fb_createSingletonFusionGroup]
            | by apply wp_createSingletonFusionGroup])
      as group s1 [(Hw1 & Hp1 & _) [Hs1 Hfb1]].
    by eapply fuse_tail_paired.
  - apply wp_ret. by eapply fuse_tail_paired.
Qed.


(** *** Checking a concrete heap *)

Lemma check_graphs_sound st : check_graphs st = true → wf_graphs st.
Proof.
  unfold check_graphs. rewrite forallb_forall. intros H g G HG.
  apply elem_of_map_to_list, list_elem_of_In, H in HG. simpl in HG.
  unfold check_boundary in HG.
  rewrite !andb_true_iff, !bool_decide_eq_true in HG. destruct HG as [[? Hp] [? Hr]].
  split_and!; [done | done | |].
  - intros pn Hpn. rewrite Hpn in Hp.
    by rewrite andb_true_iff, !bool_decide_eq_true in Hp.
  - intros rn Hrn. rewrite Hrn in Hr.
    by rewrite andb_true_iff, !bool_decide_eq_true in Hr.
Qed.

Lemma check_no_groups_sound st :
  check_no_groups st = true → ∀ n nd sg, nodes st !! n = Some nd → ¬ is_group nd sg.
Proof.
  unfold check_no_groups. rewrite forallb_forall. intros H n nd sg Hn [Hk _].
  apply elem_of_map_to_list, list_elem_of_In, H in Hn. simpl in Hn.
  rewrite negb_true_iff, bool_decide_eq_false in Hn. done.
Qed.

Lemma check_ordinary_sound st n : check_ordinary st n = true → ordinary st n.
Proof.
  unfold check_ordinary. rewrite andb_true_iff, bool_decide_eq_true, forallb_forall.
  intros [Hn H]. split; [done|]. intros (g & G & HG & Hb).
  apply elem_of_map_to_list, list_elem_of_In, H in HG. simpl in HG.
  rewrite andb_true_iff, !negb_true_iff, !bool_decide_eq_false in HG. tauto.
Qed.

Lemma check_well_formed st :
  bounded st → check_graphs st = true → check_no_groups st = true →
  well_formed st ∧ groups_paired st.
Proof.
  intros Hb Hg%check_graphs_sound Hn. pose proof (check_no_groups_sound _ Hn) as Hno.
  split; [split_and!; [done | done | |]|].
  - intros n nd sg H1 H2. by destruct (Hno n nd sg).
  - intros n1 n2 nd1 nd2 sg H1 _ H2. by destruct (Hno n1 nd1 sg).
  - intros n nd sg H1 H2. by destruct (Hno n nd sg).
Qed.

(** *** The pairing is preserved *)





(** *** The pattern *)

Lemma uses_inv v us st st' :
  uses v st = Ok us st' → st' = st ∧ is_Some (values st !! v) ∧ us = uses_of st v.
Proof.
  unfold uses. intros E. inv_bind E as vl s Ev. apply getValue_inv in Ev as [Hv ->].
  injection E as <- <-. eauto.
Qed.

Lemma all_uses_in_spec c sels b st st' :
  all_uses_in c sels st = Ok b st' →
  st' = st ∧ (b = true ↔ ∀ sel u, sel ∈ sels → u ∈ uses_of st sel → user u = c).
Proof.
  revert b. induction sels as [|s sels IH]; intros b E; simpl in E.
  - apply ret_Ok in E as [<- <-]. split; [done|]. split; [|done].
    intros _ sel u Hs. by apply elem_of_nil in Hs.
  - inv_bind E as us s1 Eu. apply uses_inv in Eu as (-> & _ & ->).
    destruct (forallb _ _) eqn:Hf.
    + apply IH in E as (-> & Hb). split; [done|]. rewrite Hb. split.
      * intros H sel u [->|Hs]%elem_of_cons Hu; [|eauto].
        rewrite forallb_forall in Hf. apply list_elem_of_In, Hf in Hu.
        by apply bool_decide_eq_true in Hu.
      * intros H sel u Hs. apply H. by apply list_elem_of_further.
    + apply ret_Ok in E as [<- <-]. split; [done|]. split; [done|].
      intros H. exfalso. apply not_true_iff_false in Hf. apply Hf.
      apply forallb_forall. intros u Hu. apply bool_decide_eq_true.
      apply (H s u); [apply list_elem_of_here | by apply list_elem_of_In].
Qed.

Lemma input_inv n v st st' :
  input n st = Ok v st' → st' = st ∧ ∃ nd, nodes st !! n = Some nd ∧ n_inputs nd = [v].
Proof.
  unfold input, inputs. intros E. inv_bind E as ins s Ei. inv_bind Ei as nd s1 En.
  apply getNode_inv in En as [Hn ->]. apply ret_Ok in Ei as [<- <-].
  destruct (n_inputs nd) as [|x [|y l]] eqn:Hi; try discriminate E.
  apply ret_Ok in E as [<- <-]. eauto.
Qed.

Lemma outputs_inv n outs st st' :
  outputs n st = Ok outs st' → st' = st ∧ ∃ nd, nodes st !! n = Some nd ∧ n_outputs nd = outs.
Proof.
  unfold outputs. intros E. inv_bind E as nd s En.
  apply getNode_inv in En as [Hn ->]. apply ret_Ok in E as [<- <-]. eauto.
Qed.

Lemma returns_true_iff (m : M bool) (b : bool) st st' :
  m st = Ok b st' → (returns_true (m st) ↔ b = true).
Proof. intros E. unfold returns_true. rewrite E. split; [by intros [? [= ->]] | intros ->; eauto]. Qed.

Ltac same_pattern :=
  simplify_eq;
  try match goal with
      | H1 : n_inputs ?c = [?a], H2 : n_inputs ?c = [?b] |- _ =>
          rewrite H1 in H2; injection H2 as <-
      end;
  simplify_eq.

(** What [tryToMoveChunk] has checked when it returns. *)
Lemma tryToMoveChunk_checks c p b st st' :
  tryToMoveChunk c p st = Ok b st' →
  if b then chunk_pattern st c p
            ∧ ∃ od, splittee st p = Some od ∧ length (n_outputs od) = 1
  else ¬ chunk_pattern st c p.
Proof.
  unfold tryToMoveChunk. intros E.
  inv_bind E as chunk s E1. apply node_of_inv in E1 as (-> & pv & Hpv & <-).
  inv_bind E as ic s E2. unfold isChunk in E2. inv_bind E2 as k s1 Ek.
  apply kind_inv in Ek as (-> & cd & Hcd & <-). apply ret_Ok in E2 as [<- <-].
  case_bool_decide as Hk; simpl in E.
  2:{ apply ret_Ok in E as [<- <-]. intros (pv' & cd' & v & vv & ? & ? & ? & _).
      simplify_eq. }
  inv_bind E as v s E3. apply input_inv in E3 as (-> & cd' & Hcd' & Hin). simplify_eq.
  inv_bind E as pn s E4. apply node_of_inv in E4 as (-> & vv & Hvv & <-).
  inv_bind E as f s E5. pose proof (reads_isFusable _ _ _ _ E5) as ->.
  pose proof (returns_true_iff _ _ _ _ E5) as Hf.
  inv_bind E as only s E6. destruct f; simpl in E6.
  2:{ apply ret_Ok in E6 as [<- <-]. simpl in E. apply ret_Ok in E as [<- <-].
      intros (pv' & cd'' & v' & vv' & ? & ? & ? & ? & ? & Hr & _). same_pattern.
      apply Hf in Hr. done. }
  unfold allUsersAreThisConsumer in E6. inv_bind E6 as us s1 Eu.
  apply uses_inv in Eu as (-> & _ & ->). apply ret_Ok in E6 as [<- <-].
  destruct (forallb _ _) eqn:Hall; simpl in E.
  2:{ apply ret_Ok in E as [<- <-].
      intros (pv' & cd'' & v' & vv' & ? & ? & ? & ? & ? & _ & Hu & _). same_pattern.
      apply not_true_iff_false in Hall. apply Hall. apply forallb_forall.
      intros u Hu'. apply bool_decide_eq_true. by apply Hu, list_elem_of_In. }
  inv_bind E as sels s E7. apply outputs_inv in E7 as (-> & cd'' & ? & <-). simplify_eq.
  inv_bind E as mine s E8. apply all_uses_in_spec in E8 as (-> & Hmine).
  destruct mine; simpl in E.
  2:{ apply ret_Ok in E as [<- <-].
      intros (pv' & cd'' & v' & vv' & ? & ? & ? & ? & ? & _ & _ & Hs). same_pattern.
      assert (false = true); [|done]. apply Hmine. exact Hs. }
  assert (Hpat : chunk_pattern st c p).
  { exists pv, cd, v, vv. split_and!; try done.
    - by apply Hf.
    - intros u Hu. rewrite forallb_forall in Hall. apply list_elem_of_In, Hall in Hu.
      by apply bool_decide_eq_true in Hu.
    - by apply Hmine. }
  inv_bind E as pn s E9. apply node_of_inv in E9 as (-> & vv' & ? & <-). simplify_eq.
  inv_bind E as pouts s E10. apply outputs_inv in E10 as (-> & od & Hod & <-).
  inv_bind E as u s E11. unfold JIT_ASSERT in E11.
  case_bool_decide as Hlen; [|discriminate E11].
  assert (b = true) as ->.
  { clear -E.
    repeat (inv_bind' E; try match type of E with
                             | (let '(_, _) := ?p in _) _ = _ => destruct p
                             end).
    by apply ret_Ok in E as [? _]. }
  split; [done|]. exists od. split; [|done].
  unfold splittee. rewrite Hpv. simpl. rewrite Hcd. simpl. rewrite Hin. simpl.
  rewrite Hvv. simpl. done.
Qed.


(** *** Total correctness *)

Lemma twp_intro {A} (m : M A) (Q : A → State → Prop) st a st' :
  m st = Ok a st' → Q a st' → twp m Q st.
Proof. unfold twp. by intros ->. Qed.

Lemma twp_elim {A} (m : M A) (Q : A → State → Prop) st :
  twp m Q st → ∃ a st', m st = Ok a st' ∧ Q a st'.
Proof. unfold twp. destruct (m st); [eauto | done]. Qed.

Lemma twp_ret {A} (a : A) (Q : A → State → Prop) st : Q a st → twp (ret a) Q st.
Proof. done. Qed.

Lemma twp_bind {A B} (m : M A) (k : A → M B) Q st :
  twp m (λ a st', twp (k a) Q st') st → twp (bind m k) Q st.
Proof. unfold twp, bind. by destruct (m st). Qed.

Lemma twp_mono {A} (m : M A) (Q Q' : A → State → Prop) st :
  twp m Q st → (∀ a st', Q a st' → Q' a st') → twp m Q' st.
Proof. unfold twp. destruct (m st); [auto | done]. Qed.

Lemma twp_run {A B} (m : M A) (k : A → M B) Q st a st' :
  m st = Ok a st' → twp (k a) Q st' → twp (bind m k) Q st.
Proof. intros E H. apply twp_bind. by eapply twp_intro. Qed.

Lemma twp_modify f (Q : unit → State → Prop) st : Q tt (f st) → twp (modify f) Q st.
Proof. done. Qed.

Lemma twp_getNode n nd (Q : Node → State → Prop) st :
  nodes st !! n = Some nd → Q nd st → twp (getNode n) Q st.
Proof. unfold twp, getNode. by intros ->. Qed.
Lemma twp_getValue v vl (Q : Value → State → Prop) st :
  values st !! v = Some vl → Q vl st → twp (getValue v) Q st.
Proof. unfold twp, getValue. by intros ->. Qed.
Lemma twp_getGraph g G (Q : Graph → State → Prop) st :
  graphs st !! g = Some G → Q G st → twp (getGraph g) Q st.
Proof. unfold twp, getGraph. by intros ->. Qed.
Lemma twp_liftOpt {A} (o : option A) a e (Q : A → State → Prop) st :
  o = Some a → Q a st → twp (liftOpt o e) Q st.
Proof. by intros ->. Qed.
Lemma twp_JIT_ASSERT b w (Q : unit → State → Prop) st :
  b = true → Q tt st → twp (JIT_ASSERT b w) Q st.
Proof. by intros ->. Qed.
Lemma twp_fresh (Q : nat → State → Prop) st :
  Q (next st) (set_next (S (next st)) st) → twp fresh Q st.
Proof. done. Qed.

Lemma twp_wp {A} (m : M A) (Q : A → State → Prop) st : twp m Q st → wp m Q st.
Proof. unfold twp, wp. by destruct (m st). Qed.

Lemma twp_and {A} (m : M A) (Q1 Q2 : A → State → Prop) st :
  twp m Q1 st → wp m Q2 st → twp m (λ a st', Q1 a st' ∧ Q2 a st') st.
Proof. unfold twp, wp. by destruct (m st). Qed.

#[global] Instance frame_preorder : PreOrder frame.
Proof.
  split.
  - intros s. by split_and!.
  - intros s1 s2 s3 (N1 & G1 & V1) (N2 & G2 & V2). split_and!; [lia | congruence |].
    intros x Hx. rewrite V2 by lia. by apply V1.
Qed.

Lemma tensor_of_frame s s' x :
  bounded s → frame s s' → is_Some (tensor_of s x) → tensor_of s' x = tensor_of s x.
Proof.
  intros (_ & Bv & _) (_ & _ & V) [t Ht]. unfold tensor_of in *.
  destruct (values s !! x) as [vl|] eqn:Hv; [|done].
  rewrite V; [by rewrite Hv|]. apply Bv. eauto.
Qed.

Lemma tensor_of_value s x t :
  tensor_of s x = Some t →
  ∃ vl ty, values s !! x = Some vl ∧ v_type vl = Some ty ∧ cast_TensorType ty = Some t.
Proof.
  unfold tensor_of. destruct (values s !! x) as [vl|]; [|done]. simpl.
  destruct (v_type vl) as [ty|] eqn:Hty; [|done]. simpl. intros H.
  exists vl, ty. done.
Qed.

Lemma type_Ok s x vl ty : values s !! x = Some vl → v_type vl = Some ty → type x s = Ok ty s.
Proof. intros Hv Ht. unfold type, bind, getValue. by rewrite Hv, Ht. Qed.

(** One step of symbolic execution; lookups are left to the caller. *)
Ltac twp_step :=
  lazymatch goal with
  | |- twp (bind _ _) _ _ => apply twp_bind
  | |- twp (ret _) _ _ => apply twp_ret
  | |- twp (modify _) _ _ => apply twp_modify
  | |- twp (putNode _ _) _ _ => apply twp_modify
  | |- twp (putValue _ _) _ _ => apply twp_modify
  | |- twp (putGraph _ _) _ _ => apply twp_modify
  | |- twp fresh _ _ => apply twp_fresh
  end.
Ltac twp_steps := repeat twp_step.

(** *** The first phase: one split per operand *)

Lemma with_outputs_twice l l' nd : with_outputs l (with_outputs l' nd) = with_outputs l nd.
Proof. done. Qed.
Lemma with_outputs_same nd : with_outputs (n_outputs nd) nd = nd.
Proof. by destruct nd. Qed.

Lemma bounded_alloc s hn hv :
  bounded s →
  (∀ n, is_Some (hn (nodes s) !! n) → n < S (next s)) →
  (∀ v, is_Some (hv (values s) !! v) → v < S (next s)) →
  bounded (set_nodes hn (set_values hv (set_next (S (next s)) s))).
Proof.
  intros (Bn & Bv & Bg) Hn Hv. split_and!; simpl; [done | done |].
  intros g Hg. specialize (Bg g Hg). lia.
Qed.

Lemma Forall2_impl_l {A B} (P : A → Prop) (Q Q' : A → B → Prop) l k :
  Forall P l → Forall2 Q l k → (∀ x y, P x → Q x y → Q' x y) → Forall2 Q' l k.
Proof.
  intros HP HQ H. induction HQ; [constructor|].
  apply Forall_cons in HP as [? ?]. constructor; auto.
Qed.

Lemma Forall3_impl_l {A B C} (P : A → Prop) (Q Q' : A → B → C → Prop) l k k' :
  Forall P l → Forall3 Q l k k' → (∀ x y z, P x → Q x y z → Q' x y z) → Forall3 Q' l k k'.
Proof.
  intros HP HQ H. induction HQ; [constructor|].
  apply Forall_cons in HP as [? ?]. constructor; auto.
Qed.

Lemma selects_spec sp it sels s nd :
  bounded s → nodes s !! sp = Some nd →
  Forall (λ sel, is_Some (tensor_of s sel)) sels →
  twp (tryToMoveChunk_selects sp (Some it) sels)
      (λ row s',
         bounded s' ∧ frame s s' ∧ topological_index s' = topological_index s
         ∧ nodes s' = <[sp := with_outputs (n_outputs nd ++ row) nd]> (nodes s)
         ∧ graphs s' = graphs s
         ∧ Forall2 (λ sel r,
              next s ≤ r ∧ ∃ ct, tensor_of s sel = Some ct
                ∧ values s' !! r
                  = Some (mkValue sp
                            (Some (TensorT (withSizesStrides it (sizes ct) (strides ct))))))
             sels row) s.
Proof.
  revert s nd. induction sels as [|sel sels IH]; intros s nd Hb Hn Hty; simpl.
  - apply twp_ret. split_and!; [done | reflexivity | done | | done | constructor].
    rewrite app_nil_r, with_outputs_same. by rewrite insert_id.
  - apply Forall_cons in Hty as [[ct Hct] Hty].
    destruct (tensor_of_value _ _ _ Hct) as (vl & ty & Hvl & Hvt & Hcast).
    eapply twp_run; [by eapply type_Ok|]. rewrite Hcast.
    unfold addOutput. twp_steps. eapply twp_getNode; [exact Hn|]. twp_steps. simpl.
    unfold setType. twp_steps.
    eapply twp_getValue; [simpl; apply lookup_insert_eq|]. twp_steps.
    match goal with |- twp _ _ ?st => set (s1 := st) end.
    assert (Hb1 : bounded s1).
    { destruct Hb as (Bn & Bv & Bg). split_and!; simpl.
      - intros n [x Hx]. rewrite lookup_insert in Hx.
        assert (n < next s); [|lia]. case_decide; simplify_eq; apply Bn; eauto.
      - intros v [x Hx]. rewrite !lookup_insert in Hx. repeat case_decide; simplify_eq; try lia.
        assert (v < next s) by (apply Bv; eauto). lia.
      - intros g Hg. specialize (Bg g Hg). lia. }
    assert (Hf1 : frame s s1).
    { split_and!; simpl; [lia | done |]. intros x Hx. by rewrite !lookup_insert_ne by lia. }
    eapply twp_mono.
    { apply (IH s1 (with_outputs (n_outputs nd ++ [next s]) nd)); [done | |].
      - simpl. apply lookup_insert_eq.
      - eapply Forall_impl; [exact Hty|]. intros x Hx.
        by rewrite (tensor_of_frame _ _ _ Hb Hf1 Hx). }
    intros row s' (Hb' & Hf' & Hi' & Hn' & Hg' & Hrow). cbv beta. twp_steps.
    split_and!; [done | by etrans | done | | done |].
    + rewrite Hn'. simpl. rewrite insert_insert_eq, <- app_assoc. done.
    + constructor.
      * split; [done|]. exists ct. split; [done|].
        destruct Hf' as (_ & _ & V). rewrite V by (simpl; lia). simpl.
        rewrite lookup_insert_eq. done.
      * eapply Forall2_impl_l; [exact Hty | exact Hrow |].
        intros x r Hx (Hr & ct' & Hct' & Hv'). simpl in Hr.
        split; [lia|]. exists ct'. split; [|done].
        rewrite <- Hct'. symmetry. by apply tensor_of_frame.
Qed.


Lemma twp_index_at n (Q : nat → State → Prop) s :
  (∀ i f, Q i (set_index f s)) → twp (index_at n) Q s.
Proof.
  intros H. unfold twp, index_at. destruct (topological_index s !! n).
  - specialize (H n0 id). by destruct s.
  - apply H.
Qed.

Lemma insert_after_Some n m l :
  m ∈ l → ∃ l', insert_after n m l = Some l' ∧ n ∈ l' ∧ ∀ x, x ∈ l → x ∈ l'.
Proof.
  induction l as [|x l IH]; intros Hm; [by apply elem_of_nil in Hm|]. simpl.
  destruct (decide (x = m)) as [->|Hne].
  - eexists. split; [done|]. split.
    + apply list_elem_of_further, list_elem_of_here.
    + intros y [->|Hy]%elem_of_cons; [apply list_elem_of_here|].
      by do 2 apply list_elem_of_further.
  - apply elem_of_cons in Hm as [->|Hm]; [done|].
    destruct (IH Hm) as (l' & -> & Hn & Hl). eexists. split; [done|]. simpl. split.
    + by apply list_elem_of_further.
    + intros y [->|Hy]%elem_of_cons; [apply list_elem_of_here|].
      apply list_elem_of_further. by apply Hl.
Qed.

Lemma new_split_later s0 s1 s' cd x sp row :
  bounded s0 → frame s0 s1 → is_Some (tensor_of s0 x) →
  Forall (λ sel, is_Some (tensor_of s0 sel)) (n_outputs cd) →
  new_split s1 s' cd x sp row → new_split s0 s' cd x sp row.
Proof.
  intros Hb Hf Hx Hs (Hsp & (nd & Hn & ? & ? & ? & ? & Hg) & it & Hit & Hrow).
  pose proof Hf as (Hle & Hgr & _). split_and!; [lia | |].
  - exists nd. split_and!; try done. congruence.
  - exists it. split; [by rewrite <- (tensor_of_frame _ _ _ Hb Hf Hx)|].
    eapply Forall2_impl_l; [exact Hs | exact Hrow |].
    intros sel r Hsel (Hr & ct & Hct & Hv). split; [lia|]. exists ct. split; [|done].
    by rewrite <- (tensor_of_frame _ _ _ Hb Hf Hsel).
Qed.

Lemma new_split_kept s0 s1 s' cd x sp row :
  bounded s1 → frame s1 s' → (∀ n, n < next s1 → nodes s' !! n = nodes s1 !! n) →
  new_split s0 s1 cd x sp row → new_split s0 s' cd x sp row.
Proof.
  intros (Bn & Bv & _) (_ & _ & V) Hn (Hsp & (nd & Hnd & Hrest) & it & Hit & Hrow).
  split_and!; [done | |].
  - exists nd. split; [|done]. rewrite Hn; [done|]. apply Bn. eauto.
  - exists it. split; [done|]. eapply Forall2_impl; [exact Hrow|].
    intros sel r (Hr & ct & Hct & Hv). split; [done|]. exists ct. split; [done|].
    rewrite V; [done|]. apply Bv. eauto.
Qed.

Lemma operands_spec chunk cd ins ip s :
  ready ip s → nodes s !! chunk = Some cd →
  Forall (λ sel, is_Some (tensor_of s sel)) (n_outputs cd) →
  Forall (λ x, is_Some (tensor_of s x)) ins →
  twp (tryToMoveChunk_operands (graph s) chunk ip ins)
      (λ r s',
         ready r.1 s' ∧ frame s s'
         ∧ (∀ n, n < next s → nodes s' !! n = nodes s !! n)
         ∧ ∃ splits, Forall3 (new_split s s' cd) ins splits r.2
                     ∧ (∀ n, next s ≤ n → is_Some (nodes s' !! n) → n ∈ splits)) s.
Proof.
  revert ip s. induction ins as [|x ins IH]; intros ip s Hr Hc Hsels Hins; simpl.
  - apply twp_ret. simpl. split_and!; [done | reflexivity | done |].
    exists []. split; [constructor|]. intros n Hn Hl.
    destruct Hr as ((Bn & _) & _). specialize (Bn n Hl). lia.
  - apply Forall_cons in Hins as [[it Hit] Hins].
    destruct (tensor_of_value _ _ _ Hit) as (vl & ty & Hvl & Hvt & Hcast).
    pose proof Hr as (Hb & (G & HG & Hip) & (ipd & Hipd & Hipg)).
    pose proof Hb as (Bn & Bv & Bg).
    assert (chunk < next s) by (apply Bn; eauto).
    assert (ip < next s) by (apply Bn; eauto).
    assert (x < next s) by (apply Bv; eauto).
    eapply twp_run; [by eapply type_Ok|]. rewrite Hcast.
    unfold create. simpl. twp_steps. eapply twp_getGraph; [exact HG|]. twp_steps.
    unfold copyAttributes. twp_steps.
    eapply twp_getNode; [simpl; look; reflexivity|]. twp_steps.
    eapply twp_getNode; [simpl; look; exact Hc|]. twp_steps.
    unfold addInput. twp_steps.
    eapply twp_getNode; [simpl; look; reflexivity|]. twp_steps.
    eapply twp_getValue; [simpl; exact Hvl|]. twp_steps.
    unfold insertAt, insertAfter, Node_insertAfter. twp_steps.
    eapply twp_getNode; [simpl; look; reflexivity|]. twp_steps.
    eapply twp_getNode; [simpl; look; exact Hipd|]. twp_steps.
    rewrite Hipg.
    eapply twp_getGraph; [simpl; exact HG|]. twp_steps.
    destruct (insert_after_Some (next s) ip (g_nodes G) Hip) as (l & Hl & Hnl & Hll).
    eapply twp_liftOpt; [exact Hl|]. twp_steps.
    apply twp_index_at. intros i f. unfold index_set. twp_steps.
    unfold outputs. twp_steps.
    eapply twp_getNode; [simpl; look; exact Hc|]. twp_steps.
    simpl.
    match goal with |- twp _ _ ?st => set (sa := st) end.
    set (nd0 := mkNode ksplit [x] [] (g_stage G) (n_attrs cd) (graph s)).
    assert (Hna : nodes sa = <[next s := nd0]> (nodes s)).
    { simpl. by rewrite !insert_insert_eq. }
    assert (Hva : values sa = values s) by done.
    assert (Hga : graphs sa = <[graph s := with_nodes l G]> (graphs s)) by done.
    assert (Hnxa : next sa = S (next s)) by done.
    assert (Hgra : graph sa = graph s) by done.
    clearbody sa.
    assert (Hfa : frame s sa).
    { split_and!; [lia | done |]. intros y Hy. by rewrite Hva. }
    assert (Hba : bounded sa).
    { split_and!.
      - intros n [y Hy]. rewrite Hna, lookup_insert in Hy. case_decide; simplify_eq; [lia|].
        assert (n < next s) by (apply Bn; eauto). lia.
      - intros v Hv. rewrite Hva in Hv. specialize (Bv v Hv). lia.
      - intros g [y Hy]. rewrite Hga, lookup_insert in Hy. case_decide; simplify_eq.
        + assert (graph s < next s) by (apply Bg; eauto). lia.
        + assert (g < next s) by (apply Bg; eauto). lia. }
    eapply twp_mono.
    { apply (selects_spec (next s) it (n_outputs cd) sa nd0); [done | |].
      - rewrite Hna. apply lookup_insert_eq.
      - eapply Forall_impl; [exact Hsels|]. intros y Hy.
        by rewrite (tensor_of_frame _ _ _ Hb Hfa Hy). }
    intros row s1 (Hb1 & Hf1 & _ & Hn1 & Hg1 & Hrow). cbv beta.
    rewrite Hna, insert_insert_eq in Hn1. simpl in Hn1.
    pose proof Hf1 as (Hle1 & Hgr1 & V1).
    assert (Hfs1 : frame s s1) by (etrans; eauto).
    apply twp_bind. eapply twp_mono.
    { rewrite <- Hgra, <- Hgr1. apply (IH (next s) s1).
      - split_and!; [done | |].
        + exists (with_nodes l G). rewrite Hg1, Hga, Hgr1, Hgra, lookup_insert_eq. done.
        + eexists. rewrite Hn1, lookup_insert_eq. split; [done|]. simpl. congruence.
      - rewrite Hn1, lookup_insert_ne by lia. done.
      - eapply Forall_impl; [exact Hsels|]. intros y Hy.
        by rewrite (tensor_of_frame _ _ _ Hb Hfs1 Hy).
      - eapply Forall_impl; [exact Hins|]. intros y Hy.
        by rewrite (tensor_of_frame _ _ _ Hb Hfs1 Hy). }
    intros [ip' rows] s' (Hr' & Hf' & Hn' & splits & Hsp & Hnew). cbv beta.
    apply twp_ret. simpl in *. split_and!; [done | by etrans | |].
    + intros n Hn. rewrite Hn' by lia. rewrite Hn1, lookup_insert_ne by lia. done.
    + exists (next s :: splits). split.
      * constructor.
        -- apply (new_split_kept s s1 s'); [done | done | done |].
           split_and!; [done | |].
           ++ eexists. rewrite Hn1, lookup_insert_eq. split; [done|]. by split_and!.
           ++ exists it. split; [done|]. eapply Forall2_impl_l; [exact Hsels | exact Hrow |].
              intros sel r Hsel (Hr1 & ct & Hct & Hv). split; [lia|]. exists ct.
              split; [|done]. by rewrite <- (tensor_of_frame _ _ _ Hb Hfa Hsel).
        -- eapply Forall3_impl_l; [exact Hins | exact Hsp |]. intros y sp rw Hy Hnew_sp.
           by eapply (new_split_later s s1).
      * intros n Hn Hlive. destruct (decide (next s1 ≤ n)) as [Hge|Hlt].
        -- apply list_elem_of_further. by apply Hnew.
        -- rewrite Hn' in Hlive by lia. rewrite Hn1, lookup_insert in Hlive.
           case_decide; simplify_eq; [apply list_elem_of_here|].
           specialize (Bn n Hlive). lia.
Qed.


(** *** The second phase: one op per output of the split *)

Lemma apply_subst_notin l x : x ∉ l.*1 → apply_subst l x = x.
Proof.
  induction l as [|[a b] l IH]; [done|]. simpl. intros H.
  apply not_elem_of_cons in H as [? ?]. rewrite decide_False by done. auto.
Qed.

Lemma index_of_lt v l i : index_of v l = Some i → i < length l.
Proof.
  revert i. induction l as [|x l IH]; intros i; simpl; [done|].
  destruct (decide (x = v)); [intros [= <-]; lia|].
  destruct (index_of v l) as [j|]; [|done]. simpl. intros [= <-].
  specialize (IH j eq_refl). lia.
Qed.

Lemma index_of_elem v l : v ∈ l → is_Some (index_of v l).
Proof.
  induction l as [|x l IH]; [by intros ?%elem_of_nil|]. simpl.
  destruct (decide (x = v)); [eauto|].
  intros [->|H]%elem_of_cons; [done|]. destruct (IH H) as [j ->]. simpl. eauto.
Qed.

Lemma with_inputs_twice l l' nd : with_inputs l (with_inputs l' nd) = with_inputs l nd.
Proof. done. Qed.
Lemma with_inputs_same nd : with_inputs (n_inputs nd) nd = nd.
Proof. by destruct nd. Qed.

Lemma column_spec N sel chunk cd' vl off (rows : list (list nat)) s nd :
  nodes s !! N = Some nd → N ≠ chunk → nodes s !! chunk = Some cd' →
  values s !! sel = Some vl → v_node vl = chunk →
  index_of sel (n_outputs cd') = Some off →
  Forall (λ row, ∃ v, row !! off = Some v ∧ is_Some (values s !! v)) rows →
  twp (forM rows (λ by_chunk_output_idx,
         let! off := offset sel in
         let! v := liftOpt (by_chunk_output_idx !! off) (OutOfRange "by_chunk_output_idx.at") in
         let! _ := addInput N v in
         ret tt))
      (λ _ s', ∃ col, Forall2 (λ row v, row !! off = Some v) rows col
                ∧ nodes s' = <[N := with_inputs (n_inputs nd ++ col) nd]> (nodes s)
                ∧ values s' = values s ∧ graphs s' = graphs s
                ∧ next s' = next s ∧ graph s' = graph s) s.
Proof.
  intros Hn Hne Hc Hvl Hvn Hoff. revert s nd Hn Hc Hvl.
  induction rows as [|row rows IH]; intros s nd Hn Hc Hvl Hrows; simpl.
  - apply twp_ret. exists []. split; [constructor|].
    rewrite app_nil_r, with_inputs_same, insert_id by done. done.
  - apply Forall_cons in Hrows as [(v & Hv & [vv Hvv]) Hrows].
    unfold offset, node_of, outputs. twp_steps.
    eapply twp_getValue; [exact Hvl|]. twp_steps. rewrite Hvn.
    eapply twp_getNode; [exact Hc|]. twp_steps.
    eapply twp_liftOpt; [exact Hoff|]. twp_steps.
    eapply twp_liftOpt; [exact Hv|].
    unfold addInput. twp_steps.
    eapply twp_getNode; [exact Hn|]. twp_steps.
    eapply twp_getValue; [exact Hvv|]. twp_steps.
    eapply twp_mono.
    { apply (IH _ (with_inputs (n_inputs nd ++ [v]) nd)); simpl.
      - apply lookup_insert_eq.
      - by rewrite lookup_insert_ne.
      - done.
      - done. }
    intros _ s' (col & Hcol & Hn' & Hv' & Hg' & Hnx' & Hgr'). cbv beta.
    exists (v :: col). split; [by constructor|]. simpl in *.
    rewrite Hn', insert_insert_eq, <- app_assoc. done.
Qed.

Lemma new_op_later s0 s1 s' cd od rows sel o' out :
  bounded s0 → frame s0 s1 → is_Some (tensor_of s0 sel) →
  new_op s1 s' cd od rows sel o' out → new_op s0 s' cd od rows sel o' out.
Proof.
  intros Hb Hf Hsel (Ho & Hout & nd & ct & off & Hn & Hk & Ha & Ho' & Hg & Hoff & Hcol & Hct & Hv).
  pose proof Hf as (Hle & Hgr & _). split_and!; [lia | lia |].
  exists nd, ct, off. split_and!; try done; [congruence|].
  by rewrite <- (tensor_of_frame _ _ _ Hb Hf Hsel).
Qed.

Lemma replace_in_subst v new ins : replace_in v new ins = apply_subst [(v, new)] <$> ins.
Proof. done. Qed.

Lemma apply_subst_cons a b l x :
  b ∉ l.*1 → apply_subst l (apply_subst [(a, b)] x) = apply_subst ((a, b) :: l) x.
Proof.
  intros Hb. simpl. destruct (decide (x = a)); [|done]. by apply apply_subst_notin.
Qed.

Lemma subst_inputs_cons a b l nd :
  b ∉ l.*1 → subst_inputs l (subst_inputs [(a, b)] nd) = subst_inputs ((a, b) :: l) nd.
Proof.
  intros Hb. unfold subst_inputs, with_inputs. simpl. f_equal.
  rewrite <- list_fmap_compose. apply list_fmap_ext. intros i x _. simpl.
  destruct (decide (x = a)); [|done]. by apply apply_subst_notin.
Qed.

Lemma fst_zip_subseteq (l k : list nat) x : x ∈ (zip l k).*1 → x ∈ l.
Proof.
  revert k. induction l as [|a l IH]; intros [|b k]; simpl; try by intros ?%elem_of_nil.
  intros [->|H]%elem_of_cons; [apply list_elem_of_here|].
  apply list_elem_of_further. by eapply IH.
Qed.

Lemma ops_spec chunk op cd od (rows : list (list nat)) sels ip s :
  ready ip s →
  (∃ cd', nodes s !! chunk = Some cd' ∧ n_outputs cd' = n_outputs cd) →
  (∃ od', nodes s !! op = Some od' ∧ n_kind od' = n_kind od ∧ n_attrs od' = n_attrs od) →
  Forall (λ sel, (∃ vl, values s !! sel = Some vl ∧ v_node vl = chunk)
                 ∧ is_Some (tensor_of s sel) ∧ sel ∈ n_outputs cd) sels →
  Forall (λ row, length row = length (n_outputs cd)
                 ∧ Forall (λ r, is_Some (values s !! r) ∧ r ∉ n_outputs cd) row) rows →
  twp (tryToMoveChunk_ops (graph s) op ip rows sels)
      (λ ip' s',
         ready ip' s' ∧ frame s s'
         ∧ ∃ ops outs,
             Forall3 (new_op s s' cd od rows) sels ops outs
             ∧ (∀ n, n < next s →
                  nodes s' !! n = subst_inputs (zip sels outs) <$> nodes s !! n)
             ∧ (∀ n, next s ≤ n → is_Some (nodes s' !! n) → n ∈ ops)
             ∧ NoDup ops) s.
Proof.
  revert ip s. induction sels as [|sel sels IH]; intros ip s Hr Hc Ho Hsels Hrows; simpl.
  - apply twp_ret. split_and!; [done | reflexivity |].
    exists [], []. split_and!; [constructor | | | constructor].
    + intros n Hn. destruct (nodes s !! n) as [nd|]; [|done]. simpl.
      unfold subst_inputs. simpl. rewrite list_fmap_id. by rewrite with_inputs_same.
    + intros n Hn Hlive. destruct Hr as ((Bn & _) & _). specialize (Bn n Hlive). lia.
  - apply Forall_cons in Hsels as [((vl & Hvl & Hvn) & [ct Hct] & Hin) Hsels].
    destruct (tensor_of_value _ _ _ Hct) as (vl' & ty & Hvl' & Hvt & Hcast).
    rewrite Hvl in Hvl'. injection Hvl' as <-.
    pose proof Hr as (Hb & (G & HG & Hip) & (ipd & Hipd & Hipg)).
    pose proof Hb as (Bn & Bv & Bg).
    destruct Hc as (cd' & Hcd' & Hco). destruct Ho as (od' & Hod' & Hok & Hoa).
    assert (chunk < next s) by (apply Bn; eauto).
    assert (op < next s) by (apply Bn; eauto).
    assert (ip < next s) by (apply Bn; eauto).
    assert (sel < next s) by (apply Bv; eauto).
    destruct (index_of_elem _ _ Hin) as [off Hoff].
    unfold kind. twp_steps. eapply twp_getNode; [exact Hod'|]. twp_steps.
    unfold create. simpl. twp_steps. eapply twp_getGraph; [exact HG|]. twp_steps.
    unfold addOutput. twp_steps.
    eapply twp_getNode; [simpl; look; reflexivity|]. twp_steps.
    unfold copyAttributes. twp_steps.
    eapply twp_getNode; [simpl; look; reflexivity|]. twp_steps.
    eapply twp_getNode; [simpl; look; exact Hod'|]. twp_steps.
    unfold output, outputs. twp_steps.
    eapply twp_getNode; [simpl; look; reflexivity|]. twp_steps. simpl. twp_steps.
    eapply twp_intro; [eapply type_Ok; [simpl; look; exact Hvl | exact Hvt]|]. twp_steps.
    eapply twp_liftOpt; [exact Hcast|]. twp_steps.
    unfold setType. twp_steps.
    eapply twp_getValue; [simpl; look; reflexivity|]. twp_steps.
    simpl.
    match goal with |- twp _ _ ?st => set (sa := st) end.
    set (nd0 := mkNode (n_kind od') [] [S (next s)] (g_stage G) (n_attrs od') (graph s)).
    set (out := S (next s)).
    assert (Hna : nodes sa = <[next s := nd0]> (nodes s)).
    { simpl. by rewrite !insert_insert_eq. }
    assert (Hva : values sa
                  = <[out := mkValue (next s) (Some (TensorT (contiguous ct)))]> (values s)).
    { simpl. by rewrite !insert_insert_eq. }
    assert (Hga : graphs sa = graphs s) by done.
    assert (Hnxa : next sa = S (S (next s))) by done.
    assert (Hgra : graph sa = graph s) by done.
    clearbody sa.
    assert (Hcols : Forall (λ row : list nat,
                      ∃ v, row !! off = Some v ∧ is_Some (values sa !! v)) rows).
    { eapply Forall_impl; [exact Hrows|]. intros row [Hlen Hrow].
      assert (Hlt : off < length row).
      { rewrite Hlen. by apply index_of_lt in Hoff. }
      apply lookup_lt_is_Some in Hlt as [v Hv]. exists v. split; [done|].
      rewrite Forall_forall in Hrow.
      destruct (Hrow v) as [Hval _]; [by eapply list_elem_of_lookup_2|].
      rewrite Hva, lookup_insert_ne; [done|].
      specialize (Bv v Hval). unfold out. lia. }
    eapply twp_mono.
    { eapply (column_spec (next s) sel chunk cd' vl off rows sa nd0).
      - rewrite Hna. apply lookup_insert_eq.
      - lia.
      - rewrite Hna, lookup_insert_ne by lia. done.
      - rewrite Hva, lookup_insert_ne by (unfold out; lia). done.
      - done.
      - by rewrite Hco.
      - done. }
    intros _ sb (col & Hcol & Hnb & Hvb & Hgb & Hnxb & Hgrb). cbv beta.
    rewrite Hna, insert_insert_eq in Hnb. simpl in Hnb.
    rewrite Hva in Hvb. rewrite Hga in Hgb.
    unfold insertAt, insertAfter, Node_insertAfter. twp_steps.
    eapply twp_getNode; [rewrite Hnb; look; reflexivity|]. twp_steps.
    eapply twp_getNode; [rewrite Hnb; look; exact Hipd|]. twp_steps.
    rewrite Hipg.
    eapply twp_getGraph; [rewrite Hgb; exact HG|]. twp_steps.
    destruct (insert_after_Some (next s) ip (g_nodes G) Hip) as (l & Hl & Hnl & Hll).
    eapply twp_liftOpt; [exact Hl|]. twp_steps.
    apply twp_index_at. intros i f. unfold index_set. twp_steps.
    unfold outputs. twp_steps.
    eapply twp_getNode; [simpl; rewrite Hnb; look; reflexivity|]. twp_steps. simpl.
    twp_steps. unfold replaceAllUsesWith. twp_steps.
    eapply twp_getValue; [simpl; rewrite Hvb; look; exact Hvl|]. twp_steps.
    eapply twp_getValue; [simpl; rewrite Hvb; look; reflexivity|]. twp_steps.
    match goal with |- twp _ _ ?st => set (s1 := st) end.
    set (ndN := with_inputs col nd0).
    assert (Hn1 : nodes s1 = subst_inputs [(sel, out)] <$> <[next s := ndN]> (nodes s)).
    { simpl. by rewrite Hnb. }
    assert (Hv1 : values s1
                  = <[out := mkValue (next s) (Some (TensorT (contiguous ct)))]> (values s)).
    { simpl. by rewrite Hvb. }
    assert (Hg1 : graphs s1 = <[graph s := with_nodes l G]> (graphs s)).
    { simpl. rewrite Hgb. congruence. }
    assert (Hnx1 : next s1 = S (S (next s))) by (simpl; congruence).
    assert (Hgr1 : graph s1 = graph s) by (simpl; congruence).
    clearbody s1. clear dependent sa. clear dependent sb.
    assert (Hf1 : frame s s1).
    { split_and!; [lia | done |]. intros y Hy.
      rewrite Hv1, lookup_insert_ne by (unfold out; lia). done. }
    assert (Hb1 : bounded s1).
    { split_and!.
      - intros n [y Hy]. rewrite Hn1, lookup_fmap, lookup_insert in Hy.
        case_decide; simplify_eq; [lia|].
        destruct (nodes s !! n) eqn:E; [|done].
        assert (n < next s) by (apply Bn; eauto). lia.
      - intros v [y Hy]. rewrite Hv1, lookup_insert in Hy.
        assert (v < S (S (next s))); [|lia].
        case_decide; [unfold out in *; lia|]. assert (v < next s) by (apply Bv; eauto). lia.
      - intros g [y Hy]. rewrite Hg1, lookup_insert in Hy. case_decide; simplify_eq.
        + assert (graph s < next s) by (apply Bg; eauto). lia.
        + assert (g < next s) by (apply Bg; eauto). lia. }
    assert (Hcolfix : Forall (λ v, v ∉ n_outputs cd) col).
    { clear -Hcol Hrows. induction Hcol as [|row v rows col Hv _ IH]; [constructor|].
      apply Forall_cons in Hrows as [[_ Hrow] Hrows]. constructor; [|by apply IH].
      rewrite Forall_forall in Hrow. apply (Hrow v). by eapply list_elem_of_lookup_2. }
    assert (Hsub : ∀ n, n < next s →
              nodes s1 !! n = subst_inputs [(sel, out)] <$> nodes s !! n).
    { intros n Hn. rewrite Hn1, lookup_fmap, lookup_insert_ne by lia. done. }
    eapply twp_mono.
    { rewrite <- Hgr1. apply (IH (next s) s1).
      - split_and!; [done | |].
        + exists (with_nodes l G). rewrite Hg1, Hgr1, lookup_insert_eq. done.
        + eexists. rewrite Hn1, lookup_fmap, lookup_insert_eq. split; [done|].
          simpl. congruence.
      - exists (subst_inputs [(sel, out)] cd'). rewrite Hsub, Hcd' by done. done.
      - exists (subst_inputs [(sel, out)] od'). rewrite Hsub, Hod' by done. done.
      - eapply Forall_impl; [exact Hsels|].
        intros y ((vy & Hvy & Hny) & Hty & Hiny). split_and!; [|by rewrite (tensor_of_frame _ _ _ Hb Hf1 Hty) | done].
        exists vy. split; [|done].
        rewrite Hv1, lookup_insert_ne; [done|].
        assert (y < next s) by (apply Bv; eauto). unfold out. lia.
      - eapply Forall_impl; [exact Hrows|]. intros row [Hlen Hrow]. split; [done|].
        eapply Forall_impl; [exact Hrow|]. intros r [Hr1 Hr2]. split; [|done].
        rewrite Hv1, lookup_insert_ne; [done|].
        specialize (Bv r Hr1). unfold out. lia. }
    intros ip' s' (Hr' & Hf' & ops & outs & Hops & Hold & Hnew & Hndops). cbv beta.
    split_and!; [done | by etrans |].
    exists (next s :: ops), (out :: outs). simpl zip.
    assert (Hout : out ∉ (zip sels outs).*1).
    { intros Ho%fst_zip_subseteq. rewrite Forall_forall in Hsels.
      destruct (Hsels out Ho) as ((vo & Hvo & _) & _).
      assert (out < next s) by (apply Bv; eauto). unfold out in *. lia. }
    split_and!.
    + constructor.
      * split_and!; [lia | unfold out; lia |].
        exists (subst_inputs (zip sels outs) (subst_inputs [(sel, out)] ndN)), ct, off.
        split_and!; try done.
        -- rewrite Hold by lia. rewrite Hn1, lookup_fmap, lookup_insert_eq. done.
        -- rewrite subst_inputs_cons by done.
           assert (Hid : apply_subst ((sel, out) :: zip sels outs) <$> col = col).
           { clear -Hcolfix Hin Hsels. induction Hcolfix as [|v col Hv _ IHc]; [done|].
             rewrite fmap_cons, IHc. f_equal. simpl.
             rewrite decide_False by (by intros ->).
             apply apply_subst_notin. intros Hv'%fst_zip_subseteq.
             rewrite Forall_forall in Hsels. by destruct (Hsels v Hv') as (_ & _ & ?). }
           change (n_inputs (subst_inputs ((sel, out) :: zip sels outs) ndN))
             with (apply_subst ((sel, out) :: zip sels outs) <$> col).
           by rewrite Hid.
        -- destruct Hf' as (_ & _ & V'). rewrite V' by (unfold out; lia).
           rewrite Hv1. apply lookup_insert_eq.
      * eapply Forall3_impl_l; [exact Hsels | exact Hops |].
        intros y o' out' (_ & Hty & _) Hno. by eapply (new_op_later s s1).
    + intros n Hn. rewrite Hold by lia. rewrite Hsub by done.
      destruct (nodes s !! n) as [nd|]; [|done]. simpl. f_equal.
      by apply subst_inputs_cons.
    + intros n Hn Hlive. destruct (decide (next s1 ≤ n)) as [Hge|Hlt].
      * apply list_elem_of_further. by apply Hnew.
      * rewrite Hold in Hlive by lia. rewrite Hn1, lookup_fmap, lookup_insert in Hlive.
        case_decide; simplify_eq; [apply list_elem_of_here|].
        destruct (nodes s !! n) eqn:E; [|by destruct Hlive].
        assert (n < next s) by (apply Bn; eauto). lia.
    + apply NoDup_cons. split; [|done].
      assert (Hge : Forall (λ o', next s1 ≤ o') ops).
      { clear -Hops. induction Hops as [|x y z l k k' HP _ IHo]; constructor;
          [by destruct HP | done]. }
      intros Hin'. rewrite Forall_forall in Hge. specialize (Hge _ Hin'). lia.
Qed.


(** *** Destroying the split and the op *)

Lemma uses_from_nil v n i ins : v ∉ ins → uses_from v n i ins = [].
Proof.
  revert i. induction ins as [|x ins IH]; intros i H; [done|]. simpl.
  apply not_elem_of_cons in H as [? ?]. rewrite decide_False by done. auto.
Qed.

Lemma uses_from_user v n i ins u : u ∈ uses_from v n i ins → user u = n.
Proof.
  revert i. induction ins as [|x ins IH]; intros i; simpl; [by intros ?%elem_of_nil|].
  destruct (decide (x = v)); [|by apply IH].
  intros [->|H]%elem_of_cons; [done | by eapply IH].
Qed.

Lemma uses_from_elem v n i ins : v ∈ ins → ∃ u, u ∈ uses_from v n i ins.
Proof.
  revert i. induction ins as [|x ins IH]; intros i; [by intros ?%elem_of_nil|]. simpl.
  destruct (decide (x = v)) as [->|Hne].
  - intros _. eexists. apply list_elem_of_here.
  - intros [->|H]%elem_of_cons; [done|]. by apply IH.
Qed.

Lemma uses_of_nil s v : unused s v → uses_of s v = [].
Proof.
  intros H. unfold uses_of.
  assert (Hall : ∀ p, p ∈ map_to_list (nodes s) → v ∉ n_inputs p.2).
  { intros [m md] Hp%elem_of_map_to_list. by eapply H. }
  induction (map_to_list (nodes s)) as [|p l IH]; [done|]. simpl.
  rewrite uses_from_nil by (apply Hall, list_elem_of_here).
  apply IH. intros q Hq. by apply Hall, list_elem_of_further.
Qed.

(** Every occurrence among the inputs of a live node is a use. *)
Lemma uses_of_elem s v m md :
  nodes s !! m = Some md → v ∈ n_inputs md → ∃ u, u ∈ uses_of s v ∧ user u = m.
Proof.
  intros Hm Hv. unfold uses_of.
  destruct (uses_from_elem v m 0 _ Hv) as [u Hu]. exists u. split.
  - apply list_elem_of_In, in_flat_map. exists (m, md). split.
    + by apply list_elem_of_In, elem_of_map_to_list.
    + by apply list_elem_of_In.
  - by eapply uses_from_user.
Qed.

Lemma eraseOutputs_down_spec n outs s nd :
  nodes s !! n = Some nd → n_outputs nd = outs → NoDup outs →
  (∀ o, o ∈ outs → is_Some (values s !! o) ∧ unused s o) →
  twp (eraseOutputs_down n (length outs))
      (λ _ s',
         nodes s' = <[n := with_outputs [] nd]> (nodes s)
         ∧ (∀ x, values s' !! x = if decide (x ∈ outs) then None else values s !! x)
         ∧ graphs s' = graphs s ∧ next s' = next s ∧ graph s' = graph s) s.
Proof.
  revert s nd. induction outs as [|o outs IH] using rev_ind; intros s nd Hn Ho Hnd Hall.
  - simpl. apply twp_ret. split_and!; try done.
    rewrite <- Ho, with_outputs_same. by rewrite insert_id.
  - rewrite length_app, Nat.add_comm. simpl.
    apply NoDup_app in Hnd as (Hnd & Hdisj & _).
    destruct (Hall o) as [[vo Hvo] Huo]; [apply elem_of_app; right; apply list_elem_of_here|].
    unfold eraseOutput. twp_steps.
    eapply twp_getNode; [exact Hn|]. twp_steps.
    eapply twp_liftOpt; [rewrite Ho; apply list_lookup_middle; reflexivity|]. twp_steps.
    eapply twp_intro; [apply uses_Ok; eauto|]. twp_steps.
    eapply twp_JIT_ASSERT; [rewrite (uses_of_nil _ _ Huo); by apply bool_decide_eq_true|].
    twp_steps.
    eapply twp_mono.
    { apply (IH _ (with_outputs outs nd)).
      - simpl. rewrite lookup_insert_eq. f_equal. rewrite Ho.
        by rewrite delete_middle, app_nil_r.
      - done.
      - done.
      - intros o' Ho'. destruct (Hall o') as [Hv' Hu']; [apply elem_of_app; by left|].
        split.
        + simpl. rewrite lookup_delete_ne; [done|]. intros ->.
          apply (Hdisj o' Ho'), list_elem_of_here.
        + intros m md Hm. simpl in Hm. rewrite lookup_insert in Hm.
          case_decide; simplify_eq; simpl; by eapply Hu'. }
    intros _ s' (Hn' & Hv' & Hg' & Hnx' & Hgr'). cbv beta. simpl in *.
    split_and!; try done.
    + rewrite Hn', insert_insert_eq. done.
    + intros x. rewrite Hv'. rewrite lookup_delete.
      destruct (decide (x ∈ outs)) as [Hx|Hx].
      * rewrite decide_True; [done|]. apply elem_of_app. by left.
      * case_decide as Hxo.
        -- subst. rewrite decide_True; [done|]. apply elem_of_app. right. apply list_elem_of_here.
        -- rewrite decide_False; [done|]. intros [?|?%list_elem_of_singleton]%elem_of_app; done.
Qed.

Lemma destroy_spec n nd G s :
  nodes s !! n = Some nd → NoDup (n_outputs nd) →
  (∀ o, o ∈ n_outputs nd → is_Some (values s !! o) ∧ unused s o) →
  graphs s !! n_graph nd = Some G →
  twp (destroy n)
      (λ _ s',
         nodes s' = delete n (nodes s)
         ∧ (∀ x, values s' !! x = if decide (x ∈ n_outputs nd) then None else values s !! x)
         ∧ graphs s' = <[n_graph nd := with_nodes (remove_id n (g_nodes G)) G]> (graphs s)
         ∧ next s' = next s ∧ graph s' = graph s) s.
Proof.
  intros Hn Hnd Hall HG. unfold destroy. twp_steps.
  eapply twp_getNode; [exact Hn|]. twp_steps.
  eapply twp_mono; [by apply (eraseOutputs_down_spec n (n_outputs nd) s nd)|].
  intros _ s1 (Hn1 & Hv1 & Hg1 & Hnx1 & Hgr1). cbv beta. twp_steps.
  eapply twp_getGraph; [rewrite Hg1; exact HG|]. twp_steps. simpl.
  split_and!; try done.
  - by rewrite Hn1, delete_insert_eq.
  - by rewrite Hg1.
Qed.


(** *** The rewrite *)

Lemma all_uses_in_true c sels st :
  Forall (λ sel, is_Some (values st !! sel)) sels →
  (∀ sel u, sel ∈ sels → u ∈ uses_of st sel → user u = c) →
  all_uses_in c sels st = Ok true st.
Proof.
  induction sels as [|s sels IH]; intros Hv Hu; simpl; [done|].
  apply Forall_cons in Hv as [Hs Hv]. unfold bind at 1. rewrite (uses_Ok _ _ Hs).
  assert (forallb (λ u, bool_decide (user u = c)) (uses_of st s) = true) as ->.
  { apply forallb_forall. intros u Hin. apply bool_decide_eq_true.
    apply (Hu s u); [apply list_elem_of_here | by apply list_elem_of_In]. }
  apply IH; [done|]. intros sel u Hsel. apply Hu. by apply list_elem_of_further.
Qed.

Lemma isFusable_not_split n nd st st' :
  isFusable n st = Ok true st' → nodes st !! n = Some nd → n_kind nd ≠ ksplit.
Proof.
  unfold isFusable, isFusable_with. intros E Hn Hk.
  inv_bind E as k s Ek. apply kind_inv in Ek as (-> & nd' & Hn' & <-).
  rewrite Hn in Hn'. injection Hn' as <-.
  rewrite Hk in E. rewrite bool_decide_eq_false_2 in E by done.
  inv_bind E as a s Ea. rewrite (isSimpleMap_value _ _ _ Hn) in Ea.
  rewrite Hk in Ea. vm_compute in Ea. injection Ea as <- <-. simpl in E.
  discriminate E.
Qed.

Lemma apply_subst_zip_cases sels outs y :
  apply_subst (zip sels outs) y = y ∨ apply_subst (zip sels outs) y ∈ outs.
Proof.
  revert outs. induction sels as [|a sels IH]; intros [|b outs]; simpl; auto.
  destruct (decide (y = a)); [right; apply list_elem_of_here|].
  destruct (IH outs) as [?|?]; [by left | right; by apply list_elem_of_further].
Qed.

Lemma apply_subst_zip_in sels outs y :
  length sels = length outs → y ∈ sels → apply_subst (zip sels outs) y ∈ outs.
Proof.
  revert outs. induction sels as [|a sels IH]; intros [|b outs] Hl Hy; simpl in *;
    try done; try (by apply elem_of_nil in Hy).
  destruct (decide (y = a)); [apply list_elem_of_here|].
  apply elem_of_cons in Hy as [?|Hy]; [done|].
  apply list_elem_of_further, IH; [lia | done].
Qed.

Lemma Forall3_elem_m {A B C} (P : A → B → C → Prop) l k k' y :
  Forall3 P l k k' → y ∈ k → ∃ x z, x ∈ l ∧ z ∈ k' ∧ P x y z.
Proof.
  induction 1 as [|x y' z l k k' HP _ IH]; [by intros ?%elem_of_nil|].
  intros [->|Hy]%elem_of_cons.
  - exists x, z. split_and!; [apply list_elem_of_here.. | done].
  - destruct (IH Hy) as (x' & z' & ? & ? & ?). exists x', z'.
    split_and!; [by apply list_elem_of_further.. | done].
Qed.

Lemma Forall3_elem_r {A B C} (P : A → B → C → Prop) l k k' z :
  Forall3 P l k k' → z ∈ k' → ∃ x y, x ∈ l ∧ y ∈ k ∧ P x y z.
Proof.
  induction 1 as [|x y z' l k k' HP _ IH]; [by intros ?%elem_of_nil|].
  intros [->|Hz]%elem_of_cons.
  - exists x, y. split_and!; [apply list_elem_of_here.. | done].
  - destruct (IH Hz) as (x' & y' & ? & ? & ?). exists x', y'.
    split_and!; [by apply list_elem_of_further.. | done].
Qed.

(** The outputs of the new splits are new values. *)
Lemma new_split_row s0 s' cd x sp row :
  new_split s0 s' cd x sp row →
  length row = length (n_outputs cd)
  ∧ Forall (λ r, is_Some (values s' !! r) ∧ next s0 ≤ r) row.
Proof.
  intros (_ & _ & it & _ & Hrow). split; [symmetry; by eapply Forall2_length|].
  clear -Hrow. induction Hrow as [|sel r sels row (Hr & ct & _ & Hv) _ IH]; constructor; eauto.
Qed.

Lemma new_op_inputs s0 s' cd od rows sel o' out nd v :
  new_op s0 s' cd od rows sel o' out → nodes s' !! o' = Some nd → v ∈ n_inputs nd →
  ∃ row, row ∈ rows ∧ v ∈ row.
Proof.
  intros (_ & _ & nd' & ct & off & Hn & _ & _ & _ & _ & _ & Hcol & _) Hn' Hv.
  rewrite Hn in Hn'. injection Hn' as <-.
  clear -Hcol Hv. induction Hcol as [|row w rows col Hw _ IH]; [by apply elem_of_nil in Hv|].
  apply elem_of_cons in Hv as [->|Hv].
  - exists row. split; [apply list_elem_of_here | by eapply list_elem_of_lookup_2].
  - destruct (IH Hv) as (row' & ? & ?). exists row'. split; [by apply list_elem_of_further | done].
Qed.

Lemma isChunk_Ok n nd st :
  nodes st !! n = Some nd → isChunk n st = Ok (bool_decide (n_kind nd = ksplit)) st.
Proof. intros H. unfold isChunk. by rewrite (bind_run _ _ _ _ _ (kind_Ok _ _ _ H)). Qed.

Lemma input_Ok n nd v st :
  nodes st !! n = Some nd → n_inputs nd = [v] → input n st = Ok v st.
Proof.
  intros H Hi. unfold input. rewrite (bind_run _ _ _ _ _ (inputs_Ok _ _ _ H)).
  by rewrite Hi.
Qed.

Lemma allUsersAreThisConsumer_Ok c p st :
  is_Some (values st !! p) →
  allUsersAreThisConsumer c p st
  = Ok (forallb (λ u, bool_decide (user u = c)) (uses_of st p)) st.
Proof.
  intros H. unfold allUsersAreThisConsumer. by rewrite (bind_run _ _ _ _ _ (uses_Ok _ _ H)).
Qed.

Lemma tryToMoveChunk_moves consumer producer chunk op cd od st :
  chunk_pattern st consumer producer →
  chunk_movable st consumer producer chunk op cd od →
  twp (tryToMoveChunk consumer producer)
      (λ b st', b = true ∧ chunk_distributed st st' chunk op cd od) st.
Proof.
  intros (pv0 & cd0 & v0 & vv0 & Hpv0 & Hcd0 & Hk & Hin0 & Hvv0 & [sf Hfus] & Huv & Hus)
         (Hb & (pv & Hpv & Hpc) & Hcd & Hod & (v & vv & Hin & Hvv & Hvo & Hout)
          & Hcg & Hog & (G & HG & HcG) & Hnd & Hsels & Hins & Hco).
  rewrite Hpv in Hpv0. injection Hpv0 as <-. rewrite Hpc in *.
  rewrite Hcd in Hcd0. injection Hcd0 as <-.
  rewrite Hin in Hin0. injection Hin0 as <-.
  rewrite Hvv in Hvv0. injection Hvv0 as <-. rewrite Hvo in *.
  pose proof (reads_isFusable _ _ _ _ Hfus) as ->.
  pose proof (isFusable_not_split _ _ _ _ Hfus Hod) as Hks.
  assert (Hne : op ≠ chunk) by (intros ->; congruence).
  pose proof Hb as (Bn & Bv & Bg).
  assert (Hsel_lt : ∀ sel, sel ∈ n_outputs cd → sel < next st).
  { intros sel Hs. rewrite Forall_forall in Hsels.
    destruct (Hsels sel Hs) as ((vl & Hvl & _) & _). apply Bv. eauto. }
  assert (Hv_sel : v ∉ n_outputs cd).
  { intros Hs. rewrite Forall_forall in Hsels.
    destruct (Hsels v Hs) as ((vl & Hvl & Hvn) & _). congruence. }
  assert (Hx_sel : ∀ x, x ∈ n_inputs od → x ∉ n_outputs cd).
  { intros x Hx Hs. destruct (uses_of_elem _ _ _ _ Hod Hx) as (u & Hu & Huser).
    apply (Hus x u Hs) in Hu. congruence. }
  unfold tryToMoveChunk.
  eapply twp_run; [by eapply node_of_Ok|]. rewrite Hpc.
  eapply twp_run; [by eapply isChunk_Ok|].
  rewrite Hk, bool_decide_eq_true_2 by done. simpl.
  eapply twp_run; [by eapply input_Ok|].
  eapply twp_run; [by eapply node_of_Ok|]. rewrite Hvo.
  eapply twp_run; [exact Hfus|]. simpl.
  eapply twp_run; [apply allUsersAreThisConsumer_Ok; eauto|].
  assert (forallb (λ u, bool_decide (user u = chunk)) (uses_of st v) = true) as ->.
  { apply forallb_forall. intros u Hu. apply bool_decide_eq_true.
    by apply Huv, list_elem_of_In. }
  simpl.
  eapply twp_run; [by apply outputs_Ok|].
  eapply twp_run.
  { apply all_uses_in_true; [|done]. eapply Forall_impl; [exact Hsels|].
    by intros sel ((vl & -> & _) & _). }
  simpl.
  eapply twp_run; [by eapply node_of_Ok|]. rewrite Hvo.
  eapply twp_run; [by apply outputs_Ok|].
  rewrite Hout. simpl.
  apply twp_bind, twp_ret.
  eapply twp_run; [reflexivity|].
  eapply twp_run; [by apply inputs_Ok|].
  (* first phase *)
  apply twp_bind. eapply twp_mono.
  { apply (operands_spec chunk cd (n_inputs od) chunk st); [|done | |done].
    - split_and!; [done | by exists G | exists cd; by split].
    - eapply Forall_impl; [exact Hsels|]. by intros sel (_ & ?). }
  intros [ip1 rows] s1 (Hr1 & Hf1 & Hn1 & splits & Hsp & Hnew1). cbv beta. simpl in Hr1, Hsp.
  pose proof Hf1 as (Hle1 & Hgr1 & V1).
  pose proof Hr1 as (Hb1 & _). pose proof Hb1 as (Bn1 & Bv1 & Bg1).
  assert (Hcd1 : nodes s1 !! chunk = Some cd).
  { rewrite Hn1; [done|]. apply Bn. eauto. }
  assert (Hod1 : nodes s1 !! op = Some od).
  { rewrite Hn1; [done|]. apply Bn. eauto. }
  eapply twp_run; [by apply outputs_Ok|].
  (* second phase *)
  assert (Hrows : Forall (λ row, length row = length (n_outputs cd)
                    ∧ Forall (λ r, is_Some (values s1 !! r) ∧ next st ≤ r) row) rows).
  { clear -Hsp. induction Hsp as [|x sp row ins sps rows H _ IH]; constructor; [|done].
    by eapply new_split_row. }
  apply twp_bind. eapply twp_mono.
  { rewrite <- Hgr1. apply (ops_spec chunk op cd od rows (n_outputs cd) ip1 s1).
    - done.
    - by exists cd.
    - by exists od.
    - apply Forall_forall. intros sel Hs. rewrite Forall_forall in Hsels.
      destruct (Hsels sel Hs) as ((vl & Hvl & Hvn) & Hty). split_and!; [|  |done].
      + exists vl. rewrite V1 by auto. done.
      + by rewrite (tensor_of_frame _ _ _ Hb Hf1 Hty).
    - eapply Forall_impl; [exact Hrows|]. intros row [Hlen Hrow]. split; [done|].
      eapply Forall_impl; [exact Hrow|]. intros r [Hr Hge]. split; [done|].
      intros Hs%Hsel_lt. lia. }
  intros ip2 s2 (Hr2 & Hf2 & ops & outs & Hops & Hold2 & Hnew2 & Hndops). cbv beta.
  pose proof Hf2 as (Hle2 & Hgr2 & V2).
  pose proof Hr2 as (Hb2 & (G2 & HG2 & _) & _).
  set (σ := zip (n_outputs cd) outs) in *.
  assert (Hlen : length (n_outputs cd) = length outs) by (by eapply Forall3_length_lr).
  assert (Houts : ∀ out, out ∈ outs → next s1 ≤ out).
  { intros out Ho. by destruct (Forall3_elem_r _ _ _ _ _ Hops Ho) as (? & ? & _ & _ & _ & ? & _). }
  assert (HA : ∀ y o, o ∈ n_outputs cd → apply_subst σ y ≠ o).
  { intros y o Ho E. destruct (apply_subst_zip_cases (n_outputs cd) outs y) as [Ey|Hy].
    - fold σ in Ey. rewrite Ey in E. subst y.
      pose proof (apply_subst_zip_in _ _ _ Hlen Ho) as Hin'. fold σ in Hin'.
      rewrite Ey in Hin'. apply Houts in Hin'. apply Hsel_lt in Ho. lia.
    - fold σ in Hy. rewrite E in Hy. apply Houts in Hy. apply Hsel_lt in Ho. lia. }
  assert (Hv_lt : v < next st) by (apply Bv; eauto).
  assert (HB : ∀ y, apply_subst σ y = v → y = v).
  { intros y E. destruct (apply_subst_zip_cases (n_outputs cd) outs y) as [Ey|Hy].
    - fold σ in Ey. congruence.
    - fold σ in Hy. rewrite E in Hy. apply Houts in Hy. lia. }
  assert (Hop_in : ∀ m md w, next s1 ≤ m → nodes s2 !! m = Some md → w ∈ n_inputs md →
            next st ≤ w).
  { intros m md w Hm Hmd Hw.
    destruct (Forall3_elem_m _ _ _ _ _ Hops (Hnew2 m Hm (mk_is_Some _ _ Hmd)))
      as (sel & out & _ & _ & Hno).
    destruct (new_op_inputs _ _ _ _ _ _ _ _ _ _ Hno Hmd Hw) as (row & Hrow & Hwr).
    rewrite Forall_forall in Hrows. destruct (Hrows row Hrow) as [_ Hr].
    rewrite Forall_forall in Hr. by destruct (Hr w Hwr). }
  assert (Hunused2 : ∀ sel, sel ∈ n_outputs cd → unused s2 sel).
  { intros sel Hs m md Hmd Hin'. destruct (decide (m < next s1)) as [Hlt|Hge].
    - rewrite Hold2 in Hmd by done. destruct (nodes s1 !! m) as [md1|]; [|done].
      injection Hmd as <-. simpl in Hin'. apply list_elem_of_fmap in Hin' as (y & E & _).
      by eapply HA.
    - assert (next st ≤ sel) by (eapply Hop_in; [|done..]; lia).
      apply Hsel_lt in Hs. lia. }
  (* the split goes *)
  apply twp_bind. eapply twp_mono.
  { apply (destroy_spec chunk (subst_inputs σ cd) G2 s2).
    - rewrite Hold2 by (apply Bn1; eauto). by rewrite Hcd1.
    - done.
    - intros o Ho. split; [|by apply Hunused2].
      rewrite V2, V1 by (apply Hsel_lt in Ho; lia).
      rewrite Forall_forall in Hsels. destruct (Hsels o Ho) as ((vl & -> & _) & _). eauto.
    - simpl. rewrite Hcg, <- Hgr1, <- Hgr2. done. }
  intros _ s3 (Hn3 & Hv3 & Hg3 & Hnx3 & Hgr3). cbv beta. simpl in Hv3, Hg3.
  (* the op goes *)
  apply twp_bind. eapply twp_mono.
  { apply (destroy_spec op (subst_inputs σ od)
             (with_nodes (remove_id chunk (g_nodes G2)) G2) s3).
    - rewrite Hn3, lookup_delete_ne by done.
      rewrite Hold2 by (apply Bn1; eauto). by rewrite Hod1.
    - simpl. rewrite Hout. apply NoDup_singleton.
    - simpl. rewrite Hout. intros o ->%list_elem_of_singleton. split.
      + rewrite Hv3, decide_False by done. rewrite V2, V1 by lia. eauto.
      + intros m md Hmd Hin'. rewrite Hn3 in Hmd.
        apply lookup_delete_Some in Hmd as [Hmc Hmd].
        destruct (decide (m < next s1)) as [Hlt|Hge].
        * rewrite Hold2 in Hmd by done. destruct (nodes s1 !! m) as [md1|] eqn:Hmd1; [|done].
          injection Hmd as <-. simpl in Hin'. apply list_elem_of_fmap in Hin' as (y & E & Hy).
          symmetry in E. apply HB in E. subst y.
          destruct (decide (m < next st)) as [Hlt0|Hge0].
          -- rewrite Hn1 in Hmd1 by done.
             destruct (uses_of_elem _ _ _ _ Hmd1 Hy) as (u & Hu & Huser).
             apply Huv in Hu. congruence.
          -- destruct (Forall3_elem_m _ _ _ _ _ Hsp
                         (Hnew1 m ltac:(lia) (mk_is_Some _ _ Hmd1)))
               as (x & row & Hx & _ & (_ & (nd & Hnd' & _ & _ & Hi & _) & _)).
             rewrite Hmd1 in Hnd'. injection Hnd' as <-. rewrite Hi in Hy.
             apply list_elem_of_singleton in Hy. subst x.
             destruct (uses_of_elem _ _ _ _ Hod Hx) as (u & Hu & Huser).
             apply Huv in Hu. congruence.
        * assert (next st ≤ v) by (eapply Hop_in; [|done..]; lia). lia.
    - simpl. rewrite Hog, Hg3, Hcg. apply lookup_insert_eq. }
  intros _ s4 (Hn4 & Hv4 & Hg4 & Hnx4 & Hgr4). cbv beta. simpl in Hv4, Hg4.
  apply twp_ret. split; [done|].
  assert (Hop_lt : op < next st) by (apply Bn; eauto).
  assert (Hchunk_lt : chunk < next st) by (apply Bn; eauto).
  assert (Hnode4 : ∀ n, n ≠ chunk → n ≠ op → nodes s4 !! n = nodes s2 !! n).
  { intros n ? ?. by rewrite Hn4, Hn3, !lookup_delete_ne. }
  assert (Hval4 : ∀ x, next st ≤ x → values s4 !! x = values s2 !! x).
  { intros x Hx. rewrite Hv4, decide_False.
    - rewrite Hv3, decide_False; [done|]. intros Hs%Hsel_lt. lia.
    - rewrite Hout. intros ->%list_elem_of_singleton. lia. }
  exists splits, rows, ops, outs. split_and!.
  - rewrite Hn4, lookup_delete_ne by done. rewrite Hn3. apply lookup_delete_eq.
  - rewrite Hn4. apply lookup_delete_eq.
  - eapply (Forall3_impl_l (λ x, x ∈ n_inputs od)); [by apply Forall_forall | exact Hsp |].
    intros x sp row Hx (Hge & (nd & Hnd' & Hkd & Had & Hid & Hod' & Hgd) & it & Hit & Hrow).
    assert (Hsp_lt : sp < next s1) by (apply Bn1; eauto).
    split_and!; [done | |].
    + exists (subst_inputs σ nd). rewrite Hnode4, Hold2, Hnd' by lia.
      split_and!; try done. simpl. rewrite Hid. simpl. f_equal.
      apply apply_subst_notin. intros Hs%fst_zip_subseteq. by apply (Hx_sel x).
    + exists it. split; [done|]. eapply Forall2_impl; [exact Hrow|].
      intros sel r (Hr & ct & Hct & Hv). split; [done|]. exists ct. split; [done|].
      rewrite Hval4 by done. rewrite V2; [done|]. apply Bv1. eauto.
  - eapply (Forall3_impl_l (λ sel, is_Some (tensor_of st sel))); [|exact Hops|].
    { eapply Forall_impl; [exact Hsels|]. by intros sel (_ & ?). }
    intros sel o' out Hty Hno. apply (new_op_later st s1 s4); [done..|].
    destruct Hno as (Ho' & Hout' & nd & ct & off & Hnd' & Hrest).
    split_and!; [done..|]. exists nd, ct, off.
    rewrite Hnode4 by lia. split; [done|].
    destruct Hrest as (? & ? & ? & ? & ? & ? & ? & Hv). split_and!; try done.
    rewrite Hval4 by lia. done.
  - intros n Hn Hnc Hno. rewrite Hnode4, Hold2 by (done || lia). by rewrite Hn1.
  - done.
Qed.


(** X1.  When [tryToMoveChunk(consumer, producer)] returns, it returns true
    exactly when the pattern of its four checks holds in the state it
    started from: [producer] is an output of a split with one input, the node
    of that input is fusable, the split is the only user of that input, and
    every output of the split is used by [consumer] only.  When it returns
    true, the node that fed the split had exactly one output. *)
Theorem tryToMoveChunk_true_iff consumer producer b st st' :
  tryToMoveChunk consumer producer st = Ok b st' →
  (b = true ↔ chunk_pattern st consumer producer)
  ∧ (b = true → ∃ od, splittee st producer = Some od ∧ length (n_outputs od) = 1).
Proof.
  intros E. pose proof (tryToMoveChunk_checks _ _ _ _ _ E) as H.
  destruct b.
  - destruct H as [Hp Ho]. split; [done|]. by intros _.
  - split; [|done]. split; [done|]. intros Hp. by destruct H.
Qed.

Lemma tryToMoveChunk_true_iff_witness :
  ∃ st', tryToMoveChunk 10 8 (state_after graph_split) = Ok true st'
    ∧ (true = true ↔ chunk_pattern (state_after graph_split) 10 8)
    ∧ (true = true → ∃ od, splittee (state_after graph_split) 8 = Some od
                           ∧ length (n_outputs od) = 1).
Proof.
  eexists. split; [vm_compute; reflexivity|].
  eapply (tryToMoveChunk_true_iff 10 8 true (state_after graph_split)).
  vm_compute. reflexivity.
Defined.

(** X2.  The chunk move itself.  When the pattern holds, the node [op] that
    feeds the split has exactly that one output, the split and [op] belong
    to the graph of the fuser, the outputs of the split and the operands of
    [op] are tensor values and [op] is not the consumer, then
    [tryToMoveChunk] returns true and has rewritten the graph: one new split
    per operand of [op], with the attributes of the old split and one output
    per old output, typed as the operand with the sizes and strides of that
    old output; one new node of the kind and attributes of [op] per output
    of the old split, reading the outputs of the new splits at that offset,
    its output typed as the old output made contiguous; every use of an old
    output replaced by the output of its new node; the old split and [op]
    destroyed.  The new nodes of the kind of [op] are pairwise distinct. *)
Theorem tryToMoveChunk_distributes consumer producer chunk op cd od st :
  chunk_pattern st consumer producer →
  chunk_movable st consumer producer chunk op cd od →
  ∃ st', tryToMoveChunk consumer producer st = Ok true st'
         ∧ chunk_distributed st st' chunk op cd od.
Proof.
  intros Hp Hm.
  destruct (twp_elim _ _ _ (tryToMoveChunk_moves _ _ _ _ _ _ _ Hp Hm))
    as (b & st' & E & -> & Hd).
  eauto.
Qed.

Lemma tryToMoveChunk_distributes_witness :
  let st := state_after graph_split in
  let cd := mkNode ksplit [6] [8; 9] 0 [] 0 in
  let od := mkNode kadd [3; 4] [6] 0 [] 0 in
  chunk_pattern st 10 8 ∧ chunk_movable st 10 8 7 5 cd od
  ∧ ∃ st', tryToMoveChunk 10 8 st = Ok true st' ∧ chunk_distributed st st' 7 5 cd od.
Proof.
  intros st cd od.
  assert (Hu6 : uses_of st 6 = [mkUse 7 0]) by (vm_compute; reflexivity).
  assert (Hu8 : uses_of st 8 = [mkUse 10 0]) by (vm_compute; reflexivity).
  assert (Hu9 : uses_of st 9 = [mkUse 10 1]) by (vm_compute; reflexivity).
  assert (Hp : chunk_pattern st 10 8).
  { exists (mkValue 7 (Some float_cuda)), cd, 6, (mkValue 5 (Some float_cuda)).
    split_and!; try (vm_compute; reflexivity).
    - eexists. vm_compute. reflexivity.
    - intros u. rewrite Hu6. by intros ->%list_elem_of_singleton.
    - intros sel u [->|[->|[]%elem_of_nil]%elem_of_cons]%elem_of_cons.
      + rewrite Hu8. by intros ->%list_elem_of_singleton.
      + rewrite Hu9. by intros ->%list_elem_of_singleton. }
  assert (Hm : chunk_movable st 10 8 7 5 cd od).
  { split_and!; try (vm_compute; reflexivity).
    - apply bounded_check. vm_compute. reflexivity.
    - eexists. split; vm_compute; reflexivity.
    - exists 6, (mkValue 5 (Some float_cuda)). split_and!; vm_compute; reflexivity.
    - exists (mkGraph 2 1 [5; 7; 10] 0). split; [vm_compute; reflexivity|].
      apply list_elem_of_further, list_elem_of_here.
    - apply (bool_decide_unpack _). vm_compute. reflexivity.
    - repeat constructor; try (eexists; split; vm_compute; reflexivity);
        eexists; vm_compute; reflexivity.
    - repeat constructor; eexists; vm_compute; reflexivity.
    - discriminate. }
  exact (conj Hp (conj Hm (tryToMoveChunk_distributes 10 8 7 5 cd od st Hp Hm))).
Defined.

(** X3.  The assertion of [tryToMoveChunk].  When the pattern holds and the
    outputs of the split are live values, but the node that feeds the split
    does not have exactly one output, the call raises the assertion
    [producer_for_chunk_node->outputs().size() == 1]: it neither returns
    false nor rewrites anything. *)
Theorem tryToMoveChunk_asserts consumer producer pv cd od st :
  chunk_pattern st consumer producer →
  values st !! producer = Some pv →
  nodes st !! v_node pv = Some cd →
  Forall (λ sel, is_Some (values st !! sel)) (n_outputs cd) →
  splittee st producer = Some od →
  length (n_outputs od) ≠ 1 →
  tryToMoveChunk consumer producer st
  = Raise (JitAssert "producer_for_chunk_node->outputs().size() == 1").
Proof.
  intros (pv0 & cd0 & v & vv & Hpv0 & Hcd0 & Hk & Hin & Hvv & [sf Hfus] & Huv & Hus)
         Hpv Hcd Hlive Hsp Hlen.
  rewrite Hpv in Hpv0. injection Hpv0 as <-.
  rewrite Hcd in Hcd0. injection Hcd0 as <-.
  unfold splittee in Hsp. rewrite Hpv in Hsp. simpl in Hsp. rewrite Hcd in Hsp.
  simpl in Hsp. rewrite Hin in Hsp. simpl in Hsp. rewrite Hvv in Hsp. simpl in Hsp.
  pose proof (reads_isFusable _ _ _ _ Hfus) as ->.
  unfold tryToMoveChunk.
  rewrite (bind_run _ _ _ _ _ (node_of_Ok _ _ _ Hpv)).
  rewrite (bind_run _ _ _ _ _ (isChunk_Ok _ _ _ Hcd)).
  rewrite Hk, bool_decide_eq_true_2 by done. simpl.
  rewrite (bind_run _ _ _ _ _ (input_Ok _ _ _ _ Hcd Hin)).
  rewrite (bind_run _ _ _ _ _ (node_of_Ok _ _ _ Hvv)).
  rewrite (bind_run _ _ _ _ _ Hfus). simpl.
  rewrite (bind_run _ _ _ _ _ (allUsersAreThisConsumer_Ok (v_node pv) v st (mk_is_Some _ _ Hvv))).
  assert (forallb (λ u, bool_decide (user u = v_node pv)) (uses_of st v) = true) as ->.
  { apply forallb_forall. intros u Hu. apply bool_decide_eq_true.
    by apply Huv, list_elem_of_In. }
  simpl.
  rewrite (bind_run _ _ _ _ _ (outputs_Ok _ _ _ Hcd)).
  rewrite (bind_run _ _ _ _ _ (all_uses_in_true consumer _ st Hlive Hus)). simpl.
  rewrite (bind_run _ _ _ _ _ (node_of_Ok _ _ _ Hvv)).
  rewrite (bind_run _ _ _ _ _ (outputs_Ok _ _ _ Hsp)).
  by rewrite bool_decide_eq_false_2.
Qed.

Lemma tryToMoveChunk_asserts_witness :
  let st := state_after graph_split_of_group in
  chunk_pattern st 12 10
  ∧ tryToMoveChunk 12 10 st
    = Raise (JitAssert "producer_for_chunk_node->outputs().size() == 1").
Proof.
  intros st.
  assert (Hu21 : uses_of st 21 = [mkUse 9 0]) by (vm_compute; reflexivity).
  assert (Hu10 : uses_of st 10 = [mkUse 12 0]) by (vm_compute; reflexivity).
  assert (Hu11 : uses_of st 11 = [mkUse 12 1]) by (vm_compute; reflexivity).
  assert (Hp : chunk_pattern st 12 10).
  { exists (mkValue 9 (Some float_cuda)),
           (mkNode ksplit [21] [10; 11] 0 [] 0), 21, (mkValue 14 (Some float_cuda)).
    split_and!; try (vm_compute; reflexivity).
    - eexists. vm_compute. reflexivity.
    - intros u. rewrite Hu21. by intros ->%list_elem_of_singleton.
    - intros sel u [->|[->|[]%elem_of_nil]%elem_of_cons]%elem_of_cons.
      + rewrite Hu10. by intros ->%list_elem_of_singleton.
      + rewrite Hu11. by intros ->%list_elem_of_singleton. }
  split; [exact Hp|].
  eapply (tryToMoveChunk_asserts 12 10 (mkValue 9 (Some float_cuda))
            (mkNode ksplit [21] [10; 11] 0 [] 0)); [exact Hp | ..].
  - vm_compute. reflexivity.
  - vm_compute. reflexivity.
  - repeat constructor; eexists; vm_compute; reflexivity.
  - vm_compute. reflexivity.
  - vm_compute. lia.
Defined.



(** ** The classifier on a heap *)

Lemma hasFloatType_dangling v st :
  values st !! v = None → hasFloatType v st = Raise (NullDeref "Value").
Proof.
  intros H. unfold hasFloatType, hasType, bind, getValue. by rewrite H.
Qed.

Lemma float_typed_tensor st v :
  float_typed st v = true → ∃ ty, tensor_of st v = Some ty ∧ scalarType ty = kFloat.
Proof.
  unfold float_typed, tensor_of. destruct (values st !! v) as [vl|]; [|done]. simpl.
  destruct (v_type vl) as [[ty|tag]|]; simpl; try done.
  intros H%bool_decide_eq_true. eauto.
Qed.

Lemma all_hasFloatType_cases l st :
  all_hasFloatType l st = Ok (forallb (float_typed st) l) st
  ∨ (∃ e, all_hasFloatType l st = Raise e) ∧ forallb (float_typed st) l = false.
Proof.
  induction l as [|w l IH]; [by left|]. simpl.
  destruct (values st !! w) as [vl|] eqn:Hw.
  - rewrite (bind_run _ _ _ _ _ (hasFloatType_value _ _ (mk_is_Some _ _ Hw))).
    destruct (float_typed st w); simpl; [exact IH | by left].
  - right. unfold bind. rewrite (hasFloatType_dangling _ _ Hw).
    split; [eauto|]. unfold float_typed. by rewrite Hw.
Qed.

Lemma allFloatIO_cases n nd st :
  nodes st !! n = Some nd →
  allFloatIO n st = Ok (forallb (float_typed st) (n_outputs nd ++ n_inputs nd)) st
  ∨ (∃ e, allFloatIO n st = Raise e)
    ∧ forallb (float_typed st) (n_outputs nd ++ n_inputs nd) = false.
Proof.
  intros H. unfold allFloatIO. rewrite (bind_run _ _ _ _ _ (outputs_Ok _ _ _ H)).
  rewrite forallb_app.
  destruct (all_hasFloatType_cases (n_outputs nd) st) as [E|[[e E] F]].
  - rewrite (bind_run _ _ _ _ _ E).
    destruct (forallb (float_typed st) (n_outputs nd)); simpl; [|by left].
    rewrite (bind_run _ _ _ _ _ (inputs_Ok _ _ _ H)).
    apply all_hasFloatType_cases.
  - right. unfold bind at 1. rewrite E, F. eauto.
Qed.

Lemma type_tensor v ty st :
  tensor_of st v = Some ty →
  ∃ t, type v st = Ok t st ∧ cast_TensorType t = Some ty.
Proof.
  unfold tensor_of, type, bind, getValue. destruct (values st !! v) as [vl|]; [|done].
  simpl. destruct (v_type vl) as [t|]; [|done]. simpl. eauto.
Qed.

Lemma expect_TensorType_Ok t ty st :
  cast_TensorType t = Some ty → expect_TensorType t st = Ok ty st.
Proof. unfold expect_TensorType. by intros ->. Qed.

Lemma output_Ok n nd o st :
  nodes st !! n = Some nd → n_outputs nd = [o] → output n st = Ok o st.
Proof.
  intros H Ho. unfold output. rewrite (bind_run _ _ _ _ _ (outputs_Ok _ _ _ H)).
  by rewrite Ho.
Qed.

Lemma isCuda_value n nd o ty st :
  nodes st !! n = Some nd → n_outputs nd = [o] → tensor_of st o = Some ty →
  isCuda n st = Ok (bool_decide (device ty ≠ (-1)%Z)) st.
Proof.
  intros H Ho Hty. unfold isCuda.
  rewrite (bind_run _ _ _ _ _ (output_Ok _ _ _ _ H Ho)).
  destruct (type_tensor _ _ _ Hty) as (t & Et & Hc).
  rewrite (bind_run _ _ _ _ _ Et).
  by rewrite (bind_run _ _ _ _ _ (expect_TensorType_Ok _ _ _ Hc)).
Qed.

Lemma isCuda_arity n nd st :
  nodes st !! n = Some nd → length (n_outputs nd) ≠ 1 →
  isCuda n st = Raise (JitAssert "outputs_.size() == 1").
Proof.
  intros H Hl. unfold isCuda, output, bind at 1 2.
  rewrite (outputs_Ok _ _ _ H).
  by destruct (n_outputs nd) as [|? [|? ?]].
Qed.

(** X4.  [isFusable(node)] returns true exactly when the node is a fusion
    group, or it is a simple map all of whose outputs and inputs are typed
    as float tensors and whose single output lives on a device
    ([device() != -1]). *)
Theorem isFusable_true_iff n nd st :
  nodes st !! n = Some nd →
  returns_true (isFusable n st) ↔
    n_kind nd = kFusionGroup
    ∨ (simple_map nd = true
       ∧ forallb (float_typed st) (n_outputs nd ++ n_inputs nd) = true
       ∧ ∃ d, output_device st nd = Some d ∧ d ≠ (-1)%Z).
Proof.
  intros H. unfold returns_true, isFusable, isFusable_with.
  rewrite (bind_run _ _ _ _ _ (kind_Ok _ _ _ H)).
  case_bool_decide as Hk.
  { split; [by left | eauto]. }
  rewrite (bind_run _ _ _ _ _ (isSimpleMap_value _ _ _ H)). fold (simple_map nd).
  destruct (simple_map nd); simpl.
  2: { split; [by intros [? ?] | intros [?|[? _]]; done]. }
  destruct (allFloatIO_cases _ _ _ H) as [E|[[e E] F]].
  2: { unfold bind. rewrite E, F. split; [by intros [? ?] | intros [?|(_ & ? & _)]; done]. }
  rewrite (bind_run _ _ _ _ _ E).
  destruct (forallb (float_typed st) (n_outputs nd ++ n_inputs nd)) eqn:F; simpl.
  2: { split; [by intros [? ?] | intros [?|(_ & ? & _)]; done]. }
  unfold output_device.
  destruct (n_outputs nd) as [|o [|o' outs]] eqn:Ho.
  - rewrite (isCuda_arity _ _ _ H) by (rewrite Ho; simpl; lia).
    split; [by intros [? ?] | intros [?|(_ & _ & d & ? & _)]; done].
  - simpl in F. apply andb_true_iff in F as [Fo _].
    destruct (float_typed_tensor _ _ Fo) as (ty & Hty & _).
    rewrite (isCuda_value _ _ _ _ _ H Ho Hty), Hty. simpl.
    split.
    + intros [st' [= Hd]]. right. split_and!; [done..|].
      exists (device ty). split; [done|]. by apply bool_decide_eq_true in Hd.
    + intros [?|(_ & _ & d & [= <-] & Hd)]; [done|].
      rewrite bool_decide_eq_true_2 by done. eauto.
  - rewrite (isCuda_arity _ _ _ H) by (rewrite Ho; simpl; lia).
    split; [by intros [? ?] | intros [?|(_ & _ & d & ? & _)]; done].
Qed.

Lemma isFusable_true_iff_witness :
  let st := state_after graph_S3 in
  nodes st !! 6 = Some (mkNode kadd [3; 4] [7] 0 [] 0)
  ∧ (returns_true (isFusable 6 st) ↔
      kadd = kFusionGroup
      ∨ (simple_map (mkNode kadd [3; 4] [7] 0 [] 0) = true
         ∧ forallb (float_typed st) ([7] ++ [3; 4]) = true
         ∧ ∃ d, output_device st (mkNode kadd [3; 4] [7] 0 [] 0) = Some d ∧ d ≠ (-1)%Z)).
Proof.
  intros st.
  assert (H : nodes st !! 6 = Some (mkNode kadd [3; 4] [7] 0 [] 0))
    by (vm_compute; reflexivity).
  split; [exact H|]. exact (isFusable_true_iff 6 _ st H).
Defined.

(** X5.  [isFusable] can raise: on a simple map that is not a fusion group,
    whose outputs and inputs are all float tensors, but which does not have
    exactly one output (none, or several), the device test calls
    [node->output()] and its assertion fires. *)
Theorem isFusable_raises n nd st :
  nodes st !! n = Some nd →
  n_kind nd ≠ kFusionGroup →
  simple_map nd = true →
  forallb (float_typed st) (n_outputs nd ++ n_inputs nd) = true →
  length (n_outputs nd) ≠ 1 →
  isFusable n st = Raise (JitAssert "outputs_.size() == 1").
Proof.
  intros H Hk Hs Hf Hl. unfold isFusable, isFusable_with.
  rewrite (bind_run _ _ _ _ _ (kind_Ok _ _ _ H)).
  rewrite (bool_decide_eq_false_2 _ Hk).
  rewrite (bind_run _ _ _ _ _ (isSimpleMap_value _ _ _ H)). fold (simple_map nd).
  rewrite Hs. simpl.
  destruct (allFloatIO_cases _ _ _ H) as [E|[_ F]]; [|congruence].
  rewrite (bind_run _ _ _ _ _ E), Hf. simpl.
  by eapply isCuda_arity.
Qed.

Lemma isFusable_raises_witness :
  isFusable 5 (state_after graph_no_output) = Raise (JitAssert "outputs_.size() == 1").
Proof.
  apply (isFusable_raises 5 (mkNode kadd [3; 4] [] 0 [] 0)); vm_compute; (reflexivity || done).
Defined.

Lemma all_sizes_are_value sz ins tys st :
  Forall2 (λ i ty, tensor_of st i = Some ty) ins tys →
  all_sizes_are sz ins st = Ok (forallb (λ ty, bool_decide (sizes ty = sz)) tys) st.
Proof.
  induction 1 as [|i ty ins tys Hty _ IH]; [reflexivity|]. simpl.
  destruct (type_tensor _ _ _ Hty) as (t & Et & Hc).
  rewrite (bind_run _ _ _ _ _ Et).
  rewrite (bind_run _ _ _ _ _ (expect_TensorType_Ok _ _ _ Hc)).
  destruct (decide (sizes ty = sz)) as [Hs|Hs].
  - rewrite bool_decide_eq_false_2 by (intros ?; congruence).
    rewrite (bool_decide_eq_true_2 _ Hs). exact IH.
  - rewrite bool_decide_eq_true_2 by congruence.
    by rewrite (bool_decide_eq_false_2 _ Hs).
Qed.

Lemma isFusable_cat n nd st :
  nodes st !! n = Some nd → n_kind nd = kcat → isFusable n st = Ok false st.
Proof.
  intros H Hk. unfold isFusable, isFusable_with.
  rewrite (bind_run _ _ _ _ _ (kind_Ok _ _ _ H)), Hk.
  rewrite bool_decide_eq_false_2 by done.
  rewrite (bind_run _ _ _ _ _ (isSimpleMap_value _ _ _ H)), Hk.
  reflexivity.
Qed.

Lemma input_at_Ok n nd i v st :
  nodes st !! n = Some nd → n_inputs nd !! i = Some v → input_at n i st = Ok v st.
Proof.
  intros H Hi. unfold input_at. rewrite (bind_run _ _ _ _ _ (inputs_Ok _ _ _ H)).
  by rewrite Hi.
Qed.

(** X6.  A concatenation as the exit of a group.  On a [cat] node whose
    output and inputs are tensors, [isFusableAsExitNode] returns true
    exactly when the output lives on a device and every input has the sizes
    of the first input. *)
Theorem isFusableAsExitNode_cat n nd o oty ty0 tys st :
  nodes st !! n = Some nd →
  n_kind nd = kcat →
  n_outputs nd = [o] →
  tensor_of st o = Some oty →
  Forall2 (λ i ty, tensor_of st i = Some ty) (n_inputs nd) (ty0 :: tys) →
  isFusableAsExitNode n st
  = Ok (bool_decide (device oty ≠ (-1)%Z)
        && forallb (λ ty, bool_decide (sizes ty = sizes ty0)) tys) st.
Proof.
  intros H Hk Ho Hoty Hins. unfold isFusableAsExitNode.
  rewrite (bind_run _ _ _ _ _ (isFusable_cat _ _ _ H Hk)).
  rewrite (bind_run _ _ _ _ _ (kind_Ok _ _ _ H)), Hk.
  rewrite bool_decide_eq_false_2 by (intros ?; done).
  rewrite (bind_run _ _ _ _ _ (isCuda_value _ _ _ _ _ H Ho Hoty)).
  destruct (bool_decide (device oty ≠ (-1)%Z)); simpl; [|reflexivity].
  destruct (n_inputs nd) as [|i0 ins] eqn:Hi; [by apply Forall2_nil_cons_inv in Hins|].
  pose proof Hins as [Hty0 _]%Forall2_cons.
  rewrite (bind_run _ _ _ _ _ (input_at_Ok n nd 0 i0 st H ltac:(by rewrite Hi))).
  destruct (type_tensor _ _ _ Hty0) as (t & Et & Hc).
  rewrite (bind_run _ _ _ _ _ Et).
  rewrite (bind_run _ _ _ _ _ (expect_TensorType_Ok _ _ _ Hc)).
  rewrite (bind_run _ _ _ _ _ (inputs_Ok _ _ _ H)), Hi.
  rewrite (all_sizes_are_value _ _ _ _ Hins). simpl.
  by rewrite bool_decide_eq_true_2.
Qed.

Lemma isFusableAsExitNode_cat_witness :
  isFusableAsExitNode 5 (state_after graph_cat) = Ok false (state_after graph_cat).
Proof.
  apply (isFusableAsExitNode_cat 5 (mkNode kcat [3; 4] [6] 0 [] 0) 6
           (mkTensorType kFloat 0 [2%Z; 2%Z] [2%Z; 1%Z])
           (mkTensorType kFloat 0 [2%Z; 2%Z] [2%Z; 1%Z])
           [mkTensorType kFloat 0 [3%Z; 2%Z] [2%Z; 1%Z]]).
  - vm_compute; reflexivity.
  - reflexivity.
  - reflexivity.
  - vm_compute; reflexivity.
  - repeat constructor.
Defined.

(** X7.  A [cat] node on a device that has no inputs makes
    [isFusableAsExitNode] raise: the sizes to compare with are read from
    [node->input(0)], which is out of range. *)
Theorem isFusableAsExitNode_cat_empty n nd o oty st :
  nodes st !! n = Some nd →
  n_kind nd = kcat →
  n_outputs nd = [o] →
  tensor_of st o = Some oty →
  device oty ≠ (-1)%Z →
  n_inputs nd = [] →
  isFusableAsExitNode n st = Raise (OutOfRange "inputs_.at(i)").
Proof.
  intros H Hk Ho Hoty Hd Hi. unfold isFusableAsExitNode.
  rewrite (bind_run _ _ _ _ _ (isFusable_cat _ _ _ H Hk)).
  rewrite (bind_run _ _ _ _ _ (kind_Ok _ _ _ H)), Hk.
  rewrite bool_decide_eq_false_2 by (intros ?; done).
  rewrite (bind_run _ _ _ _ _ (isCuda_value _ _ _ _ _ H Ho Hoty)).
  rewrite (bool_decide_eq_true_2 _ Hd). simpl.
  unfold input_at, bind at 1 2. by rewrite (inputs_Ok _ _ _ H), Hi.
Qed.

Lemma isFusableAsExitNode_cat_empty_witness :
  isFusableAsExitNode 3 (state_after graph_cat_empty) = Raise (OutOfRange "inputs_.at(i)").
Proof.
  apply (isFusableAsExitNode_cat_empty 3 (mkNode kcat [] [4] 0 [] 0) 4
           (mkTensorType kFloat 0 [2%Z; 2%Z] [2%Z; 1%Z])).
  - vm_compute; reflexivity.
  - reflexivity.
  - reflexivity.
  - vm_compute; reflexivity.
  - done.
  - reflexivity.
Defined.

(** ** The two tests on the uses of a producer *)

Lemma allUsersAreThisConsumerOrOccurAfterIt_loop_mine c us st :
  forallb (λ u, bool_decide (user u = c)) us = true →
  allUsersAreThisConsumerOrOccurAfterIt_loop c us st = Ok true st.
Proof.
  induction us as [|u us IH]; [done|]. simpl.
  intros [Hu Hus]%andb_true_iff. apply bool_decide_eq_true in Hu.
  rewrite bool_decide_eq_false_2 by (intros ?; done). by apply IH.
Qed.

(** X8.  The strict test implies the lax one, and without a side effect:
    when [allUsersAreThisConsumer(consumer, producer)] returns true, so does
    [allUsersAreThisConsumerOrOccurAfterIt(consumer, producer)], and it
    leaves the fuser as it was: [topological_index] is not read, so no key
    is inserted into it. *)
Theorem only_user_occurs_after consumer producer st st' :
  allUsersAreThisConsumer consumer producer st = Ok true st' →
  st' = st
  ∧ allUsersAreThisConsumerOrOccurAfterIt consumer producer st = Ok true st.
Proof.
  intros E. pose proof (reads_allUsersAreThisConsumer _ _ _ _ _ E) as ->.
  split; [done|].
  unfold allUsersAreThisConsumer in E. inv_bind E as us s Eu.
  pose proof (reads_uses _ _ _ _ Eu) as ->.
  apply ret_Ok in E as [E _].
  unfold allUsersAreThisConsumerOrOccurAfterIt.
  rewrite (bind_run _ _ _ _ _ Eu).
  by apply allUsersAreThisConsumerOrOccurAfterIt_loop_mine.
Qed.

Lemma only_user_occurs_after_witness :
  let st := state_after graph_split in
  allUsersAreThisConsumer 7 6 st = Ok true st
  ∧ allUsersAreThisConsumerOrOccurAfterIt 7 6 st = Ok true st.
Proof.
  intros st.
  assert (E : allUsersAreThisConsumer 7 6 st = Ok true st) by (vm_compute; reflexivity).
  split; [exact E|]. exact (proj2 (only_user_occurs_after 7 6 st st E)).
Defined.

(** ** Insertion and the topological index *)

Lemma insert_after_split n m l l' :
  insert_after n m l = Some l' →
  ∃ l1 l2, l = l1 ++ m :: l2 ∧ (m ∉ l1) ∧ l' = l1 ++ m :: n :: l2.
Proof.
  revert l'. induction l as [|x l IH]; intros l' H; simpl in H; [done|].
  case_decide as Hx.
  - injection H as <-. subst x. exists [], l. split_and!; [done | apply not_elem_of_nil | done].
  - destruct (insert_after n m l) as [l0|] eqn:E; [|done]. injection H as <-.
    destruct (IH _ eq_refl) as (l1 & l2 & -> & Hm & ->).
    exists (x :: l1), l2. split_and!; [done | | done].
    intros [?|?]%elem_of_cons; [congruence | done].
Qed.



(** ** The numbering of [run] *)

Lemma number_from_spec l i st :
  NoDup l →
  ∃ st', number_from i l st = Ok (i + length l) st'
    ∧ nodes st' = nodes st ∧ values st' = values st ∧ graphs st' = graphs st
    ∧ next st' = next st ∧ graph st' = graph st
    ∧ (∀ j n, l !! j = Some n → topological_index st' !! n = Some (i + j))
    ∧ (∀ n, n ∉ l → topological_index st' !! n = topological_index st !! n).
Proof.
  revert i st. induction l as [|c l IH]; intros i st Hnd; simpl.
  - exists st. split_and!; try done. f_equal. lia.
  - apply NoDup_cons in Hnd as [Hc Hnd].
    destruct (IH (S i) (set_index <[c := i]> st) Hnd)
      as (st' & E & Hn & Hv & Hg & Hx & Hgr & Hin & Hout).
    exists st'. unfold index_set, bind, modify. rewrite E.
    split_and!; try done.
    + f_equal. lia.
    + intros [|j] n Hj; simpl in Hj.
      * injection Hj as <-. rewrite Hout by done. simpl.
        rewrite lookup_insert_eq. f_equal. lia.
      * rewrite (Hin _ _ Hj). f_equal. lia.
    + intros n [Hnc Hnl]%not_elem_of_cons. rewrite Hout by done. simpl.
      by rewrite lookup_insert_ne.
Qed.

Lemma number_params_spec ps st :
  Forall (λ p, is_Some (values st !! p)) ps →
  ∃ st', forM ps (λ p, let! n := node_of p in index_set n 0) st = Ok tt st'
    ∧ nodes st' = nodes st ∧ values st' = values st ∧ graphs st' = graphs st
    ∧ next st' = next st ∧ graph st' = graph st
    ∧ ∀ n, topological_index st' !! n
           = if existsb (λ p, match values st !! p with
                              | Some vl => bool_decide (v_node vl = n)
                              | None => false
                              end) ps
             then Some 0 else topological_index st !! n.
Proof.
  revert st. induction ps as [|p ps IH]; intros st Hl; simpl.
  - exists st. by split_and!.
  - apply Forall_cons in Hl as [[vl Hp] Hl].
    destruct (IH (set_index <[v_node vl := 0]> st) Hl)
      as (st' & E & Hn & Hv & Hg & Hx & Hgr & Hin).
    assert (Hb : (let! n := node_of p in index_set n 0) st
                 = Ok tt (set_index <[v_node vl := 0]> st)).
    { by rewrite (bind_run _ _ _ _ _ (node_of_Ok _ _ _ Hp)). }
    exists st'. rewrite (bind_run _ _ _ _ _ Hb). split_and!; try done.
    intros n. rewrite Hin, Hp. simpl.
    destruct (existsb _ ps); [by rewrite orb_true_r|]. rewrite orb_false_r.
    case_bool_decide as Hvn.
    + subst n. by rewrite lookup_insert_eq.
    + by rewrite lookup_insert_ne.
Qed.

(** X10.  The initial numbering of [run].  On a graph whose node list has no
    repetition and does not contain the return node, [run] starts its
    sweeps from a fuser in which the [j]-th node of the list (from 0) has
    index [j + 1], the return node has the index after the last node, the
    node of every graph input has index 0 (unless it is in the node list or
    is the return node), every other key of [topological_index] is as
    before, and the graph itself is untouched. *)
Theorem run_numbers fuel st G pn :
  graphs st !! graph st = Some G →
  nodes st !! g_param G = Some pn →
  Forall (λ p, is_Some (values st !! p)) (n_outputs pn) →
  NoDup (g_nodes G) →
  g_return G ∉ g_nodes G →
  ∃ st1, run fuel st = run_loop fuel st1
    ∧ nodes st1 = nodes st ∧ values st1 = values st ∧ graphs st1 = graphs st
    ∧ next st1 = next st ∧ graph st1 = graph st
    ∧ (∀ j n, g_nodes G !! j = Some n → topological_index st1 !! n = Some (S j))
    ∧ topological_index st1 !! g_return G = Some (S (length (g_nodes G)))
    ∧ (∀ p vl, p ∈ n_outputs pn → values st !! p = Some vl →
         v_node vl ∉ g_nodes G → v_node vl ≠ g_return G →
         topological_index st1 !! v_node vl = Some 0)
    ∧ (∀ n, n ∉ g_nodes G → n ≠ g_return G →
         (∀ p vl, p ∈ n_outputs pn → values st !! p = Some vl → v_node vl ≠ n) →
         topological_index st1 !! n = topological_index st !! n).
Proof.
  intros HG Hpn Hps Hnd Hret.
  destruct (number_params_spec _ _ Hps) as (sa & Ea & Hna & Hva & Hga & Hxa & Hgra & Hia).
  destruct (number_from_spec (g_nodes G) 1 sa Hnd)
    as (sb & Eb & Hnb & Hvb & Hgb & Hxb & Hgrb & Hin & Hout).
  exists (set_index <[g_return G := 1 + length (g_nodes G)]> sb).
  split.
  { unfold run, this_graph. unfold bind at 1.
    assert (Ei : graph_inputs (graph st) st = Ok (n_outputs pn) st).
    { unfold graph_inputs. rewrite (bind_run _ _ _ _ _ (getGraph_Ok _ _ _ HG)).
      by apply outputs_Ok. }
    rewrite (bind_run _ _ _ _ _ Ei), (bind_run _ _ _ _ _ Ea).
    assert (HGa : graphs sa !! graph st = Some G) by (by rewrite Hga).
    assert (En : graph_nodes (graph st) sa = Ok (g_nodes G) sa).
    { unfold graph_nodes. by rewrite (bind_run _ _ _ _ _ (getGraph_Ok _ _ _ HGa)). }
    rewrite (bind_run _ _ _ _ _ En), (bind_run _ _ _ _ _ Eb).
    assert (HGb : graphs sb !! graph st = Some G) by (by rewrite Hgb).
    assert (Er : return_node (graph st) sb = Ok (g_return G) sb).
    { unfold return_node. by rewrite (bind_run _ _ _ _ _ (getGraph_Ok _ _ _ HGb)). }
    rewrite (bind_run _ _ _ _ _ Er). reflexivity. }
  simpl. split_and!; try congruence.
  - intros j n Hj. rewrite lookup_insert_ne.
    + by rewrite (Hin _ _ Hj).
    + intros <-. apply Hret. by eapply list_elem_of_lookup_2.
  - by rewrite lookup_insert_eq.
  - intros p vl Hp Hvl Hnl Hnr.
    rewrite lookup_insert_ne by done. rewrite Hout by done. rewrite Hia.
    assert (existsb (λ p, match values st !! p with
                          | Some vl0 => bool_decide (v_node vl0 = v_node vl)
                          | None => false
                          end) (n_outputs pn) = true) as ->; [|done].
    apply existsb_exists. exists p. split; [by apply list_elem_of_In|].
    rewrite Hvl. by apply bool_decide_eq_true.
  - intros n Hnl Hnr Hnp.
    rewrite lookup_insert_ne by done. rewrite Hout by done. rewrite Hia.
    assert (existsb (λ p, match values st !! p with
                          | Some vl0 => bool_decide (v_node vl0 = n)
                          | None => false
                          end) (n_outputs pn) = false) as ->; [|done].
    apply not_true_is_false. intros (p & Hp & Hm)%existsb_exists.
    destruct (values st !! p) as [vl|] eqn:Hvl; [|done].
    apply bool_decide_eq_true in Hm. eapply Hnp; [by apply list_elem_of_In | done..].
Qed.

Lemma run_numbers_witness :
  let st := state_after graph_split in
  ∃ st1, run 3 st = run_loop 3 st1
    ∧ topological_index st1 !! 5 = Some 1
    ∧ topological_index st1 !! 7 = Some 2
    ∧ topological_index st1 !! 10 = Some 3
    ∧ topological_index st1 !! 1 = Some 4
    ∧ topological_index st1 !! 2 = Some 0.
Proof.
  intros st.
  destruct (run_numbers 3 st (mkGraph 2 1 [5; 7; 10] 0) (mkNode kParam [] [3; 4] 0 [] 0))
    as (st1 & E & _ & _ & _ & _ & _ & Hin & Hr & Hp & _).
  - vm_compute; reflexivity.
  - vm_compute; reflexivity.
  - repeat constructor; eexists; vm_compute; reflexivity.
  - apply (bool_decide_unpack _). vm_compute. reflexivity.
  - apply (bool_decide_unpack _). vm_compute. reflexivity.
  - exists st1. split_and!; [exact E | by apply (Hin 0) | by apply (Hin 1) | by apply (Hin 2)
                            | exact Hr | ].
    apply (Hp 3 (mkValue 2 (Some float_cuda))).
    + apply list_elem_of_here.
    + vm_compute; reflexivity.
    + apply (bool_decide_unpack _). vm_compute. reflexivity.
    + done.
Defined.

(** ** The order in which [scanNode] visits the producers *)

Lemma insert_desc_perm x l : insert_desc x l ≡ₚ x :: l.
Proof.
  induction l as [|y l IH]; simpl; [done|].
  case_bool_decide; [done|]. rewrite IH. apply perm_swap.
Qed.

Lemma insert_desc_sorted x l :
  StronglySorted (λ a b : nat * nat, b.1 ≤ a.1) l →
  StronglySorted (λ a b : nat * nat, b.1 ≤ a.1) (insert_desc x l).
Proof.
  induction 1 as [|y l Hs IH Hy]; simpl.
  - repeat constructor.
  - case_bool_decide as Hle.
    + constructor; [by constructor|]. constructor; [done|].
      eapply Forall_impl; [exact Hy|]. simpl. intros z ?. lia.
    + constructor; [exact IH|]. rewrite insert_desc_perm.
      constructor; [simpl; lia | exact Hy].
Qed.




(** ** A scan that reports no change *)

Lemma scanNode_producers_false c ps st it st' :
  scanNode_producers c ps st = Ok (it, false) st' →
  same_reading st st' ∧ reverse_next c st' = Ok it st'.
Proof.
  revert st. induction ps as [|p ps IH]; intros st E; simpl in E.
  - inv_bind E as x s Ex. pose proof (reads_reverse_next _ _ _ _ Ex) as ->.
    apply ret_Ok in E as [[= ->] <-]. done.
  - inv_bind E as ps' s Ex. apply reads_value_stage in Ex as ->.
    inv_bind E as cs s Ex. apply reads_stage in Ex as ->.
    case_bool_decide; [by apply IH|].
    inv_bind E as moved s Em. destruct moved.
    { by apply ret_Ok in E as [[=] _]. }
    apply tryToMoveChunk_false_same in Em as ->.
    inv_bind E as sf s2 Ef. destruct sf.
    { inv_bind E as g s3 Eg. by apply ret_Ok in E as [[=] _]. }
    destruct (IH _ E) as [HR Hit]. split; [|done].
    etrans; [|exact HR]. exact (same_reading_shouldFuse _ _ _ _ _ Ef).
Qed.

Lemma with_stage_back G s : with_stage (g_stage G) (with_stage s G) = G.
Proof. by destruct G. Qed.

Lemma reverse_next_stage n g G x s it s' :
  graphs s !! g = Some G →
  reverse_next n (set_graphs <[g := with_stage x G]> s) = Ok it s' →
  reverse_next n s = Ok it s.
Proof.
  intros HG E. unfold reverse_next in *.
  inv_bind E as nd s1 En. apply getNode_inv in En as [Hn ->]. simpl in Hn.
  rewrite (bind_run _ _ _ _ _ (getNode_Ok _ _ _ Hn)).
  inv_bind E as G' s1 Eg. apply getGraph_inv in Eg as [HG' ->]. simpl in HG'.
  destruct (decide (n_graph nd = g)) as [Heq|Hne].
  - rewrite Heq in *. rewrite lookup_insert_eq in HG'. injection HG' as <-.
    rewrite (bind_run _ _ _ _ _ (getGraph_Ok _ _ _ HG)). simpl in E.
    destruct (prev_from (g_return G) n (g_nodes G)); [|done]. by injection E as ->.
  - rewrite lookup_insert_ne in HG' by done.
    rewrite (bind_run _ _ _ _ _ (getGraph_Ok _ _ _ HG')).
    destruct (prev_from (g_return G') n (g_nodes G')); [|done]. by injection E as ->.
Qed.

Lemma same_reading_reverse_next n st st' it s :
  same_reading st st' → reverse_next n st' = Ok it s → reverse_next n st = Ok it st.
Proof.
  intros (Hn & _ & Hg & _) E. unfold reverse_next in *.
  inv_bind E as nd s1 En. apply getNode_inv in En as [Hnd ->]. rewrite Hn in Hnd.
  rewrite (bind_run _ _ _ _ _ (getNode_Ok _ _ _ Hnd)).
  inv_bind E as G' s1 Eg. apply getGraph_inv in Eg as [HG' ->]. rewrite Hg in HG'.
  rewrite (bind_run _ _ _ _ _ (getGraph_Ok _ _ _ HG')).
  destruct (prev_from (g_return G') n (g_nodes G')); [|done]. by injection E as ->.
Qed.

(** X12.  A scan that reports no change made none.  When
    [scanNode(consumer)] returns [false] as its second component, the
    nodes, values and graphs (the stage set for the duration of the call
    included) are what they were, [topological_index] reads the same at
    every node (keys may have been inserted with value zero), and the
    iterator returned is the one before [consumer] in the node list. *)
Theorem scanNode_unchanged consumer st it st' :
  scanNode consumer st = Ok (it, false) st' →
  same_reading st st' ∧ reverse_next consumer st = Ok it st.
Proof.
  intros E. unfold scanNode in E.
  inv_bind E as g0 s Eg. injection Eg as <- <-.
  inv_bind E as old s Eo. pose proof (reads_graph_stage _ _ _ _ Eo) as ->.
  unfold graph_stage in Eo. inv_bind Eo as G0 s Eg. apply getGraph_inv in Eg as [HG0 ->].
  apply ret_Ok in Eo as [<- _].
  inv_bind E as cs s Es. apply reads_stage in Es as ->.
  inv_bind E as u sa Ea. destruct u.
  apply setStage_inv in Ea as (G0' & HG0' & ->).
  rewrite HG0 in HG0'. injection HG0' as <-.
  inv_bind E as r sb Eb. inv_bind E as u sz Ez. destruct u.
  apply ret_Ok in E as [-> <-].
  apply setStage_inv in Ez as (Gz & HGz & ->).
  assert (Hmid : same_reading (set_graphs <[graph st := with_stage cs G0]> st) sb
                 ∧ reverse_next consumer sb = Ok it sb).
  { inv_bind Eb as e s Ee. apply reads_isFusableAsExitNode in Ee as ->.
    destruct e.
    - inv_bind Eb as ins s Ei. apply reads_inputs in Ei as ->.
      inv_bind Eb as u s Ef.
      match type of Ef with
      | ?m _ = _ =>
          assert (Hrf : reads m) by (apply reads_forM; intros ?; solve_reads)
      end.
      apply Hrf in Ef as ->. clear Hrf.
      inv_bind Eb as keyed sc Ek.
      assert (Hrc : same_reading (set_graphs <[graph st := with_stage cs G0]> st) sc).
      { revert Ek. generalize (set_graphs <[graph st := with_stage cs G0]> st).
        intros s0 Ek. revert Ek. apply (steps_mapM same_reading). intros x. solve_steps. }
      destruct (scanNode_producers_false _ _ _ _ _ Eb) as [HR Hit].
      split; [by etrans | done].
    - inv_bind Eb as x s Ex. pose proof (reads_reverse_next _ _ _ _ Ex) as ->.
      apply ret_Ok in Eb as [[= ->] <-]. done. }
  destruct Hmid as [HR Hit].
  pose proof HR as (Hn & Hv & Hg & Hx & Hgr & Hi). simpl in *.
  rewrite ?Hgr, Hg, lookup_insert_eq in HGz. injection HGz as <-.
  split.
  - unfold same_reading. simpl. split_and!; try done.
    rewrite ?Hgr, Hg, insert_insert_eq, with_stage_back. by apply insert_id.
  - eapply reverse_next_stage; [exact HG0|].
    eapply same_reading_reverse_next; [exact HR | exact Hit].
Qed.

Lemma scanNode_unchanged_witness :
  let st := state_after graph_cat in
  ∃ st', scanNode 5 st = Ok (1, false) st'
    ∧ same_reading st st' ∧ reverse_next 5 st = Ok 1 st.
Proof.
  intros st. eexists. split; [vm_compute; reflexivity|].
  eapply (scanNode_unchanged 5 st). vm_compute. reflexivity.
Defined.

Lemma sweep_true fuel it st b st' :
  sweep fuel it true st = Ok b st' → b = true.
Proof.
  revert it st. induction fuel as [|fuel IH]; intros it st E; simpl in E; [done|].
  inv_bind E as g s Eg. inv_bind E as rend s1 Er.
  case_bool_decide.
  - by apply ret_Ok in E as [<- _].
  - inv_bind E as r s2 Es. destruct r as [it' changed]. by eapply IH.
Qed.

Lemma sweep_false fuel it st st' :
  sweep fuel it false st = Ok false st' → same_reading st st'.
Proof.
  revert it st. induction fuel as [|fuel IH]; intros it st E; simpl in E; [done|].
  inv_bind E as g s Eg. injection Eg as <- <-.
  inv_bind E as rend s1 Er. apply reads_return_node in Er as ->.
  case_bool_decide.
  - by apply ret_Ok in E as [_ <-].
  - inv_bind E as r s2 Es. destruct r as [it' changed]. simpl in E.
    destruct changed.
    + by apply sweep_true in E.
    + destruct (scanNode_unchanged _ _ _ _ Es) as [HR _].
      etrans; [exact HR|]. by eapply IH.
Qed.

(** X13.  [run] stops at a fixed point of its sweep.  When the loop of
    [run] returns, the state it returns is the end of a sweep that started
    at the last node of the graph, reported no change, and left the nodes,
    values and graphs as they were at its start; only keys with value zero
    may have been inserted into [topological_index]. *)
Theorem run_loop_fixed_point fuel st st' :
  run_loop fuel st = Ok tt st' →
  ∃ s it k, rbegin (graph s) s = Ok it s
    ∧ sweep k it false s = Ok false st'
    ∧ same_reading s st'.
Proof.
  revert st. induction fuel as [|fuel IH]; intros st E; simpl in E; [done|].
  inv_bind E as g s Eg. injection Eg as <- <-.
  inv_bind E as it s1 Er. pose proof (reads_rbegin _ _ _ _ Er) as ->.
  inv_bind E as any s2 Es. destruct any.
  - by apply IH in E.
  - apply ret_Ok in E as [_ <-]. exists st, it, (S fuel).
    split_and!; [exact Er | exact Es |]. eapply (sweep_false (S fuel)). exact Es.
Qed.

Lemma run_loop_fixed_point_witness :
  let st := state_after graph_cat in
  ∃ st', run_loop 2 st = Ok tt st'
    ∧ ∃ s it k, rbegin (graph s) s = Ok it s
        ∧ sweep k it false s = Ok false st'
        ∧ same_reading s st'.
Proof.
  intros st. eexists. split; [vm_compute; reflexivity|].
  eapply (run_loop_fixed_point 2 st). vm_compute. reflexivity.
Defined.

(** ** Graphs without anything to fuse *)

Lemma heap_only_ret {A} (a : A) : heap_only (ret a).
Proof. by intros st s _ _. Qed.
Lemma heap_only_raise {A} e : heap_only (@raise A e).
Proof. by intros st s _ _. Qed.
Lemma heap_only_bind {A B} (m : M A) (k : A → M B) :
  reads m → heap_only m → (∀ a, heap_only (k a)) → heap_only (bind m k).
Proof.
  intros Hr Hm Hk st s Hn Hv. unfold bind. rewrite (Hm st s Hn Hv).
  destruct (m st) as [a st1|e] eqn:E; [|done].
  apply Hr in E as ->. by apply Hk.
Qed.
Lemma heap_only_getNode n : heap_only (getNode n).
Proof. intros st s Hn _. unfold getNode. rewrite Hn. by destruct (nodes st !! n). Qed.
Lemma heap_only_getValue v : heap_only (getValue v).
Proof. intros st s _ Hv. unfold getValue. rewrite Hv. by destruct (values st !! v). Qed.
Lemma heap_only_liftOpt {A} (o : option A) e : heap_only (liftOpt o e).
Proof. intros st s _ _. by destruct o. Qed.

Create HintDb heap_only discriminated.
#[global] Hint Resolve heap_only_ret heap_only_raise heap_only_getNode heap_only_getValue
  heap_only_liftOpt : heap_only.

Ltac heap_only_step :=
  match goal with
  | |- heap_only (bind _ _) => apply heap_only_bind; [solve_reads | | intros ? ]
  | |- heap_only (if ?b then _ else _) => destruct b
  | |- heap_only (match ?x with _ => _ end) => destruct x
  | |- heap_only _ => solve [ eauto with heap_only ]
  end.
Ltac solve_heap_only := repeat heap_only_step.

Lemma heap_only_kind n : heap_only (kind n).
Proof. unfold kind. solve_heap_only. Qed.
Lemma heap_only_inputs n : heap_only (inputs n).
Proof. unfold inputs. solve_heap_only. Qed.
Lemma heap_only_outputs n : heap_only (outputs n).
Proof. unfold outputs. solve_heap_only. Qed.
#[global] Hint Resolve heap_only_kind heap_only_inputs heap_only_outputs : heap_only.
Lemma heap_only_output n : heap_only (output n).
Proof. unfold output. solve_heap_only. Qed.
Lemma heap_only_input_at n i : heap_only (input_at n i).
Proof. unfold input_at. solve_heap_only. Qed.
Lemma heap_only_hasType v : heap_only (hasType v).
Proof. unfold hasType. solve_heap_only. Qed.
Lemma heap_only_type v : heap_only (type v).
Proof. unfold type. solve_heap_only. Qed.
Lemma heap_only_expect_TensorType t : heap_only (expect_TensorType t).
Proof. unfold expect_TensorType. solve_heap_only. Qed.
#[global] Hint Resolve heap_only_output heap_only_input_at heap_only_hasType
  heap_only_type heap_only_expect_TensorType : heap_only.
Lemma heap_only_isSimpleMap n : heap_only (isSimpleMap n).
Proof. unfold isSimpleMap. solve_heap_only. Qed.
Lemma heap_only_isCuda n : heap_only (isCuda n).
Proof. unfold isCuda. solve_heap_only. Qed.
Lemma heap_only_hasFloatType v : heap_only (hasFloatType v).
Proof. unfold hasFloatType. solve_heap_only. Qed.
#[global] Hint Resolve heap_only_isSimpleMap heap_only_isCuda heap_only_hasFloatType
  : heap_only.
Lemma heap_only_all_hasFloatType l : heap_only (all_hasFloatType l).
Proof. induction l; simpl; solve_heap_only. Qed.
#[global] Hint Resolve heap_only_all_hasFloatType : heap_only.
Lemma heap_only_allFloatIO n : heap_only (allFloatIO n).
Proof. unfold allFloatIO. solve_heap_only. Qed.
#[global] Hint Resolve heap_only_allFloatIO : heap_only.
Lemma heap_only_isFusable n : heap_only (isFusable n).
Proof. unfold isFusable, isFusable_with. solve_heap_only. Qed.
Lemma heap_only_all_sizes_are sz l : heap_only (all_sizes_are sz l).
Proof. induction l; simpl; solve_heap_only. Qed.
#[global] Hint Resolve heap_only_isFusable heap_only_all_sizes_are : heap_only.
Lemma heap_only_isFusableAsExitNode n : heap_only (isFusableAsExitNode n).
Proof. unfold isFusableAsExitNode. solve_heap_only. Qed.

Lemma prev_from_lookup before l j n :
  NoDup l → l !! j = Some n →
  prev_from before n l
  = Some (match j with 0 => before | S j' => default before (l !! j') end).
Proof.
  revert before j. induction l as [|x l IH]; intros before j Hnd Hj; [done|].
  apply NoDup_cons in Hnd as [Hx Hnd]. simpl.
  destruct j as [|j]; simpl in Hj.
  - injection Hj as ->. by rewrite decide_True.
  - rewrite decide_False.
    2: { intros ->. apply Hx. by eapply list_elem_of_lookup_2. }
    rewrite (IH x j Hnd Hj). destruct j as [|j']; [done|]. simpl.
    f_equal. destruct (l !! j') eqn:E; [done|].
    apply lookup_lt_Some in Hj. apply lookup_ge_None in E. lia.
Qed.

Lemma last_lookup_default (l : list nat) d :
  List.last l d = match length l with 0 => d | S k => default d (l !! k) end.
Proof.
  induction l as [|x l IH]; [done|]. simpl length. cbn [List.last].
  destruct l as [|y l]; [done|]. rewrite IH. simpl. done.
Qed.

Lemma set_graphs_stage_back g G x st :
  graphs st !! g = Some G →
  set_graphs <[g := with_stage (g_stage G) (with_stage x G)]>
    (set_graphs <[g := with_stage x G]> st) = st.
Proof.
  intros HG. destruct st as [n v gs nx gr ix]. unfold set_graphs. simpl in *.
  f_equal. rewrite insert_insert_eq, with_stage_back. by apply insert_id.
Qed.

(** A node that is not fusable as an exit node is skipped. *)
Lemma scanNode_skip c cd G it st :
  graphs st !! graph st = Some G →
  nodes st !! c = Some cd → n_graph cd = graph st →
  isFusableAsExitNode c st = Ok false st →
  prev_from (g_return G) c (g_nodes G) = Some it →
  scanNode c st = Ok (it, false) st.
Proof.
  intros HG Hc Hcg Hf Hp. unfold scanNode, this_graph. unfold bind at 1.
  assert (Eo : graph_stage (graph st) st = Ok (g_stage G) st).
  { unfold graph_stage. by rewrite (bind_run _ _ _ _ _ (getGraph_Ok _ _ _ HG)). }
  rewrite (bind_run _ _ _ _ _ Eo), (bind_run _ _ _ _ _ (stage_Ok _ _ _ Hc)).
  set (sa := set_graphs <[graph st := with_stage (n_stage cd) G]> st).
  assert (Ea : setStage (graph st) (n_stage cd) st = Ok tt sa).
  { unfold setStage. by rewrite (bind_run _ _ _ _ _ (getGraph_Ok _ _ _ HG)). }
  rewrite (bind_run _ _ _ _ _ Ea).
  assert (Ef : isFusableAsExitNode c sa = Ok false sa).
  { rewrite (heap_only_isFusableAsExitNode c st sa) by done. by rewrite Hf. }
  assert (HGa : graphs sa !! graph st = Some (with_stage (n_stage cd) G)).
  { subst sa. simpl. apply lookup_insert_eq. }
  assert (Er : reverse_next c sa = Ok it sa).
  { unfold reverse_next.
    rewrite (bind_run _ _ _ _ _ (getNode_Ok c cd sa Hc)), Hcg.
    rewrite (bind_run _ _ _ _ _ (getGraph_Ok _ _ _ HGa)). simpl. by rewrite Hp. }
  assert (Em : (let! e := isFusableAsExitNode c in
                if e then
                  let! ins := inputs c in
                  forM ins (λ i,
                    let! n := node_of i in
                    let! c := index_count n in
                    JIT_ASSERT (bool_decide (0 < c)) "topological_index.count(i->node()) > 0") >>
                  let! keyed := mapM (λ i, let! n := node_of i in
                                           let! k := index_at n in ret (k, i)) ins in
                  scanNode_producers c (snd <$> sort_desc keyed)
                else
                  let! it := reverse_next c in
                  ret (it, false)) sa = Ok (it, false) sa).
  { rewrite (bind_run _ _ _ _ _ Ef). by rewrite (bind_run _ _ _ _ _ Er). }
  rewrite (bind_run _ _ _ _ _ Em).
  assert (Ez : setStage (graph st) (g_stage G) sa = Ok tt st).
  { unfold setStage. rewrite (bind_run _ _ _ _ _ (getGraph_Ok _ _ _ HGa)).
    unfold putGraph, modify. f_equal. subst sa. by apply set_graphs_stage_back. }
  by rewrite (bind_run _ _ _ _ _ Ez).
Qed.

Lemma sweep_skip G st j n fuel :
  graphs st !! graph st = Some G →
  NoDup (g_nodes G) → g_return G ∉ g_nodes G →
  (∀ n, n ∈ g_nodes G →
     ∃ nd, nodes st !! n = Some nd ∧ n_graph nd = graph st
           ∧ isFusableAsExitNode n st = Ok false st) →
  g_nodes G !! j = Some n → j + 2 ≤ fuel →
  sweep fuel n false st = Ok false st.
Proof.
  intros HG Hnd Hret Hall. revert n fuel.
  assert (Er : return_node (graph st) st = Ok (g_return G) st).
  { unfold return_node. by rewrite (bind_run _ _ _ _ _ (getGraph_Ok _ _ _ HG)). }
  induction j as [|j IH]; intros n fuel Hj Hfuel.
  - destruct fuel as [|[|fuel]]; [lia..|].
    assert (Hin : n ∈ g_nodes G) by (by eapply list_elem_of_lookup_2).
    destruct (Hall n Hin) as (nd & Hn & Hg & Hf).
    cbn [sweep]. unfold this_graph. unfold bind at 1.
    rewrite (bind_run _ _ _ _ _ Er).
    rewrite bool_decide_eq_false_2 by (intros ->; done).
    rewrite (bind_run _ _ _ _ _
               (scanNode_skip n nd G _ st HG Hn Hg Hf (prev_from_lookup _ _ _ _ Hnd Hj))).
    simpl. unfold bind at 1. rewrite (bind_run _ _ _ _ _ Er).
    by rewrite bool_decide_eq_true_2.
  - destruct fuel as [|fuel]; [lia|].
    assert (Hin : n ∈ g_nodes G) by (by eapply list_elem_of_lookup_2).
    destruct (Hall n Hin) as (nd & Hn & Hg & Hf).
    cbn [sweep]. unfold this_graph. unfold bind at 1.
    rewrite (bind_run _ _ _ _ _ Er).
    rewrite bool_decide_eq_false_2 by (intros ->; done).
    rewrite (bind_run _ _ _ _ _
               (scanNode_skip n nd G _ st HG Hn Hg Hf (prev_from_lookup _ _ _ _ Hnd Hj))).
    destruct (g_nodes G !! j) as [m|] eqn:Hm.
    + simpl. apply IH; [done | lia].
    + apply lookup_lt_Some in Hj. apply lookup_ge_None in Hm. lia.
Qed.

Lemma run_loop_skip G st fuel :
  graphs st !! graph st = Some G →
  NoDup (g_nodes G) → g_return G ∉ g_nodes G →
  (∀ n, n ∈ g_nodes G →
     ∃ nd, nodes st !! n = Some nd ∧ n_graph nd = graph st
           ∧ isFusableAsExitNode n st = Ok false st) →
  length (g_nodes G) < fuel →
  run_loop fuel st = Ok tt st.
Proof.
  intros HG Hnd Hret Hall Hfuel. destruct fuel as [|fuel]; [lia|].
  cbn [run_loop]. unfold this_graph. unfold bind at 1.
  assert (Eb : rbegin (graph st) st = Ok (List.last (g_nodes G) (g_return G)) st).
  { unfold rbegin. by rewrite (bind_run _ _ _ _ _ (getGraph_Ok _ _ _ HG)). }
  rewrite (bind_run _ _ _ _ _ Eb). rewrite last_lookup_default.
  destruct (length (g_nodes G)) as [|k] eqn:Hlen.
  - assert (Es : sweep (S fuel) (g_return G) false st = Ok false st).
    { cbn [sweep]. unfold this_graph. unfold bind at 1.
      assert (Er : return_node (graph st) st = Ok (g_return G) st).
      { unfold return_node. by rewrite (bind_run _ _ _ _ _ (getGraph_Ok _ _ _ HG)). }
      rewrite (bind_run _ _ _ _ _ Er). by rewrite bool_decide_eq_true_2. }
    by rewrite (bind_run _ _ _ _ _ Es).
  - destruct (g_nodes G !! k) as [n|] eqn:Hk.
    2: { apply lookup_ge_None in Hk. lia. }
    simpl default.
    rewrite (bind_run _ _ _ _ _ (sweep_skip G st k n (S fuel) HG Hnd Hret Hall Hk ltac:(lia))).
    done.
Qed.

Lemma state_eq_index st st1 :
  nodes st1 = nodes st → values st1 = values st → graphs st1 = graphs st →
  next st1 = next st → graph st1 = graph st →
  set_index (λ _, ∅) st1 = set_index (λ _, ∅) st.
Proof.
  destruct st, st1. unfold set_index. simpl. by intros -> -> -> -> ->.
Qed.

(** X14.  A graph in which no node is fusable as an exit node is left
    alone.  When the node list has no repetition and does not contain the
    return node, every node of the list belongs to the graph and
    [isFusableAsExitNode] answers false on it, then [FuseGraph] returns
    (given fuel for one sweep) and the nodes, values and graphs are exactly
    what they were. *)
Theorem FuseGraph_nothing_fusable fuel st G pn :
  graphs st !! graph st = Some G →
  nodes st !! g_param G = Some pn →
  Forall (λ p, is_Some (values st !! p)) (n_outputs pn) →
  NoDup (g_nodes G) →
  g_return G ∉ g_nodes G →
  (∀ n, n ∈ g_nodes G →
     ∃ nd, nodes st !! n = Some nd ∧ n_graph nd = graph st
           ∧ isFusableAsExitNode n st = Ok false st) →
  length (g_nodes G) < fuel →
  FuseGraph fuel st = Ok tt (set_index (λ _, ∅) st).
Proof.
  intros HG Hpn Hps Hnd Hret Hall Hfuel. unfold FuseGraph.
  unfold bind at 1. unfold modify at 1.
  set (s0 := set_index (λ _, ∅) st).
  destruct (number_params_spec (n_outputs pn) s0 Hps)
    as (sa & Ea & Hna & Hva & Hga & Hxa & Hgra & _).
  destruct (number_from_spec (g_nodes G) 1 sa Hnd)
    as (sb & Eb & Hnb & Hvb & Hgb & Hxb & Hgrb & _).
  set (s1 := set_index <[g_return G := 1 + length (g_nodes G)]> sb).
  assert (Erun : run fuel s0 = run_loop fuel s1).
  { unfold run, this_graph. unfold bind at 1.
    assert (Ei : graph_inputs (graph s0) s0 = Ok (n_outputs pn) s0).
    { unfold graph_inputs. rewrite (bind_run _ _ _ _ _ (getGraph_Ok (graph s0) G s0 HG)).
      by apply (outputs_Ok _ _ s0). }
    rewrite (bind_run _ _ _ _ _ Ei), (bind_run _ _ _ _ _ Ea).
    assert (HGa : graphs sa !! graph s0 = Some G) by (by rewrite Hga).
    assert (En : graph_nodes (graph s0) sa = Ok (g_nodes G) sa).
    { unfold graph_nodes. by rewrite (bind_run _ _ _ _ _ (getGraph_Ok _ _ _ HGa)). }
    rewrite (bind_run _ _ _ _ _ En), (bind_run _ _ _ _ _ Eb).
    assert (HGb : graphs sb !! graph s0 = Some G) by (by rewrite Hgb).
    assert (Er : return_node (graph s0) sb = Ok (g_return G) sb).
    { unfold return_node. by rewrite (bind_run _ _ _ _ _ (getGraph_Ok _ _ _ HGb)). }
    rewrite (bind_run _ _ _ _ _ Er). reflexivity. }
  assert (Hn1 : nodes s1 = nodes st) by (unfold s1; simpl; by rewrite Hnb, Hna).
  assert (Hv1 : values s1 = values st) by (unfold s1; simpl; by rewrite Hvb, Hva).
  assert (Hg1 : graphs s1 = graphs st) by (unfold s1; simpl; by rewrite Hgb, Hga).
  assert (Hgr1 : graph s1 = graph st) by (unfold s1; simpl; by rewrite Hgrb, Hgra).
  assert (Hx1 : next s1 = next st) by (unfold s1; simpl; by rewrite Hxb, Hxa).
  assert (Eloop : run_loop fuel s1 = Ok tt s1).
  { apply (run_loop_skip G); try done.
    - by rewrite Hgr1, Hg1.
    - intros n Hn. destruct (Hall n Hn) as (nd & Hnd' & Hgn & Hf).
      exists nd. split_and!; [by rewrite Hn1 | by rewrite Hgr1 |].
      rewrite (heap_only_isFusableAsExitNode n st s1) by done. by rewrite Hf. }
  rewrite (bind_run _ _ _ _ _ (eq_trans Erun Eloop)).
  unfold modify. f_equal. by apply state_eq_index.
Qed.

Lemma FuseGraph_nothing_fusable_witness :
  let st := state_after graph_cpu in
  FuseGraph 3 st = Ok tt (set_index (λ _, ∅) st).
Proof.
  intros st.
  apply (FuseGraph_nothing_fusable 3 st (mkGraph 2 1 [5; 7] 0)
           (mkNode kParam [] [3; 4] 0 [] 0)).
  - vm_compute; reflexivity.
  - vm_compute; reflexivity.
  - repeat constructor; eexists; vm_compute; reflexivity.
  - apply (bool_decide_unpack _). vm_compute. reflexivity.
  - apply (bool_decide_unpack _). vm_compute. reflexivity.
  - intros n [->|[->|[]%elem_of_nil]%elem_of_cons]%elem_of_cons;
      eexists; (split_and!; [vm_compute; reflexivity | reflexivity | vm_compute; reflexivity]).
  - simpl. lia.
Defined.



(** ** What the merges leave alone *)

#[global] Instance index_kept_preorder : PreOrder index_kept.
Proof. split; [by intros st | intros s1 s2 s3 H1 H2; unfold index_kept in *; congruence]. Qed.
#[global] Instance graphs_kept_preorder : PreOrder graphs_kept.
Proof. split; [by intros st | intros s1 s2 s3 H1 H2; unfold graphs_kept in *; congruence]. Qed.

Ltac kept_prim := apply steps_wp; intros ?; wp_steps; reflexivity.

Lemma ik_addOutput n : steps index_kept (addOutput n).
Proof. unfold addOutput. kept_prim. Qed.
Lemma ik_addInput n v : steps index_kept (addInput n v).
Proof. unfold addInput. kept_prim. Qed.
Lemma ik_removeInput n i : steps index_kept (removeInput n i).
Proof. unfold removeInput. kept_prim. Qed.
Lemma ik_copyAttributes n from : steps index_kept (copyAttributes n from).
Proof. unfold copyAttributes. kept_prim. Qed.
Lemma ik_setType v t : steps index_kept (setType v t).
Proof. unfold setType. kept_prim. Qed.
Lemma ik_replaceAllUsesWith v new : steps index_kept (replaceAllUsesWith v new).
Proof. unfold replaceAllUsesWith. kept_prim. Qed.
Lemma ik_insertBefore n m : steps index_kept (insertBefore n m).
Proof. unfold insertBefore. kept_prim. Qed.
Lemma ik_prependNode g n : steps index_kept (prependNode g n).
Proof. unfold prependNode. kept_prim. Qed.
Lemma ik_modify_values o : steps index_kept (modify (set_values (delete o))).
Proof. kept_prim. Qed.
Lemma ik_modify_delete_node n : steps index_kept (modify (set_nodes (delete n))).
Proof. kept_prim. Qed.
Lemma ik_putNode n nd : steps index_kept (putNode n nd).
Proof. kept_prim. Qed.
Lemma ik_putGraph g G : steps index_kept (putGraph g G).
Proof. kept_prim. Qed.
Lemma ik_fresh : steps index_kept fresh.
Proof. kept_prim. Qed.
#[global] Hint Resolve ik_addOutput ik_addInput ik_removeInput ik_copyAttributes ik_setType
  ik_replaceAllUsesWith ik_insertBefore ik_prependNode ik_modify_values
  ik_modify_delete_node ik_putNode ik_putGraph ik_fresh : steps.

Lemma ik_copyMetadata v from : steps index_kept (copyMetadata v from).
Proof. unfold copyMetadata. solve_steps. Qed.
#[global] Hint Resolve ik_copyMetadata : steps.
Lemma ik_replaceAllUsesWith_each outs news :
  steps index_kept (replaceAllUsesWith_each outs news).
Proof.
  revert news. induction outs as [|o outs IH]; intros [|w news]; simpl; solve_steps.
Qed.
#[global] Hint Resolve ik_replaceAllUsesWith_each : steps.
Lemma ik_replaceAllUsesWith_node n m : steps index_kept (replaceAllUsesWith_node n m).
Proof. unfold replaceAllUsesWith_node. solve_steps. Qed.
Lemma ik_eraseOutput n i : steps index_kept (eraseOutput n i).
Proof. unfold eraseOutput. solve_steps. Qed.
#[global] Hint Resolve ik_replaceAllUsesWith_node ik_eraseOutput : steps.
Lemma ik_eraseOutputs_down n k : steps index_kept (eraseOutputs_down n k).
Proof. induction k; simpl; solve_steps. Qed.
Lemma ik_addOutputs n k : steps index_kept (addOutputs n k).
Proof. induction k; simpl; solve_steps. Qed.
#[global] Hint Resolve ik_eraseOutputs_down ik_addOutputs : steps.
Lemma ik_destroy n : steps index_kept (destroy n).
Proof. unfold destroy. solve_steps. Qed.
Lemma ik_create g k num : steps index_kept (create g k num).
Proof. unfold create. solve_steps. Qed.
#[global] Hint Resolve ik_destroy ik_create : steps.
Lemma ik_createClone_map g n (m : gmap nat nat) e :
  steps index_kept (createClone g n (λ k, liftOpt (m !! k) e)).
Proof. unfold createClone. solve_steps. Qed.
Lemma ik_newGraph : steps index_kept newGraph.
Proof. unfold newGraph. solve_steps. Qed.
#[global] Hint Resolve ik_createClone_map ik_newGraph : steps.
Lemma ik_createFusionGroup g : steps index_kept (createFusionGroup g).
Proof. unfold createFusionGroup. solve_steps. Qed.
Lemma ik_Graph_addInput g : steps index_kept (Graph_addInput g).
Proof. unfold Graph_addInput. solve_steps. Qed.
Lemma ik_registerOutput g v : steps index_kept (registerOutput g v).
Proof. unfold registerOutput. solve_steps. Qed.
Lemma ik_eraseInput g i : steps index_kept (eraseInput g i).
Proof. unfold eraseInput. solve_steps. Qed.
#[global] Hint Resolve ik_createFusionGroup ik_Graph_addInput ik_registerOutput
  ik_eraseInput : steps.
Lemma ik_mergeNodeIntoGroup_inputs group subgraph m ins :
  steps index_kept (mergeNodeIntoGroup_inputs group subgraph m ins).
Proof. revert m. induction ins as [|i ins IH]; intros m; simpl; solve_steps. Qed.
#[global] Hint Resolve ik_mergeNodeIntoGroup_inputs : steps.
Lemma ik_mergeNodeIntoGroup group n : steps index_kept (mergeNodeIntoGroup group n).
Proof. unfold mergeNodeIntoGroup. solve_steps. Qed.
#[global] Hint Resolve ik_mergeNodeIntoGroup : steps.
Lemma ik_mergeFusionGroups_clone g pg m inner :
  steps index_kept (mergeFusionGroups_clone g pg m inner).
Proof. revert m. induction inner as [|i inner IH]; intros m; simpl; solve_steps. Qed.
Lemma ik_mergeFusionGroups_reroute pg m i outs :
  steps index_kept (mergeFusionGroups_reroute pg m i outs).
Proof. revert i. induction outs as [|o outs IH]; intros i; simpl; solve_steps. Qed.
Lemma ik_mergeFusionGroups_outputs cg cs merged i outs :
  steps index_kept (mergeFusionGroups_outputs cg cs merged i outs).
Proof. revert i. induction outs as [|o outs IH]; intros i; simpl; solve_steps. Qed.
#[global] Hint Resolve ik_mergeFusionGroups_clone ik_mergeFusionGroups_reroute
  ik_mergeFusionGroups_outputs : steps.
Lemma ik_mergeFusionGroups_inline cg cs temps :
  steps index_kept (mergeFusionGroups_inline cg cs temps).
Proof. induction temps as [|t temps IH]; simpl; solve_steps. Qed.
#[global] Hint Resolve ik_mergeFusionGroups_inline : steps.
Lemma ik_mergeFusionGroups cg pg : steps index_kept (mergeFusionGroups cg pg).
Proof. unfold mergeFusionGroups. solve_steps. Qed.
#[global] Hint Resolve ik_mergeFusionGroups : steps.

Lemma index_kept_reading st st' n :
  index_kept st st' → index_of_node st' n = index_of_node st n.
Proof. unfold index_kept, index_of_node. by intros ->. Qed.

Lemma createSingletonFusionGroup_index n st g st' :
  createSingletonFusionGroup n st = Ok g st' →
  g = next st
  ∧ index_of_node st' g = index_of_node st n
  ∧ ∀ m, m ≠ g → index_of_node st' m = index_of_node st m.
Proof.
  intros E.
  pose proof (wp_Ok _ _ _ _ _ (createSingletonFusionGroup_group n st) E) as (-> & _).
  split; [done|].
  unfold createSingletonFusionGroup in E.
  inv_bind E as g0 s Eg. injection Eg as <- <-.
  inv_bind E as group s1 Ec.
  pose proof (wp_Ok _ _ _ _ _ (createFusionGroup_spec _ st) Ec) as (-> & _).
  pose proof (ik_createFusionGroup _ _ _ _ Ec) as K1.
  inv_bind E as i s2 Ei.
  destruct (index_at_spec n s1) as (s2' & Ei' & HR).
  rewrite Ei' in Ei. injection Ei as <- <-.
  inv_bind E as u s3 Es. unfold index_set, modify in Es. injection Es as Hs3. subst s3.
  assert (K3 : index_kept (set_index <[next st := index_of_node s1 n]> s2') st').
  { refine ((_ : steps index_kept _) _ _ _ E). solve_steps. }
  destruct HR as (_ & _ & _ & _ & _ & HR).
  split.
  - rewrite (index_kept_reading _ _ _ K3). unfold index_of_node at 1. simpl.
    rewrite lookup_insert_eq. simpl. by apply index_kept_reading.
  - intros m Hm. rewrite (index_kept_reading _ _ _ K3). unfold index_of_node at 1. simpl.
    rewrite lookup_insert_ne by done.
    change (index_of_node s2' m = index_of_node st m).
    rewrite HR. by apply index_kept_reading.
Qed.

(** X15.  Fusion writes [topological_index] at one place only.  When
    [fuse(consumer, producer)] returns the group [g], [g] reads the index
    that [consumer] had, and every other node reads the index it had before;
    merging a node or a group into an existing group does not write
    [topological_index] at all. *)
Theorem fuse_index consumer producer st g st' :
  fuse consumer producer st = Ok g st' →
  index_of_node st' g = index_of_node st consumer
  ∧ (∀ m, m ≠ g → index_of_node st' m = index_of_node st m)
  ∧ (g = consumer → topological_index st' = topological_index st).
Proof.
  intros E. unfold fuse in E.
  inv_bind E as k s Ek. apply reads_kind in Ek as ->.
  inv_bind E as group s1 Eg.
  assert (Htail : g = group ∧ index_kept s1 st').
  { split.
    - inv_bind E as pn s2 E1. inv_bind E as pk s3 E2.
      case_bool_decide.
      + inv_bind E as u s4 E3. by apply ret_Ok in E as [<- _].
      + inv_bind E as merged s4 E3. inv_bind E as us s5 E4.
        inv_bind E as u s6 E5. inv_bind E as pn2 s7 E6. inv_bind E as u2 s8 E7.
        by apply ret_Ok in E as [<- _].
    - refine ((_ : steps index_kept _) _ _ _ E). solve_steps. }
  destruct Htail as [-> K].
  case_bool_decide as Hk.
  - destruct (createSingletonFusionGroup_index _ _ _ _ Eg) as (Hg & Hi & Ho).
    split_and!.
    + by rewrite (index_kept_reading _ _ _ K).
    + intros m Hm. rewrite (index_kept_reading _ _ _ K). by apply Ho.
    + intros ->. exfalso.
      unfold createSingletonFusionGroup in Eg.
      inv_bind Eg as g0 s Eg0. injection Eg0 as <- <-.
      inv_bind Eg as grp s2 Ec.
      pose proof (wp_Ok _ _ _ _ _ (createFusionGroup_spec _ st) Ec) as (Hgrp & _).
      inv_bind Eg as i s3 Ei. inv_bind Eg as u s4 Es.
      inv_bind Eg as u1 s5 Eb. inv_bind Eg as mn s6 Em.
      apply mergeNodeIntoGroup_distinct in Em. congruence.
  - apply ret_Ok in Eg as [<- <-].
    split_and!; [by apply index_kept_reading | intros; by apply index_kept_reading | done].
Qed.

Lemma fuse_index_witness :
  let st := state_after graph_S3 in
  ∃ g st', fuse 8 7 st = Ok g st'
    ∧ index_of_node st' g = index_of_node st 8
    ∧ (∀ m, m ≠ g → index_of_node st' m = index_of_node st m)
    ∧ (g = 8 → topological_index st' = topological_index st).
Proof.
  intros st. eexists _, _. split; [vm_compute; reflexivity|].
  eapply (fuse_index 8 7 st). vm_compute. reflexivity.
Defined.

(** ** What a fusion destroys *)

Lemma destroy_gone n st u st' : destroy n st = Ok u st' → nodes st' !! n = None.
Proof.
  unfold destroy. intros E.
  inv_bind E as nd s1 E1. inv_bind E as u1 s2 E2. inv_bind E as G s3 E3.
  inv_bind E as u2 s4 E4. injection E as _ <-. simpl. apply lookup_delete_eq.
Qed.

Lemma static_gone st st' n :
  static st st' → n < next st → nodes st !! n = None → nodes st' !! n = None.
Proof.
  intros (_ & _ & Hs & _) Hlt Hn.
  destruct (nodes st' !! n) as [nd'|] eqn:E; [|done].
  destruct (Hs _ _ E Hlt) as (nd & Hnd & _). congruence.
Qed.

Lemma static_next st st' : static st st' → next st ≤ next st'.
Proof. by intros (? & _). Qed.

Lemma mergeFusionGroups_gone cg pg st u st' :
  bounded st → mergeFusionGroups cg pg st = Ok u st' → nodes st' !! pg = None.
Proof.
  intros (Bn & _) E. unfold mergeFusionGroups in E.
  inv_bind E as psg s E1. apply getSubgraph_inv in E1 as (-> & pd & Hpd & _).
  assert (Hlt : pg < next st) by (apply Bn; eauto).
  inv_bind E as ii s E2. apply reads_graph_inputs in E2 as ->.
  inv_bind E as oi s E3. apply reads_inputs in E3 as ->.
  inv_bind E as m0 s E4. apply reads_zip_into in E4 as ->.
  inv_bind E as g s E5. injection E5 as <- <-.
  inv_bind E as inner s E6. apply reads_graph_nodes in E6 as ->.
  inv_bind E as tm s1 E7. destruct tm as [temps m].
  apply static_mergeFusionGroups_clone, static_next in E7.
  inv_bind E as so s E8. apply reads_graph_outputs in E8 as ->.
  inv_bind E as u1 s2 E9.
  apply static_mergeFusionGroups_reroute, static_next in E9.
  inv_bind E as u2 s3 E10.
  pose proof (static_next _ _ (static_destroy _ _ _ _ E10)) as L3.
  apply destroy_gone in E10.
  inv_bind E as csg s E11. apply reads_getSubgraph in E11 as ->.
  apply static_mergeFusionGroups_inline in E.
  eapply static_gone; [exact E | lia | done].
Qed.

(** X16.  What [fuse] leaves behind.  When [fuse(consumer, producer)]
    returns, the node it returns is a live [FusionGroup]: the consumer
    itself when the consumer was a group, a newly allocated node otherwise,
    and then the consumer has been destroyed; in both cases the node that
    produced [producer] has been destroyed. *)
Theorem fuse_result consumer producer cnd pv st g st' :
  bounded st →
  nodes st !! consumer = Some cnd →
  values st !! producer = Some pv →
  fuse consumer producer st = Ok g st' →
  (∃ gd, nodes st' !! g = Some gd ∧ n_kind gd = kFusionGroup)
  ∧ (n_kind cnd = kFusionGroup → g = consumer)
  ∧ (n_kind cnd ≠ kFusionGroup → next st ≤ g ∧ nodes st' !! consumer = None)
  ∧ nodes st' !! v_node pv = None.
Proof.
  intros Hb Hc Hp E.
  pose proof (wp_Ok _ _ _ _ _ (fuse_group consumer producer cnd st Hb Hc) E)
    as (gd & Hgd & Hgk & Hcase).
  pose proof Hb as (Bn & Bv & _).
  assert (Hclt : consumer < next st) by (apply Bn; eauto).
  assert (Hplt : producer < next st) by (apply Bv; eauto).
  unfold fuse in E.
  inv_bind E as k s Ek. apply kind_inv in Ek as (-> & cnd' & Hc' & <-).
  rewrite Hc in Hc'. injection Hc' as <-.
  inv_bind E as group s1 Eg.
  assert (Hs1 : static st s1 ∧ bounded s1).
  { case_bool_decide.
    - split; [exact (static_createSingletonFusionGroup _ _ _ _ Eg)|].
      exact (proj2 (bounded_createSingletonFusionGroup _ _ _ _ Eg) Hb).
    - apply ret_Ok in Eg as [_ <-]. done. }
  destruct Hs1 as [Hs1 Hb1].
  assert (Htail : static s1 st' ∧ nodes st' !! v_node pv = None).
  { inv_bind E as pn s E1. apply node_of_inv in E1 as (-> & vl & Hvl & <-).
    assert (Hvn : v_node vl = v_node pv) by exact (static_value _ _ _ _ _ Hs1 Hp Hplt Hvl).
    inv_bind E as pk s E2. apply reads_kind in E2 as ->.
    case_bool_decide.
    - inv_bind E as u s2 E3. apply ret_Ok in E as [_ <-].
      split; [exact (static_mergeFusionGroups _ _ _ _ _ E3)|].
      rewrite <- Hvn. by eapply mergeFusionGroups_gone.
    - inv_bind E as merged sm Em.
      pose proof (static_mergeNodeIntoGroup _ _ _ _ _ Em) as Hsm.
      inv_bind E as us s E4. apply reads_uses in E4 as ->.
      inv_bind E as u s5 E5.
      assert (Hs5 : static sm s5).
      { refine ((_ : steps static _) _ _ _ E5). solve_steps. }
      inv_bind E as pn2 s E6. apply node_of_inv in E6 as (-> & vl2 & Hvl2 & <-).
      assert (Hvn2 : v_node vl2 = v_node pv).
      { refine (static_value st s5 _ _ _ _ Hp Hplt Hvl2).
        etrans; [exact Hs1|]. by etrans. }
      inv_bind E as u2 s6 E7. apply ret_Ok in E as [_ <-].
      split.
      + etrans; [exact Hsm|]. etrans; [exact Hs5|]. exact (static_destroy _ _ _ _ E7).
      + rewrite <- Hvn2. by eapply destroy_gone. }
  destruct Htail as [Hst Hgone].
  split_and!; [by exists gd | | | done].
  - intros Hk. by destruct Hcase as [(_ & -> & _)|(? & _)].
  - intros Hk. destruct Hcase as [(? & _)|(_ & Hlt & _)]; [done|].
    split; [done|].
    rewrite bool_decide_eq_true_2 in Eg by done.
    eapply static_gone; [exact Hst | |].
    + pose proof (static_next _ _ Hs1). lia.
    + unfold createSingletonFusionGroup in Eg.
      inv_bind Eg as g0 s Eg0. inv_bind Eg as grp s2 Ec.
      inv_bind Eg as i s3 Ei. inv_bind Eg as u s4 Es.
      inv_bind Eg as u1 s5 Eb. inv_bind Eg as mn s6 Em.
      inv_bind Eg as sg s7 E7. inv_bind Eg as mo s8 E8. inv_bind Eg as u3 s9 E9.
      inv_bind Eg as sel s10 E10. inv_bind Eg as no s11 E11. inv_bind Eg as u4 s12 E12.
      inv_bind Eg as u5 s13 E13. inv_bind Eg as u6 s14 E14.
      apply ret_Ok in Eg as [_ <-]. by eapply destroy_gone.
Qed.

Lemma fuse_result_witness :
  let st := state_after graph_S3 in
  ∃ g st', fuse 8 7 st = Ok g st'
    ∧ (∃ gd, nodes st' !! g = Some gd ∧ n_kind gd = kFusionGroup)
    ∧ (kneg = kFusionGroup → g = 8)
    ∧ (kneg ≠ kFusionGroup → next st ≤ g ∧ nodes st' !! 8 = None)
    ∧ nodes st' !! 6 = None.
Proof.
  intros st. eexists _, _. split; [vm_compute; reflexivity|].
  eapply (fuse_result 8 7 (mkNode kneg [7] [9] 0 [] 0) (mkValue 6 (Some float_cuda)) st).
  - apply bounded_check. vm_compute. reflexivity.
  - vm_compute. reflexivity.
  - vm_compute. reflexivity.
  - vm_compute. reflexivity.
Defined.

(** ** The stage guard of [scanNode] *)



(** ** The node a merge returns *)

Lemma gk_addOutput n : steps graphs_kept (addOutput n).
Proof. unfold addOutput. kept_prim. Qed.
Lemma gk_addInput n v : steps graphs_kept (addInput n v).
Proof. unfold addInput. kept_prim. Qed.
Lemma gk_removeInput n i : steps graphs_kept (removeInput n i).
Proof. unfold removeInput. kept_prim. Qed.
Lemma gk_copyAttributes n from : steps graphs_kept (copyAttributes n from).
Proof. unfold copyAttributes. kept_prim. Qed.
Lemma gk_setType v t : steps graphs_kept (setType v t).
Proof. unfold setType. kept_prim. Qed.
Lemma gk_replaceAllUsesWith v new : steps graphs_kept (replaceAllUsesWith v new).
Proof. unfold replaceAllUsesWith. kept_prim. Qed.
Lemma gk_modify_values o : steps graphs_kept (modify (set_values (delete o))).
Proof. kept_prim. Qed.
Lemma gk_putNode n nd : steps graphs_kept (putNode n nd).
Proof. kept_prim. Qed.
Lemma gk_fresh : steps graphs_kept fresh.
Proof. kept_prim. Qed.
#[global] Hint Resolve gk_addOutput gk_addInput gk_removeInput gk_copyAttributes gk_setType
  gk_replaceAllUsesWith gk_modify_values gk_putNode gk_fresh : steps.
Lemma gk_copyMetadata v from : steps graphs_kept (copyMetadata v from).
Proof. unfold copyMetadata. solve_steps. Qed.
Lemma gk_eraseOutput n i : steps graphs_kept (eraseOutput n i).
Proof. unfold eraseOutput. solve_steps. Qed.
#[global] Hint Resolve gk_copyMetadata gk_eraseOutput : steps.
Lemma gk_addOutputs n k : steps graphs_kept (addOutputs n k).
Proof. induction k; simpl; solve_steps. Qed.
#[global] Hint Resolve gk_addOutputs : steps.
Lemma gk_create g k num : steps graphs_kept (create g k num).
Proof. unfold create. solve_steps. Qed.
#[global] Hint Resolve gk_create : steps.
Lemma gk_createClone_map g n (m : gmap nat nat) e :
  steps graphs_kept (createClone g n (λ k, liftOpt (m !! k) e)).
Proof. unfold createClone. solve_steps. Qed.
Lemma gk_Graph_addInput g : steps graphs_kept (Graph_addInput g).
Proof. unfold Graph_addInput. solve_steps. Qed.
Lemma gk_registerOutput g v : steps graphs_kept (registerOutput g v).
Proof. unfold registerOutput. solve_steps. Qed.
Lemma gk_eraseInput g i : steps graphs_kept (eraseInput g i).
Proof. unfold eraseInput. solve_steps. Qed.
#[global] Hint Resolve gk_createClone_map gk_Graph_addInput gk_registerOutput
  gk_eraseInput : steps.
Lemma gk_mergeNodeIntoGroup_inputs group subgraph m ins :
  steps graphs_kept (mergeNodeIntoGroup_inputs group subgraph m ins).
Proof. revert m. induction ins as [|i ins IH]; intros m; simpl; solve_steps. Qed.
#[global] Hint Resolve gk_mergeNodeIntoGroup_inputs : steps.

Lemma createClone_node g n (m : gmap nat nat) e nd st :
  nodes st !! n = Some nd →
  wp (createClone g n (λ k, liftOpt (m !! k) e))
     (λ t st', t = next st ∧ t < next st'
               ∧ ∃ nd', nodes st' !! t = Some nd' ∧ n_kind nd' = n_kind nd
                        ∧ n_graph nd' = g) st.
Proof.
  intros Hn. apply wp_intro. intros t st' E.
  pose proof (wp_Ok _ _ _ _ _ (createClone_kind g n m e nd st Hn) E)
    as (-> & Hlt & nd' & Hnd' & Hk).
  split_and!; [done..|]. exists nd'. split_and!; [done..|].
  unfold createClone, create in E.
  inv_bind E as nd0 s E0. apply getNode_inv in E0 as [_ ->].
  inv_bind E as r s1 E1. inv_bind E1 as G s E2. apply getGraph_inv in E2 as [_ ->].
  inv_bind E1 as r0 s E3. injection E3 as <- <-.
  inv_bind E1 as u s2 E4. injection E4 as Hs2. subst s2.
  inv_bind E1 as u2 s3 E5. apply ret_Ok in E1 as [<- <-].
  simpl in E5. apply ret_Ok in E5 as [_ <-].
  assert (Hs : static (set_nodes <[next st := mkNode (n_kind nd0) [] [] (g_stage G) [] g]>
                         (set_next (S (next st)) st)) st').
  { refine ((_ : steps static _) _ _ _ E). solve_steps. }
  eapply (static_node _ _ (next st) (mkNode (n_kind nd0) [] [] (g_stage G) [] g)) in Hs
    as (_ & _ & Hg); [exact Hg | simpl; apply lookup_insert_eq | simpl; lia | exact Hnd'].
Qed.

(** X18.  The node a merge returns.  When [mergeNodeIntoGroup(group, n)]
    returns, the node it returns is newly allocated, has the kind of [n],
    belongs to the subgraph of the group and has been put at the head of
    that subgraph's node list; no other graph record is written (the node
    list of the outer graph still contains [n]), and [topological_index]
    is not written. *)
Theorem mergeNodeIntoGroup_result group n nd st r st' :
  bounded st →
  nodes st !! n = Some nd →
  mergeNodeIntoGroup group n st = Ok r st' →
  ∃ sg G rd,
    getSubgraph group st = Ok sg st ∧ graphs st !! sg = Some G
    ∧ next st ≤ r
    ∧ nodes st' !! r = Some rd ∧ n_kind rd = n_kind nd ∧ n_graph rd = sg
    ∧ graphs st' = <[sg := with_nodes (r :: g_nodes G) G]> (graphs st)
    ∧ topological_index st' = topological_index st.
Proof.
  intros Hb Hn E.
  pose proof (ik_mergeNodeIntoGroup _ _ _ _ _ E) as Hik.
  assert (Hnlt : n < next st) by (destruct Hb as (Bn & _); apply Bn; eauto).
  unfold mergeNodeIntoGroup in E.
  inv_bind E as k s Ek. apply reads_kind in Ek as ->.
  inv_bind E as u s Ea. apply reads_JIT_ASSERT in Ea as ->.
  inv_bind E as sg s Es. pose proof (reads_getSubgraph _ _ _ _ Es) as ->.
  inv_bind E as gins s E1. apply reads_inputs in E1 as ->.
  inv_bind E as sins s E2. apply reads_graph_inputs in E2 as ->.
  inv_bind E as u2 s E3. apply reads_JIT_ASSERT in E3 as ->.
  inv_bind E as im0 s E4. apply reads_zip_into in E4 as ->.
  inv_bind E as nins s E5. apply reads_inputs in E5 as ->.
  inv_bind E as im s1 E6.
  pose proof (gk_mergeNodeIntoGroup_inputs _ _ _ _ _ _ _ E6) as Hg1.
  pose proof (static_mergeNodeIntoGroup_inputs _ _ _ _ _ _ _ E6) as Hs1.
  pose proof (keeps_mergeNodeIntoGroup_inputs _ _ _ _ _ _ _ E6) as Hk1.
  destruct (static_keeps_node _ _ _ _ Hs1 Hk1 Hn Hnlt) as (nd1 & Hn1 & Hkd1 & _).
  inv_bind E as in_graph s2 E7.
  pose proof (wp_Ok _ _ _ _ _ (createClone_node _ _ _ _ _ _ Hn1) E7)
    as (-> & Hlt2 & rd2 & Hrd2 & Hkd2 & Hgd2).
  pose proof (gk_createClone_map _ _ _ _ _ _ _ E7) as Hg2.
  inv_bind E as inputs s E8. apply reads_inputs in E8 as ->.
  inv_bind E as nout s E9. apply reads_output in E9 as ->.
  assert (Hrest : ∃ s3, rel_and graphs_kept (rel_and static keeps) s2 s3
                        ∧ prependNode sg (next s1) s3 = Ok r st').
  { destruct (index_of nout inputs) as [p|].
    - inv_bind E as u3 s3 E10.
      inv_bind E as sins' s E11. apply reads_graph_inputs in E11 as ->.
      inv_bind E as sp s E12. apply reads_liftOpt in E12 as ->.
      inv_bind E as o s E13. apply reads_output in E13 as ->.
      inv_bind E as u4 s4 E14. inv_bind E as u5 s5 E15.
      exists s5. split; [|done].
      assert (A1 : rel_and graphs_kept (rel_and static keeps) s2 s3).
      { split; [exact (gk_removeInput _ _ _ _ _ E10)|].
        split; [exact (static_removeInput _ _ _ _ _ E10)
               | exact (keeps_removeInput _ _ _ _ _ E10)]. }
      assert (A2 : rel_and graphs_kept (rel_and static keeps) s3 s4).
      { split; [exact (gk_replaceAllUsesWith _ _ _ _ _ E14)|].
        split; [exact (static_replaceAllUsesWith _ _ _ _ _ E14)
               | exact (keeps_replaceAllUsesWith _ _ _ _ _ E14)]. }
      assert (A3 : rel_and graphs_kept (rel_and static keeps) s4 s5).
      { split; [exact (gk_eraseInput _ _ _ _ _ E15)|].
        split; [exact (static_eraseInput _ _ _ _ _ E15)
               | exact (keeps_eraseInput _ _ _ _ _ E15)]. }
      etrans; [exact A1|]. etrans; [exact A2 | exact A3].
    - exists s2. split; [reflexivity | done]. }
  destruct Hrest as (s3 & (Hg3 & Hs3 & Hk3) & Ep).
  destruct (static_keeps_node _ _ _ _ Hs3 Hk3 Hrd2 Hlt2) as (rd3 & Hrd3 & Hkd3 & _).
  destruct (static_node _ _ _ _ _ Hs3 Hrd2 Hlt2 Hrd3) as (_ & _ & Hgd3).
  unfold prependNode in Ep.
  inv_bind Ep as x s Ex. apply getNode_inv in Ex as [_ ->].
  inv_bind Ep as G s EG. apply getGraph_inv in EG as [HG ->].
  inv_bind Ep as u6 s6 Eput. injection Eput as _ <-. apply ret_Ok in Ep as [<- <-].
  unfold graphs_kept in *. rewrite Hg3, Hg2, Hg1 in HG.
  exists sg, G, rd3. split_and!.
  - done.
  - done.
  - destruct Hs1 as (L & _). lia.
  - done.
  - congruence.
  - congruence.
  - simpl. by rewrite Hg3, Hg2, Hg1.
  - done.
Qed.

Lemma mergeNodeIntoGroup_result_witness :
  let st := state_after (let! _ := graph_S3 in fuse 8 7) in
  ∃ r st', mergeNodeIntoGroup 12 10 st = Ok r st'
    ∧ ∃ sg G rd,
        getSubgraph 12 st = Ok sg st ∧ graphs st !! sg = Some G
        ∧ next st ≤ r
        ∧ nodes st' !! r = Some rd ∧ n_kind rd = kmul ∧ n_graph rd = sg
        ∧ graphs st' = <[sg := with_nodes (r :: g_nodes G) G]> (graphs st)
        ∧ topological_index st' = topological_index st.
Proof.
  intros st. eexists _, _. split; [vm_compute; reflexivity|].
  eapply (mergeNodeIntoGroup_result 12 10 (mkNode kmul [24; 5] [11] 0 [] 0) st).
  - apply bounded_check. vm_compute. reflexivity.
  - vm_compute. reflexivity.
  - vm_compute. reflexivity.
Defined.

Lemma getSubgraph_Ok n nd sg st :
  nodes st !! n = Some nd → is_group nd sg → getSubgraph n st = Ok sg st.
Proof.
  intros Hn [Hk Hs]. unfold getSubgraph.
  rewrite (bind_run _ _ _ _ _ (kind_Ok _ _ _ Hn)), Hk.
  rewrite bool_decide_eq_true_2 by done. unfold JIT_ASSERT, bind at 1, ret.
  unfold g_attr. rewrite (bind_run _ _ _ _ _ (getNode_Ok _ _ _ Hn)).
  unfold subgraph_attr in Hs.
  destruct (find_attr kSubgraph (n_attrs nd)) as [[]|]; try done. by injection Hs as ->.
Qed.

(** X19.  [mergeNodeIntoGroup] checks the pairing of the inputs before it
    touches anything: on a group whose number of inputs differs from the
    number of inputs of its subgraph, merging a node that is not a fusion
    group raises the assertion
    [group->inputs().size() == subgraph.inputs().size()]. *)
Theorem mergeNodeIntoGroup_unpaired group n nd gd sg G pn st :
  nodes st !! n = Some nd →
  n_kind nd ≠ kFusionGroup →
  nodes st !! group = Some gd →
  is_group gd sg →
  graphs st !! sg = Some G →
  nodes st !! g_param G = Some pn →
  length (n_inputs gd) ≠ length (n_outputs pn) →
  mergeNodeIntoGroup group n st
  = Raise (JitAssert "group->inputs().size() == subgraph.inputs().size()").
Proof.
  intros Hn Hk Hg Hgs HG Hpn Hlen. unfold mergeNodeIntoGroup.
  rewrite (bind_run _ _ _ _ _ (kind_Ok _ _ _ Hn)).
  rewrite (bool_decide_eq_true_2 _ Hk). unfold JIT_ASSERT at 1, bind at 1, ret.
  rewrite (bind_run _ _ _ _ _ (getSubgraph_Ok _ _ _ _ Hg Hgs)).
  rewrite (bind_run _ _ _ _ _ (inputs_Ok _ _ _ Hg)).
  assert (Ei : graph_inputs sg st = Ok (n_outputs pn) st).
  { unfold graph_inputs. rewrite (bind_run _ _ _ _ _ (getGraph_Ok _ _ _ HG)).
    by apply outputs_Ok. }
  rewrite (bind_run _ _ _ _ _ Ei).
  by rewrite (bool_decide_eq_false_2 _ Hlen).
Qed.

Lemma mergeNodeIntoGroup_unpaired_witness :
  mergeNodeIntoGroup 12 10 (state_after graph_unpaired)
  = Raise (JitAssert "group->inputs().size() == subgraph.inputs().size()").
Proof.
  apply (mergeNodeIntoGroup_unpaired 12 10 (mkNode kmul [24; 5] [11] 0 [] 0)
           (mkNode kFusionGroup [3; 4; 5] [19; 24] 0 [(kSubgraph, AGraph 13)] 0)
           13 (mkGraph 15 14 [22; 17] 0) (mkNode kParam [] [20; 21] 0 [] 13)).
  - vm_compute. reflexivity.
  - done.
  - vm_compute. reflexivity.
  - split; reflexivity.
  - vm_compute. reflexivity.
  - vm_compute. reflexivity.
  - simpl. lia.
Defined.



(** ** The uses a fusion leaves *)

Lemma unused_uses_of s v : uses_of s v = [] → unused s v.
Proof.
  intros Hu m md Hm Hin. destruct (uses_of_elem _ _ _ _ Hm Hin) as (u & Hu' & _).
  rewrite Hu in Hu'. by apply elem_of_nil in Hu'.
Qed.

Lemma replace_in_notin v new ins : new ≠ v → v ∉ replace_in v new ins.
Proof.
  intros Hne. unfold replace_in. intros (x & Hx & _)%list_elem_of_fmap.
  case_decide; congruence.
Qed.

Lemma replaceAllUsesWith_unused v new st u st' :
  new ≠ v → replaceAllUsesWith v new st = Ok u st' → unused st' v.
Proof.
  intros Hne E. unfold replaceAllUsesWith in E.
  inv_bind E as x s E1. apply getValue_inv in E1 as [_ ->].
  inv_bind E as y s E2. apply getValue_inv in E2 as [_ ->].
  injection E as _ <-. intros m md Hm. simpl in Hm. rewrite lookup_fmap in Hm.
  destruct (nodes st !! m) as [md0|]; [|done]. injection Hm as <-. simpl.
  by apply replace_in_notin.
Qed.

Lemma destroy_unused n v st u st' :
  destroy n st = Ok u st' → unused st v → unused st' v.
Proof.
  unfold destroy. intros E Hu.
  inv_bind E as nd s1 E1. apply getNode_inv in E1 as [_ ->].
  inv_bind E as u1 s2 E2. apply except_eraseOutputs_down in E2 as (_ & Hx & _).
  inv_bind E as G s3 E3. apply getGraph_inv in E3 as [_ ->].
  inv_bind E as u2 s4 E4. injection E4 as _ <-. injection E as _ <-.
  intros m md Hm. simpl in Hm.
  apply lookup_delete_Some in Hm as [Hne Hm]. rewrite Hx in Hm by done.
  by eapply Hu.
Qed.

Lemma addOutput_fresh n st v st' : addOutput n st = Ok v st' → v = next st.
Proof.
  unfold addOutput. intros E.
  inv_bind E as nd s1 E1. apply getNode_inv in E1 as [_ ->].
  inv_bind E as w s2 E2. injection E2 as <- <-.
  inv_bind E as u1 s3 E3. inv_bind E as u2 s4 E4. by apply ret_Ok in E as [<- _].
Qed.



(** ** Groups inside groups *)

Lemma mergeFusionGroups_clone_group g pg m inner_nodes inner ind st :
  bounded st → inner ∈ inner_nodes →
  nodes st !! inner = Some ind → n_kind ind = kFusionGroup →
  wp (mergeFusionGroups_clone g pg m inner_nodes)
     (λ tm st', ∃ t, t ∈ tm.1 ∧ next st ≤ t ∧ live_group st' t) st.
Proof.
  revert m st ind. induction inner_nodes as [|x rest IH]; intros m st ind Hb Hin Hn Hk.
  { by apply elem_of_nil in Hin. }
  simpl. apply wp_intro. intros [temps' m'] st' E. simpl.
  inv_bind E as outer s1 E1.
  inv_bind E as u s2 E2. inv_bind E as io s E3. apply reads_outputs in E3 as ->.
  inv_bind E as oo s E4. apply reads_outputs in E4 as ->.
  inv_bind E as m2 s E5. apply reads_zip_into in E5 as ->.
  inv_bind E as tm s3 E6. destruct tm as [temps m3]. apply ret_Ok in E as [[= <- <-] <-].
  assert (A1 : rel_and static (rel_and keeps keeps_bounded) st s1).
  { split; [exact (static_createClone_map _ _ _ _ _ _ _ E1)|].
    split; [exact (keeps_createClone_map _ _ _ _ _ _ _ E1)
           | exact (bounded_createClone_map _ _ _ _ _ _ _ E1)]. }
  assert (A2 : rel_and static (rel_and keeps keeps_bounded) s1 s2).
  { split; [exact (static_insertBefore _ _ _ _ _ E2)|].
    split; [exact (keeps_insertBefore _ _ _ _ _ E2)
           | exact (bounded_insertBefore _ _ _ _ _ E2)]. }
  assert (A3 : rel_and static keeps s2 s3).
  { split; [exact (static_mergeFusionGroups_clone _ _ _ _ _ _ _ E6)
           | exact (keeps_mergeFusionGroups_clone _ _ _ _ _ _ _ E6)]. }
  destruct (transitivity A1 A2) as (S12 & K12 & L12 & B12).
  destruct A3 as (S3 & K3).
  destruct (decide (x = inner)) as [->|Hne].
  - pose proof (wp_Ok _ _ _ _ _ (createClone_kind _ _ _ _ _ _ Hn) E1)
      as (-> & Hlt & nd' & Hnd' & Hkd').
    exists (next st). split_and!; [apply list_elem_of_here | done |].
    destruct A1 as (S1 & K1 & _).
    eapply live_group_later; [exact S3 | exact K3 |].
    destruct A2 as (S2 & K2 & _).
    eapply live_group_later; [exact S2 | exact K2 |].
    split; [done|]. exists nd'. split; [done | congruence].
  - apply elem_of_cons in Hin as [?|Hin]; [done|].
    assert (Hilt : inner < next st) by (destruct Hb as (Bn & _); apply Bn; eauto).
    destruct (static_keeps_node _ _ _ _ S12 K12 Hn Hilt) as (ind2 & Hn2 & Hk2 & _).
    pose proof (wp_Ok _ _ _ _ _ (IH m2 s2 ind2 (B12 Hb) Hin Hn2 ltac:(congruence)) E6)
      as (t & Ht & Hlt & Hlive).
    exists t. split_and!; [by apply list_elem_of_further | simpl in *; lia | done].
Qed.

(** X21.  Groups inside groups cannot be merged.  When the subgraph of the
    producer group contains a node of kind [FusionGroup],
    [mergeFusionGroups] does not return: the copy of that node is put back
    into the outer graph, and inlining it into the consumer group fails the
    assertion [n->kind() != kFusionGroup] of [mergeNodeIntoGroup] (unless
    an earlier step has already raised). *)
Theorem mergeFusionGroups_nested cg pg psg G inner ind st :
  bounded st →
  getSubgraph pg st = Ok psg st →
  graphs st !! psg = Some G →
  inner ∈ g_nodes G →
  nodes st !! inner = Some ind →
  n_kind ind = kFusionGroup →
  ∃ e, mergeFusionGroups cg pg st = Raise e.
Proof.
  intros Hb Hsg HG Hin Hn Hk.
  destruct (mergeFusionGroups cg pg st) as [u st'|e] eqn:E; [exfalso | eauto].
  unfold mergeFusionGroups in E.
  rewrite (bind_run _ _ _ _ _ Hsg) in E.
  inv_bind E as ii s E2. apply reads_graph_inputs in E2 as ->.
  inv_bind E as oi s E3. apply reads_inputs in E3 as ->.
  inv_bind E as m0 s E4. apply reads_zip_into in E4 as ->.
  inv_bind E as g s E5. injection E5 as <- <-.
  inv_bind E as inner_nodes s E6. unfold graph_nodes in E6.
  rewrite (bind_run _ _ _ _ _ (getGraph_Ok _ _ _ HG)) in E6. apply ret_Ok in E6 as [<- <-].
  inv_bind E as tm s1 E7. destruct tm as [temps m].
  pose proof (wp_Ok _ _ _ _ _
                (mergeFusionGroups_clone_group _ _ _ _ _ _ _ Hb Hin Hn Hk) E7)
    as (t & Ht & Hlt & Hlive). simpl in Ht.
  apply getSubgraph_inv in Hsg as (_ & pd & Hpd & _).
  assert (Hplt : pg < next st) by (destruct Hb as (Bn & _); apply Bn; eauto).
  inv_bind E as so s E8. apply reads_graph_outputs in E8 as ->.
  inv_bind E as u1 s2 E9.
  pose proof (live_group_later _ _ _ (static_mergeFusionGroups_reroute _ _ _ _ _ _ _ E9)
                (keeps_mergeFusionGroups_reroute _ _ _ _ _ _ _ E9) Hlive) as Hlive2.
  inv_bind E as u2 s3 E10. destruct u2.
  pose proof (wp_Ok _ _ _ _ _ (live_group_destroy pg t s2 ltac:(lia) Hlive2) E10) as Hlive3.
  inv_bind E as csg s E11. apply reads_getSubgraph in E11 as ->.
  refine (wp_Ok _ _ _ _ _ (mergeFusionGroups_inline_stops _ _ _ t _ _ Hlive3) E).
  apply list_elem_of_In, in_rev. rewrite rev_involutive. by apply list_elem_of_In.
Qed.

Lemma mergeFusionGroups_nested_witness :
  let st := state_after graph_nested in
  mergeFusionGroups 11 3 st = Raise (JitAssert "n->kind() != kFusionGroup")
  ∧ ∃ e, mergeFusionGroups 11 3 st = Raise e.
Proof.
  intros st. split; [vm_compute; reflexivity|].
  apply (mergeFusionGroups_nested 11 3 4 (mkGraph 6 5 [7] 0) 7
           (mkNode kFusionGroup [] [] 0 [(kSubgraph, AGraph 8)] 4) st).
  - apply bounded_check. vm_compute. reflexivity.
  - vm_compute. reflexivity.
  - vm_compute. reflexivity.
  - apply list_elem_of_here.
  - vm_compute. reflexivity.
  - reflexivity.
Defined.

(** ** The place of a new group *)

Lemma insert_before_split n m l l' :
  insert_before n m l = Some l' →
  ∃ l1 l2, l = l1 ++ m :: l2 ∧ (m ∉ l1) ∧ l' = l1 ++ n :: m :: l2.
Proof.
  revert l'. induction l as [|x l IH]; intros l' H; simpl in H; [done|].
  case_decide as Hx.
  - injection H as <-. subst x. exists [], l. split_and!; [done | apply not_elem_of_nil | done].
  - destruct (insert_before n m l) as [l0|] eqn:E; [|done]. injection H as <-.
    destruct (IH _ eq_refl) as (l1 & l2 & -> & Hm & ->).
    exists (x :: l1), l2. split_and!; [done | | done].
    intros [?|?]%elem_of_cons; [congruence | done].
Qed.

Lemma split_first_unique (m : nat) l1 l2 k1 k2 :
  l1 ++ m :: l2 = k1 ++ m :: k2 → m ∉ l1 → m ∉ k1 → l1 = k1 ∧ l2 = k2.
Proof.
  revert k1. induction l1 as [|x l1 IH]; intros [|y k1] H H1 H2; simpl in H.
  - by injection H as <-.
  - injection H as <- _. exfalso. apply H2. apply list_elem_of_here.
  - injection H as -> _. exfalso. apply H1. apply list_elem_of_here.
  - injection H as <- H. apply not_elem_of_cons in H1 as [_ H1].
    apply not_elem_of_cons in H2 as [_ H2]. destruct (IH _ H H1 H2) as [-> ->]. done.
Qed.

Lemma remove_id_middle (n : nat) l1 l2 : n ∉ l1 → remove_id n (l1 ++ n :: l2) = l1 ++ l2.
Proof.
  induction l1 as [|x l1 IH]; intros H; simpl.
  - by rewrite decide_True.
  - apply not_elem_of_cons in H as [Hne H]. rewrite decide_False by done.
    by rewrite IH.
Qed.

Lemma insertBefore_inv n m st u st' :
  insertBefore n m st = Ok u st' →
  ∃ md G l, nodes st !! m = Some md ∧ graphs st !! n_graph md = Some G
    ∧ insert_before n m (g_nodes G) = Some l
    ∧ st' = set_graphs <[n_graph md := with_nodes l G]> st.
Proof.
  unfold insertBefore. intros E.
  inv_bind E as nd s E1. apply getNode_inv in E1 as [_ ->].
  inv_bind E as md s E2. apply getNode_inv in E2 as [Hm ->].
  inv_bind E as G s E3. apply getGraph_inv in E3 as [HG ->].
  inv_bind E as l s E4. destruct (insert_before n m (g_nodes G)) as [l0|] eqn:Hl; [|done].
  apply ret_Ok in E4 as [<- <-]. injection E as _ <-. eauto 10.
Qed.

Lemma destroy_inv n st u st' :
  destroy n st = Ok u st' →
  ∃ nd G, nodes st !! n = Some nd
    ∧ graphs st !! n_graph nd = Some G
    ∧ graphs st' = <[n_graph nd := with_nodes (remove_id n (g_nodes G)) G]> (graphs st).
Proof.
  unfold destroy. intros E.
  inv_bind E as nd s1 E1. apply getNode_inv in E1 as [Hn ->].
  inv_bind E as u1 s2 E2.
  assert (Hg : graphs s2 = graphs st).
  { refine ((_ : steps graphs_kept _) _ _ _ E2).
    generalize (length (n_outputs nd)). intros k. induction k; simpl; solve_steps. }
  inv_bind E as G s3 E3. apply getGraph_inv in E3 as [HG ->].
  inv_bind E as u2 s4 E4. injection E4 as _ <-. injection E as _ <-.
  rewrite Hg in HG. exists nd, G. split_and!; [done..|]. simpl. by rewrite Hg.
Qed.

Lemma gk_replaceAllUsesWith_each outs news :
  steps graphs_kept (replaceAllUsesWith_each outs news).
Proof.
  revert news. induction outs as [|o outs IH]; intros [|w news]; simpl; solve_steps.
Qed.
#[global] Hint Resolve gk_replaceAllUsesWith_each : steps.
Lemma gk_replaceAllUsesWith_node n m : steps graphs_kept (replaceAllUsesWith_node n m).
Proof. unfold replaceAllUsesWith_node. solve_steps. Qed.
#[global] Hint Resolve gk_replaceAllUsesWith_node : steps.

(** A merge writes the group's subgraph and no other graph record. *)
Lemma mergeNodeIntoGroup_graphs group n st r st' :
  mergeNodeIntoGroup group n st = Ok r st' →
  ∃ sg, getSubgraph group st = Ok sg st
        ∧ ∀ x, x ≠ sg → graphs st' !! x = graphs st !! x.
Proof.
  intros E. unfold mergeNodeIntoGroup in E.
  inv_bind E as k s Ek. apply reads_kind in Ek as ->.
  inv_bind E as u s Ea. apply reads_JIT_ASSERT in Ea as ->.
  inv_bind E as sg s Es. pose proof (reads_getSubgraph _ _ _ _ Es) as ->.
  exists sg. split; [done|].
  inv_bind E as gins s E1. apply reads_inputs in E1 as ->.
  inv_bind E as sins s E2. apply reads_graph_inputs in E2 as ->.
  inv_bind E as u2 s E3. apply reads_JIT_ASSERT in E3 as ->.
  inv_bind E as im0 s E4. apply reads_zip_into in E4 as ->.
  inv_bind E as nins s E5. apply reads_inputs in E5 as ->.
  inv_bind E as im s1 E6. apply gk_mergeNodeIntoGroup_inputs in E6.
  inv_bind E as in_graph s2 E7. apply gk_createClone_map in E7.
  inv_bind E as inputs s E8. apply reads_inputs in E8 as ->.
  inv_bind E as nout s E9. apply reads_output in E9 as ->.
  assert (Hrest : ∃ s3, graphs s3 = graphs s2 ∧ prependNode sg in_graph s3 = Ok r st').
  { destruct (index_of nout inputs) as [p|].
    - inv_bind E as u3 s3 E10. apply gk_removeInput in E10.
      inv_bind E as sins' s E11. apply reads_graph_inputs in E11 as ->.
      inv_bind E as sp s E12. apply reads_liftOpt in E12 as ->.
      inv_bind E as o s E13. apply reads_output in E13 as ->.
      inv_bind E as u4 s4 E14. apply gk_replaceAllUsesWith in E14.
      inv_bind E as u5 s5 E15. apply gk_eraseInput in E15.
      exists s5. split; [|done]. unfold graphs_kept in *. congruence.
    - exists s2. done. }
  destruct Hrest as (s3 & Hg3 & Ep).
  unfold prependNode in Ep.
  inv_bind Ep as x s Ex. apply getNode_inv in Ex as [_ ->].
  inv_bind Ep as G s EG. apply getGraph_inv in EG as [HG ->].
  inv_bind Ep as u6 s6 Eput. injection Eput as _ <-. apply ret_Ok in Ep as [_ <-].
  intros y Hy. simpl. rewrite lookup_insert_ne by done.
  unfold graphs_kept in *. congruence.
Qed.

Lemma createFusionGroup_graphs g st grp s1 :
  createFusionGroup g st = Ok grp s1 →
  grp = next st
  ∧ nodes s1 !! grp = Some (mkNode kFusionGroup [] [] (default 0 (g_stage <$> graphs st !! g))
                              [(kSubgraph, AGraph (S (next st)))] g)
  ∧ ∀ x, x ≠ S (next st) → graphs s1 !! x = graphs st !! x.
Proof.
  intros E. unfold createFusionGroup, newGraph, create in E. simpl in E.
  inv_bind E as n s E1. inv_bind E1 as G s0 E2. apply getGraph_inv in E2 as [HG ->].
  inv_bind E1 as r0 s0 E3. injection E3 as <- <-.
  inv_bind E1 as u0 s0 E4. injection E4 as _ <-.
  inv_bind E1 as u1 s0 E5. apply ret_Ok in E5 as [_ <-]. apply ret_Ok in E1 as [<- <-].
  inv_bind E as sg s E6.
  inv_bind E6 as g' s0 E7. injection E7 as <- <-. simpl in E6.
  inv_bind E6 as u2 s0 E8. injection E8 as _ <-. simpl in E6.
  inv_bind E6 as r s0 E9. inv_bind E9 as G1 s' E10. apply getGraph_inv in E10 as [HG1 ->].
  inv_bind E9 as r1 s' E11. injection E11 as <- <-.
  inv_bind E9 as u3 s' E12. injection E12 as _ <-.
  inv_bind E9 as u4 s' E13. apply ret_Ok in E13 as [_ <-]. apply ret_Ok in E9 as [<- <-].
  simpl in E6.
  inv_bind E6 as p s0 E14. inv_bind E14 as G2 s' E15. apply getGraph_inv in E15 as [HG2 ->].
  inv_bind E14 as r2 s' E16. injection E16 as <- <-.
  inv_bind E14 as u5 s' E17. injection E17 as _ <-.
  inv_bind E14 as u6 s' E18. apply ret_Ok in E18 as [_ <-]. apply ret_Ok in E14 as [<- <-].
  simpl in E6.
  inv_bind E6 as u7 s0 E19. injection E19 as _ <-. apply ret_Ok in E6 as [<- <-].
  inv_bind E as nd s0 E20. apply getNode_inv in E20 as [Hnd ->]. simpl in Hnd.
  rewrite !lookup_insert_ne in Hnd by lia. rewrite lookup_insert_eq in Hnd.
  injection Hnd as <-.
  inv_bind E as u8 s0 E21. injection E21 as _ <-. apply ret_Ok in E as [<- <-].
  simpl. split_and!; [done | | ].
  - rewrite lookup_insert_eq. by rewrite HG.
  - intros x Hx. by rewrite !lookup_insert_ne by done.
Qed.

(** The new group stands in the node list where the node stood. *)
Lemma createSingletonFusionGroup_list n nd G st g st' :
  bounded st →
  nodes st !! n = Some nd →
  graphs st !! n_graph nd = Some G →
  createSingletonFusionGroup n st = Ok g st' →
  ∃ l1 l2, g_nodes G = l1 ++ n :: l2 ∧ (n ∉ l1)
    ∧ graphs st' !! n_graph nd = Some (with_nodes (l1 ++ g :: l2) G).
Proof.
  intros Hb Hn HG E.
  pose proof Hb as (Bn & _ & Bg).
  assert (Hnlt : n < next st) by (apply Bn; eauto).
  assert (Hglt : n_graph nd < next st) by (apply Bg; eauto).
  unfold createSingletonFusionGroup in E.
  inv_bind E as g0 s Eg. injection Eg as <- <-.
  inv_bind E as group s1 Ec.
  pose proof (static_createFusionGroup _ _ _ _ Ec) as S1.
  destruct (createFusionGroup_graphs _ _ _ _ Ec) as (-> & Hgrp & Hg1).
  inv_bind E as i s2 Ei. pose proof (static_index_at _ _ _ _ Ei) as Si.
  assert (Hs2 : nodes s2 = nodes s1 ∧ graphs s2 = graphs s1 ∧ next s2 = next s1).
  { unfold index_at in Ei. destruct (topological_index s1 !! n); by injection Ei as _ <-. }
  destruct Hs2 as (Hn2 & Hg2 & Hx2).
  inv_bind E as u s3 Es. pose proof (static_index_set _ _ _ _ _ Es) as Sx.
  unfold index_set, modify in Es. injection Es as _ <-.
  inv_bind E as u1 s4 Eb. pose proof (static_insertBefore _ _ _ _ _ Eb) as Sb.
  apply insertBefore_inv in Eb as (md & G3 & l & Hmd & HG3 & Hl3 & ->).
  simpl in Hmd, HG3. rewrite Hn2 in Hmd. rewrite Hg2 in HG3.
  destruct (static_node _ _ _ _ _ S1 Hn Hnlt Hmd) as (_ & _ & Hgr).
  rewrite Hgr in *. rewrite Hg1 in HG3 by lia. rewrite HG in HG3. injection HG3 as <-.
  destruct (insert_before_split _ _ _ _ Hl3) as (l1 & l2 & Hl & Hn1 & ->).
  set (s4 := set_graphs <[n_graph nd := with_nodes (l1 ++ next st :: n :: l2) G]>
               (set_index <[next st := i]> s2)) in *.
  assert (Hsub : getSubgraph (next st) s4 = Ok (S (next st)) s4).
  { eapply getSubgraph_Ok.
    - unfold s4. simpl. rewrite Hn2. exact Hgrp.
    - split; [done|]. reflexivity. }
  inv_bind E as merged s5 Em.
  destruct (mergeNodeIntoGroup_graphs _ _ _ _ _ Em) as (sg & Hsg & Hg5).
  rewrite Hsub in Hsg. injection Hsg as <-.
  pose proof (static_mergeNodeIntoGroup _ _ _ _ _ Em) as S5.
  assert (HG5 : graphs s5 !! n_graph nd = Some (with_nodes (l1 ++ next st :: n :: l2) G)).
  { rewrite Hg5 by lia. subst s4. simpl. apply lookup_insert_eq. }
  inv_bind E as sg s Esg. apply reads_getSubgraph in Esg as ->.
  inv_bind E as mo s Emo. apply reads_output in Emo as ->.
  inv_bind E as u3 s6 E6. pose proof (static_registerOutput _ _ _ _ _ E6) as S6.
  apply gk_registerOutput in E6.
  inv_bind E as sel s7 E7. pose proof (static_addOutput _ _ _ _ E7) as S7.
  apply gk_addOutput in E7.
  inv_bind E as no s Eno. apply reads_output in Eno as ->.
  inv_bind E as u4 s8 E8. pose proof (static_copyMetadata _ _ _ _ _ E8) as S8.
  apply gk_copyMetadata in E8.
  inv_bind E as u5 s9 E9. pose proof (static_replaceAllUsesWith_node _ _ _ _ _ E9) as S9.
  apply gk_replaceAllUsesWith_node in E9.
  inv_bind E as u6 s10 E10. apply ret_Ok in E as [<- <-].
  apply destroy_inv in E10 as (nd9 & G9 & Hn9 & HG9 & ->).
  assert (S19 : static s1 s9).
  { assert (S14 : static s1 s4) by (etrans; [exact Si|]; etrans; [exact Sx | exact Sb]).
    etrans; [exact S14|]. etrans; [exact S5|]. etrans; [exact S6|].
    etrans; [exact S7|]. etrans; [exact S8 | exact S9]. }
  assert (Hnlt1 : n < next s1) by (destruct S1 as (L1 & _); lia).
  pose proof Hmd as Hn1'.
  destruct (static_node _ _ _ _ _ S19 Hn1' Hnlt1 Hn9) as (_ & _ & Hgr9).
  rewrite Hgr9, Hgr in *.
  unfold graphs_kept in *. rewrite E9, E8, E7, E6, HG5 in HG9. injection HG9 as <-.
  exists l1, l2. split_and!; [done..|].
  rewrite lookup_insert_eq. f_equal. unfold with_nodes. simpl. f_equal.
  change (l1 ++ next st :: n :: l2) with (l1 ++ [next st] ++ n :: l2).
  rewrite app_assoc. rewrite remove_id_middle.
  - by rewrite <- app_assoc.
  - intros [?|H1]%elem_of_app; [done|]. apply list_elem_of_singleton in H1. lia.
Qed.




(** ** A chunk move over a fusion group *)

(** X23.  A chunk move copies the [Subgraph] attribute, it does not clone
    the subgraph.  When the node that feeds the split is a fusion group
    with one output and the split has at least two outputs, the chunk move
    succeeds and leaves at least two distinct live fusion groups that own
    one and the same subgraph: the heap no longer has one subgraph per
    group. *)
Theorem tryToMoveChunk_shares_subgraph consumer producer chunk op cd od sg st :
  chunk_pattern st consumer producer →
  chunk_movable st consumer producer chunk op cd od →
  is_group od sg →
  2 ≤ length (n_outputs cd) →
  ∃ st', tryToMoveChunk consumer producer st = Ok true st'
    ∧ (∃ n1 n2 nd1 nd2, n1 ≠ n2
         ∧ nodes st' !! n1 = Some nd1 ∧ nodes st' !! n2 = Some nd2
         ∧ is_group nd1 sg ∧ is_group nd2 sg)
    ∧ ¬ unshared st'.
Proof.
  intros Hp Hm [Hk Hs] Hlen.
  destruct (twp_elim _ _ _ (tryToMoveChunk_moves _ _ _ _ _ _ _ Hp Hm))
    as (b & st' & E & -> & splits & rows & ops & outs & _ & _ & _ & Hops & _ & Hnd).
  exists st'. split; [done|].
  assert (Htwo : ∃ n1 n2 nd1 nd2, n1 ≠ n2
            ∧ nodes st' !! n1 = Some nd1 ∧ nodes st' !! n2 = Some nd2
            ∧ is_group nd1 sg ∧ is_group nd2 sg).
  { destruct Hops as [|sel1 o1 out1 sels ops outs H1 Hops]; [simpl in Hlen; lia|].
    destruct Hops as [|sel2 o2 out2 sels ops outs H2 Hops]; [simpl in Hlen; lia|].
    destruct H1 as (_ & _ & nd1 & ? & ? & Hn1 & Hk1 & Ha1 & _).
    destruct H2 as (_ & _ & nd2 & ? & ? & Hn2 & Hk2 & Ha2 & _).
    exists o1, o2, nd1, nd2. split_and!; [|done|done| |].
    - apply NoDup_cons in Hnd as [Hnotin _]. intros ->. apply Hnotin, list_elem_of_here.
    - split; [congruence | by rewrite Ha1].
    - split; [congruence | by rewrite Ha2]. }
  split; [exact Htwo|].
  destruct Htwo as (n1 & n2 & nd1 & nd2 & Hne & Hn1 & Hn2 & Hg1 & Hg2).
  intros Hun. apply Hne. by eapply Hun.
Qed.

Lemma tryToMoveChunk_shares_subgraph_witness :
  let st := state_after graph_split_of_single in
  let cd := mkNode ksplit [21] [10; 11] 0 [] 0 in
  let od := mkNode kFusionGroup [3; 4] [21] 0 [(kSubgraph, AGraph 15)] 0 in
  ∃ st', tryToMoveChunk 12 10 st = Ok true st'
    ∧ (∃ n1 n2 nd1 nd2, n1 ≠ n2
         ∧ nodes st' !! n1 = Some nd1 ∧ nodes st' !! n2 = Some nd2
         ∧ is_group nd1 15 ∧ is_group nd2 15)
    ∧ ¬ unshared st'.
Proof.
  intros st cd od.
  assert (Hu21 : uses_of st 21 = [mkUse 9 0]) by (vm_compute; reflexivity).
  assert (Hu10 : uses_of st 10 = [mkUse 12 0]) by (vm_compute; reflexivity).
  assert (Hu11 : uses_of st 11 = [mkUse 12 1]) by (vm_compute; reflexivity).
  assert (Hp : chunk_pattern st 12 10).
  { exists (mkValue 9 (Some float_cuda)), cd, 21, (mkValue 14 (Some float_cuda)).
    split_and!; try (vm_compute; reflexivity).
    - eexists. vm_compute. reflexivity.
    - intros u. rewrite Hu21. by intros ->%list_elem_of_singleton.
    - intros sel u [->|[->|[]%elem_of_nil]%elem_of_cons]%elem_of_cons.
      + rewrite Hu10. by intros ->%list_elem_of_singleton.
      + rewrite Hu11. by intros ->%list_elem_of_singleton. }
  assert (Hm : chunk_movable st 12 10 9 14 cd od).
  { split_and!; try (vm_compute; reflexivity).
    - apply bounded_check. vm_compute. reflexivity.
    - eexists. split; vm_compute; reflexivity.
    - exists 21, (mkValue 14 (Some float_cuda)). split_and!; vm_compute; reflexivity.
    - exists (mkGraph 2 1 [14; 9; 12] 0). split; [vm_compute; reflexivity|].
      apply list_elem_of_further, list_elem_of_here.
    - apply (bool_decide_unpack _). vm_compute. reflexivity.
    - repeat constructor; try (eexists; split; vm_compute; reflexivity);
        eexists; vm_compute; reflexivity.
    - repeat constructor; eexists; vm_compute; reflexivity.
    - discriminate. }
  apply (tryToMoveChunk_shares_subgraph 12 10 9 14 cd od 15 st Hp Hm).
  - split; reflexivity.
  - simpl. lia.
Defined.

(** ** The node list after a fusion *)

Lemma replace_id_middle (n g : nat) l1 l2 :
  n ∉ l1 → replace_id n g (l1 ++ n :: l2) = l1 ++ g :: l2.
Proof.
  induction l1 as [|x l1 IH]; intros H; simpl.
  - by rewrite decide_True.
  - apply not_elem_of_cons in H as [Hne H]. rewrite decide_False by done.
    by rewrite IH.
Qed.

(** X22.  The new group takes the place of the node.  When
    [createSingletonFusionGroup(n)] returns the group [g], [g] is a newly
    allocated live fusion group, [n] has been destroyed, and the node list
    of the graph of [n] is the old list with [n] replaced by [g]; nothing
    else about that graph record has changed. *)
Theorem createSingletonFusionGroup_replaces n nd G st g st' :
  bounded st →
  nodes st !! n = Some nd →
  graphs st !! n_graph nd = Some G →
  createSingletonFusionGroup n st = Ok g st' →
  g = next st
  ∧ n ∈ g_nodes G
  ∧ nodes st' !! n = None
  ∧ (∃ gd, nodes st' !! g = Some gd ∧ n_kind gd = kFusionGroup)
  ∧ graphs st' !! n_graph nd = Some (with_nodes (replace_id n g (g_nodes G)) G).
Proof.
  intros Hb Hn HG E.
  pose proof (wp_Ok _ _ _ _ _ (createSingletonFusionGroup_group n st) E)
    as (-> & _ & gd & Hgd & Hk & _).
  destruct (createSingletonFusionGroup_list _ _ _ _ _ _ Hb Hn HG E)
    as (l1 & l2 & Hl & Hn1 & HG').
  split_and!; [done | | | by exists gd |].
  - rewrite Hl. apply elem_of_app. right. apply list_elem_of_here.
  - unfold createSingletonFusionGroup in E.
    inv_bind E as g0 s Eg0. inv_bind E as grp s2 Ec.
    inv_bind E as i s3 Ei. inv_bind E as u s4 Es.
    inv_bind E as u1 s5 Eb. inv_bind E as mn s6 Em.
    inv_bind E as sg s7 E7. inv_bind E as mo s8 E8. inv_bind E as u3 s9 E9.
    inv_bind E as sel s10 E10. inv_bind E as no s11 E11. inv_bind E as u4 s12 E12.
    inv_bind E as u5 s13 E13. inv_bind E as u6 s14 E14.
    apply ret_Ok in E as [_ <-]. by eapply destroy_gone.
  - rewrite HG', Hl. by rewrite replace_id_middle.
Qed.

Lemma createSingletonFusionGroup_replaces_witness :
  let st := state_after graph_S3 in
  ∃ g st', createSingletonFusionGroup 8 st = Ok g st'
    ∧ g = next st
    ∧ 8 ∈ [6; 8; 10]
    ∧ nodes st' !! 8 = None
    ∧ (∃ gd, nodes st' !! g = Some gd ∧ n_kind gd = kFusionGroup)
    ∧ graphs st' !! 0 = Some (mkGraph 2 1 [6; g; 10] 0).
Proof.
  intros st. eexists _, _. split; [vm_compute; reflexivity|].
  eapply (createSingletonFusionGroup_replaces 8 (mkNode kneg [7] [9] 0 [] 0)
            (mkGraph 2 1 [6; 8; 10] 0) st).
  - apply bounded_check. vm_compute. reflexivity.
  - vm_compute. reflexivity.
  - vm_compute. reflexivity.
  - vm_compute. reflexivity.
Defined.

#[global] Instance attrs_kept_preorder N : PreOrder (attrs_kept N).
Proof.
  split.
  - intros st HN. split; [done|]. eauto.
  - intros s1 s2 s3 H12 H23 HN. destruct (H12 HN) as [HN2 A12].
    destruct (H23 HN2) as [HN3 A23]. split; [done|].
    intros m nd3 E3 Hm. destruct (A23 m nd3 E3 Hm) as (nd2 & E2 & ?).
    destruct (A12 m nd2 E2 Hm) as (nd1 & E1 & ?). exists nd1. split; [done | congruence].
Qed.

Ltac attrs_nodes :=
  let HN := fresh "HN" in
  let m := fresh "m" in
  let nd' := fresh "nd'" in
  let Hm := fresh "Hm" in
  let Hlt := fresh "Hlt" in
  intros HN; simpl in *; split; [try lia|];
  intros m nd' Hm Hlt; simpl in *;
  repeat match type of Hm with
         | <[?n := _]> _ !! m = Some _ =>
             rewrite lookup_insert in Hm; case_decide; simplify_eq
         | delete ?n _ !! m = Some _ =>
             rewrite lookup_delete in Hm; case_decide; simplify_eq
         | (_ <$> _) !! m = Some _ =>
             rewrite lookup_fmap in Hm;
             apply fmap_Some in Hm as (? & Hm & ->)
         end;
  try lia; eauto 10.
Ltac attrs_prim := apply steps_wp; intros ?; wp_steps; attrs_nodes.

Lemma ak_addOutput N n : steps (attrs_kept N) (addOutput n).
Proof. unfold addOutput. attrs_prim. Qed.
Lemma ak_addInput N n v : steps (attrs_kept N) (addInput n v).
Proof. unfold addInput. attrs_prim. Qed.
Lemma ak_removeInput N n i : steps (attrs_kept N) (removeInput n i).
Proof. unfold removeInput. attrs_prim. Qed.
Lemma ak_setType N v t : steps (attrs_kept N) (setType v t).
Proof. unfold setType. attrs_prim. Qed.
Lemma ak_replaceAllUsesWith N v new : steps (attrs_kept N) (replaceAllUsesWith v new).
Proof. unfold replaceAllUsesWith. attrs_prim. Qed.
Lemma ak_insertBefore N n m : steps (attrs_kept N) (insertBefore n m).
Proof. unfold insertBefore. attrs_prim. Qed.
Lemma ak_prependNode N g n : steps (attrs_kept N) (prependNode g n).
Proof. unfold prependNode. attrs_prim. Qed.
Lemma ak_index_at N n : steps (attrs_kept N) (index_at n).
Proof.
  intros st i st' E. unfold index_at in E.
  destruct (topological_index st !! n); injection E as _ <-; intros HN; eauto.
Qed.
Lemma ak_index_set N n i : steps (attrs_kept N) (index_set n i).
Proof. unfold index_set. attrs_prim. Qed.
Lemma ak_modify_values N o : steps (attrs_kept N) (modify (set_values (delete o))).
Proof. attrs_prim. Qed.
Lemma ak_modify_delete_node N n : steps (attrs_kept N) (modify (set_nodes (delete n))).
Proof. attrs_prim. Qed.
Lemma ak_putGraph N g G : steps (attrs_kept N) (putGraph g G).
Proof. attrs_prim. Qed.
#[global] Hint Resolve ak_addOutput ak_addInput ak_removeInput ak_setType
  ak_replaceAllUsesWith ak_insertBefore ak_prependNode ak_index_at ak_index_set
  ak_modify_values ak_modify_delete_node ak_putGraph : steps.
Lemma ak_copyMetadata N v from : steps (attrs_kept N) (copyMetadata v from).
Proof. unfold copyMetadata. solve_steps. Qed.
#[global] Hint Resolve ak_copyMetadata : steps.
Lemma ak_replaceAllUsesWith_each N outs news :
  steps (attrs_kept N) (replaceAllUsesWith_each outs news).
Proof.
  revert news. induction outs as [|o outs IH]; intros [|w news]; simpl; solve_steps.
Qed.
#[global] Hint Resolve ak_replaceAllUsesWith_each : steps.
Lemma ak_replaceAllUsesWith_node N n m : steps (attrs_kept N) (replaceAllUsesWith_node n m).
Proof. unfold replaceAllUsesWith_node. solve_steps. Qed.
Lemma ak_eraseOutput N n i : steps (attrs_kept N) (eraseOutput n i).
Proof.
  unfold eraseOutput. apply steps_wp. intros st. wp_steps.
  apply wp_reads; [solve_reads|]. intros us _. wp_steps. attrs_nodes.
Qed.
#[global] Hint Resolve ak_replaceAllUsesWith_node ak_eraseOutput : steps.
Lemma ak_eraseOutputs_down N n k : steps (attrs_kept N) (eraseOutputs_down n k).
Proof. induction k; simpl; solve_steps. Qed.
#[global] Hint Resolve ak_eraseOutputs_down : steps.
Lemma ak_destroy N n : steps (attrs_kept N) (destroy n).
Proof. unfold destroy. solve_steps. Qed.
Lemma ak_Graph_addInput N g : steps (attrs_kept N) (Graph_addInput g).
Proof. unfold Graph_addInput. solve_steps. Qed.
Lemma ak_registerOutput N g v : steps (attrs_kept N) (registerOutput g v).
Proof. unfold registerOutput. solve_steps. Qed.
Lemma ak_eraseInput N g i : steps (attrs_kept N) (eraseInput g i).
Proof. unfold eraseInput. solve_steps. Qed.
#[global] Hint Resolve ak_destroy ak_Graph_addInput ak_registerOutput ak_eraseInput : steps.
Lemma ak_mergeNodeIntoGroup_inputs N group subgraph m ins :
  steps (attrs_kept N) (mergeNodeIntoGroup_inputs group subgraph m ins).
Proof. revert m. induction ins as [|i ins IH]; intros m; simpl; solve_steps. Qed.
#[global] Hint Resolve ak_mergeNodeIntoGroup_inputs : steps.

(** A clone is a new node: its attributes are written above [N]. *)
Lemma ak_createClone_map N g n (m : gmap nat nat) e :
  steps (attrs_kept N) (createClone g n (λ k, liftOpt (m !! k) e)).
Proof.
  intros st r st' E HN. unfold createClone, create in E.
  inv_bind E as nd0 s E0. apply getNode_inv in E0 as [_ ->].
  inv_bind E as r0 s1 E1. inv_bind E1 as G s E2. apply getGraph_inv in E2 as [_ ->].
  inv_bind E1 as r1 s E3. injection E3 as <- <-.
  inv_bind E1 as u s2 E4. injection E4 as _ <-.
  inv_bind E1 as u2 s3 E5. apply ret_Ok in E1 as [<- <-].
  simpl in E5. apply ret_Ok in E5 as [_ <-].
  set (sa := set_nodes <[next st := mkNode (n_kind nd0) [] [] (g_stage G) [] g]>
               (set_next (S (next st)) st)) in *.
  assert (A0 : attrs_kept N st sa).
  { subst sa. attrs_nodes. }
  inv_bind E as u3 sb E6.
  assert (A1 : attrs_kept N sa sb).
  { refine ((_ : steps (attrs_kept N) _) _ _ _ E6). solve_steps. }
  inv_bind E as u4 sc E7.
  assert (A2 : attrs_kept N sb sc).
  { unfold copyAttributes in E7.
    inv_bind E7 as x s E8. apply getNode_inv in E8 as [Hx ->].
    inv_bind E7 as y s E9. apply getNode_inv in E9 as [Hy ->].
    injection E7 as _ <-. attrs_nodes. }
  inv_bind E as u5 sd E10. apply ret_Ok in E as [_ <-].
  assert (A3 : attrs_kept N sc sd).
  { refine ((_ : steps (attrs_kept N) _) _ _ _ E10). solve_steps. }
  exact (transitivity A0 (transitivity A1 (transitivity A2 A3)) HN).
Qed.
#[global] Hint Resolve ak_createClone_map : steps.
Lemma ak_mergeNodeIntoGroup N group n : steps (attrs_kept N) (mergeNodeIntoGroup group n).
Proof. unfold mergeNodeIntoGroup. solve_steps. Qed.
#[global] Hint Resolve ak_mergeNodeIntoGroup : steps.

Lemma createSingletonFusionGroup_subgraph n st g st' :
  createSingletonFusionGroup n st = Ok g st' →
  g = next st ∧ ∃ gd, nodes st' !! g = Some gd ∧ is_group gd (S (next st)).
Proof.
  intros E.
  pose proof (wp_Ok _ _ _ _ _ (createSingletonFusionGroup_group n st) E)
    as (-> & _ & gd & Hgd & Hk & _).
  split; [done|]. exists gd. split; [done|]. split; [done|].
  unfold createSingletonFusionGroup in E.
  inv_bind E as g0 s Eg. injection Eg as <- <-.
  inv_bind E as group s1 Ec.
  pose proof (wp_Ok _ _ _ _ _ (createFusionGroup_spec (graph st) st) Ec) as (_ & Hlt & _).
  destruct (createFusionGroup_graphs _ _ _ _ Ec) as (-> & Hgrp & _).
  assert (A : attrs_kept (S (next st)) s1 st').
  { refine ((_ : steps (attrs_kept _) _) _ _ _ E). solve_steps. }
  destruct (A ltac:(lia)) as [_ A'].
  destruct (A' _ _ Hgd ltac:(lia)) as (nd & Hnd & Ha).
  rewrite Hgrp in Hnd. injection Hnd as <-. rewrite Ha. reflexivity.
Qed.

(** X24.  The node list after a fusion.  When [fuse(consumer, producer)]
    returns [g], the producing node was not a fusion group and stood in the
    graph of the consumer, the node list of that graph is the old one with
    the consumer replaced by [g] (unless the consumer was a group already,
    which stays where it is) and the producing node removed; the rest of
    the graph record is as before.  A consumer that is a group must not
    have the graph it stands in as its own subgraph. *)
Theorem fuse_node_list consumer producer cnd pv pd G st g st' :
  bounded st →
  nodes st !! consumer = Some cnd →
  values st !! producer = Some pv →
  nodes st !! v_node pv = Some pd →
  n_kind pd ≠ kFusionGroup →
  n_graph cnd = n_graph pd →
  graphs st !! n_graph pd = Some G →
  (∀ sg, is_group cnd sg → sg ≠ n_graph pd) →
  fuse consumer producer st = Ok g st' →
  graphs st' !! n_graph pd =
    Some (with_nodes
            (remove_id (v_node pv)
               (if decide (n_kind cnd = kFusionGroup) then g_nodes G
                else replace_id consumer g (g_nodes G))) G).
Proof.
  intros Hb Hc Hp Hpd Hk Hgr HG Hsg E.
  pose proof Hb as (Bn & Bv & Bg).
  assert (Hplt : producer < next st) by (apply Bv; eauto).
  assert (Hnlt : v_node pv < next st) by (apply Bn; eauto).
  assert (Hglt : n_graph pd < next st) by (apply Bg; eauto).
  unfold fuse in E.
  inv_bind E as k s Ek. apply kind_inv in Ek as (-> & cnd' & Hc' & <-).
  rewrite Hc in Hc'. injection Hc' as <-.
  inv_bind E as group s1 Eg.
  set (L := if decide (n_kind cnd = kFusionGroup) then g_nodes G
            else replace_id consumer group (g_nodes G)).
  assert (H1 : static st s1
               ∧ graphs s1 !! n_graph pd = Some (with_nodes L G)
               ∧ ∀ sg, getSubgraph group s1 = Ok sg s1 → sg ≠ n_graph pd).
  { subst L. destruct (decide (n_kind cnd = kFusionGroup)) as [Hkc|Hkc].
    - rewrite bool_decide_eq_false_2 in Eg by tauto.
      apply ret_Ok in Eg as [<- <-]. split_and!; [reflexivity | by destruct G |].
      intros sg Es. apply getSubgraph_inv in Es as (_ & nd & Hnd & Hkn & Hf).
      rewrite Hc in Hnd. injection Hnd as <-. apply Hsg.
      split; [done|]. unfold subgraph_attr. by rewrite Hf.
    - rewrite bool_decide_eq_true_2 in Eg by done.
      destruct (createSingletonFusionGroup_subgraph _ _ _ _ Eg) as (-> & gd & Hgd & _ & Hsub).
      rewrite <- Hgr in HG.
      destruct (createSingletonFusionGroup_list _ _ _ _ _ _ Hb Hc HG Eg)
        as (l1 & l2 & Hl & Hn1 & HG1).
      rewrite Hgr in HG1.
      split_and!; [exact (static_createSingletonFusionGroup _ _ _ _ Eg) | |].
      + rewrite HG1, Hl. by rewrite replace_id_middle.
      + intros sg Es. apply getSubgraph_inv in Es as (_ & nd & Hnd & Hkn & Hf).
        rewrite Hgd in Hnd. injection Hnd as <-.
        unfold subgraph_attr in Hsub. rewrite Hf in Hsub. injection Hsub as ->. lia. }
  destruct H1 as (S1 & HG1 & Hne).
  inv_bind E as pn s E1. apply node_of_inv in E1 as (-> & vl & Hvl & <-).
  assert (Hvn : v_node vl = v_node pv) by exact (static_value _ _ _ _ _ S1 Hp Hplt Hvl).
  rewrite Hvn in E.
  inv_bind E as pk s E2. apply kind_inv in E2 as (-> & pd1 & Hpd1 & <-).
  destruct (static_node _ _ _ _ _ S1 Hpd Hnlt Hpd1) as (Hkd & _).
  rewrite bool_decide_eq_false_2 in E by congruence.
  inv_bind E as merged s2 Em.
  destruct (mergeNodeIntoGroup_graphs _ _ _ _ _ Em) as (sg & Hsub & Hg2).
  pose proof (static_mergeNodeIntoGroup _ _ _ _ _ Em) as S2.
  inv_bind E as us s E3. apply reads_uses in E3 as ->.
  inv_bind E as u s3 E4.
  assert (H3 : graphs s3 = graphs s2 ∧ static s2 s3).
  { destruct us.
    - apply ret_Ok in E4 as [_ <-]. done.
    - split.
      + refine ((_ : steps graphs_kept _) _ _ _ E4). solve_steps.
      + refine ((_ : steps static _) _ _ _ E4). solve_steps. }
  destruct H3 as (Hg3 & S3).
  inv_bind E as pn2 s E5. apply node_of_inv in E5 as (-> & vl3 & Hvl3 & <-).
  assert (S03 : static st s3) by (etrans; [exact S1|]; etrans; [exact S2 | exact S3]).
  assert (Hvn3 : v_node vl3 = v_node pv) by exact (static_value _ _ _ _ _ S03 Hp Hplt Hvl3).
  rewrite Hvn3 in E.
  inv_bind E as u2 s4 E6. apply ret_Ok in E as [<- <-].
  apply destroy_inv in E6 as (nd9 & G9 & Hn9 & HG9 & ->).
  destruct (static_node _ _ _ _ _ S03 Hpd Hnlt Hn9) as (_ & _ & Hgr9).
  rewrite Hgr9 in *. rewrite lookup_insert_eq.
  rewrite Hg3, Hg2, HG1 in HG9 by (apply not_eq_sym, Hne, Hsub).
  injection HG9 as <-. reflexivity.
Qed.

Lemma fuse_node_list_witness :
  let st := state_after graph_S3_group in
  ∃ g st', fuse 12 7 st = Ok g st'
    ∧ graphs st !! 0 = Some (mkGraph 2 1 [6; 12; 10] 0)
    ∧ graphs st' !! 0 = Some (mkGraph 2 1 [12; 10] 0).
Proof.
  intros st. eexists _, _. split; [vm_compute; reflexivity|].
  split; [vm_compute; reflexivity|].
  eapply (fuse_node_list 12 7
            (mkNode kFusionGroup [7] [19] 0 [(kSubgraph, AGraph 13)] 0)
            (mkValue 6 (Some float_cuda)) (mkNode kadd [3; 4] [7] 0 [] 0)
            (mkGraph 2 1 [6; 12; 10] 0) st).
  - apply bounded_check. vm_compute. reflexivity.
  - vm_compute. reflexivity.
  - vm_compute. reflexivity.
  - vm_compute. reflexivity.
  - done.
  - reflexivity.
  - vm_compute. reflexivity.
  - intros sg [_ Hs]. vm_compute in Hs. injection Hs as <-. done.
  - vm_compute. reflexivity.
Defined.



(** ** The node list after a merge of two groups *)

Lemma gk_mergeFusionGroups_reroute pg m i outs :
  steps graphs_kept (mergeFusionGroups_reroute pg m i outs).
Proof. revert i. induction outs as [|o outs IH]; intros i; simpl; solve_steps. Qed.
Lemma gk_mergeFusionGroups_outputs cg cs merged i outs :
  steps graphs_kept (mergeFusionGroups_outputs cg cs merged i outs).
Proof. revert i. induction outs as [|o outs IH]; intros i; simpl; solve_steps. Qed.
Lemma ak_mergeFusionGroups_clone N g pg m inner :
  steps (attrs_kept N) (mergeFusionGroups_clone g pg m inner).
Proof. revert m. induction inner as [|i inner IH]; intros m; simpl; solve_steps. Qed.
Lemma ak_mergeFusionGroups_reroute N pg m i outs :
  steps (attrs_kept N) (mergeFusionGroups_reroute pg m i outs).
Proof. revert i. induction outs as [|o outs IH]; intros i; simpl; solve_steps. Qed.
Lemma ak_mergeFusionGroups_outputs N cg cs merged i outs :
  steps (attrs_kept N) (mergeFusionGroups_outputs cg cs merged i outs).
Proof. revert i. induction outs as [|o outs IH]; intros i; simpl; solve_steps. Qed.
#[global] Hint Resolve ak_mergeFusionGroups_clone ak_mergeFusionGroups_reroute
  ak_mergeFusionGroups_outputs : steps.

(** A group keeps its subgraph handle along steps that keep kinds and
    attributes. *)
Lemma subgraph_not_kept (N cg g : nat) st st' :
  static st st' → attrs_kept N st st' → N ≤ next st → cg < N →
  (∀ cd sg, nodes st !! cg = Some cd → is_group cd sg → sg ≠ g) →
  N ≤ next st'
  ∧ ∀ cd sg, nodes st' !! cg = Some cd → is_group cd sg → sg ≠ g.
Proof.
  intros (_ & _ & Hs & _) A HN Hcg P. destruct (A HN) as [HN' A'].
  split; [done|]. intros cd' sg Hcd' [Hk Ha].
  destruct (Hs _ _ Hcd' ltac:(lia)) as (cd & Hcd & Hkd & _).
  destruct (A' _ _ Hcd' Hcg) as (cd2 & Hcd2 & Had).
  rewrite Hcd in Hcd2. injection Hcd2 as <-.
  apply (P cd sg Hcd). split; congruence.
Qed.

(** The clones are put, in order, right before the producer group. *)
Lemma mergeFusionGroups_clone_list g pg pd G l1 l2 m inner st temps m' st' :
  nodes st !! pg = Some pd → n_graph pd = g → pg < next st →
  graphs st !! g = Some (with_nodes (l1 ++ pg :: l2) G) →
  pg ∉ l1 →
  mergeFusionGroups_clone g pg m inner st = Ok (temps, m') st' →
  graphs st' !! g = Some (with_nodes (l1 ++ temps ++ pg :: l2) G)
  ∧ NoDup temps
  ∧ Forall (λ t, next st ≤ t ∧ t < next st'
                 ∧ ∀ td, nodes st' !! t = Some td → n_graph td = g) temps.
Proof.
  revert l1 m st temps m' pd.
  induction inner as [|x rest IH]; intros l1 m st temps m' pd Hpd Hgr Hlt HG Hn1 E.
  { simpl in E. apply ret_Ok in E as [[= <- <-] <-].
    split_and!; [done | apply NoDup_nil_2 | apply Forall_nil_2]. }
  simpl in E.
  inv_bind E as outer s1 E1.
  pose proof E1 as E1'. unfold createClone in E1'.
  inv_bind E1' as nd0 s0 E0. apply getNode_inv in E0 as [Hn0 ->]. clear E1'.
  pose proof (wp_Ok _ _ _ _ _ (createClone_node _ _ _ _ _ _ Hn0) E1)
    as (-> & Hlt1 & nd' & Hnd' & _ & Hg').
  pose proof (static_createClone_map _ _ _ _ _ _ _ E1) as S1.
  apply gk_createClone_map in E1. unfold graphs_kept in E1.
  inv_bind E as u s2 E2. pose proof (static_insertBefore _ _ _ _ _ E2) as S2.
  apply insertBefore_inv in E2 as (md & G3 & l & Hmd & HG3 & Hl3 & ->).
  destruct (static_node _ _ _ _ _ S1 Hpd Hlt Hmd) as (_ & _ & Hgr1).
  rewrite Hgr1, Hgr, E1, HG in HG3. injection HG3 as <-. simpl in Hl3.
  destruct (insert_before_split _ _ _ _ Hl3) as (k1 & k2 & Hl & Hk1 & ->).
  destruct (split_first_unique _ _ _ _ _ Hl Hn1 Hk1) as [<- <-].
  rewrite Hgr1, Hgr in *.
  set (s2 := set_graphs <[g := with_nodes (l1 ++ next st :: pg :: l2)
                                 (with_nodes (l1 ++ pg :: l2) G)]> s1) in *.
  inv_bind E as io s E3. apply reads_outputs in E3 as ->.
  inv_bind E as oo s E4. apply reads_outputs in E4 as ->.
  inv_bind E as m2 s E5. apply reads_zip_into in E5 as ->.
  inv_bind E as tm s3 E6. destruct tm as [temps3 m3]. apply ret_Ok in E as [[= <- <-] <-].
  pose proof (static_mergeFusionGroups_clone _ _ _ _ _ _ _ E6) as S3.
  assert (Hpd2 : nodes s2 !! pg = Some md) by exact Hmd.
  assert (HG2 : graphs s2 !! g = Some (with_nodes ((l1 ++ [next st]) ++ pg :: l2) G)).
  { unfold s2. simpl. rewrite lookup_insert_eq. rewrite <- app_assoc. by destruct G. }
  assert (Hn2 : pg ∉ l1 ++ [next st]).
  { intros [?|H1]%elem_of_app; [done|]. apply list_elem_of_singleton in H1. lia. }
  assert (Hlt2 : pg < next s2) by (unfold s2; simpl; lia).
  destruct (IH (l1 ++ [next st]) m2 s2 temps3 m3 md Hpd2 ltac:(congruence) Hlt2 HG2 Hn2 E6)
    as (HG' & Hnd & Hall).
  assert (Hx2 : next s2 = next s1) by reflexivity.
  split_and!.
  - rewrite HG'. by rewrite <- app_assoc.
  - apply NoDup_cons. split; [|done].
    intros Hin. rewrite Forall_forall in Hall. destruct (Hall _ Hin) as (? & _). lia.
  - apply Forall_cons. split.
    + split_and!; [lia | pose proof (static_next _ _ S3); lia |].
      intros td Htd.
      destruct (static_node _ _ _ _ _ S3 (Hnd' : nodes s2 !! next st = Some nd')
                  ltac:(lia) Htd) as (_ & _ & ->). done.
    + eapply Forall_impl; [exact Hall|]. simpl. intros t (? & ? & ?).
      split_and!; [lia | done | done].
Qed.

Lemma elem_of_rev (x : nat) l : x ∈ rev l ↔ x ∈ l.
Proof. rewrite !list_elem_of_In. symmetry. apply in_rev. Qed.

(** Every temporary node leaves the list again when it is inlined. *)
Lemma mergeFusionGroups_inline_list N cg csg g G l1 l2 temps_rev st u st' :
  N ≤ next st → cg < N →
  (∀ cd sg, nodes st !! cg = Some cd → is_group cd sg → sg ≠ g) →
  Forall (λ t, t < next st ∧ ∀ td, nodes st !! t = Some td → n_graph td = g) temps_rev →
  NoDup temps_rev →
  (∀ t, t ∈ temps_rev → t ∉ l1) →
  graphs st !! g = Some (with_nodes (l1 ++ rev temps_rev ++ l2) G) →
  mergeFusionGroups_inline cg csg temps_rev st = Ok u st' →
  graphs st' !! g = Some (with_nodes (l1 ++ l2) G).
Proof.
  revert st. induction temps_rev as [|t rest IH]; intros st HN Hcg P Hall Hnd Hl1 HG E.
  { simpl in E. apply ret_Ok in E as [_ <-]. exact HG. }
  simpl in E.
  inv_bind E as merged s1 E1.
  pose proof (static_mergeNodeIntoGroup _ _ _ _ _ E1) as S1.
  pose proof (ak_mergeNodeIntoGroup N _ _ _ _ _ E1) as A1.
  destruct (mergeNodeIntoGroup_graphs _ _ _ _ _ E1) as (sg & Hsub & Hg1).
  assert (Hsg : sg ≠ g).
  { apply getSubgraph_inv in Hsub as (_ & cd & Hcd & Hk & Hf).
    apply (P cd sg Hcd). split; [done|]. unfold subgraph_attr. by rewrite Hf. }
  inv_bind E as outs s E2. apply reads_outputs in E2 as ->.
  inv_bind E as u1 s2 E3.
  pose proof (static_mergeFusionGroups_outputs _ _ _ _ _ _ _ _ E3) as S2.
  pose proof (ak_mergeFusionGroups_outputs N _ _ _ _ _ _ _ _ E3) as A2.
  apply gk_mergeFusionGroups_outputs in E3. unfold graphs_kept in E3.
  inv_bind E as u2 s3 E4.
  pose proof (static_destroy _ _ _ _ E4) as S3.
  pose proof (ak_destroy N _ _ _ _ E4) as A3.
  assert (S03 : static st s3) by (etrans; [exact S1|]; etrans; [exact S2 | exact S3]).
  assert (A03 : attrs_kept N st s3) by (etrans; [exact A1|]; etrans; [exact A2 | exact A3]).
  assert (S02 : static st s2) by (etrans; [exact S1 | exact S2]).
  apply destroy_inv in E4 as (nd & Gd & Hn & HGd & Hg3).
  apply Forall_cons in Hall as [(Htlt & Htg) Hall].
  apply NoDup_cons in Hnd as [Hnt Hnd].
  assert (Hgt : n_graph nd = g).
  { destruct (proj1 (proj2 (proj2 S02)) _ _ Hn Htlt) as (nd0 & Hnd0 & _ & _ & ->).
    by apply Htg. }
  rewrite Hgt in *. rewrite E3, Hg1, HG in HGd by done. injection HGd as <-.
  destruct (subgraph_not_kept N cg g _ _ S03 A03 HN Hcg P) as [HN3 P3].
  eapply (IH s3); [done | done | exact P3 | | done | | | exact E].
  - eapply Forall_impl; [exact Hall|]. simpl. intros t' (Hlt' & Hg').
    split; [pose proof (static_next _ _ S03); lia|].
    intros td Htd.
    destruct (proj1 (proj2 (proj2 S03)) _ _ Htd Hlt') as (nd0 & Hnd0 & _ & _ & ->).
    by apply Hg'.
  - intros t' Ht'. apply Hl1. by apply list_elem_of_further.
  - rewrite Hg3, lookup_insert_eq. f_equal. simpl.
    unfold with_nodes. simpl. f_equal.
    replace (l1 ++ (rev rest ++ [t]) ++ l2) with ((l1 ++ rev rest) ++ t :: l2)
      by (by rewrite <- !app_assoc).
    rewrite remove_id_middle; [by rewrite <- app_assoc|].
    intros [H1|H1]%elem_of_app.
    + by apply (Hl1 t); [apply list_elem_of_here|].
    + apply (proj1 (elem_of_rev _ _)) in H1. done.
Qed.

(** Without the producer group in the node list no clone can be put
    before it. *)
Lemma mergeFusionGroups_clone_none g pg pd G m inner st temps m' st' :
  nodes st !! pg = Some pd → n_graph pd = g → pg < next st →
  graphs st !! g = Some G → pg ∉ g_nodes G →
  mergeFusionGroups_clone g pg m inner st = Ok (temps, m') st' →
  temps = [] ∧ st' = st.
Proof.
  intros Hpd Hgr Hlt HG Hnin E. destruct inner as [|x rest]; simpl in E.
  { by apply ret_Ok in E as [[= <- <-] <-]. }
  exfalso.
  inv_bind E as outer s1 E1.
  pose proof (static_createClone_map _ _ _ _ _ _ _ E1) as S1.
  apply gk_createClone_map in E1. unfold graphs_kept in E1.
  inv_bind E as u s2 E2.
  apply insertBefore_inv in E2 as (md & G3 & l & Hmd & HG3 & Hl3 & _).
  destruct (static_node _ _ _ _ _ S1 Hpd Hlt Hmd) as (_ & _ & Hgr1).
  rewrite Hgr1, Hgr, E1, HG in HG3. injection HG3 as <-.
  destruct (insert_before_split _ _ _ _ Hl3) as (k1 & k2 & Hl & _).
  apply Hnin. rewrite Hl. apply elem_of_app. right. apply list_elem_of_here.
Qed.

Lemma remove_id_notin (n : nat) l : n ∉ l → remove_id n l = l.
Proof.
  induction l as [|x l IH]; intros H; simpl; [done|].
  apply not_elem_of_cons in H as [Hne H]. rewrite decide_False by done.
  by rewrite IH.
Qed.

(** X25.  The temporary clones do not stay in the graph.  When
    [mergeFusionGroups(consumer_group, producer_group)] returns, both
    groups were live, the producer group belonged to the fuser's graph [g],
    the node list of [g] held live nodes and the consumer group did not
    have [g] as its own subgraph, the node list of [g] is the old list with
    the producer group removed: every clone that was inserted before the
    producer group has been inlined and destroyed again, and the rest of
    the graph record is unchanged. *)
Theorem mergeFusionGroups_node_list cg pg cd pd G st u st' :
  bounded st →
  nodes st !! cg = Some cd →
  nodes st !! pg = Some pd →
  n_graph pd = graph st →
  graphs st !! graph st = Some G →
  Forall (λ x, is_Some (nodes st !! x)) (g_nodes G) →
  (∀ sg, is_group cd sg → sg ≠ graph st) →
  mergeFusionGroups cg pg st = Ok u st' →
  graphs st' !! graph st = Some (with_nodes (remove_id pg (g_nodes G)) G).
Proof.
  intros Hb Hcd Hpd Hgr HG Hlive P0 E.
  pose proof Hb as (Bn & _ & _).
  assert (Hplt : pg < next st) by (apply Bn; eauto).
  assert (Hclt : cg < next st) by (apply Bn; eauto).
  assert (P : ∀ cd' sg, nodes st !! cg = Some cd' → is_group cd' sg → sg ≠ graph st).
  { intros cd' sg Hcd'. rewrite Hcd in Hcd'. injection Hcd' as <-. apply P0. }
  unfold mergeFusionGroups in E.
  inv_bind E as psg s E1. apply reads_getSubgraph in E1 as ->.
  inv_bind E as ii s E2. apply reads_graph_inputs in E2 as ->.
  inv_bind E as oi s E3. apply reads_inputs in E3 as ->.
  inv_bind E as m0 s E4. apply reads_zip_into in E4 as ->.
  inv_bind E as g s E5. injection E5 as <- <-.
  inv_bind E as inner s E6. apply reads_graph_nodes in E6 as ->.
  inv_bind E as tm s1 E7. destruct tm as [temps m].
  pose proof (static_mergeFusionGroups_clone _ _ _ _ _ _ _ E7) as S1.
  pose proof (ak_mergeFusionGroups_clone (next st) _ _ _ _ _ _ _ E7) as A1.
  inv_bind E as so s E8. apply reads_graph_outputs in E8 as ->.
  inv_bind E as u1 s2 E9.
  pose proof (static_mergeFusionGroups_reroute _ _ _ _ _ _ _ E9) as S2.
  pose proof (ak_mergeFusionGroups_reroute (next st) _ _ _ _ _ _ _ E9) as A2.
  apply gk_mergeFusionGroups_reroute in E9. unfold graphs_kept in E9.
  inv_bind E as u2 s3 E10.
  pose proof (static_destroy _ _ _ _ E10) as S3.
  pose proof (ak_destroy (next st) _ _ _ _ E10) as A3.
  inv_bind E as csg s E11. apply reads_getSubgraph in E11 as ->.
  assert (S03 : static st s3) by (etrans; [exact S1|]; etrans; [exact S2 | exact S3]).
  assert (A03 : attrs_kept (next st) st s3)
    by (etrans; [exact A1|]; etrans; [exact A2 | exact A3]).
  assert (S02 : static st s2) by (etrans; [exact S1 | exact S2]).
  assert (S13 : static s1 s3) by (etrans; [exact S2 | exact S3]).
  destruct (subgraph_not_kept (next st) cg (graph st) _ _ S03 A03 ltac:(lia) Hclt P)
    as [HN3 P3].
  apply destroy_inv in E10 as (nd & Gd & Hn & HGd & Hg3).
  destruct (static_node _ _ _ _ _ S02 Hpd Hplt Hn) as (_ & _ & Hgn).
  rewrite Hgn, Hgr, E9 in *.
  destruct (decide (pg ∈ g_nodes G)) as [Hin|Hnin].
  - apply list_elem_of_split_l in Hin as (l1 & l2 & Hl & Hn1).
    assert (HG0 : graphs st !! graph st = Some (with_nodes (l1 ++ pg :: l2) G)).
    { rewrite HG, <- Hl. by destruct G. }
    destruct (mergeFusionGroups_clone_list _ _ _ _ _ _ _ _ _ _ _ _ Hpd Hgr Hplt HG0 Hn1 E7)
      as (HG1 & Hnd & Hall).
    rewrite HG1 in HGd. injection HGd as <-.
    rewrite Forall_forall in Hall.
    assert (HG3 : graphs s3 !! graph st
                  = Some (with_nodes (l1 ++ rev (rev temps) ++ l2) G)).
    { rewrite Hg3, lookup_insert_eq. f_equal. unfold with_nodes. simpl. f_equal.
      rewrite rev_involutive.
      replace (l1 ++ temps ++ pg :: l2) with ((l1 ++ temps) ++ pg :: l2)
        by (by rewrite <- app_assoc).
      rewrite remove_id_middle; [by rewrite <- app_assoc|].
      intros [H1|H1]%elem_of_app; [done|]. destruct (Hall _ H1) as (? & _). lia. }
    rewrite Hl, remove_id_middle by done.
    eapply (mergeFusionGroups_inline_list (next st) cg _ (graph st) G l1 l2 (rev temps) s3);
      [done | done | exact P3 | | | | exact HG3 | exact E].
    + apply Forall_forall. intros t Ht. apply (proj1 (elem_of_rev _ _)) in Ht.
      destruct (Hall _ Ht) as (Hge & Hlt & Hg).
      split; [pose proof (static_next _ _ S13); lia|].
      intros td Htd.
      destruct (proj1 (proj2 (proj2 S13)) _ _ Htd Hlt) as (nd0 & Hnd0 & _ & _ & ->).
      by apply Hg.
    + apply NoDup_ListNoDup, List.NoDup_rev. by apply NoDup_ListNoDup.
    + intros t Ht Hin1. apply (proj1 (elem_of_rev _ _)) in Ht. destruct (Hall _ Ht) as (Hge & _).
      rewrite Hl in Hlive. apply Forall_app in Hlive as [Hlive _].
      rewrite Forall_forall in Hlive. pose proof (Bn _ (Hlive _ Hin1)). lia.
  - destruct (mergeFusionGroups_clone_none _ _ _ _ _ _ _ _ _ _ Hpd Hgr Hplt HG Hnin E7)
      as [-> ->].
    rewrite HG in HGd. injection HGd as <-.
    simpl in E. apply ret_Ok in E as [_ <-].
    by rewrite Hg3, lookup_insert_eq.
Qed.

Lemma mergeFusionGroups_node_list_witness :
  let st := state_after graph_two_groups in
  ∃ u st', mergeFusionGroups 12 20 st = Ok u st'
    ∧ graphs st !! 0 = Some (mkGraph 2 1 [20; 12; 10] 0)
    ∧ graphs st' !! 0 = Some (mkGraph 2 1 [12; 10] 0).
Proof.
  intros st. eexists _, _. split; [vm_compute; reflexivity|].
  split; [vm_compute; reflexivity|].
  eapply (mergeFusionGroups_node_list 12 20
            (mkNode kFusionGroup [28] [19] 0 [(kSubgraph, AGraph 13)] 0)
            (mkNode kFusionGroup [3; 4] [28] 0 [(kSubgraph, AGraph 21)] 0)
            (mkGraph 2 1 [20; 12; 10] 0) st).
  - apply bounded_check. vm_compute. reflexivity.
  - vm_compute. reflexivity.
  - vm_compute. reflexivity.
  - vm_compute. reflexivity.
  - vm_compute. reflexivity.
  - apply (bool_decide_unpack _). vm_compute. reflexivity.
  - intros sg [_ Hs]. vm_compute in Hs. injection Hs as <-. vm_compute. lia.
  - vm_compute. reflexivity.
Defined.
